(** * leaflet-tiled-geojson: the viewport-driven tile scheduler and the
      feature-deduplication engine of [src/index.ts], embedded in Rocq.

    Conventions of the embedding.
    - JavaScript numbers that hold coordinates (bounds, origin, tile size) are
      the rationals [Q] that the finite doubles denote; a subtraction or a
      division gives the exact result rounded to the nearest double
      ([Double.round]).  Cell coordinates, zoom levels and feature identifiers
      are integers [Z]; the arithmetic of JavaScript on integers is exact up to
      2^53, and the cells of a view are taken within that range.
    - A JavaScript object used as a dictionary is a [gmap]; where the code
      iterates over [Object.keys] the insertion order is kept in a list.
    - Objects that are shared by reference (a tile is reachable through
      [tiles], [activeTiles] and the layer group) live in one store, the
      [tiles] map of the level of detail; every other place holds the key.
    - Leaflet's [L.LayerGroup] is the set of the layers that were added and
      not removed.
    - The methods are given twice.  The functions of [TiledGeoJSONTile] and
      [TiledGeoJSONLod] give the state that a call leaves when it returns.
      The functions of [Throwing] give the outcome of a call, which can also
      be an exception ([addLayer] and [removeLayer] on [undefined], which
      happens when Leaflet has built no layer for a feature), with the state
      at that point.  The two agree in every state that the program reaches
      while Leaflet builds a layer for every feature ([reachable_normal],
      [throwing_reachable]). *)

From Stdlib Require Import ZArith QArith Qround Qpower Qabs Lqa.
From Stdlib Require Import Ascii DecimalString DecimalPos DecimalZ.
From stdpp Require Import gmap strings list.

(** ** The numbers of JavaScript *)

(** A number of JavaScript is a double (IEEE 754 binary64); a finite double
    is the rational it denotes.  An arithmetic operation gives the exact
    result rounded to the nearest double, ties to the even significand.  The
    rationals have no Infinity and no NaN: the operations are given as long
    as the rounded result is finite ([finite]); beyond the largest double
    JavaScript gives Infinity. *)
Module Double.

Definition pow2 (e : Z) : Q := (2 ^ e)%Q.

(** The integer part of the binary logarithm of a positive rational. *)
Definition ilog2 (q : Q) : Z :=
  let k := (Z.log2 (Qnum q) - Z.log2 (Z.pos (Qden q)))%Z in
  if Qle_bool (pow2 k) q then k else (k - 1)%Z.

(** The nearest integer, ties to even. *)
Definition nearestEven (q : Q) : Z :=
  let f := Qfloor q in
  match (q - inject_Z f ?= 1 # 2)%Q with
  | Lt => f
  | Gt => (f + 1)%Z
  | Eq => if Z.even f then f else (f + 1)%Z
  end.

(** The nearest double of a positive rational: the significand has 53 bits,
    the unit in the last place is 2^e with e at least -1074 (below 2^-1022 the
    doubles are subnormal). *)
Definition roundPos (q : Q) : Q :=
  let e := Z.max (ilog2 q - 52) (-1074) in
  (inject_Z (nearestEven (q / pow2 e)) * pow2 e)%Q.

(** The nearest double. *)
Definition round (q : Q) : Q :=
  match (q ?= 0)%Q with
  | Eq => 0%Q
  | Gt => roundPos q
  | Lt => (- roundPos (- q))%Q
  end.

(** [a - b] and [a / b]. *)
Definition sub (a b : Q) : Q := round (a - b).
Definition div (a b : Q) : Q := round (a / b).

(** [Number.MAX_VALUE], the largest double. *)
Definition MAX_VALUE : Q := (inject_Z (2 ^ 53 - 1) * pow2 971)%Q.

(** The rounded result is a finite double. *)
Definition finite (q : Q) : Prop := (Qabs q <= MAX_VALUE)%Q.

End Double.

(** ** GridView (index.ts, class GridView) *)

Module GridView.

(** [L.LatLngBounds], through the four getters the code calls. *)
Record LatLngBounds := mkBounds {
  getWest : Q;
  getSouth : Q;
  getEast : Q;
  getNorth : Q
}.

Record t := mk {
  resolution : Q;
  minX : Z;
  minY : Z;
  stepsX : Z;
  stepsY : Z
}.

(** [(coordinate - origin) / resolution], as the constructor computes it:
    the difference is rounded to a double, then the quotient is. *)
Definition quotient (coordinate origin resolution : Q) : Q :=
  Double.div (Double.sub coordinate origin) resolution.

(** The constructor.  [Math.floor] and [Math.ceil] give integers; the
    difference of the two is exact while both are at most 2^52 in magnitude
    ([inRange]). *)
Definition new (resolution originX originY : Q) (mapBounds : LatLngBounds) : t :=
  let minX := Qfloor (quotient (getWest mapBounds) originX resolution) in
  let minY := Qfloor (quotient (getSouth mapBounds) originY resolution) in
  {| resolution := resolution;
     minX := minX;
     minY := minY;
     stepsX := (Qceiling (quotient (getEast mapBounds) originX resolution) - minX)%Z;
     stepsY := (Qceiling (quotient (getNorth mapBounds) originY resolution) - minY)%Z |}.

(** The constructor stays within the numbers that the model has, on one
    coordinate: the difference is a finite double, and the quotient is at most
    2^52 in magnitude, so that its floor and its ceiling are integers on which
    the arithmetic of JavaScript is exact. *)
Definition coordinateInRange (coordinate origin resolution : Q) : Prop :=
  Double.finite (Double.sub coordinate origin) ∧
  (Qabs (quotient coordinate origin resolution) <= inject_Z (2 ^ 52))%Q.

(** And on the four coordinates of the bounds. *)
Definition inRange (resolution originX originY : Q) (mapBounds : LatLngBounds) : Prop :=
  coordinateInRange (getWest mapBounds) originX resolution ∧
  coordinateInRange (getSouth mapBounds) originY resolution ∧
  coordinateInRange (getEast mapBounds) originX resolution ∧
  coordinateInRange (getNorth mapBounds) originY resolution.

Definition sameAs (this otherView : t) : bool :=
  Qeq_bool (resolution otherView) (resolution this)
  && (minX otherView =? minX this)%Z
  && (minY otherView =? minY this)%Z
  && (stepsX otherView =? stepsX this)%Z
  && (stepsY otherView =? stepsY this)%Z.

(** The cells of the window, in the order of the two nested loops of
    [TiledGeoJSONLod.updateView]: x outermost, y innermost. *)
Definition cells (v : t) : list (Z * Z) :=
  x ← seqZ (minX v) (stepsX v);
  y ← seqZ (minY v) (stepsY v);
  [(x, y)].

(** The test of the second loop of [updateView]: the cell lies outside of the
    window. *)
Definition outside (v : t) (x y : Z) : bool :=
  (x <? minX v)%Z || (x >=? minX v + stepsX v)%Z
  || (y <? minY v)%Z || (y >=? minY v + stepsY v)%Z.

(** The open unit square of the cell (x, y) meets the closed box of the four
    quotients that the constructor computes: the cell against the bounds, in
    grid coordinates. *)
Definition covers (r ox oy : Q) (b : LatLngBounds) (x y : Z) : Prop :=
  (inject_Z x < quotient (getEast b) ox r)%Q ∧
  (quotient (getWest b) ox r < inject_Z (x + 1))%Q ∧
  (inject_Z y < quotient (getNorth b) oy r)%Q ∧
  (quotient (getSouth b) oy r < inject_Z (y + 1))%Q.

(** The four quotients are computed without rounding error. *)
Definition exact (r ox oy : Q) (b : LatLngBounds) : Prop :=
  (quotient (getWest b) ox r == (getWest b - ox) / r)%Q ∧
  (quotient (getSouth b) oy r == (getSouth b - oy) / r)%Q ∧
  (quotient (getEast b) ox r == (getEast b - ox) / r)%Q ∧
  (quotient (getNorth b) oy r == (getNorth b - oy) / r)%Q.

(** The bounds [b] lie within the bounds [b']. *)
Definition within (b b' : LatLngBounds) : Prop :=
  (getWest b' <= getWest b)%Q ∧ (getEast b <= getEast b')%Q ∧
  (getSouth b' <= getSouth b)%Q ∧ (getNorth b <= getNorth b')%Q.

(** The open rectangle of the cell (x, y) meets the closed box of the bounds. *)
Definition overlaps (r ox oy : Q) (b : LatLngBounds) (x y : Z) : Prop :=
  (ox + inject_Z x * r < getEast b)%Q ∧ (getWest b < ox + inject_Z (x + 1) * r)%Q ∧
  (oy + inject_Z y * r < getNorth b)%Q ∧ (getSouth b < oy + inject_Z (y + 1) * r)%Q.

(** The closed rectangle of the cell (x, y) and the closed box of the bounds
    have a common point: the plain reading of "the cell rectangle intersects
    the bounds". *)
Definition intersects (r ox oy : Q) (b : LatLngBounds) (x y : Z) : Prop :=
  (ox + inject_Z x * r <= getEast b)%Q ∧ (getWest b <= ox + inject_Z (x + 1) * r)%Q ∧
  (oy + inject_Z y * r <= getNorth b)%Q ∧ (getSouth b <= oy + inject_Z (y + 1) * r)%Q.

End GridView.

(** ** Tile keys (TiledGeoJSONTile.tileKey and its inverse in updateView) *)

(** [Number.isSafeInteger]: up to 2^53 - 1 in magnitude every integer is a
    double, and the arithmetic of JavaScript on such integers is exact. *)
Definition safeInteger (x : Z) : Prop := (Z.abs x <= 2 ^ 53 - 1)%Z.

(** The template literal [`${x}`] for an integral number: decimal digits with
    a leading minus sign.  This is the text JavaScript prints for a safe
    integer (a larger double is printed with the digits that tell it from its
    neighbours, and from 1e21 on with an exponent); the cell coordinates of
    a view are safe integers ([GridView.inRange]). *)
Definition numberToString (x : Z) : string :=
  NilZero.string_of_int (Z.to_int x).

(** [Number(s)] on the text of a decimal integer; [None] is NaN.  The two
    agree on every string that [numberToString] prints, the only strings the
    program passes. *)
Definition Number (s : option string) : option Z :=
  s ≫= λ s, Z.of_int <$> NilZero.int_of_string s.

(** [s.split(c)] for a separator of one character. *)
Fixpoint split (c : Ascii.ascii) (s : string) : list string :=
  match s with
  | EmptyString => [EmptyString]
  | String a s' =>
      if Ascii.eqb a c then EmptyString :: split c s'
      else match split c s' with
           | p :: ps => String a p :: ps
           | [] => [String a EmptyString]
           end
  end.

Definition comma : Ascii.ascii := ","%char.

(** [TiledGeoJSONTile.tileKey]. *)
Definition tileKey (x y : Z) : string :=
  numberToString x +:+ String comma (numberToString y).

(** ** Features *)

(** A GeoJSON feature: the identifier [__fid] ([None] when it is undefined)
    and the rest of the record (geometry and properties), which the scheduler
    never inspects. *)
Record Feature := mkFeature {
  __fid : option Z;
  content : nat
}.

(** The defined identifiers of a feature list, in order. *)
Definition fids (features : list Feature) : list Z :=
  omap __fid features.

(** ** TiledGeoJSONTile *)

Module TiledGeoJSONTile.

(** A Leaflet layer of a tile.  [L.GeoJSON.addData] creates at most one layer
    per feature of the collection, in order; the layer of the n-th feature is
    named by n, and [layer.feature] is that feature. *)
Definition Layer := nat.

Record t := mk {
  key : string;
  hash : string;
  fulfilled : bool;
  featureCollection : option (list Feature);
  maskedFeatures : gmap Z Feature;
  featureLayers : gmap (option Z) Layer;
  (** the layer group that [L.GeoJSON] inherits from [L.LayerGroup] *)
  layers : gset Layer
}.

(** The object the constructor leaves behind (its call of [loadTile] only
    starts the fetch). *)
Definition new (key hash : string) : t :=
  {| key := key; hash := hash; fulfilled := false; featureCollection := None;
     maskedFeatures := ∅; featureLayers := ∅; layers := ∅ |}.

Definition set_maskedFeatures (m : gmap Z Feature) (this : t) : t :=
  {| key := key this; hash := hash this; fulfilled := fulfilled this;
     featureCollection := featureCollection this;
     maskedFeatures := m; featureLayers := featureLayers this;
     layers := layers this |}.

Definition set_featureLayers (m : gmap (option Z) Layer) (this : t) : t :=
  {| key := key this; hash := hash this; fulfilled := fulfilled this;
     featureCollection := featureCollection this;
     maskedFeatures := maskedFeatures this; featureLayers := m;
     layers := layers this |}.

Definition set_layers (ls : gset Layer) (this : t) : t :=
  {| key := key this; hash := hash this; fulfilled := fulfilled this;
     featureCollection := featureCollection this;
     maskedFeatures := maskedFeatures this;
     featureLayers := featureLayers this; layers := ls |}.

Definition set_loaded (features : list Feature) (this : t) : t :=
  {| key := key this; hash := hash this; fulfilled := true;
     featureCollection := Some features;
     maskedFeatures := maskedFeatures this;
     featureLayers := featureLayers this; layers := layers this |}.

(** [layer.feature.__fid] of a layer of this tile. *)
Definition layerFid (this : t) (layer : Layer) : option Z :=
  featureCollection this ≫= λ features, features !! layer ≫= __fid.

(** [addLayer]: records the layer under the identifier of its feature (the key
    [None] stands for the property name "undefined"), then adds it to the
    layer group.  Called with [undefined] ([None]) the method throws before
    it changes anything: the function gives the state that is left, and
    [Throwing.Tile.addLayer] tells the exception. *)
Definition addLayer (layer : option Layer) (this : t) : t :=
  match layer with
  | None => this
  | Some l =>
      set_layers ({[l]} ∪ layers this)
        (set_featureLayers (<[layerFid this l := l]> (featureLayers this)) this)
  end.

(** [L.LayerGroup.removeLayer].  Called with [undefined] ([None]) Leaflet
    throws before it changes anything: the function gives the state that is
    left, and [Throwing.Tile.removeLayer] tells the exception. *)
Definition removeLayer (layer : option Layer) (this : t) : t :=
  match layer with
  | None => this
  | Some l => set_layers (layers this ∖ {[l]}) this
  end.

(** [this.addData(this.featureCollection)] when Leaflet builds a layer for
    every feature of the collection (no feature is rejected by
    [options.filter], every feature has a geometry): each layer is handed to
    [addLayer].  [Throwing.Tile.addData] is the method for any collection. *)
Definition addData (features : list Feature) (this : t) : t :=
  fold_left (λ this l, addLayer (Some l) this) (seq 0 (length features)) this.

(** Hide a feature from being displayed as part of this tile. *)
Definition maskFeature (fid : Z) (this : t) : t :=
  match featureCollection this with
  | None => this
  | Some features =>
      let masked :=
        fold_left (λ m feat,
                     if decide (__fid feat = Some fid) then <[fid := feat]> m
                     else m)
                  features (maskedFeatures this) in
      removeLayer (featureLayers this !! Some fid) (set_maskedFeatures masked this)
  end.

(** Unhide a hidden feature to display it as part of this tile. *)
Definition unmaskFeature (fid : Z) (this : t) : t :=
  match maskedFeatures this !! fid with
  | None => this
  | Some _ =>
      let this := set_maskedFeatures (delete fid (maskedFeatures this)) this in
      addLayer (featureLayers this !! Some fid) this
  end.

(** Unhide all hidden features.  The loop runs over the keys that
    [maskedFeatures] has when it starts. *)
Definition unmaskAll (this : t) : t :=
  fold_left (λ this fid,
               let this := addLayer (featureLayers this !! Some fid) this in
               set_maskedFeatures (delete fid (maskedFeatures this)) this)
            (elements (dom (maskedFeatures this))) this.

(** The success branch of [loadTile], up to the call of the callback. *)
Definition loaded (features : list Feature) (this : t) : t :=
  addData features (set_loaded features this).

(** The feature is masked in the tile. *)
Definition masked (fid : Z) (this : t) : Prop :=
  is_Some (maskedFeatures this !! fid).

(** The tile draws the feature: its layer group holds a layer of a feature
    with this identifier. *)
Definition draws (fid : Z) (this : t) : Prop :=
  ∃ l, l ∈ layers this ∧ layerFid this l = Some fid.

(** The tile holds a feature with this identifier. *)
Definition contains (fid : Z) (this : t) : Prop :=
  ∃ features, featureCollection this = Some features ∧ fid ∈ fids features.

End TiledGeoJSONTile.

Module Tile := TiledGeoJSONTile.

(** ** TiledGeoJSONLod *)

(** Modelled from the spec: the declaration [TiledGeoJSONLodMeta] of
    [types/tiledgeojson], which the sources import and do not include.  Each
    descriptor has "a maximum zoom level at which it applies, a tile
    side-length (resolution), and a mapping from grid-cell coordinate to a
    content hash string"; the field names are those the code reads. *)
Module TiledGeoJSONLodMeta.
Record t := mk {
  maxZoom : Z;
  tileSize : Q;
  tiles : gmap string string
}.
End TiledGeoJSONLodMeta.

Module LodMeta := TiledGeoJSONLodMeta.

Module TiledGeoJSONLod.

Record t := mk {
  meta : LodMeta.t;
  (** every tile object ever built, by tile key: the store *)
  tiles : gmap string Tile.t;
  (** the keys of [activeTiles], in insertion order; the tile under a key is
      the object of the store under the same key *)
  activeTiles : list string;
  featureHolders : gmap Z (list string);
  currentView : option GridView.t;
  (** the layer group inherited from [L.LayerGroup]: the tiles added to the
      level of detail, by key *)
  layers : gset string
}.

(** The object the constructor builds. *)
Definition new (meta : LodMeta.t) : t :=
  {| meta := meta; tiles := ∅; activeTiles := []; featureHolders := ∅;
     currentView := None; layers := ∅ |}.

Definition set_tiles (ts : gmap string Tile.t) (this : t) : t :=
  {| meta := meta this; tiles := ts; activeTiles := activeTiles this;
     featureHolders := featureHolders this; currentView := currentView this;
     layers := layers this |}.

Definition set_activeTiles (a : list string) (this : t) : t :=
  {| meta := meta this; tiles := tiles this; activeTiles := a;
     featureHolders := featureHolders this; currentView := currentView this;
     layers := layers this |}.

Definition set_featureHolders (h : gmap Z (list string)) (this : t) : t :=
  {| meta := meta this; tiles := tiles this; activeTiles := activeTiles this;
     featureHolders := h; currentView := currentView this;
     layers := layers this |}.

Definition set_currentView (v : option GridView.t) (this : t) : t :=
  {| meta := meta this; tiles := tiles this; activeTiles := activeTiles this;
     featureHolders := featureHolders this; currentView := v;
     layers := layers this |}.

Definition set_layers (ls : gset string) (this : t) : t :=
  {| meta := meta this; tiles := tiles this; activeTiles := activeTiles this;
     featureHolders := featureHolders this; currentView := currentView this;
     layers := ls |}.

(** A method call on the tile object stored under [key].  (On a key without
    tile the call throws: [Throwing.Lod.onTile].) *)
Definition onTile (key : string) (f : Tile.t → Tile.t) (this : t) : t :=
  set_tiles (alter f key (tiles this)) this.

(** [L.LayerGroup.addLayer] and [removeLayer] on the level of detail. *)
Definition addLayer (key : string) (this : t) : t :=
  set_layers ({[key]} ∪ layers this) this.

Definition removeLayer (key : string) (this : t) : t :=
  set_layers (layers this ∖ {[key]}) this.

(** [this.activeTiles[key] = tile]: a new property goes last, an existing one
    keeps its place. *)
Definition activate (key : string) (a : list string) : list string :=
  if decide (key ∈ a) then a else a ++ [key].

(** [delete this.activeTiles[key]]. *)
Definition deactivate (key : string) (a : list string) : list string :=
  filter (λ k, k ≠ key) a.

(** The body of the [forEach] of [addFeatureHolders], for the tile stored
    under [key] (whose [key] field is [key]). *)
Definition addFeatureHolder (key : string) (this : t) (feature : Feature) : t :=
  match __fid feature with
  | None => this
  | Some fid =>
      let holders := default [] (featureHolders this !! fid) in
      let this :=
        match holders with
        | [] => this
        | _ :: _ => onTile key (Tile.maskFeature fid) this
        end in
      set_featureHolders (<[fid := holders ++ [key]]> (featureHolders this)) this
  end.

(** Add feature holders for the given tile, masking features in the tile that
    are already being shown by another tile. *)
Definition addFeatureHolders (key : string) (this : t) : t :=
  match tiles this !! key ≫= Tile.featureCollection with
  | None => this
  | Some features => fold_left (addFeatureHolder key) features this
  end.

(** The body of the [forEach] of [removeFeatureHolders]. *)
Definition removeFeatureHolder (key : string) (this : t) (feature : Feature) : t :=
  match __fid feature with
  | None => this
  | Some fid =>
      match featureHolders this !! fid with
      | None => this
      | Some holders =>
          let unmaskNext := bool_decide (head holders = Some key) in
          let this :=
            if unmaskNext then this
            else onTile key (Tile.unmaskFeature fid) this in
          let holders := filter (λ k, k ≠ key) holders in
          let this :=
            set_featureHolders (<[fid := holders]> (featureHolders this)) this in
          match holders with
          | next :: _ =>
              if unmaskNext then onTile next (Tile.unmaskFeature fid) this
              else this
          | [] => this
          end
      end
  end.

(** Remove feature holders for the given tile, unmasking features in other
    tiles as necessary.  (The closing loop of the method only writes to the
    console.) *)
Definition removeFeatureHolders (key : string) (this : t) : t :=
  match tiles this !! key ≫= Tile.featureCollection with
  | None => this
  | Some features => fold_left (removeFeatureHolder key) features this
  end.

(** [key in this.meta.tiles] and the truth value of [this.meta.tiles[key]]:
    the empty string is falsy. *)
Definition hasHash (key : string) (this : t) : bool :=
  match LodMeta.tiles (meta this) !! key with
  | Some h => negb (String.eqb h EmptyString)
  | None => false
  end.

(** Load the tile at the given location: the constructor of the tile starts
    the fetch and returns an unfulfilled tile. *)
Definition loadTile (x y : Z) (this : t) : t :=
  let key := tileKey x y in
  match LodMeta.tiles (meta this) !! key with
  | None => this
  | Some hash =>
      match tiles this !! key with
      | Some _ => this
      | None => set_tiles (<[key := Tile.new key hash]> (tiles this)) this
      end
  end.

(** The callback that [loadTile] hands to the tile. *)
Definition loadCallback (key : string) (this : t) : t :=
  if decide (key ∈ activeTiles this) then addLayer key (addFeatureHolders key this)
  else this.

(** The success branch of [TiledGeoJSONTile.loadTile] for the tile stored
    under [key], seen from the level of detail: the tile takes the feature
    collection, then calls the callback. *)
Definition tileLoaded (key : string) (features : list Feature) (this : t) : t :=
  loadCallback key (onTile key (Tile.loaded features) this).

(** Show the tile at the given location, loading if necessary, and add
    feature holders. *)
Definition showTile (x y : Z) (this : t) : t :=
  let key := tileKey x y in
  match LodMeta.tiles (meta this) !! key with
  | None => this
  | Some _ =>
      let this := match tiles this !! key with
                  | None => loadTile x y this
                  | Some _ => this
                  end in
      match tiles this !! key with
      | None => this
      | Some tile =>
          let this :=
            if Tile.fulfilled tile then addLayer key (addFeatureHolders key this)
            else this in
          set_activeTiles (activate key (activeTiles this)) this
      end
  end.

(** Hide the tile at the given location and free feature holders. *)
Definition hideTile (x y : Z) (this : t) : t :=
  let key := tileKey x y in
  if decide (key ∈ activeTiles this) then
    let this :=
      match tiles this !! key with
      | Some tile =>
          if Tile.fulfilled tile
          then removeFeatureHolders key (removeLayer key this)
          else this
      | None => this
      end in
    set_activeTiles (deactivate key (activeTiles this)) this
  else this.

(** Hide all active tiles and clear feature holders. *)
Definition clearActive (this : t) : t :=
  let this := set_currentView None this in
  let this :=
    fold_left (λ this key,
                 match tiles this !! key with
                 | Some tile =>
                     if Tile.fulfilled tile
                     then onTile key Tile.unmaskAll (removeLayer key this)
                     else this
                 | None => this
                 end)
              (activeTiles this) this in
  set_activeTiles [] (set_featureHolders ∅ this).

(** The body of the first loop of [updateView]. *)
Definition showCell (this : t) (cell : Z * Z) : t :=
  let tileKey := tileKey cell.1 cell.2 in
  if negb (bool_decide (tileKey ∈ activeTiles this)) && hasHash tileKey this
  then showTile cell.1 cell.2 this
  else this.

(** The body of the second loop of [updateView]; a comparison with NaN is
    false. *)
Definition hideOutside (newView : GridView.t) (this : t) (key : string) : t :=
  match Number (split comma key !! 0%nat), Number (split comma key !! 1%nat) with
  | Some x, Some y =>
      if GridView.outside newView x y then hideTile x y this else this
  | _, _ => this
  end.

(** [updateView], given the origin of the dataset ([this.tiledGeoJson.meta])
    and [map.getBounds()]. *)
Definition updateView (origin : Q * Q) (bounds : GridView.LatLngBounds) (this : t) : t :=
  let newView :=
    GridView.new (LodMeta.tileSize (meta this)) origin.1 origin.2 bounds in
  if match currentView this with
     | None => true
     | Some v => negb (GridView.sameAs v newView)
     end
  then
    let this := fold_left showCell (GridView.cells newView) this in
    let this := fold_left (hideOutside newView) (activeTiles this) this in
    set_currentView (Some newView) this
  else this.

End TiledGeoJSONLod.

Module Lod := TiledGeoJSONLod.

(** ** TiledGeoJSON *)

(** Modelled from the spec: the declaration [TiledGeoJSONMeta] of
    [types/tiledgeojson], which the sources import and do not include: "a grid
    origin point (x, y ...) and an ordered collection of LOD descriptors". *)
Module TiledGeoJSONMeta.
Record t := mk {
  origin : Q * Q;
  lods : list LodMeta.t
}.
End TiledGeoJSONMeta.

Module TiledGeoJSON.

(** [TiledGeoJSONOptions]: the one option the scheduler reads; [None] is an
    option left out.  The other options are those of [L.GeoJSON]; of these
    [filter] decides, with the geometry of a feature, whether Leaflet builds
    a layer for it, which is the parameter [hasLayer] of [Throwing]. *)
Record Options := mkOptions {
  detectRetina : option bool
}.

(** The map, through the two getters [updateView] calls. *)
Record Map := mkMap {
  getZoom : Z;
  getBounds : GridView.LatLngBounds
}.

Record t := mk {
  options : Options;
  meta : option TiledGeoJSONMeta.t;
  lods : list Lod.t;
  (** the active level of detail, by its position in [lods] *)
  activeLod : option nat;
  (** the layer group inherited from [L.LayerGroup]: positions in [lods] *)
  layers : gset nat;
  (** [this._map], set by Leaflet while the layer is on a map *)
  _map : option Map
}.

(** The object the constructor builds (its call of [loadMeta] only starts the
    fetch). *)
Definition new (options : Options) : t :=
  {| options := options; meta := None; lods := []; activeLod := None;
     layers := ∅; _map := None |}.

Definition set_lods (ls : list Lod.t) (this : t) : t :=
  {| options := options this; meta := meta this; lods := ls;
     activeLod := activeLod this; layers := layers this; _map := _map this |}.

Definition set_activeLod (a : option nat) (this : t) : t :=
  {| options := options this; meta := meta this; lods := lods this;
     activeLod := a; layers := layers this; _map := _map this |}.

Definition set_layers (ls : gset nat) (this : t) : t :=
  {| options := options this; meta := meta this; lods := lods this;
     activeLod := activeLod this; layers := ls; _map := _map this |}.

Definition set_meta (m : TiledGeoJSONMeta.t) (this : t) : t :=
  {| options := options this; meta := Some m;
     lods := Lod.new <$> TiledGeoJSONMeta.lods m;
     activeLod := activeLod this; layers := layers this; _map := _map this |}.

(** [map.getZoom() + (this.options.detectRetina && L.Browser.retina ? 1 : 0)]. *)
Definition effectiveZoom (this : t) (retina : bool) (map : Map) : Z :=
  (getZoom map +
   (if default false (detectRetina (options this)) && retina then 1 else 0))%Z.

Definition maxZoomOf (c : nat * Lod.t) : Z := LodMeta.maxZoom (Lod.meta c.2).

(** The body of the first loop of [updateView]; a candidate is a level of
    detail with its position. *)
Definition tighter (zoom : Z) (bestLod : option (nat * Lod.t)) (lod : nat * Lod.t)
  : option (nat * Lod.t) :=
  if (zoom <=? maxZoomOf lod)%Z
     && match bestLod with
        | None => true
        | Some b => (maxZoomOf lod <? maxZoomOf b)%Z
        end
  then Some lod else bestLod.

(** The body of the second loop. *)
Definition larger (bestLod : option (nat * Lod.t)) (lod : nat * Lod.t)
  : option (nat * Lod.t) :=
  match bestLod with
  | None => Some lod
  | Some b => if (maxZoomOf lod >? maxZoomOf b)%Z then Some lod else bestLod
  end.

(** "choose best lod", then "default to one with largest max zoom". *)
Definition chooseBestLod (zoom : Z) (lods : list Lod.t) : option (nat * Lod.t) :=
  let candidates := imap pair lods in
  match fold_left (tighter zoom) candidates None with
  | Some b => Some b
  | None => fold_left larger candidates None
  end.

(** Handle view changes when the user moves the map.  The last line is
    [this.activeLod?.updateView(map)]; the level of detail reads the origin
    from [this.tiledGeoJson.meta].  Levels of detail are built only by the
    success branch of [loadMeta], after [meta] is set, so an active level
    without [meta] does not occur and that branch leaves the state as is. *)
Definition updateView (retina : bool) (map : Map) (this : t) : t :=
  let zoom := effectiveZoom this retina map in
  let bestLod := fst <$> chooseBestLod zoom (lods this) in
  let this :=
    if decide (activeLod this = bestLod) then this
    else
      let this :=
        match activeLod this with
        | Some old =>
            set_lods (alter Lod.clearActive old (lods this))
                     (set_layers (layers this ∖ {[old]}) this)
        | None => this
        end in
      let this := set_activeLod bestLod this in
      match activeLod this with
      | Some now => set_layers ({[now]} ∪ layers this) this
      | None => this
      end in
  match activeLod this, meta this with
  | Some now, Some m =>
      set_lods (alter (Lod.updateView (TiledGeoJSONMeta.origin m) (getBounds map))
                      now (lods this))
               this
  | _, _ => this
  end.

(** The success branch of [loadMeta]. *)
Definition metaLoaded (retina : bool) (m : TiledGeoJSONMeta.t) (this : t) : t :=
  let this := set_meta m this in
  match _map this with
  | Some map => updateView retina map this
  | None => this
  end.

End TiledGeoJSON.

(** ** Promises, fetch and timers *)

Module Promise.

Inductive Settled (A : Type) :=
| Fulfilled (a : A)
| Rejected.
Arguments Fulfilled {A} a.
Arguments Rejected {A}.

(** A promise over a world [W]: run when it settles, it gives the outcome and
    the world its reactions leave. *)
Definition t (W A : Type) := W → Settled A * W.

Definition settled {W A} (r : Settled A) : t W A := λ w, (r, w).

(** [p.then(f)]: a rejection of [p] passes through. *)
Definition then_ {W A B} (p : t W A) (f : A → t W B) : t W B :=
  λ w, match p w with
       | (Fulfilled a, w') => f a w'
       | (Rejected, w') => (Rejected, w')
       end.

(** [p.catch(h)]: a fulfilment of [p] passes through. *)
Definition catch_ {W A} (p : t W A) (h : t W A) : t W A :=
  λ w, match p w with
       | (Fulfilled a, w') => (Fulfilled a, w')
       | (Rejected, w') => h w'
       end.

End Promise.

Import Promise.

(** What [fetch] answers.  [text] is the promise of [response.text()], its
    value seen through [JSON.parse]: [None] is a text that [JSON.parse]
    rejects with an exception. *)
Record Response (D : Type) := mkResponse {
  text : Settled (option D)
}.
Arguments mkResponse {D} text.
Arguments text {D} r.

(** The console and the timers of the host. *)
Record Host := mkHost {
  (** the retry time of every failure written by [console.error] *)
  console : list Z;
  (** the pending calls of [setTimeout]: the delay in milliseconds and the
      argument of the deferred call of the loader *)
  timers : list (Z * Z)
}.

Definition idle : Host := {| console := []; timers := [] |}.

(** The body of both [catch] handlers: [console.error] with the retry time,
    then [setTimeout(() => load(retryTime * 2), retryTime * 1000)]. *)
Definition retryLater {S : Type} (retryTime : Z) : Promise.t (S * Host) unit :=
  λ w, (Fulfilled tt,
        (w.1, {| console := console w.2 ++ [retryTime];
                 timers := timers w.2 ++ [((retryTime * 1000)%Z, (retryTime * 2)%Z)] |})).

(** A synchronous reaction on the state. *)
Definition react {S : Type} (f : S → S) : Promise.t (S * Host) unit :=
  λ w, (Fulfilled tt, (f w.1, w.2)).

(** The default value of the parameter [retryTime] of both loaders. *)
Definition baseRetryTime : Z := 1.

(** [TiledGeoJSONTile.loadTile(retryTime)] for the tile stored under [key],
    run when the fetch it starts has answered:
    [fetch(..).then(response => response.text()).then(text => ..).catch(..)].
    The reaction to the text is taken to return, as it does when Leaflet
    builds a layer for every feature of the answer; [Throwing.Tile_loadTile]
    is the loader for any answer, and the two agree then and on every
    failure ([Tile_loadTile_drawn], [Tile_loadTile_failure_same]). *)
Definition Tile_loadTile (key : string)
    (response : Settled (Response (list Feature))) (retryTime : Z)
  : Promise.t (Lod.t * Host) unit :=
  catch_
    (then_ (then_ (settled response) (λ response, settled (text response)))
           (λ parsed, match parsed with
                      | None => settled Rejected
                      | Some features => react (Lod.tileLoaded key features)
                      end))
    (retryLater retryTime).

(** [TiledGeoJSON.loadMeta(retryTime)], run when the fetch it starts has
    answered:
    [fetch(..).then(response => response.text().then(text => ..).catch(..))]. *)
Definition TiledGeoJSON_loadMeta (retina : bool)
    (response : Settled (Response TiledGeoJSONMeta.t)) (retryTime : Z)
  : Promise.t (TiledGeoJSON.t * Host) unit :=
  then_ (settled response)
        (λ response,
           catch_
             (then_ (settled (text response))
                    (λ parsed, match parsed with
                               | None => settled Rejected
                               | Some m => react (TiledGeoJSON.metaLoaded retina m)
                               end))
             (retryLater retryTime)).

(** The delays of the retries of one fetch: each answer of [responses] settles
    one attempt; when the attempt has set a timer, the timer fires and calls
    the loader again with the argument it holds, otherwise no attempt
    follows. *)
Fixpoint retryDelays {S R : Type} (load : R → Z → Promise.t (S * Host) unit)
    (responses : list R) (retryTime : Z) (s : S) : list Z :=
  match responses with
  | [] => []
  | r :: responses =>
      let w := (load r retryTime (s, idle)).2 in
      match timers w.2 with
      | (delay, next) :: _ => delay :: retryDelays load responses next w.1
      | [] => []
      end
  end.

(** The answer is a failure: the fetch is rejected (network), the body cannot
    be read, or the text is not JSON (parse). *)
Definition failure {D : Type} (response : Settled (Response D)) : Prop :=
  match response with
  | Rejected => True
  | Fulfilled r =>
      match text r with
      | Rejected => True
      | Fulfilled None => True
      | Fulfilled (Some _) => False
      end
  end.

(** ** Runs of a level of detail *)

(** The tile stored under [key] is visible: active and fulfilled. *)
Definition visible (s : Lod.t) (key : string) (tile : Tile.t) : Prop :=
  key ∈ Lod.activeTiles s ∧ Lod.tiles s !! key = Some tile ∧
  Tile.fulfilled tile = true.

(** The tile stored under [key] renders the feature: the tile is in the layer
    group of the level of detail and draws the feature. *)
Definition renders (s : Lod.t) (key : string) (fid : Z) : Prop :=
  key ∈ Lod.layers s ∧ ∃ tile, Lod.tiles s !! key = Some tile ∧ Tile.draws fid tile.

(** The operations on a level of detail, as the program runs them: the two
    loop bodies of [updateView] (showing is guarded there, [showTile] has no
    other caller), the completion of the load of a tile that is not yet
    fulfilled, with the feature collection that arrives, [clearActive], and
    [updateView] as a whole.  [ok] is what is known of the collections. *)
Inductive step (ok : list Feature → Prop) : Lod.t → Lod.t → Prop :=
| step_show s x y :
    step ok s (Lod.showCell s (x, y))
| step_hide s x y :
    step ok s (Lod.hideTile x y s)
| step_load s key tile features :
    Lod.tiles s !! key = Some tile → Tile.fulfilled tile = false →
    ok features →
    step ok s (Lod.tileLoaded key features s)
| step_clear s :
    step ok s (Lod.clearActive s)
| step_view s origin bounds :
    step ok s (Lod.updateView origin bounds s).

Inductive reachable (ok : list Feature → Prop) : Lod.t → Prop :=
| reach_new meta : reachable ok (Lod.new meta)
| reach_step s s' : reachable ok s → step ok s s' → reachable ok s'.

(** No constraint on the collections. *)
Definition anyFeatures (features : list Feature) : Prop := True.

(** No two features of the collection carry the same defined identifier. *)
Definition uniqueFids (features : list Feature) : Prop := NoDup (fids features).

(** The deduplication property of a state, for one identifier: when two
    different visible tiles contain the feature, the registry names a first
    holder, which is one of the visible tiles that contain the feature, has it
    unmasked and renders it, and every other visible tile that contains the
    feature has it masked and does not render it. *)
Definition dedup (s : Lod.t) (fid : Z) : Prop :=
  ∀ k1 t1 k2 t2,
    k1 ≠ k2 →
    visible s k1 t1 → Tile.contains fid t1 →
    visible s k2 t2 → Tile.contains fid t2 →
    ∃ k0 t0 rest,
      Lod.featureHolders s !! fid = Some (k0 :: rest) ∧
      visible s k0 t0 ∧ Tile.contains fid t0 ∧
      ¬ Tile.masked fid t0 ∧ renders s k0 fid ∧
      ∀ k t, visible s k t → Tile.contains fid t → k ≠ k0 →
             Tile.masked fid t ∧ ¬ renders s k fid.

(** ** Sample data *)

(** The box [0, 1] x [0, 1]. *)
Definition unitBox : GridView.LatLngBounds :=
  {| GridView.getWest := 0; GridView.getSouth := 0;
     GridView.getEast := 1; GridView.getNorth := 1 |}.

(** The viewport of the end-to-end scenario: x from 0 to 15, y from 0 to 5. *)
Definition sampleBounds : GridView.LatLngBounds :=
  {| GridView.getWest := 0; GridView.getSouth := 0;
     GridView.getEast := 15; GridView.getNorth := 5 |}.

(** The double nearest to one tenth, the value of the literal [0.1]. *)
Definition tenth : Q := 3602879701896397 # 36028797018963968.

(** The box [0.5, 1] x [0, 1]. *)
Definition halfBox : GridView.LatLngBounds :=
  {| GridView.getWest := 1 # 2; GridView.getSouth := 0;
     GridView.getEast := 1; GridView.getNorth := 1 |}.

(** A level of detail with the given maximum zoom, for the examples of the
    selection. *)
Definition lodOfMaxZoom (maxZoom : Z) : Lod.t :=
  Lod.new {| LodMeta.maxZoom := maxZoom; LodMeta.tileSize := 1;
             LodMeta.tiles := ∅ |}.

(** The selection picks, for the zoom, a level of detail of [lods] whose
    maximum zoom is [m]. *)
Definition selects (zoom : Z) (lods : list Lod.t) (m : Z) : Prop :=
  ∃ i lod, TiledGeoJSON.chooseBestLod zoom lods = Some (i, lod) ∧
           lods !! i = Some lod ∧ LodMeta.maxZoom (Lod.meta lod) = m.

(** The delay of the retry that follows the n-th consecutive failure (n from
    0) when the delays start at the base delay and double: in milliseconds. *)
Definition backoffDelay (n : nat) : Z := (baseRetryTime * 2 ^ Z.of_nat n * 1000)%Z.

(** The fetch answered, and the failure came after that: the body cannot be
    read or the text is not JSON. *)
Definition failureAfterResponse {D : Type} (response : Settled (Response D)) : Prop :=
  match response with
  | Rejected => False
  | Fulfilled r =>
      match text r with
      | Rejected => True
      | Fulfilled None => True
      | Fulfilled (Some _) => False
      end
  end.

(** ** Frames *)

(** What no method changes once a tile is fulfilled. *)
Definition Tile_static (tile : Tile.t)
  : string * string * bool * option (list Feature) :=
  (Tile.key tile, Tile.hash tile, Tile.fulfilled tile, Tile.featureCollection tile).

(** The two states differ at most in the feature holders and in the masks,
    recorded layers and layer groups of their tiles. *)
Definition sameTiles (s s' : Lod.t) : Prop :=
  Lod.meta s' = Lod.meta s ∧ Lod.activeTiles s' = Lod.activeTiles s ∧
  Lod.layers s' = Lod.layers s ∧ Lod.currentView s' = Lod.currentView s ∧
  ∀ k, Tile_static <$> Lod.tiles s' !! k = Tile_static <$> Lod.tiles s !! k.

(** The entry of [maskedFeatures] for the identifier in the tile stored under
    [key]. *)
Definition maskOf (s : Lod.t) (key : string) (fid : Z) : option Feature :=
  Lod.tiles s !! key ≫= λ tile, Tile.maskedFeatures tile !! fid.

(** The holder sequence of the identifier, empty when the registry has no
    entry for it. *)
Definition holdersOf (s : Lod.t) (fid : Z) : list string :=
  default [] (Lod.featureHolders s !! fid).

(** The tile and the identifier that one step of [removeFeatureHolders]
    unmasks, if any: the next holder when the hidden tile was the first
    holder, the hidden tile itself otherwise. *)
Definition unmaskTarget (key : string) (s : Lod.t) (feature : Feature)
  : option (string * Z) :=
  fid ← __fid feature;
  hs ← Lod.featureHolders s !! fid;
  target ← (if bool_decide (head hs = Some key)
            then head (filter (λ k, k ≠ key) hs)
            else Some key);
  Some (target, fid).



(** The level of detail of the end-to-end scenario: resolution 10, maximum
    zoom 5, the two tiles "0,0" and "1,0". *)
Definition sampleMeta : LodMeta.t :=
  {| LodMeta.maxZoom := 5; LodMeta.tileSize := 10;
     LodMeta.tiles := <["0,0" := "h1"]> (<["1,0" := "h2"]> ∅) |}.

(** A feature with the identifier 7. *)
Definition feature7 : Feature := {| __fid := Some 7%Z; content := 0 |}.

(** Both cells shown and loaded, each tile holding the feature 7: the tile
    "0,0" is its first holder, the tile "1,0" has it masked. *)
Definition sampleShared : Lod.t :=
  Lod.tileLoaded "1,0" [feature7]
    (Lod.showCell
       (Lod.tileLoaded "0,0" [feature7] (Lod.showCell (Lod.new sampleMeta) (0, 0)%Z))
       (1, 0)%Z).

(** ** Invariants *)

(** The shape of a tile of the store.  [tile.key] is the key it is stored
    under.  Before the load completes the tile has no collection, no recorded
    layer and no mask.  Afterwards every identifier of the collection has a
    recorded layer, a recorded layer belongs to a feature with the identifier
    it is recorded under, and it is in the layer group exactly when the
    identifier is not masked; when no identifier occurs twice in the
    collection, a layer of the layer group whose feature has an identifier is
    the layer recorded for that identifier. *)
Definition tile_wf (key : string) (tile : Tile.t) : Prop :=
  Tile.key tile = key ∧
  match Tile.featureCollection tile with
  | None =>
      Tile.fulfilled tile = false ∧ Tile.featureLayers tile = ∅ ∧
      Tile.maskedFeatures tile = ∅
  | Some features =>
      Tile.fulfilled tile = true ∧
      (∀ fid, fid ∈ fids features → is_Some (Tile.featureLayers tile !! Some fid)) ∧
      (∀ o l, Tile.featureLayers tile !! o = Some l → Tile.layerFid tile l = o) ∧
      (∀ fid l, Tile.featureLayers tile !! Some fid = Some l →
                (l ∈ Tile.layers tile ↔ Tile.maskedFeatures tile !! fid = None)) ∧
      (uniqueFids features →
       ∀ fid l, l ∈ Tile.layers tile → Tile.layerFid tile l = Some fid →
                Tile.featureLayers tile !! Some fid = Some l)
  end.

(** The shape of a level of detail: the tiles of the store are well formed
    ([tiles_wf]), the active keys are distinct and have a tile, and the layer
    group holds exactly the visible tiles. *)
Definition tiles_wf (s : Lod.t) : Prop :=
  ∀ k tile, Lod.tiles s !! k = Some tile → tile_wf k tile.

(** The store has a fulfilled tile under the key. *)
Definition fulfilledAt (s : Lod.t) (key : string) : Prop :=
  ∃ tile, Lod.tiles s !! key = Some tile ∧ Tile.fulfilled tile = true.

Definition shape_inv (s : Lod.t) : Prop :=
  tiles_wf s ∧
  NoDup (Lod.activeTiles s) ∧
  (∀ k, k ∈ Lod.activeTiles s → is_Some (Lod.tiles s !! k)) ∧
  (∀ k, k ∈ Lod.layers s ↔ ∃ tile, visible s k tile).

(** The tile stored under [key] is visible and holds the feature. *)
Definition shows (s : Lod.t) (key : string) (fid : Z) : Prop :=
  ∃ tile, visible s key tile ∧ Tile.contains fid tile.

(** The registry agrees with a relation [reg] between tile keys and
    identifiers: the holder sequence of an identifier lists, without
    repetition, the keys related to it, and a tile has an identifier masked
    exactly when its key is in the sequence after the first place. *)
Definition registry_ok (s : Lod.t) (reg : string → Z → Prop) : Prop :=
  (∀ fid, NoDup (holdersOf s fid)) ∧
  (∀ fid k, k ∈ holdersOf s fid ↔ reg k fid) ∧
  (∀ k tile fid, Lod.tiles s !! k = Some tile →
                 (Tile.masked fid tile ↔ k ∈ tail (holdersOf s fid))).

(** No tile of the store holds an identifier twice. *)
Definition uniqueTiles (s : Lod.t) : Prop :=
  ∀ k tile features,
    Lod.tiles s !! k = Some tile → Tile.featureCollection tile = Some features →
    uniqueFids features.

(** The registry invariant of a level of detail. *)
Definition registry_inv (s : Lod.t) : Prop :=
  uniqueTiles s ∧ registry_ok s (shows s).

(** The body of the loop of [clearActive]. *)
Definition clearStep (this : Lod.t) (key : string) : Lod.t :=
  match Lod.tiles this !! key with
  | Some tile =>
      if Tile.fulfilled tile
      then Lod.onTile key Tile.unmaskAll (Lod.removeLayer key this)
      else this
  | None => this
  end.



(** The store has, under the key, a fulfilled tile that holds the feature. *)
Definition holds (s : Lod.t) (key : string) (fid : Z) : Prop :=
  ∃ tile, Lod.tiles s !! key = Some tile ∧ Tile.fulfilled tile = true ∧
          Tile.contains fid tile.

(** The invariant of a level of detail. *)
Definition lod_inv (s : Lod.t) : Prop := shape_inv s ∧ registry_inv s.

(** A second feature with the identifier 7. *)
Definition feature7b : Feature := {| __fid := Some 7%Z; content := 1 |}.

(** Both cells shown and loaded; the tile "0,0" holds two features with the
    identifier 7, the tile "1,0" holds one. *)
Definition sampleDuplicate : Lod.t :=
  Lod.tileLoaded "1,0" [feature7]
    (Lod.showCell
       (Lod.tileLoaded "0,0" [feature7; feature7b]
          (Lod.showCell (Lod.new sampleMeta) (0, 0)%Z))
       (1, 0)%Z).

(** The character occurs in the string. *)
Fixpoint hasChar (c : Ascii.ascii) (s : string) : bool :=
  match s with
  | EmptyString => false
  | String a s' => Ascii.eqb a c || hasChar c s'
  end.

(** * Further definitions *)

(** ** The window of a level of detail *)

(** The key is that of a cell of the window of [v] for which the metadata of
    the level of detail lists a tile. *)
Definition inWindow (v : GridView.t) (s : Lod.t) (key : string) : Prop :=
  ∃ x y, (x, y) ∈ GridView.cells v ∧ key = tileKey x y ∧ Lod.hasHash key s = true.

(** The key is that of a cell which the second loop of [updateView] hides. *)
Definition outsideKey (v : GridView.t) (key : string) : Prop :=
  ∃ x y, key = tileKey x y ∧ GridView.outside v x y = true.

(** Every active key was built by [tileKey] for a cell that has a tile. *)
Definition keys_inv (s : Lod.t) : Prop :=
  ∀ k, k ∈ Lod.activeTiles s → ∃ x y, k = tileKey x y ∧ Lod.hasHash k s = true.

(** ** The registry, whatever the collections are *)

(** The registry names exactly the holders: a key is in the holder sequence
    of an identifier exactly when its tile is visible and holds a feature
    with the identifier. *)
Definition holders_exact (s : Lod.t) : Prop :=
  ∀ fid k, k ∈ holdersOf s fid ↔ shows s k fid.

(** The closing loop of [removeFeatureHolders] writes "Failed to remove
    holder tile" for the identifier: the key of the tile is still in the
    holder sequence of the identifier. *)
Definition failedToRemove (key : string) (this : Lod.t) (fid : Z) : bool :=
  bool_decide (key ∈ holdersOf this fid).

(** The store of [s'] keeps the tile that [s] has under [k]: the object, its
    key and its hash stay and, once the tile is fulfilled, so does its
    feature collection. *)
Definition keeps (s s' : Lod.t) : Prop :=
  ∀ k tile, Lod.tiles s !! k = Some tile →
    ∃ tile', Lod.tiles s' !! k = Some tile' ∧
             Tile.key tile' = Tile.key tile ∧ Tile.hash tile' = Tile.hash tile ∧
             (Tile.fulfilled tile = true → Tile_static tile' = Tile_static tile).

(** The store of [s'] has every tile of [s], with the same key, hash, state of
    fulfilment and feature collection. *)
Definition keepsAll (s s' : Lod.t) : Prop :=
  ∀ k tile, Lod.tiles s !! k = Some tile →
    ∃ tile', Lod.tiles s' !! k = Some tile' ∧ Tile_static tile' = Tile_static tile.

(** ** Runs of a loader *)

(** One loader over the answers of its fetches, in the world [w]: the answer
    settles the attempt; when the attempt has set a timer, the timer fires (it
    leaves the pending timers) and calls the loader again with the argument
    it holds, on the next answer; otherwise the run is over. *)
Fixpoint run {S R : Type} (load : R → Z → Promise.t (S * Host) unit)
    (responses : list R) (retryTime : Z) (w : S * Host) : S * Host :=
  match responses with
  | [] => w
  | r :: responses =>
      let w' := (load r retryTime w).2 in
      match timers w'.2 with
      | (_, next) :: pending =>
          run load responses next
              (w'.1, {| console := console w'.2; timers := pending |})
      | [] => w'
      end
  end.

(** The answer of a fetch whose body is the JSON text of [d]. *)
Definition answer {D : Type} (d : D) : Settled (Response D) :=
  Fulfilled (mkResponse (Fulfilled (Some d))).

(** The retry times that [console.error] reports for [n] consecutive
    failures, in seconds. *)
Definition reported (n : nat) : list Z :=
  (λ i, baseRetryTime * 2 ^ Z.of_nat i)%Z <$> seq 0 n.

(** ** The layer on a map *)

Definition set__map (map : option TiledGeoJSON.Map) (this : TiledGeoJSON.t)
  : TiledGeoJSON.t :=
  {| TiledGeoJSON.options := TiledGeoJSON.options this;
     TiledGeoJSON.meta := TiledGeoJSON.meta this;
     TiledGeoJSON.lods := TiledGeoJSON.lods this;
     TiledGeoJSON.activeLod := TiledGeoJSON.activeLod this;
     TiledGeoJSON.layers := TiledGeoJSON.layers this;
     TiledGeoJSON._map := map |}.

(** What [addTo] is called with: a map (the code takes for a map what has
    [getBounds]), or a plain layer group, with the map the group is on, if
    any. *)
Inductive Target :=
| toMap (map : TiledGeoJSON.Map)
| toGroup (groupMap : option TiledGeoJSON.Map).

(** [addTo].  On a map the layer updates its view at once.  [super.addTo] is
    Leaflet's: the layer joins the map or the group, and [this._map] is from
    then on the map the layer is on.  The listener that [addTo] registers for
    "moveend" calls [updateView]; these calls are the moves of [layerStep]. *)
Definition TiledGeoJSON_addTo (retina : bool) (target : Target)
    (this : TiledGeoJSON.t) : TiledGeoJSON.t :=
  match target with
  | toMap map => set__map (Some map) (TiledGeoJSON.updateView retina map this)
  | toGroup (Some map) => set__map (Some map) this
  | toGroup None => this
  end.

(** [removeFrom]: the listener is taken off the map; [super.removeFrom] is
    Leaflet's, after it the layer is on no map.  The levels of detail and
    their tiles are left as they are. *)
Definition TiledGeoJSON_removeFrom (this : TiledGeoJSON.t) : TiledGeoJSON.t :=
  set__map None this.

(** The level of detail is torn down. *)
Definition idleLod (lod : Lod.t) : Prop :=
  Lod.activeTiles lod = [] ∧ Lod.featureHolders lod = ∅ ∧
  Lod.layers lod = ∅ ∧ Lod.currentView lod = None.

(** The active tiles of the level of detail are those of its current view. *)
Definition view_inv (lod : Lod.t) : Prop :=
  ∀ v, Lod.currentView lod = Some v →
       ∀ k, k ∈ Lod.activeTiles lod ↔ inWindow v lod k.

(** What happens to the layer: the metadata arrives (once), the layer is
    added to a map or a group or removed, the map moves and its listener
    updates the view, the map the layer is on changes its view ([this._map]
    is the map itself), and a tile of one of the levels of detail completes
    its load. *)
Inductive layerStep (retina : bool) (ok : list Feature → Prop)
  : TiledGeoJSON.t → TiledGeoJSON.t → Prop :=
| layer_meta this m :
    TiledGeoJSON.meta this = None →
    layerStep retina ok this (TiledGeoJSON.metaLoaded retina m this)
| layer_addTo this target :
    layerStep retina ok this (TiledGeoJSON_addTo retina target this)
| layer_removeFrom this :
    layerStep retina ok this (TiledGeoJSON_removeFrom this)
| layer_move this map :
    layerStep retina ok this (TiledGeoJSON.updateView retina map this)
| layer_pan this map map' :
    TiledGeoJSON._map this = Some map →
    layerStep retina ok this (set__map (Some map') this)
| layer_tile this i lod key tile features :
    TiledGeoJSON.lods this !! i = Some lod →
    Lod.tiles lod !! key = Some tile → Tile.fulfilled tile = false →
    ok features →
    layerStep retina ok this
      (TiledGeoJSON.set_lods
         (alter (Lod.tileLoaded key features) i (TiledGeoJSON.lods this)) this).

Inductive layerReachable (retina : bool) (ok : list Feature → Prop)
  : TiledGeoJSON.t → Prop :=
| layer_new options : layerReachable retina ok (TiledGeoJSON.new options)
| layer_next this this' :
    layerReachable retina ok this → layerStep retina ok this this' →
    layerReachable retina ok this'.

(** The layer group of a layer with the given active level of detail. *)
Definition groupOf (activeLod : option nat) : gset nat :=
  match activeLod with
  | Some i => {[i]}
  | None => ∅
  end.

(** The invariant of the layer: without metadata there is no level of
    detail; the levels of detail are those of the metadata; the active one
    exists and is the only one in the layer group; every level of detail is
    in a reachable state whose active tiles are those of its current view, and
    is torn down unless it is the active one. *)
Definition layer_inv (ok : list Feature → Prop) (this : TiledGeoJSON.t) : Prop :=
  (TiledGeoJSON.meta this = None → TiledGeoJSON.lods this = []) ∧
  (∀ m, TiledGeoJSON.meta this = Some m →
        Lod.meta <$> TiledGeoJSON.lods this = TiledGeoJSONMeta.lods m) ∧
  (∀ i, TiledGeoJSON.activeLod this = Some i →
        is_Some (TiledGeoJSON.lods this !! i)) ∧
  TiledGeoJSON.layers this = groupOf (TiledGeoJSON.activeLod this) ∧
  ∀ j lod, TiledGeoJSON.lods this !! j = Some lod →
           reachable ok lod ∧ view_inv lod ∧
           (TiledGeoJSON.activeLod this ≠ Some j → idleLod lod).

(** The dataset of the examples: the origin (0, 0) and two levels of detail,
    [sampleMeta] (maximum zoom 5) and an empty one with the maximum zoom 9. *)
Definition sampleDataset : TiledGeoJSONMeta.t :=
  {| TiledGeoJSONMeta.origin := (0, 0)%Q;
     TiledGeoJSONMeta.lods := [sampleMeta; Lod.meta (lodOfMaxZoom 9)] |}.

(** A map at zoom 4 over the sample viewport. *)
Definition sampleMapNear : TiledGeoJSON.Map :=
  {| TiledGeoJSON.getZoom := 4; TiledGeoJSON.getBounds := sampleBounds |}.

(** A layer without retina option, added to [sampleMapNear], once its
    metadata [sampleDataset] has arrived. *)
Definition sampleMounted : TiledGeoJSON.t :=
  TiledGeoJSON.metaLoaded false sampleDataset
    (TiledGeoJSON_addTo false (toMap sampleMapNear)
       (TiledGeoJSON.new {| TiledGeoJSON.detectRetina := None |})).


(** * Exceptions *)

(** The methods above give the state that a call leaves when it returns.  A
    call can also throw: [TiledGeoJSONTile.addLayer] reads [layer.feature] and
    Leaflet's [removeLayer] stamps its argument, so both throw a [TypeError]
    on [undefined], and so does a method call on [undefined].  An exception
    undoes nothing: [Completion] is the outcome of a call, normal or thrown,
    with the state at that point. *)
Inductive Completion (S : Type) :=
| Normal (s : S)
| Thrown (s : S).
Arguments Normal {S} s.
Arguments Thrown {S} s.

Definition stateOf {S : Type} (c : Completion S) : S :=
  match c with
  | Normal s => s
  | Thrown s => s
  end.

(** Sequencing: an exception ends the call. *)
Definition andThen {S : Type} (c : Completion S) (f : S → Completion S)
  : Completion S :=
  match c with
  | Normal s => f s
  | Thrown s => Thrown s
  end.

(** The outcome of a call on a part of the state, seen from the whole. *)
Definition inside {S T : Type} (put : S → T) (c : Completion S) : Completion T :=
  match c with
  | Normal s => Normal (put s)
  | Thrown s => Thrown (put s)
  end.

(** A loop ([forEach], [for .. of]): the first exception ends it. *)
Fixpoint forEach {S A : Type} (body : S → A → Completion S) (l : list A) (s : S)
  : Completion S :=
  match l with
  | [] => Normal s
  | a :: l => andThen (body s a) (forEach body l)
  end.

(** Leaflet builds a layer for every feature of the collection.
    [L.GeoJSON.addData] builds no layer for a feature that [options.filter]
    rejects or that has no geometry; [hasLayer] tells the features that get
    one. *)
Definition drawn (hasLayer : Feature → bool) (features : list Feature) : Prop :=
  Forall (λ feature, hasLayer feature = true) features.

(** No identifier twice, and a layer for every feature. *)
Definition drawnUnique (hasLayer : Feature → bool) (features : list Feature) : Prop :=
  uniqueFids features ∧ drawn hasLayer features.

Module Throwing.

Module Tile.

(** [addLayer]: line 335 reads [layer.feature]. *)
Definition addLayer (layer : option TiledGeoJSONTile.Layer)
    (this : TiledGeoJSONTile.t) : Completion TiledGeoJSONTile.t :=
  match layer with
  | None => Thrown this
  | Some l => Normal (TiledGeoJSONTile.addLayer (Some l) this)
  end.

(** [L.LayerGroup.removeLayer]: [getLayerId] stamps the layer. *)
Definition removeLayer (layer : option TiledGeoJSONTile.Layer)
    (this : TiledGeoJSONTile.t) : Completion TiledGeoJSONTile.t :=
  match layer with
  | None => Thrown this
  | Some l => Normal (TiledGeoJSONTile.removeLayer (Some l) this)
  end.

(** The layers that [addData] builds: that of the n-th feature is named by
    n, and there is none for a feature that gets no layer. *)
Definition built (hasLayer : Feature → bool) (features : list Feature)
  : list TiledGeoJSONTile.Layer :=
  omap (λ p : nat * Feature, if hasLayer p.2 then Some p.1 else None)
       (imap pair features).

(** [this.addData(this.featureCollection)]. *)
Definition addData (hasLayer : Feature → bool) (features : list Feature)
    (this : TiledGeoJSONTile.t) : TiledGeoJSONTile.t :=
  fold_left (λ this l, TiledGeoJSONTile.addLayer (Some l) this)
            (built hasLayer features) this.

Definition maskFeature (fid : Z) (this : TiledGeoJSONTile.t)
  : Completion TiledGeoJSONTile.t :=
  match TiledGeoJSONTile.featureCollection this with
  | None => Normal this
  | Some features =>
      let masked :=
        fold_left (λ m feat,
                     if decide (__fid feat = Some fid) then <[fid := feat]> m
                     else m)
                  features (TiledGeoJSONTile.maskedFeatures this) in
      removeLayer (TiledGeoJSONTile.featureLayers this !! Some fid)
                  (TiledGeoJSONTile.set_maskedFeatures masked this)
  end.

Definition unmaskFeature (fid : Z) (this : TiledGeoJSONTile.t)
  : Completion TiledGeoJSONTile.t :=
  match TiledGeoJSONTile.maskedFeatures this !! fid with
  | None => Normal this
  | Some _ =>
      let this :=
        TiledGeoJSONTile.set_maskedFeatures
          (delete fid (TiledGeoJSONTile.maskedFeatures this)) this in
      addLayer (TiledGeoJSONTile.featureLayers this !! Some fid) this
  end.

Definition unmaskAll (this : TiledGeoJSONTile.t) : Completion TiledGeoJSONTile.t :=
  forEach (λ this fid,
             andThen (addLayer (TiledGeoJSONTile.featureLayers this !! Some fid) this)
                     (λ this,
                        Normal (TiledGeoJSONTile.set_maskedFeatures
                                  (delete fid (TiledGeoJSONTile.maskedFeatures this))
                                  this)))
          (elements (dom (TiledGeoJSONTile.maskedFeatures this))) this.

(** The success branch of [loadTile], up to the call of the callback. *)
Definition loaded (hasLayer : Feature → bool) (features : list Feature)
    (this : TiledGeoJSONTile.t) : TiledGeoJSONTile.t :=
  addData hasLayer features (TiledGeoJSONTile.set_loaded features this).

End Tile.

Module Lod.

(** A method call on the tile object stored under [key]; without tile the
    call is on [undefined]. *)
Definition onTile (key : string)
    (f : TiledGeoJSONTile.t → Completion TiledGeoJSONTile.t)
    (this : TiledGeoJSONLod.t) : Completion TiledGeoJSONLod.t :=
  match TiledGeoJSONLod.tiles this !! key with
  | None => Thrown this
  | Some tile =>
      inside (λ tile', TiledGeoJSONLod.set_tiles
                         (<[key := tile']> (TiledGeoJSONLod.tiles this)) this)
             (f tile)
  end.

Definition addFeatureHolder (key : string) (this : TiledGeoJSONLod.t)
    (feature : Feature) : Completion TiledGeoJSONLod.t :=
  match __fid feature with
  | None => Normal this
  | Some fid =>
      let holders := default [] (TiledGeoJSONLod.featureHolders this !! fid) in
      andThen
        match holders with
        | [] => Normal this
        | _ :: _ => onTile key (Tile.maskFeature fid) this
        end
        (λ this,
           Normal (TiledGeoJSONLod.set_featureHolders
                     (<[fid := holders ++ [key]]> (TiledGeoJSONLod.featureHolders this))
                     this))
  end.

Definition addFeatureHolders (key : string) (this : TiledGeoJSONLod.t)
  : Completion TiledGeoJSONLod.t :=
  match TiledGeoJSONLod.tiles this !! key ≫= TiledGeoJSONTile.featureCollection with
  | None => Normal this
  | Some features => forEach (addFeatureHolder key) features this
  end.

Definition removeFeatureHolder (key : string) (this : TiledGeoJSONLod.t)
    (feature : Feature) : Completion TiledGeoJSONLod.t :=
  match __fid feature with
  | None => Normal this
  | Some fid =>
      match TiledGeoJSONLod.featureHolders this !! fid with
      | None => Normal this
      | Some holders =>
          let unmaskNext := bool_decide (head holders = Some key) in
          andThen
            (if unmaskNext then Normal this
             else onTile key (Tile.unmaskFeature fid) this)
            (λ this,
               let holders := filter (λ k, k ≠ key) holders in
               let this :=
                 TiledGeoJSONLod.set_featureHolders
                   (<[fid := holders]> (TiledGeoJSONLod.featureHolders this)) this in
               match holders with
               | next :: _ =>
                   if unmaskNext then onTile next (Tile.unmaskFeature fid) this
                   else Normal this
               | [] => Normal this
               end)
      end
  end.

Definition removeFeatureHolders (key : string) (this : TiledGeoJSONLod.t)
  : Completion TiledGeoJSONLod.t :=
  match TiledGeoJSONLod.tiles this !! key ≫= TiledGeoJSONTile.featureCollection with
  | None => Normal this
  | Some features => forEach (removeFeatureHolder key) features this
  end.

(** The callback that [loadTile] hands to the tile. *)
Definition loadCallback (key : string) (this : TiledGeoJSONLod.t)
  : Completion TiledGeoJSONLod.t :=
  if decide (key ∈ TiledGeoJSONLod.activeTiles this)
  then andThen (addFeatureHolders key this)
               (λ this, Normal (TiledGeoJSONLod.addLayer key this))
  else Normal this.

(** The success branch of [TiledGeoJSONTile.loadTile] for the tile stored
    under [key]. *)
Definition tileLoaded (hasLayer : Feature → bool) (key : string)
    (features : list Feature) (this : TiledGeoJSONLod.t)
  : Completion TiledGeoJSONLod.t :=
  loadCallback key
    (TiledGeoJSONLod.onTile key (Tile.loaded hasLayer features) this).

Definition showTile (x y : Z) (this : TiledGeoJSONLod.t)
  : Completion TiledGeoJSONLod.t :=
  let key := tileKey x y in
  match LodMeta.tiles (TiledGeoJSONLod.meta this) !! key with
  | None => Normal this
  | Some _ =>
      let this := match TiledGeoJSONLod.tiles this !! key with
                  | None => TiledGeoJSONLod.loadTile x y this
                  | Some _ => this
                  end in
      match TiledGeoJSONLod.tiles this !! key with
      | None => Normal this
      | Some tile =>
          andThen
            (if TiledGeoJSONTile.fulfilled tile
             then andThen (addFeatureHolders key this)
                          (λ this, Normal (TiledGeoJSONLod.addLayer key this))
             else Normal this)
            (λ this,
               Normal (TiledGeoJSONLod.set_activeTiles
                         (TiledGeoJSONLod.activate key (TiledGeoJSONLod.activeTiles this))
                         this))
      end
  end.

Definition hideTile (x y : Z) (this : TiledGeoJSONLod.t)
  : Completion TiledGeoJSONLod.t :=
  let key := tileKey x y in
  if decide (key ∈ TiledGeoJSONLod.activeTiles this) then
    andThen
      match TiledGeoJSONLod.tiles this !! key with
      | Some tile =>
          if TiledGeoJSONTile.fulfilled tile
          then removeFeatureHolders key (TiledGeoJSONLod.removeLayer key this)
          else Normal this
      | None => Normal this
      end
      (λ this,
         Normal (TiledGeoJSONLod.set_activeTiles
                   (TiledGeoJSONLod.deactivate key (TiledGeoJSONLod.activeTiles this))
                   this))
  else Normal this.

Definition clearActive (this : TiledGeoJSONLod.t) : Completion TiledGeoJSONLod.t :=
  let this := TiledGeoJSONLod.set_currentView None this in
  andThen
    (forEach (λ this key,
                match TiledGeoJSONLod.tiles this !! key with
                | Some tile =>
                    if TiledGeoJSONTile.fulfilled tile
                    then onTile key Tile.unmaskAll
                                (TiledGeoJSONLod.removeLayer key this)
                    else Normal this
                | None => Normal this
                end)
             (TiledGeoJSONLod.activeTiles this) this)
    (λ this,
       Normal (TiledGeoJSONLod.set_activeTiles []
                 (TiledGeoJSONLod.set_featureHolders ∅ this))).

Definition showCell (this : TiledGeoJSONLod.t) (cell : Z * Z)
  : Completion TiledGeoJSONLod.t :=
  let tileKey := tileKey cell.1 cell.2 in
  if negb (bool_decide (tileKey ∈ TiledGeoJSONLod.activeTiles this))
     && TiledGeoJSONLod.hasHash tileKey this
  then showTile cell.1 cell.2 this
  else Normal this.

Definition hideOutside (newView : GridView.t) (this : TiledGeoJSONLod.t)
    (key : string) : Completion TiledGeoJSONLod.t :=
  match Number (split comma key !! 0%nat), Number (split comma key !! 1%nat) with
  | Some x, Some y =>
      if GridView.outside newView x y then hideTile x y this else Normal this
  | _, _ => Normal this
  end.

Definition updateView (origin : Q * Q) (bounds : GridView.LatLngBounds)
    (this : TiledGeoJSONLod.t) : Completion TiledGeoJSONLod.t :=
  let newView :=
    GridView.new (LodMeta.tileSize (TiledGeoJSONLod.meta this))
                 origin.1 origin.2 bounds in
  if match TiledGeoJSONLod.currentView this with
     | None => true
     | Some v => negb (GridView.sameAs v newView)
     end
  then
    andThen (forEach showCell (GridView.cells newView) this)
      (λ this,
         andThen (forEach (hideOutside newView) (TiledGeoJSONLod.activeTiles this) this)
           (λ this, Normal (TiledGeoJSONLod.set_currentView (Some newView) this)))
  else Normal this.

End Lod.

(** A reaction on the state that can throw: the promise that [then] returns
    is rejected, with the state the reaction left. *)
Definition attempt {S : Type} (f : S → Completion S) : Promise.t (S * Host) unit :=
  λ w, match f w.1 with
       | Normal s => (Fulfilled tt, (s, w.2))
       | Thrown s => (Rejected, (s, w.2))
       end.

(** [TiledGeoJSONTile.loadTile(retryTime)]: the reaction to the text runs
    inside the chain that [catch] closes, so an exception of [addData] or of
    the callback is a failure like the others. *)
Definition Tile_loadTile (hasLayer : Feature → bool) (key : string)
    (response : Settled (Response (list Feature))) (retryTime : Z)
  : Promise.t (TiledGeoJSONLod.t * Host) unit :=
  catch_
    (then_ (then_ (settled response) (λ response, settled (text response)))
           (λ parsed, match parsed with
                      | None => settled Rejected
                      | Some features => attempt (Lod.tileLoaded hasLayer key features)
                      end))
    (retryLater retryTime).

(** The operations on a level of detail, as the program runs them, each with
    the state it leaves, whether it returns or throws (an exception in a
    listener or in a callback does not stop the program).  After an exception
    of its callback the loader of a tile retries although the tile is
    fulfilled; the relation follows a tile up to there, so that it gives all
    the runs in which no callback throws. *)
Inductive step (hasLayer : Feature → bool) (ok : list Feature → Prop)
  : TiledGeoJSONLod.t → TiledGeoJSONLod.t → Prop :=
| step_show s x y :
    step hasLayer ok s (stateOf (Lod.showCell s (x, y)))
| step_hide s x y :
    step hasLayer ok s (stateOf (Lod.hideTile x y s))
| step_load s key tile features :
    TiledGeoJSONLod.tiles s !! key = Some tile →
    TiledGeoJSONTile.fulfilled tile = false →
    ok features →
    step hasLayer ok s (stateOf (Lod.tileLoaded hasLayer key features s))
| step_clear s :
    step hasLayer ok s (stateOf (Lod.clearActive s))
| step_view s origin bounds :
    step hasLayer ok s (stateOf (Lod.updateView origin bounds s)).

Inductive reachable (hasLayer : Feature → bool) (ok : list Feature → Prop)
  : TiledGeoJSONLod.t → Prop :=
| reach_new meta : reachable hasLayer ok (TiledGeoJSONLod.new meta)
| reach_step s s' :
    reachable hasLayer ok s → step hasLayer ok s s' → reachable hasLayer ok s'.

End Throwing.

(** ** What keeps the methods from throwing *)

(** Every holder that the registry names is a fulfilled tile of the store
    that holds the feature. *)
Definition holders_sound (s : Lod.t) : Prop :=
  ∀ fid k, k ∈ holdersOf s fid → holds s k fid.

(** A tile masks only identifiers of its collection. *)
Definition masks_held (s : Lod.t) : Prop :=
  ∀ k tile fid, Lod.tiles s !! k = Some tile →
                Tile.masked fid tile → Tile.contains fid tile.

(** The number of features of the collection with the identifier. *)
Definition occurrences (fid : Z) (features : list Feature) : nat :=
  length (filter (λ f, f = fid) (fids features)).

(** A feature with the identifier 7 and without geometry: Leaflet builds no
    layer for it. *)
Definition feature7bare : Feature := {| __fid := Some 7%Z; content := 2 |}.

(** The features of the examples for which Leaflet builds a layer: all but
    [feature7bare]. *)
Definition hasGeometry (feature : Feature) : bool :=
  negb (content feature =? 2)%nat.

(** The cell (0, 0) shown and its tile loaded with the feature 7. *)
Definition sampleFirst : Lod.t :=
  Lod.tileLoaded "0,0" [feature7] (Lod.showCell (Lod.new sampleMeta) (0, 0)%Z).



(** A feature with the identifier 8. *)
Definition feature8 : Feature := {| __fid := Some 8%Z; content := 0 |}.

(** A level of detail with the three tiles "0,0", "1,0" and "2,0". *)
Definition sampleMeta3 : LodMeta.t :=
  {| LodMeta.maxZoom := 5; LodMeta.tileSize := 10;
     LodMeta.tiles := <["0,0" := "h1"]> (<["1,0" := "h2"]> (<["2,0" := "h3"]> ∅)) |}.

(** The three cells shown and loaded one after the other: the tile "0,0"
    with the feature 7, the tile "1,0" with the feature 8 and the feature 7
    without geometry (its callback throws), the tile "2,0" with the
    feature 8. *)
Definition sampleUndrawn : Lod.t :=
  let show cell s := stateOf (Throwing.Lod.showCell s cell) in
  let load key features s :=
    stateOf (Throwing.Lod.tileLoaded hasGeometry key features s) in
  load "2,0" [feature8]
    (show (2, 0)%Z
       (load "1,0" [feature8; feature7bare]
          (show (1, 0)%Z
             (load "0,0" [feature7]
                (show (0, 0)%Z (Lod.new sampleMeta3)))))).

(** * Properties *)

(** ** Tile keys *)

Section TileKeys.

Lemma split_no_separator c s : hasChar c s = false → split c s = [s].
Proof.
  induction s as [|a s IH]; [done|]. simpl. intros H.
  apply orb_false_iff in H as [Ha Hs]. rewrite Ha, (IH Hs). done.
Qed.

Lemma split_app c s1 s2 :
  hasChar c s1 = false → split c (s1 +:+ String c s2) = s1 :: split c s2.
Proof.
  induction s1 as [|a s1 IH]; simpl.
  - intros _. by rewrite Ascii.eqb_refl.
  - intros H. apply orb_false_iff in H as [Ha Hs]. by rewrite Ha, (IH Hs).
Qed.

Lemma string_of_uint_no_comma d : hasChar comma (NilEmpty.string_of_uint d) = false.
Proof. induction d; simpl; done. Qed.

Lemma numberToString_no_comma x : hasChar comma (numberToString x) = false.
Proof.
  unfold numberToString. destruct (Z.to_int x) as [d|d]; simpl.
  - destruct d; try apply string_of_uint_no_comma. done.
  - destruct d; try apply string_of_uint_no_comma. done.
Qed.

(** [Number] reads back what the template literal prints. *)
Lemma Number_numberToString x : Number (Some (numberToString x)) = Some x.
Proof.
  unfold Number, numberToString. simpl. rewrite NilZero.isi.
  - simpl. by rewrite DecimalZ.of_to.
  - destruct x; simpl; try done. intros [= H]. by apply Unsigned.to_uint_nonnil in H.
  - destruct x; simpl; try done. intros [= H]. by apply Unsigned.to_uint_nonnil in H.
Qed.

(** The two coordinates are read back from a tile key, as the second loop of
    [updateView] does. *)
Lemma tileKey_split x y :
  split comma (tileKey x y) = [numberToString x; numberToString y].
Proof.
  unfold tileKey. rewrite split_app by apply numberToString_no_comma.
  by rewrite split_no_separator by apply numberToString_no_comma.
Qed.

Lemma tileKey_parse x y :
  Number (split comma (tileKey x y) !! 0%nat) = Some x ∧
  Number (split comma (tileKey x y) !! 1%nat) = Some y.
Proof.
  rewrite tileKey_split. split; apply Number_numberToString.
Qed.

(** Different cells have different keys. *)
Lemma tileKey_inj x y x' y' : tileKey x y = tileKey x' y' → x = x' ∧ y = y'.
Proof.
  intros H. destruct (tileKey_parse x y) as [H1 H2].
  rewrite H in H1, H2. destruct (tileKey_parse x' y') as [H1' H2'].
  split; congruence.
Qed.

(** On a key that [tileKey] built, the second loop of [updateView] hides the
    cell exactly when it lies outside of the window. *)
Lemma hideOutside_tileKey v s x y :
  Lod.hideOutside v s (tileKey x y) =
  if GridView.outside v x y then Lod.hideTile x y s else s.
Proof.
  unfold Lod.hideOutside. destruct (tileKey_parse x y) as [-> ->]. done.
Qed.

(** The end-to-end scenario: one level of detail with resolution 10 and the
    tiles "0,0" and "1,0", the viewport x in [0, 15], y in [0, 5]: the first
    view update makes the two cells active, in row order, and registers
    nothing before the loads complete. *)
Lemma updateView_scenario :
  Lod.activeTiles (Lod.updateView (0, 0)%Q sampleBounds (Lod.new sampleMeta))
  = ["0,0"; "1,0"] ∧
  Lod.featureHolders (Lod.updateView (0, 0)%Q sampleBounds (Lod.new sampleMeta)) = ∅.
Proof. split; vm_compute; reflexivity. Qed.

End TileKeys.

(** ** The numbers of JavaScript: rounding keeps the order *)

Section DoubleFacts.
Import Double.
Local Open Scope Q_scope.

Lemma pow2_pos (e : Z) : 0 < pow2 e.
Proof. apply Qpower_0_lt. reflexivity. Qed.

Lemma pow2_le (e e' : Z) : (e <= e')%Z -> pow2 e <= pow2 e'.
Proof. intros H. apply Qpower_le_compat_l; [exact H|]. discriminate. Qed.

Lemma pow2_lt_inv (e e' : Z) : pow2 e < pow2 e' -> (e < e')%Z.
Proof. intros H. apply (Qpower_lt_compat_l_inv 2); [exact H|reflexivity]. Qed.

Lemma pow2_plus (e e' : Z) : pow2 (e + e') == pow2 e * pow2 e'.
Proof. apply Qpower_plus. discriminate. Qed.

Lemma pow2_inject (n : Z) : (0 <= n)%Z -> inject_Z (2 ^ n) == pow2 n.
Proof. intros H. unfold pow2. rewrite Zpower_Qpower by exact H. reflexivity. Qed.

(** [ilog2] is the integer part of the logarithm. *)
Lemma ilog2_spec (q : Q) :
  0 < q -> pow2 (ilog2 q) <= q /\ q < pow2 (ilog2 q + 1).
Proof.
  intros Hq. destruct q as [n d]. unfold ilog2. cbn [Qnum Qden].
  assert (0 < n)%Z as Hn by (unfold Qlt in Hq; cbn in Hq; lia).
  set (a := Z.log2 n). set (b := Z.log2 (Z.pos d)).
  destruct (Z.log2_spec n Hn) as [Ha1 Ha2]. fold a in Ha1, Ha2.
  destruct (Z.log2_spec (Z.pos d) eq_refl) as [Hb1 Hb2]. fold b in Hb1, Hb2.
  assert (0 <= a)%Z as Ha0 by apply Z.log2_nonneg.
  assert (0 <= b)%Z as Hb0 by apply Z.log2_nonneg.
  assert (n # d == inject_Z n / inject_Z (Z.pos d)) as Hnd by apply Qmake_Qdiv.
  assert (0 < inject_Z (Z.pos d)) as Hd by reflexivity.
  assert (pow2 a <= inject_Z n) as Qa1
    by (rewrite <- pow2_inject by exact Ha0; rewrite <- Zle_Qle; exact Ha1).
  assert (inject_Z n < pow2 (a + 1)) as Qa2
    by (rewrite <- pow2_inject by lia; rewrite <- Zlt_Qlt; replace (a + 1)%Z with (Z.succ a) by lia; exact Ha2).
  assert (pow2 b <= inject_Z (Z.pos d)) as Qb1
    by (rewrite <- pow2_inject by exact Hb0; rewrite <- Zle_Qle; exact Hb1).
  assert (inject_Z (Z.pos d) < pow2 (b + 1)) as Qb2
    by (rewrite <- pow2_inject by lia; rewrite <- Zlt_Qlt; replace (b + 1)%Z with (Z.succ b) by lia; exact Hb2).
  assert (n # d < pow2 (a - b + 1)) as Hup.
  { rewrite Hnd. apply Qlt_shift_div_r; [exact Hd|].
    eapply Qlt_le_trans; [exact Qa2|].
    replace (a + 1)%Z with ((a - b + 1) + b)%Z by lia. rewrite pow2_plus.
    apply Qmult_le_l; [apply pow2_pos|exact Qb1]. }
  assert (pow2 (a - b - 1) <= n # d) as Hlo.
  { rewrite Hnd. apply Qle_shift_div_l; [exact Hd|].
    eapply Qle_trans; [|exact Qa1].
    replace a with ((a - b - 1) + (b + 1))%Z at 2 by lia. rewrite pow2_plus.
    apply Qmult_le_l; [apply pow2_pos|]. apply Qlt_le_weak. exact Qb2. }
  destruct (Qle_bool (pow2 (a - b)) (n # d)) eqn:Hc.
  - apply Qle_bool_iff in Hc. split; [exact Hc|exact Hup].
  - split; [exact Hlo|].
    replace (a - b - 1 + 1)%Z with (a - b)%Z by lia.
    apply Qnot_le_lt. intros H. apply Qle_bool_iff in H. congruence.
Qed.

Lemma ilog2_mono (q q' : Q) : 0 < q -> q <= q' -> (ilog2 q <= ilog2 q')%Z.
Proof.
  intros Hq Hle.
  destruct (ilog2_spec q Hq) as [H1 _].
  destruct (ilog2_spec q') as [_ H2]; [eapply Qlt_le_trans; eauto|].
  assert (pow2 (ilog2 q) < pow2 (ilog2 q' + 1)) as H
    by (eapply Qle_lt_trans; [exact H1|]; eapply Qle_lt_trans; [exact Hle|exact H2]).
  apply pow2_lt_inv in H. lia.
Qed.

Lemma nearestEven_bounds (q : Q) :
  (Qfloor q <= nearestEven q <= Qfloor q + 1)%Z.
Proof.
  unfold nearestEven. destruct (_ ?= _); [destruct (Z.even _)| |]; lia.
Qed.

(** Rounding to an integer does not cross an integer. *)
Lemma nearestEven_le (q : Q) (z : Z) : q <= inject_Z z -> (nearestEven q <= z)%Z.
Proof.
  intros H. pose proof (Qfloor_le q) as Hf. pose proof (Qlt_floor q) as Hf'.
  assert (Qfloor q <= z)%Z as Hz by (rewrite Zle_Qle; lra).
  destruct (Z.eq_dec (Qfloor q) z) as [Heq|Hne].
  - subst z. unfold nearestEven.
    assert (q - inject_Z (Qfloor q) < 1 # 2) as Hlt by lra.
    rewrite Qlt_alt in Hlt. rewrite Hlt. lia.
  - pose proof (nearestEven_bounds q). lia.
Qed.

Lemma nearestEven_ge (q : Q) (z : Z) : inject_Z z <= q -> (z <= nearestEven q)%Z.
Proof.
  intros H. pose proof (nearestEven_bounds q).
  pose proof (Qfloor_resp_le _ _ H) as Hz. rewrite Qfloor_Z in Hz. lia.
Qed.

Lemma nearestEven_mono (q q' : Q) : q <= q' -> (nearestEven q <= nearestEven q')%Z.
Proof.
  intros H. pose proof (Qfloor_resp_le _ _ H) as Hf.
  destruct (Z.eq_dec (Qfloor q) (Qfloor q')) as [Heq|Hne].
  2:{ pose proof (nearestEven_bounds q) as B. pose proof (nearestEven_bounds q') as B'. lia. }
  unfold nearestEven. rewrite <- Heq. clear Hf.
  pose proof (Qfloor_le q) as Hq1.
  destruct (q - inject_Z (Qfloor q) ?= 1 # 2) eqn:C;
    destruct (q' - inject_Z (Qfloor q) ?= 1 # 2) eqn:C';
    try rewrite <- Qeq_alt in *; try rewrite <- Qlt_alt in *; try rewrite <- Qgt_alt in *;
    try lia; try lra; destruct (Z.even _); lia.
Qed.

Lemma roundPos_mono (q q' : Q) : 0 < q -> q <= q' -> roundPos q <= roundPos q'.
Proof.
  intros Hq Hle. assert (0 < q') as Hq' by (eapply Qlt_le_trans; eauto).
  unfold roundPos.
  set (e := Z.max (ilog2 q - 52) (-1074)). set (e' := Z.max (ilog2 q' - 52) (-1074)).
  pose proof (ilog2_mono q q' Hq Hle) as Hl.
  pose proof (pow2_pos e) as He. pose proof (pow2_pos e') as He'.
  destruct (Z.eq_dec e e') as [Heq|Hne].
  - rewrite <- Heq. apply Qmult_le_compat_r; [|lra].
    rewrite <- Zle_Qle. apply nearestEven_mono.
    apply Qmult_le_compat_r; [exact Hle|]. apply Qlt_le_weak, Qinv_lt_0_compat, He.
  - assert (e + 1 <= e')%Z as Hee by lia.
    assert (e' = ilog2 q' - 52)%Z as He'eq by lia.
    (* the smaller one is at most 2^(e+53) *)
    assert (inject_Z (nearestEven (q / pow2 e)) * pow2 e <= pow2 (e + 53)) as H1.
    { rewrite Z.add_comm, pow2_plus. apply Qmult_le_compat_r; [|lra].
      rewrite <- (pow2_inject 53) by lia. rewrite <- Zle_Qle. apply nearestEven_le.
      rewrite (pow2_inject 53) by lia. apply Qle_shift_div_r; [exact He|].
      rewrite <- pow2_plus. destruct (ilog2_spec q Hq) as [_ H].
      apply Qlt_le_weak. eapply Qlt_le_trans; [exact H|]. apply pow2_le. lia. }
    assert (pow2 (e' + 52) <= inject_Z (nearestEven (q' / pow2 e')) * pow2 e') as H2.
    { rewrite Z.add_comm, pow2_plus. apply Qmult_le_compat_r; [|lra].
      rewrite <- (pow2_inject 52) by lia. rewrite <- Zle_Qle. apply nearestEven_ge.
      rewrite (pow2_inject 52) by lia. apply Qle_shift_div_l; [exact He'|].
      rewrite <- pow2_plus. destruct (ilog2_spec q' Hq') as [H _].
      eapply Qle_trans; [|exact H]. apply pow2_le. lia. }
    eapply Qle_trans; [exact H1|]. eapply Qle_trans; [|exact H2]. apply pow2_le. lia.
Qed.

Lemma roundPos_nonneg (q : Q) : 0 < q -> 0 <= roundPos q.
Proof.
  intros Hq. unfold roundPos. apply Qmult_le_0_compat; [|apply Qlt_le_weak, pow2_pos].
  change 0 with (inject_Z 0) at 1. rewrite <- Zle_Qle. apply nearestEven_ge.
  apply Qle_shift_div_l; [apply pow2_pos|]. change (inject_Z 0) with 0. lra.
Qed.

(** Rounding to the nearest double keeps the order. *)
Lemma round_mono (q q' : Q) : q <= q' -> round q <= round q'.
Proof.
  intros Hle. unfold round.
  destruct (q ?= 0) eqn:C; destruct (q' ?= 0) eqn:C';
    try rewrite <- Qeq_alt in *; try rewrite <- Qlt_alt in *; try rewrite <- Qgt_alt in *;
    try lra.
  - apply roundPos_nonneg. exact C'.
  - assert (0 <= roundPos (- q)) by (apply roundPos_nonneg; lra). lra.
  - assert (0 <= roundPos (- q')) by (apply roundPos_nonneg; lra).
    assert (roundPos (- q') <= roundPos (- q)) by (apply roundPos_mono; lra). lra.
  - assert (0 <= roundPos (- q)) by (apply roundPos_nonneg; lra).
    assert (0 <= roundPos q') by (apply roundPos_nonneg; lra). lra.
  - apply roundPos_mono; lra.
Qed.

Lemma sub_mono (a a' b : Q) : a <= a' -> sub a b <= sub a' b.
Proof. intros H. apply round_mono. lra. Qed.

Lemma div_mono (a a' r : Q) : 0 < r -> a <= a' -> div a r <= div a' r.
Proof.
  intros Hr H. apply round_mono. apply Qmult_le_compat_r; [exact H|].
  apply Qlt_le_weak, Qinv_lt_0_compat, Hr.
Qed.

End DoubleFacts.

(** ** GridView *)

Section GridViewFacts.
Import GridView.

Lemma floor_le_iff (a : Q) (x : Z) :
  (Qfloor a <= x)%Z ↔ (a < inject_Z (x + 1))%Q.
Proof.
  split; intros H.
  - eapply Qlt_le_trans; [apply Qlt_floor|].
    rewrite <- Zle_Qle. lia.
  - assert (inject_Z (Qfloor a) < inject_Z (x + 1))%Q as H1
      by (eapply Qle_lt_trans; [apply Qfloor_le|exact H]).
    rewrite <- Zlt_Qlt in H1. lia.
Qed.

Lemma lt_ceiling_iff (b : Q) (x : Z) :
  (x < Qceiling b)%Z ↔ (inject_Z x < b)%Q.
Proof.
  split; intros H.
  - eapply Qle_lt_trans; [|apply Qceiling_lt].
    rewrite <- Zle_Qle. lia.
  - assert (inject_Z x < inject_Z (Qceiling b))%Q as H1
      by (eapply Qlt_le_trans; [exact H|apply Qle_ceiling]).
    rewrite <- Zlt_Qlt in H1. lia.
Qed.

Lemma div_lt_iff (w o r c : Q) :
  (0 < r)%Q → ((w - o) / r < c)%Q ↔ (w < o + c * r)%Q.
Proof.
  intros Hr.
  assert (Hne : ~ r == 0) by lra.
  rewrite <- (Qmult_lt_r _ _ r Hr).
  assert ((w - o) / r * r == w - o) as -> by (field; exact Hne).
  split; intros; lra.
Qed.

Lemma lt_div_iff (w o r c : Q) :
  (0 < r)%Q → (c < (w - o) / r)%Q ↔ (o + c * r < w)%Q.
Proof.
  intros Hr.
  assert (Hne : ~ r == 0) by lra.
  rewrite <- (Qmult_lt_r _ _ r Hr).
  assert ((w - o) / r * r == w - o) as -> by (field; exact Hne).
  split; intros; lra.
Qed.

(** One axis of the window: the cell index lies between the floor of the low
    edge and the ceiling of the high edge exactly when the open cell interval
    reaches into the closed interval of the bounds. *)
Lemma axis_window (r o lo hi : Q) (x : Z) :
  (0 < r)%Q →
  (Qfloor ((lo - o) / r) <= x < Qceiling ((hi - o) / r))%Z ↔
  (o + inject_Z x * r < hi)%Q ∧ (lo < o + inject_Z (x + 1) * r)%Q.
Proof.
  intros Hr.
  rewrite floor_le_iff, lt_ceiling_iff, div_lt_iff, lt_div_iff by done.
  tauto.
Qed.

Lemma elem_of_cells (v : t) (x y : Z) :
  (x, y) ∈ cells v ↔
  (minX v <= x < minX v + stepsX v)%Z ∧ (minY v <= y < minY v + stepsY v)%Z.
Proof.
  unfold cells. rewrite list_elem_of_bind. split.
  - intros (x' & Hy & Hx). apply list_elem_of_bind in Hy as (y' & Hxy & Hy).
    apply list_elem_of_singleton in Hxy. simplify_eq.
    by rewrite elem_of_seqZ in Hx, Hy.
  - intros [Hx Hy]. exists x. rewrite elem_of_seqZ. split; [|done].
    apply list_elem_of_bind. exists y. rewrite elem_of_seqZ.
    split; [apply list_elem_of_singleton; done|done].
Qed.

Lemma outside_cells (v : t) (x y : Z) :
  outside v x y = false ↔ (x, y) ∈ cells v.
Proof.
  rewrite elem_of_cells. unfold outside.
  rewrite !orb_false_iff, !Z.ltb_ge, !Z.geb_leb, !Z.leb_gt. lia.
Qed.

(** The inequalities of [overlaps] say that the open rectangle of the cell and
    the closed box of the bounds have a common point. *)
Lemma overlaps_point (r ox oy : Q) (b : LatLngBounds) (x y : Z) :
  (0 < r)%Q → (getWest b <= getEast b)%Q → (getSouth b <= getNorth b)%Q →
  overlaps r ox oy b x y ↔
  ∃ px py : Q,
    (ox + inject_Z x * r < px)%Q ∧ (px < ox + inject_Z (x + 1) * r)%Q ∧
    (oy + inject_Z y * r < py)%Q ∧ (py < oy + inject_Z (y + 1) * r)%Q ∧
    (getWest b <= px)%Q ∧ (px <= getEast b)%Q ∧
    (getSouth b <= py)%Q ∧ (py <= getNorth b)%Q.
Proof.
  intros Hr Hwe Hsn. unfold overlaps. split.
  - intros (H1 & H2 & H3 & H4).
    assert (∀ c c' lo hi : Q, (c < c')%Q → (lo <= hi)%Q → (c < hi)%Q → (lo < c')%Q →
              ∃ p : Q, (c < p)%Q ∧ (p < c')%Q ∧ (lo <= p)%Q ∧ (p <= hi)%Q) as mid.
    { intros c c' lo hi Hc Hl Hch Hlc.
      destruct (Qlt_le_dec c lo), (Qlt_le_dec c' hi).
      - exists ((lo + c') * (1 # 2))%Q. repeat split; lra.
      - exists ((lo + hi) * (1 # 2))%Q.
        destruct (Qlt_le_dec lo hi); [repeat split; lra|].
        repeat split; lra.
      - exists ((c + c') * (1 # 2))%Q. repeat split; lra.
      - exists ((c + hi) * (1 # 2))%Q. repeat split; lra. }
    assert (∀ z : Z, inject_Z (z + 1) * r == inject_Z z * r + r)%Q as Hs
      by (intros z; rewrite inject_Z_plus; ring).
    destruct (mid (ox + inject_Z x * r)%Q (ox + inject_Z (x + 1) * r)%Q
                  (getWest b) (getEast b)) as (px & ? & ? & ? & ?);
      [rewrite Hs; lra|done..|].
    destruct (mid (oy + inject_Z y * r)%Q (oy + inject_Z (y + 1) * r)%Q
                  (getSouth b) (getNorth b)) as (py & ? & ? & ? & ?);
      [rewrite Hs; lra|done..|].
    exists px, py. tauto.
  - intros (px & py & ? & ? & ? & ? & ? & ? & ? & ?).
    repeat split; lra.
Qed.

(** The inequalities of [intersects] say that the closed rectangle of the
    cell and the closed box of the bounds have a common point. *)
Lemma intersects_point (r ox oy : Q) (b : LatLngBounds) (x y : Z) :
  (0 < r)%Q → (getWest b <= getEast b)%Q → (getSouth b <= getNorth b)%Q →
  intersects r ox oy b x y ↔
  ∃ px py : Q,
    (ox + inject_Z x * r <= px)%Q ∧ (px <= ox + inject_Z (x + 1) * r)%Q ∧
    (oy + inject_Z y * r <= py)%Q ∧ (py <= oy + inject_Z (y + 1) * r)%Q ∧
    (getWest b <= px)%Q ∧ (px <= getEast b)%Q ∧
    (getSouth b <= py)%Q ∧ (py <= getNorth b)%Q.
Proof.
  intros Hr Hwe Hsn. unfold intersects. split.
  - intros (H1 & H2 & H3 & H4).
    assert (∀ c c' lo hi : Q, (c <= c')%Q → (lo <= hi)%Q → (c <= hi)%Q → (lo <= c')%Q →
              ∃ p : Q, (c <= p)%Q ∧ (p <= c')%Q ∧ (lo <= p)%Q ∧ (p <= hi)%Q) as mid.
    { intros c c' lo hi Hc Hl Hch Hlc.
      destruct (Qlt_le_dec c lo).
      - exists lo. repeat split; lra.
      - exists c. repeat split; lra. }
    assert (∀ z : Z, inject_Z (z + 1) * r == inject_Z z * r + r)%Q as Hs
      by (intros z; rewrite inject_Z_plus; ring).
    destruct (mid (ox + inject_Z x * r)%Q (ox + inject_Z (x + 1) * r)%Q
                  (getWest b) (getEast b)) as (px & ? & ? & ? & ?);
      [rewrite Hs; lra|done..|].
    destruct (mid (oy + inject_Z y * r)%Q (oy + inject_Z (y + 1) * r)%Q
                  (getSouth b) (getNorth b)) as (py & ? & ? & ? & ?);
      [rewrite Hs; lra|done..|].
    exists px, py. tauto.
  - intros (px & py & ? & ? & ? & ? & ? & ? & ? & ?).
    repeat split; lra.
Qed.

End GridViewFacts.

Section GridViewClaims.
Import GridView.

Lemma sameAs_true (v w : t) :
  sameAs v w = true ↔
  (resolution w == resolution v)%Q ∧ minX w = minX v ∧ minY w = minY v ∧
  stepsX w = stepsX v ∧ stepsY w = stepsY v.
Proof.
  unfold sameAs. rewrite !andb_true_iff, Qeq_bool_iff, !Z.eqb_eq. tauto.
Qed.

Lemma elem_of_cells_covers (r ox oy : Q) (b : LatLngBounds) (x y : Z) :
  (x, y) ∈ cells (new r ox oy b) ↔ covers r ox oy b x y.
Proof.
  rewrite elem_of_cells. unfold covers, new. cbn [minX minY stepsX stepsY].
  rewrite <- !floor_le_iff, <- !lt_ceiling_iff. lia.
Qed.

Lemma quotient_mono (c c' o r : Q) :
  (0 < r)%Q → (c <= c')%Q → (quotient c o r <= quotient c' o r)%Q.
Proof. intros Hr H. by apply div_mono, sub_mono. Qed.

(** The window has no negative size. *)
Lemma steps_nonneg (lo hi o r : Q) :
  (0 < r)%Q → (lo <= hi)%Q →
  (0 <= Qceiling (quotient hi o r) - Qfloor (quotient lo o r))%Z.
Proof.
  intros Hr H. pose proof (quotient_mono lo hi o r Hr H) as Hq.
  pose proof (Qfloor_le (quotient lo o r)) as H1.
  pose proof (Qle_ceiling (quotient hi o r)) as H2.
  assert (inject_Z (Qfloor (quotient lo o r)) <= inject_Z (Qceiling (quotient hi o r)))%Q
    as H3 by lra.
  rewrite <- Zle_Qle in H3. lia.
Qed.

(** C7 (as amended).  For a positive resolution and bounds within the range
    of the numbers, the four integer fields are the floor and ceiling
    expressions of the constructor, on the quotients as the floating-point
    operations give them (the difference rounded to a double, then the
    quotient); the window has no negative size; its cells are exactly the
    cells whose open unit square, in grid coordinates, meets the box of these
    four quotients; where the quotients are computed without rounding error,
    these are the cells whose open rectangle meets the bounds; a view is
    [sameAs] the view built from the same inputs; and two views are [sameAs]
    each other exactly when the resolutions and the four floor and ceiling
    values agree, so that any change that shifts one of them is seen. *)
Theorem GridView_window (r ox oy : Q) (b : LatLngBounds) :
  (0 < r)%Q → (getWest b <= getEast b)%Q → (getSouth b <= getNorth b)%Q →
  inRange r ox oy b →
  let v := new r ox oy b in
  (minX v = Qfloor (quotient (getWest b) ox r) ∧
   minY v = Qfloor (quotient (getSouth b) oy r) ∧
   stepsX v = (Qceiling (quotient (getEast b) ox r) - minX v)%Z ∧
   stepsY v = (Qceiling (quotient (getNorth b) oy r) - minY v)%Z) ∧
  ((0 <= stepsX v)%Z ∧ (0 <= stepsY v)%Z) ∧
  (∀ x y, (x, y) ∈ cells v ↔ covers r ox oy b x y) ∧
  (exact r ox oy b → ∀ x y, (x, y) ∈ cells v ↔ overlaps r ox oy b x y) ∧
  sameAs v (new r ox oy b) = true ∧
  (∀ r' ox' oy' b',
     sameAs v (new r' ox' oy' b') = true ↔
     (r' == r)%Q ∧
     Qfloor (quotient (getWest b') ox' r') = Qfloor (quotient (getWest b) ox r) ∧
     Qfloor (quotient (getSouth b') oy' r') = Qfloor (quotient (getSouth b) oy r) ∧
     Qceiling (quotient (getEast b') ox' r') = Qceiling (quotient (getEast b) ox r) ∧
     Qceiling (quotient (getNorth b') oy' r') = Qceiling (quotient (getNorth b) oy r)).
Proof.
  intros Hr Hwe Hsn _ v. split; [done|]. split; [|split; [|split; [|split]]].
  - split; [by apply steps_nonneg|by apply steps_nonneg].
  - intros x y. apply elem_of_cells_covers.
  - intros (HW & HS & HE & HN) x y. rewrite elem_of_cells. unfold v, overlaps, new.
    cbn [minX minY stepsX stepsY]. rewrite HW, HS, HE, HN.
    pose proof (axis_window r ox (getWest b) (getEast b) x Hr) as Hx.
    pose proof (axis_window r oy (getSouth b) (getNorth b) y Hr) as Hy.
    split.
    + intros [H1 H2]. split_and!; [apply Hx|apply Hx|apply Hy|apply Hy]; lia.
    + intros (H1 & H2 & H3 & H4).
      assert (Hx' := proj2 Hx (conj H1 H2)). assert (Hy' := proj2 Hy (conj H3 H4)).
      lia.
  - apply sameAs_true. split; [apply Qeq_refl|done].
  - intros r' ox' oy' b'. rewrite sameAs_true. unfold v, new.
    cbn [resolution minX minY stepsX stepsY].
    split; intros (? & ? & ? & ? & ?); repeat split; try done; lia.
Qed.

Lemma unitBox_inRange : inRange 1 0 0 unitBox.
Proof. repeat split; vm_compute; congruence. Qed.

Lemma halfBox_inRange : inRange tenth 0 0 halfBox.
Proof. repeat split; vm_compute; congruence. Qed.

(** C7 as it is worded fails, in two ways.  The cell (1, 0) of the unit grid
    shares the edge x = 1 with the box [0, 1] x [0, 1], so its rectangle
    intersects the bounds, and the window holds the cell (0, 0) only.  And
    with cells of side 0.1 (the double nearest to one tenth, which is a little
    more) and bounds that start at west = 0.5, the cell (4, 0) reaches beyond
    0.5 into the bounds, but the quotient 0.5 / 0.1 is rounded to 5 and the
    window starts at the column 5. *)
Lemma GridView_window_counterexample :
  ¬ (∀ r ox oy b, (0 < r)%Q → (getWest b <= getEast b)%Q →
       (getSouth b <= getNorth b)%Q → inRange r ox oy b →
       ∀ x y, (x, y) ∈ cells (new r ox oy b) ↔ intersects r ox oy b x y) ∧
  ¬ (∀ r ox oy b, (0 < r)%Q → (getWest b <= getEast b)%Q →
       (getSouth b <= getNorth b)%Q → inRange r ox oy b →
       ∀ x y, (x, y) ∈ cells (new r ox oy b) ↔ overlaps r ox oy b x y).
Proof.
  split; intros H.
  - specialize (H 1%Q 0%Q 0%Q unitBox ltac:(done) ltac:(done) ltac:(done)
                  unitBox_inRange 1%Z 0%Z).
    destruct H as [_ H].
    assert (intersects 1 0 0 unitBox 1 0) as Hi
      by (unfold intersects; simpl; repeat split; done).
    apply H, elem_of_cells in Hi. vm_compute in Hi. destruct Hi as [[_ Hi] _].
    done.
  - specialize (H tenth 0%Q 0%Q halfBox ltac:(done) ltac:(done) ltac:(done)
                  halfBox_inRange 4%Z 0%Z).
    destruct H as [_ H].
    assert (overlaps tenth 0 0 halfBox 4 0) as Hi
      by (unfold overlaps; repeat split; vm_compute; done).
    apply H, elem_of_cells in Hi. vm_compute in Hi. destruct Hi as [[Hi _] _].
    done.
Qed.

Lemma GridView_window_witness :
  ((1, 0)%Z ∈ cells (new 10 0 0 sampleBounds) ↔ covers 10 0 0 sampleBounds 1 0) ∧
  ((1, 0)%Z ∈ cells (new 10 0 0 sampleBounds) ↔ overlaps 10 0 0 sampleBounds 1 0).
Proof.
  assert (0 < 10)%Q as Hr by done.
  assert (getWest sampleBounds <= getEast sampleBounds)%Q as Hx by done.
  assert (getSouth sampleBounds <= getNorth sampleBounds)%Q as Hy by done.
  assert (inRange 10 0 0 sampleBounds) as Hin
    by (repeat split; vm_compute; congruence).
  assert (exact 10 0 0 sampleBounds) as Hex
    by (repeat split; vm_compute; reflexivity).
  destruct (GridView_window 10 0 0 sampleBounds Hr Hx Hy Hin)
    as (_ & _ & Hc & Ho & _).
  split; [apply Hc|apply (Ho Hex)].
Defined.

End GridViewClaims.

(** ** Selection of the level of detail *)

Section Selection.
Import TiledGeoJSON.

Implicit Types (c b : nat * Lod.t) (l : list (nat * Lod.t)).

(** The first loop keeps a candidate that is valid for the zoom and is below
    every valid candidate seen so far. *)
Lemma fold_tighter zoom l acc :
  (∀ a, acc = Some a → (zoom <= maxZoomOf a)%Z) →
  match fold_left (tighter zoom) l acc with
  | Some c =>
      (c ∈ l ∨ acc = Some c) ∧ (zoom <= maxZoomOf c)%Z ∧
      (∀ c', c' ∈ l → (zoom <= maxZoomOf c')%Z → (maxZoomOf c <= maxZoomOf c')%Z) ∧
      (∀ a, acc = Some a → (maxZoomOf c <= maxZoomOf a)%Z)
  | None => acc = None ∧ ∀ c', c' ∈ l → (maxZoomOf c' < zoom)%Z
  end.
Proof.
  revert acc. induction l as [|x l IH]; intros acc Hacc; simpl.
  - destruct acc as [a|].
    + split_and!; [by right|by apply Hacc| |].
      * intros c' Hc'. by apply elem_of_nil in Hc'.
      * intros ? [= <-]. lia.
    + split; [done|]. intros c' Hc'. by apply elem_of_nil in Hc'.
  - specialize (IH (tighter zoom acc x)).
    assert (∀ a, tighter zoom acc x = Some a → (zoom <= maxZoomOf a)%Z) as Hacc'.
    { intros a. unfold tighter.
      destruct (zoom <=? maxZoomOf x)%Z eqn:Hz; simpl.
      - destruct acc as [b|].
        + destruct (maxZoomOf x <? maxZoomOf b)%Z; intros [= <-]; [lia|by apply Hacc].
        + intros [= <-]. lia.
      - apply Hacc. }
    specialize (IH Hacc').
    destruct (fold_left (tighter zoom) l (tighter zoom acc x)) as [c|].
    + destruct IH as (Hin & Hz & Hmin & Hle). split_and!; [|done| |].
      * destruct Hin as [Hin|Hin]; [left; apply elem_of_cons; by right|].
        unfold tighter in Hin.
        destruct ((zoom <=? maxZoomOf x)%Z && _); [|by right].
        left. apply elem_of_cons. left. congruence.
      * intros c' Hc' Hzc'. apply elem_of_cons in Hc' as [->|Hc']; [|by apply Hmin].
        unfold tighter in Hle. destruct acc as [b|].
        -- destruct (zoom <=? maxZoomOf x)%Z eqn:E1; [|lia]. simpl in Hle.
           destruct (maxZoomOf x <? maxZoomOf b)%Z eqn:E2.
           ++ by apply Hle.
           ++ specialize (Hle b eq_refl). lia.
        -- destruct (zoom <=? maxZoomOf x)%Z eqn:E1; [|lia]. simpl in Hle.
           by apply Hle.
      * intros a ->. unfold tighter in Hle.
        destruct (zoom <=? maxZoomOf x)%Z eqn:E1; simpl in Hle.
        -- destruct (maxZoomOf x <? maxZoomOf a)%Z eqn:E2.
           ++ specialize (Hle x eq_refl). lia.
           ++ by apply Hle.
        -- by apply Hle.
    + destruct IH as [Hn Hall]. unfold tighter in Hn.
      destruct (zoom <=? maxZoomOf x)%Z eqn:E1; simpl in Hn.
      * destruct acc as [b|]; [|done].
        destruct (maxZoomOf x <? maxZoomOf b)%Z; done.
      * split; [done|]. intros c' Hc'.
        apply elem_of_cons in Hc' as [->|Hc']; [lia|by apply Hall].
Qed.

(** The second loop keeps a candidate that is above every candidate seen. *)
Lemma fold_larger l acc :
  match fold_left larger l acc with
  | Some c =>
      (c ∈ l ∨ acc = Some c) ∧
      (∀ c', c' ∈ l → (maxZoomOf c' <= maxZoomOf c)%Z) ∧
      (∀ a, acc = Some a → (maxZoomOf a <= maxZoomOf c)%Z)
  | None => acc = None ∧ l = []
  end.
Proof.
  revert acc. induction l as [|x l IH]; intros acc; simpl.
  - destruct acc as [a|]; [|done]. split_and!; [by right| |].
    + intros c' Hc'. by apply elem_of_nil in Hc'.
    + intros ? [= <-]. lia.
  - specialize (IH (larger acc x)).
    destruct (fold_left larger l (larger acc x)) as [c|].
    + destruct IH as (Hin & Hmax & Hge). split_and!.
      * destruct Hin as [Hin|Hin]; [left; apply elem_of_cons; by right|].
        unfold larger in Hin. destruct acc as [b|].
        -- destruct (maxZoomOf x >? maxZoomOf b)%Z; [left; apply elem_of_cons; left; congruence|by right].
        -- left. apply elem_of_cons. left. congruence.
      * intros c' Hc'. apply elem_of_cons in Hc' as [->|Hc']; [|by apply Hmax].
        unfold larger in Hge. destruct acc as [b|].
        -- destruct (maxZoomOf x >? maxZoomOf b)%Z eqn:E.
           ++ by apply Hge.
           ++ specialize (Hge b eq_refl). lia.
        -- by apply Hge.
      * intros a ->. unfold larger in Hge.
        destruct (maxZoomOf x >? maxZoomOf a)%Z eqn:E.
        -- specialize (Hge x eq_refl). lia.
        -- by apply Hge.
    + destruct IH as [Hn _]. unfold larger in Hn.
      destruct acc as [b|]; [|done].
      destruct (maxZoomOf x >? maxZoomOf b)%Z; done.
Qed.

Lemma elem_of_candidates (lods : list Lod.t) c :
  c ∈ imap pair lods ↔ lods !! c.1 = Some c.2.
Proof.
  rewrite elem_of_lookup_imap. split.
  - intros (i & y & -> & H). done.
  - intros H. exists c.1, c.2. by destruct c.
Qed.

Lemma chooseBestLod_cases (zoom : Z) (lods : list Lod.t) :
  lods ≠ [] →
  ∃ i lod,
    chooseBestLod zoom lods = Some (i, lod) ∧ lods !! i = Some lod ∧
    let m := LodMeta.maxZoom (Lod.meta lod) in
    ((zoom <= m)%Z ∧
     ∀ lod', lod' ∈ lods → (zoom <= LodMeta.maxZoom (Lod.meta lod'))%Z →
             (m <= LodMeta.maxZoom (Lod.meta lod'))%Z)
    ∨
    ((∀ lod', lod' ∈ lods → (LodMeta.maxZoom (Lod.meta lod') < zoom)%Z) ∧
     ∀ lod', lod' ∈ lods → (LodMeta.maxZoom (Lod.meta lod') <= m)%Z).
Proof.
  intros Hne. unfold chooseBestLod.
  assert (∀ lod', lod' ∈ lods → ∃ j, (j, lod') ∈ imap pair lods) as Hcand.
  { intros lod' H. apply list_elem_of_lookup in H as [j Hj]. exists j.
    by apply elem_of_candidates. }
  pose proof (fold_tighter zoom (imap pair lods) None) as H1.
  destruct (fold_left (tighter zoom) (imap pair lods) None) as [[i lod]|].
  - destruct H1 as ([Hin|?] & Hz & Hmin & _); [done| |done].
    apply elem_of_candidates in Hin. exists i, lod. split_and!; [done..|].
    left. split; [done|]. intros lod' Hl Hz'.
    destruct (Hcand _ Hl) as [j Hj]. by apply (Hmin (j, lod')).
  - destruct H1 as [_ Hall]; [done|].
    pose proof (fold_larger (imap pair lods) None) as H2.
    destruct (fold_left larger (imap pair lods) None) as [[i lod]|].
    + destruct H2 as ([Hin|?] & Hmax & _); [|done].
      apply elem_of_candidates in Hin. exists i, lod. split_and!; [done..|].
      right. split; intros lod' Hl; destruct (Hcand _ Hl) as [j Hj].
      * by apply (Hall (j, lod')).
      * by apply (Hmax (j, lod')).
    + destruct H2 as [_ H2]. destruct lods; [done|discriminate].
Qed.

End Selection.

Section SelectionClaim.
Import TiledGeoJSON.

(** C6.  With at least one level of detail, and z the zoom of the map plus 1
    when the retina option is on and the display is of high density (the zoom
    of the map otherwise), the selection returns a level of detail of the
    list; its maximum zoom is the smallest among the maximum zooms that are at
    least z, or, when no maximum zoom is at least z, the largest of all.  For
    the maximum zooms 2, 4 and 6: z = 3 selects 4, z = 7 selects 6 and z = 2
    selects 2. *)
Theorem lod_selection (this : TiledGeoJSON.t) (retina : bool) (map : Map) :
  lods this ≠ [] →
  let z := effectiveZoom this retina map in
  (detectRetina (options this) = Some true ∧ retina = true → z = (getZoom map + 1)%Z) ∧
  (¬ (detectRetina (options this) = Some true ∧ retina = true) → z = getZoom map) ∧
  (∃ m, selects z (lods this) m ∧
        (((z <= m)%Z ∧
          ∀ lod', lod' ∈ lods this → (z <= LodMeta.maxZoom (Lod.meta lod'))%Z →
                  (m <= LodMeta.maxZoom (Lod.meta lod'))%Z)
         ∨
         ((∀ lod', lod' ∈ lods this → (LodMeta.maxZoom (Lod.meta lod') < z)%Z) ∧
          ∀ lod', lod' ∈ lods this → (LodMeta.maxZoom (Lod.meta lod') <= m)%Z))) ∧
  (let sample := lodOfMaxZoom <$> [2; 4; 6]%Z in
   selects 3 sample 4 ∧ selects 7 sample 6 ∧ selects 2 sample 2).
Proof.
  intros Hne z. split_and!.
  - intros [Hd ->]. unfold z, effectiveZoom. by rewrite Hd.
  - intros Hn. unfold z, effectiveZoom.
    destruct (detectRetina (options this)) as [[]|], retina; simpl; try lia.
    by destruct Hn.
  - destruct (chooseBestLod_cases z (lods this) Hne) as (i & lod & Hc & Hl & H).
    exists (LodMeta.maxZoom (Lod.meta lod)). split; [by exists i, lod|done].
  - split_and!; eexists _, _; (split_and!; [vm_compute; reflexivity|reflexivity..]).
Qed.

Lemma lod_selection_witness :
  ∃ m, selects 3 (lodOfMaxZoom <$> [2; 4; 6]%Z) m ∧ (3 <= m)%Z.
Proof.
  destruct (lod_selection
              {| options := {| detectRetina := Some true |}; meta := None;
                 lods := lodOfMaxZoom <$> [2; 4; 6]%Z; activeLod := None;
                 layers := ∅; _map := None |}
              false {| getZoom := 3; getBounds := sampleBounds |})
    as (_ & _ & (m & Hs & [[Hm _]|[Hlt _]]) & _).
  - simpl. discriminate.
  - exists m. split; [exact Hs|exact Hm].
  - exfalso. specialize (Hlt (lodOfMaxZoom 4)).
    simpl in Hlt. unfold effectiveZoom in Hlt. simpl in Hlt.
    assert (4 < 3)%Z; [|lia]. apply Hlt. apply elem_of_cons; right.
    apply elem_of_cons; by left.
Defined.

End SelectionClaim.

(** ** Retries of the two fetches *)

Section Retries.

(** A failed attempt at a tile leaves the level of detail as it was, writes
    the retry time to the console and sets one timer: after [retryTime]
    seconds, with the doubled retry time. *)
Lemma Tile_loadTile_failure key response retryTime (lod : Lod.t) (h : Host) :
  failure response →
  Tile_loadTile key response retryTime (lod, h) =
  (Fulfilled tt,
   (lod, {| console := console h ++ [retryTime];
            timers := timers h ++ [((retryTime * 1000)%Z, (retryTime * 2)%Z)] |})).
Proof.
  unfold failure, Tile_loadTile, catch_, then_, settled, retryLater.
  destruct response as [[[[features|]|]]|]; simpl; done.
Qed.

(** The same for the metadata, once the fetch itself has answered. *)
Lemma TiledGeoJSON_loadMeta_failure retina response retryTime
    (this : TiledGeoJSON.t) (h : Host) :
  failureAfterResponse response →
  TiledGeoJSON_loadMeta retina response retryTime (this, h) =
  (Fulfilled tt,
   (this, {| console := console h ++ [retryTime];
             timers := timers h ++ [((retryTime * 1000)%Z, (retryTime * 2)%Z)] |})).
Proof.
  unfold failureAfterResponse, TiledGeoJSON_loadMeta, catch_, then_, settled,
    retryLater.
  destruct response as [[[[m|]|]]|]; simpl; done.
Qed.

Lemma retryDelays_doubling {S R : Type}
    (load : R → Z → Promise.t (S * Host) unit) (bad : R → Prop) :
  (∀ r retryTime s, bad r →
     load r retryTime (s, idle) =
     (Fulfilled tt,
      (s, {| console := [retryTime];
             timers := [((retryTime * 1000)%Z, (retryTime * 2)%Z)] |}))) →
  ∀ responses retryTime s,
    Forall bad responses →
    retryDelays load responses retryTime s =
    (λ n, (retryTime * 2 ^ Z.of_nat n * 1000)%Z) <$> seq 0 (length responses).
Proof.
  intros Hload responses. induction responses as [|r rs IH]; intros rt s Hall.
  - done.
  - apply Forall_cons in Hall as [Hr Hrs]. simpl.
    rewrite (Hload r rt s Hr). simpl. f_equal; [lia|].
    rewrite (IH _ _ Hrs). rewrite <- fmap_S_seq, <- list_fmap_compose.
    apply list_fmap_ext. intros _ n _. simpl.
    rewrite Nat2Z.inj_succ, Z.pow_succ_r by lia. lia.
Qed.

(** Consecutive failures of the load of a tile, of any kind: the delays start
    at the base delay and double, without end. *)
Lemma Tile_loadTile_backoff key responses (lod : Lod.t) :
  Forall failure responses →
  retryDelays (Tile_loadTile key) responses baseRetryTime lod =
  backoffDelay <$> seq 0 (length responses).
Proof.
  intros H. apply (retryDelays_doubling _ failure); [|done].
  intros r rt s Hr. by rewrite Tile_loadTile_failure.
Qed.

(** Consecutive failures of the load of the metadata that come after the
    answer of the fetch: the same delays. *)
Lemma TiledGeoJSON_loadMeta_backoff retina responses (this : TiledGeoJSON.t) :
  Forall failureAfterResponse responses →
  retryDelays (TiledGeoJSON_loadMeta retina) responses baseRetryTime this =
  backoffDelay <$> seq 0 (length responses).
Proof.
  intros H. apply (retryDelays_doubling _ failureAfterResponse); [|done].
  intros r rt s Hr. by rewrite TiledGeoJSON_loadMeta_failure.
Qed.

(** C4, at the failing input.  When the fetch of the metadata itself is
    rejected (a network failure), the [catch] of [loadMeta], which hangs on the
    inner promise of [response.text()], is not reached: the promise stays
    rejected, nothing is written to the console and no timer is set, so no
    retry follows, whatever the later answers would be.  The same failure of
    the fetch of a tile is logged and retried after the base delay, then after
    twice the base delay. *)
Theorem loadMeta_rejected_fetch_not_retried
    (retina : bool) (this : TiledGeoJSON.t) (retryTime : Z) (key : string)
    (lod : Lod.t) responses :
  failure (@Rejected (Response TiledGeoJSONMeta.t)) ∧
  TiledGeoJSON_loadMeta retina Rejected retryTime (this, idle) =
    (Rejected, (this, idle)) ∧
  retryDelays (TiledGeoJSON_loadMeta retina) (Rejected :: responses)
    baseRetryTime this = [] ∧
  retryDelays (Tile_loadTile key) [Rejected; Rejected] baseRetryTime lod =
    [1000; 2000]%Z.
Proof.
  split_and!; [done..|].
  rewrite Tile_loadTile_backoff; [done|]. by repeat constructor.
Qed.

End Retries.

(** ** Tiles: what the methods change *)

Section TileFacts.
Import Tile.

Lemma addLayer_static l this : Tile_static (addLayer l this) = Tile_static this.
Proof. by destruct l. Qed.

Lemma addLayer_masked l this :
  maskedFeatures (addLayer l this) = maskedFeatures this.
Proof. by destruct l. Qed.

Lemma removeLayer_static l this : Tile_static (removeLayer l this) = Tile_static this.
Proof. by destruct l. Qed.

Lemma maskFeature_static fid this :
  Tile_static (maskFeature fid this) = Tile_static this.
Proof.
  unfold maskFeature. destruct (featureCollection this) eqn:E; [|done].
  by rewrite removeLayer_static.
Qed.

Lemma unmaskFeature_static fid this :
  Tile_static (unmaskFeature fid this) = Tile_static this.
Proof.
  unfold unmaskFeature. destruct (maskedFeatures this !! fid); [|done].
  by rewrite addLayer_static.
Qed.

Lemma unmaskFeature_masked fid this :
  maskedFeatures (unmaskFeature fid this) = delete fid (maskedFeatures this).
Proof.
  unfold unmaskFeature. destruct (maskedFeatures this !! fid) eqn:E.
  - by rewrite addLayer_masked.
  - by rewrite delete_id.
Qed.

Lemma unmaskFeature_not_masked fid this : ¬ masked fid (unmaskFeature fid this).
Proof.
  unfold masked. rewrite unmaskFeature_masked, lookup_delete_eq.
  by intros [? ?].
Qed.


(** The layer that [unmaskFeature] puts back, if any. *)
Lemma unmaskFeature_fields fid tile :
  ∃ added : option Layer,
    (added = match maskedFeatures tile !! fid with
             | Some _ => featureLayers tile !! Some fid
             | None => None
             end) ∧
    layers (unmaskFeature fid tile) =
      match added with Some l => {[l]} ∪ layers tile | None => layers tile end ∧
    featureLayers (unmaskFeature fid tile) =
      match added with
      | Some l => <[layerFid tile l := l]> (featureLayers tile)
      | None => featureLayers tile
      end.
Proof.
  unfold unmaskFeature. destruct (maskedFeatures tile !! fid); simpl.
  - destruct (featureLayers tile !! Some fid) as [l|]; simpl.
    + by exists (Some l).
    + by exists None.
  - by exists None.
Qed.





End TileFacts.

(** ** The registry loops: frames and holder sequences *)

Section RegistryFrames.
Import Lod.

Lemma sameTiles_refl s : sameTiles s s.
Proof. by repeat split. Qed.

Lemma sameTiles_trans s1 s2 s3 : sameTiles s1 s2 → sameTiles s2 s3 → sameTiles s1 s3.
Proof.
  intros (?&?&?&?&Ha) (?&?&?&?&Hb). unfold sameTiles.
  split_and!; [congruence..|]. intros k. by rewrite Hb, Ha.
Qed.

Lemma onTile_lookup key f s k :
  tiles (onTile key f s) !! k =
  if decide (key = k) then f <$> tiles s !! k else tiles s !! k.
Proof.
  unfold onTile. simpl. destruct (decide (key = k)) as [->|].
  - by rewrite lookup_alter_eq.
  - by rewrite lookup_alter_ne.
Qed.

Lemma onTile_sameTiles key f s :
  (∀ tile, Tile_static (f tile) = Tile_static tile) → sameTiles s (onTile key f s).
Proof.
  intros Hf. repeat split. intros k. rewrite onTile_lookup.
  case_decide; [|done]. destruct (tiles s !! k); simpl; [|done]. by rewrite Hf.
Qed.

Lemma set_featureHolders_sameTiles h s : sameTiles s (set_featureHolders h s).
Proof. by repeat split. Qed.

Lemma addFeatureHolder_sameTiles key s feature :
  sameTiles s (addFeatureHolder key s feature).
Proof.
  unfold addFeatureHolder. destruct (__fid feature) as [fid|]; [|apply sameTiles_refl].
  eapply sameTiles_trans; [|apply set_featureHolders_sameTiles].
  destruct (default [] (featureHolders s !! fid)); [apply sameTiles_refl|].
  apply onTile_sameTiles, maskFeature_static.
Qed.

Lemma removeFeatureHolder_sameTiles key s feature :
  sameTiles s (removeFeatureHolder key s feature).
Proof.
  unfold removeFeatureHolder. destruct (__fid feature) as [fid|]; [|apply sameTiles_refl].
  destruct (featureHolders s !! fid) as [hs|]; [|apply sameTiles_refl].
  assert (∀ s0, sameTiles s0 (onTile key (Tile.unmaskFeature fid) s0)) as Hu
    by (intros; apply onTile_sameTiles, unmaskFeature_static).
  destruct (bool_decide (head hs = Some key)); simpl.
  - destruct (filter _ hs) as [|next ?].
    + apply set_featureHolders_sameTiles.
    + eapply sameTiles_trans; [apply set_featureHolders_sameTiles|].
      apply onTile_sameTiles, unmaskFeature_static.
  - eapply sameTiles_trans; [apply Hu|].
    destruct (filter _ hs); apply set_featureHolders_sameTiles.
Qed.

Lemma fold_sameTiles (f : t → Feature → t) features s :
  (∀ s feature, sameTiles s (f s feature)) → sameTiles s (fold_left f features s).
Proof.
  intros Hf. revert s. induction features as [|x l IH]; intros s; simpl.
  - apply sameTiles_refl.
  - eapply sameTiles_trans; [apply Hf|apply IH].
Qed.

Lemma addFeatureHolders_sameTiles key s : sameTiles s (addFeatureHolders key s).
Proof.
  unfold addFeatureHolders. destruct (_ ≫= _); [|apply sameTiles_refl].
  apply fold_sameTiles, addFeatureHolder_sameTiles.
Qed.

Lemma sameTiles_lookup s s' k tile :
  sameTiles s s' → tiles s !! k = Some tile →
  ∃ tile', tiles s' !! k = Some tile' ∧ Tile_static tile' = Tile_static tile.
Proof.
  intros (_&_&_&_&H) Hk. specialize (H k). rewrite Hk in H.
  destruct (tiles s' !! k) as [tile'|]; [|done]. exists tile'. split; [done|].
  simpl in H. congruence.
Qed.

Lemma static_fulfilled tile tile' :
  Tile_static tile' = Tile_static tile → Tile.fulfilled tile' = Tile.fulfilled tile.
Proof. unfold Tile_static. congruence. Qed.

Lemma static_collection tile tile' :
  Tile_static tile' = Tile_static tile →
  Tile.featureCollection tile' = Tile.featureCollection tile.
Proof. unfold Tile_static. congruence. Qed.

(** The holder sequences after one step of [removeFeatureHolders]. *)
Lemma removeFeatureHolder_holders key s feature fid :
  featureHolders (removeFeatureHolder key s feature) !! fid =
  if decide (__fid feature = Some fid)
  then filter (λ k, k ≠ key) <$> featureHolders s !! fid
  else featureHolders s !! fid.
Proof.
  unfold removeFeatureHolder. destruct (__fid feature) as [fid0|]; [|by case_decide].
  destruct (featureHolders s !! fid0) as [hs|] eqn:E.
  - cbv zeta. remember (filter (λ k, k ≠ key) hs) as hs' eqn:Hhs'.
    transitivity (<[fid0 := hs']> (featureHolders s) !! fid);
      [by destruct (bool_decide (head hs = Some key)), hs'|].
    subst hs'.
    case_decide as Hd.
    + injection Hd as ->. by rewrite lookup_insert_eq, E.
    + rewrite lookup_insert_ne; [done|congruence].
  - case_decide as Hd; [|done]. injection Hd as ->. by rewrite E.
Qed.

Lemma filter_ne_idemp (key : string) (hs : list string) :
  filter (λ k, k ≠ key) (filter (λ k, k ≠ key) hs) = filter (λ k, k ≠ key) hs.
Proof.
  induction hs as [|h hs IH]; [done|].
  rewrite filter_cons. case_decide; [|done].
  rewrite filter_cons. case_decide; [|done]. by rewrite IH.
Qed.

Lemma fids_cons feature features :
  fids (feature :: features) =
  match __fid feature with
  | Some fid => fid :: fids features
  | None => fids features
  end.
Proof. unfold fids. simpl. by destruct (__fid feature). Qed.

(** The holder sequences after the loop of [removeFeatureHolders]. *)
Lemma fold_removeFeatureHolder_holders key features s fid :
  featureHolders (fold_left (removeFeatureHolder key) features s) !! fid =
  if bool_decide (fid ∈ fids features)
  then filter (λ k, k ≠ key) <$> featureHolders s !! fid
  else featureHolders s !! fid.
Proof.
  revert s. induction features as [|x l IH]; intros s.
  - rewrite bool_decide_eq_false_2; [done|]. apply not_elem_of_nil.
  - cbn [fold_left]. rewrite IH, removeFeatureHolder_holders, fids_cons.
    destruct (__fid x) as [fid0|] eqn:E.
    + destruct (decide (fid ∈ fids l)) as [Hin|Hin].
      * rewrite (bool_decide_eq_true_2 _ Hin).
        rewrite (bool_decide_eq_true_2 (fid ∈ fid0 :: fids l))
          by (apply elem_of_cons; by right).
        destruct (decide (Some fid0 = Some fid)); [|done].
        destruct (featureHolders s !! fid); simpl; [|done].
        by rewrite filter_ne_idemp.
      * rewrite (bool_decide_eq_false_2 _ Hin).
        destruct (decide (fid0 = fid)) as [->|Hne].
        -- rewrite decide_True by done.
           by rewrite (bool_decide_eq_true_2 (fid ∈ fid :: fids l))
             by (apply elem_of_cons; by left).
        -- rewrite decide_False by congruence.
           rewrite (bool_decide_eq_false_2 (fid ∈ fid0 :: fids l)); [done|].
           intros H. apply elem_of_cons in H as [?|?]; congruence.
    + rewrite decide_False by done. done.
Qed.

End RegistryFrames.

(** ** The loop of removeFeatureHolders: masks *)

Section RemoveMasks.
Import Lod.

Lemma removeFeatureHolder_tiles key s feature :
  tiles (removeFeatureHolder key s feature) =
  match unmaskTarget key s feature with
  | Some (target, fid) => alter (Tile.unmaskFeature fid) target (tiles s)
  | None => tiles s
  end.
Proof.
  unfold removeFeatureHolder, unmaskTarget.
  destruct (__fid feature) as [fid|]; [|done]. simpl.
  destruct (featureHolders s !! fid) as [hs|]; [|done]. simpl.
  destruct (bool_decide (head hs = Some key)); simpl.
  - by destruct (filter _ hs).
  - by destruct (filter _ hs).
Qed.

Lemma unmaskTarget_fid key s feature target fid :
  unmaskTarget key s feature = Some (target, fid) → __fid feature = Some fid.
Proof.
  unfold unmaskTarget. destruct (__fid feature); simpl; [|done].
  destruct (featureHolders s !! _); simpl; [|done].
  destruct (if bool_decide _ then _ else _); simpl; congruence.
Qed.

Lemma maskOf_alter_unmask target fid0 s s' k fid :
  tiles s' = alter (Tile.unmaskFeature fid0) target (tiles s) →
  maskOf s' k fid =
  if decide (target = k ∧ fid0 = fid) then None else maskOf s k fid.
Proof.
  intros Ht. unfold maskOf. rewrite Ht.
  destruct (decide (target = k)) as [->|Hne].
  - rewrite lookup_alter_eq. destruct (tiles s !! k) as [tile|]; simpl.
    + rewrite unmaskFeature_masked. destruct (decide (fid0 = fid)) as [->|Hf].
      * rewrite decide_True by done. apply lookup_delete_eq.
      * rewrite decide_False by tauto. by apply lookup_delete_ne.
    + by case_decide.
  - rewrite lookup_alter_ne by done. rewrite decide_False by tauto. done.
Qed.

(** A step for another identifier leaves the masks of this one alone. *)
Lemma removeFeatureHolder_maskOf_other key s feature k fid :
  __fid feature ≠ Some fid →
  maskOf (removeFeatureHolder key s feature) k fid = maskOf s k fid.
Proof.
  intros Hne. pose proof (removeFeatureHolder_tiles key s feature) as Ht.
  destruct (unmaskTarget key s feature) as [[target fid0]|] eqn:E.
  - rewrite (maskOf_alter_unmask _ _ _ _ _ _ Ht).
    apply unmaskTarget_fid in E. rewrite decide_False; [done|].
    intros [_ ->]. done.
  - unfold maskOf. by rewrite Ht.
Qed.

(** A step for this identifier, the hidden tile not being its first holder:
    the hidden tile is unmasked, no other tile changes. *)
Lemma removeFeatureHolder_maskOf_later key s feature k fid hs :
  __fid feature = Some fid → featureHolders s !! fid = Some hs →
  head hs ≠ Some key →
  maskOf (removeFeatureHolder key s feature) k fid =
  if decide (k = key) then None else maskOf s k fid.
Proof.
  intros Hf Hh Hhead. pose proof (removeFeatureHolder_tiles key s feature) as Ht.
  unfold unmaskTarget in Ht. rewrite Hf in Ht. simpl in Ht. rewrite Hh in Ht.
  simpl in Ht. rewrite bool_decide_eq_false_2 in Ht by done. simpl in Ht.
  rewrite (maskOf_alter_unmask _ _ _ _ _ _ Ht).
  destruct (decide (k = key)) as [->|Hne].
  - by rewrite decide_True.
  - rewrite decide_False; [done|]. intros [-> _]. done.
Qed.

(** A step for this identifier, the hidden tile being its first holder: the
    next holder is unmasked, no other tile changes. *)
Lemma removeFeatureHolder_maskOf_first key s feature k fid hs :
  __fid feature = Some fid → featureHolders s !! fid = Some hs →
  head hs = Some key →
  maskOf (removeFeatureHolder key s feature) k fid =
  if decide (head (filter (λ k', k' ≠ key) hs) = Some k) then None
  else maskOf s k fid.
Proof.
  intros Hf Hh Hhead. pose proof (removeFeatureHolder_tiles key s feature) as Ht.
  unfold unmaskTarget in Ht. rewrite Hf in Ht. simpl in Ht. rewrite Hh in Ht.
  simpl in Ht. rewrite bool_decide_eq_true_2 in Ht by done.
  destruct (head (filter _ hs)) as [next|] eqn:E; simpl in Ht.
  - rewrite (maskOf_alter_unmask _ _ _ _ _ _ Ht).
    destruct (decide (next = k)) as [->|Hne].
    + by rewrite !decide_True.
    + rewrite !decide_False; [done|congruence|tauto].
  - unfold maskOf. rewrite Ht. by rewrite decide_False.
Qed.



Lemma head_filter_keep (key : string) (hs : list string) :
  head hs ≠ Some key → head (filter (λ k, k ≠ key) hs) = head hs.
Proof.
  destruct hs as [|h hs]; [done|]. simpl. intros Hne.
  rewrite filter_cons_True; [done|]. congruence.
Qed.

(** While the hidden tile is not the first holder of the identifier, the loop
    changes the mask of the identifier in no other tile, and the hidden tile
    has the identifier unmasked once a feature with it has been passed. *)
Lemma fold_removeFeatureHolder_later key fid features s hs :
  featureHolders s !! fid = Some hs → head hs ≠ Some key →
  (∀ k, k ≠ key →
        maskOf (fold_left (removeFeatureHolder key) features s) k fid =
        maskOf s k fid) ∧
  (fid ∈ fids features ∨ maskOf s key fid = None →
   maskOf (fold_left (removeFeatureHolder key) features s) key fid = None).
Proof.
  revert s hs. induction features as [|x l IH]; intros s hs Hh Hhead.
  - split; [done|]. intros [H|H]; [by apply elem_of_nil in H|done].
  - cbn [fold_left].
    pose proof (removeFeatureHolder_holders key s x fid) as Hh'.
    rewrite Hh in Hh'. rewrite fids_cons.
    destruct (decide (__fid x = Some fid)) as [Hx|Hx].
    + simpl in Hh'.
      destruct (IH _ _ Hh') as [IH1 IH2];
        [rewrite head_filter_keep; done|].
      pose proof (removeFeatureHolder_maskOf_later key s x) as Hm.
      split.
      * intros k Hk. rewrite IH1 by done.
        rewrite (Hm k fid hs) by done. by rewrite decide_False.
      * intros _. apply IH2. right.
        rewrite (Hm key fid hs) by done. by rewrite decide_True.
    + destruct (IH _ _ Hh' Hhead) as [IH1 IH2].
      pose proof (removeFeatureHolder_maskOf_other key s x) as Hm.
      split.
      * intros k Hk. rewrite IH1 by done. by apply Hm.
      * intros H. apply IH2. rewrite Hm by done.
        destruct H as [H|H]; [|by right]. left.
        destruct (__fid x) as [fid0|]; [|done].
        apply elem_of_cons in H as [->|H]; [done|done].
Qed.

End RemoveMasks.

(** ** Showing and hiding: frames *)

Section ShowHide.
Import Lod.

Lemma hideTile_inactive x y s : tileKey x y ∉ activeTiles s → hideTile x y s = s.
Proof. intros H. unfold hideTile. by rewrite decide_False. Qed.

Lemma hideTile_unfulfilled x y s tile :
  tileKey x y ∈ activeTiles s → tiles s !! tileKey x y = Some tile →
  Tile.fulfilled tile = false →
  hideTile x y s = set_activeTiles (deactivate (tileKey x y) (activeTiles s)) s.
Proof.
  intros Ha Ht Hf. unfold hideTile. rewrite decide_True by done.
  by rewrite Ht, Hf.
Qed.

Lemma hideTile_fulfilled x y s tile features :
  tileKey x y ∈ activeTiles s → tiles s !! tileKey x y = Some tile →
  Tile.fulfilled tile = true → Tile.featureCollection tile = Some features →
  hideTile x y s =
  set_activeTiles (deactivate (tileKey x y) (activeTiles s))
    (fold_left (removeFeatureHolder (tileKey x y)) features
               (removeLayer (tileKey x y) s)).
Proof.
  intros Ha Ht Hf Hc. unfold hideTile. rewrite decide_True by done.
  rewrite Ht, Hf. unfold removeFeatureHolders. simpl. rewrite Ht. simpl.
  rewrite Hc.
  pose proof (fold_sameTiles (removeFeatureHolder (tileKey x y)) features
                (removeLayer (tileKey x y) s)
                (removeFeatureHolder_sameTiles (tileKey x y))) as (_&Hact&_).
  by rewrite Hact.
Qed.

Lemma not_elem_of_deactivate key (a : list string) : key ∉ deactivate key a.
Proof. unfold deactivate. intros H. by apply list_elem_of_filter in H as [? _]. Qed.

Lemma elem_of_deactivate key k (a : list string) :
  k ∈ deactivate key a ↔ k ≠ key ∧ k ∈ a.
Proof. unfold deactivate. by rewrite list_elem_of_filter. Qed.

Lemma showCell_active s x y : tileKey x y ∈ activeTiles s → showCell s (x, y) = s.
Proof.
  intros H. unfold showCell. simpl. by rewrite bool_decide_eq_true_2.
Qed.

End ShowHide.

Section FrameClaims.
Import Lod.

(** C3 (as amended).  A fulfilled active tile is hidden and is not the first
    holder of an identifier of its collection: its key leaves the holder
    sequence of the identifier, the feature is unmasked in the hidden tile
    itself, and its mask is left as it was in every other tile. *)
Theorem hideTile_not_first_holder s x y tile fid hs :
  tileKey x y ∈ activeTiles s → tiles s !! tileKey x y = Some tile →
  Tile.fulfilled tile = true → Tile.contains fid tile →
  featureHolders s !! fid = Some hs → head hs ≠ Some (tileKey x y) →
  featureHolders (hideTile x y s) !! fid = Some (filter (λ k, k ≠ tileKey x y) hs) ∧
  (tileKey x y ∉ filter (λ k, k ≠ tileKey x y) hs) ∧
  maskOf (hideTile x y s) (tileKey x y) fid = None ∧
  ∀ k, k ≠ tileKey x y → maskOf (hideTile x y s) k fid = maskOf s k fid.
Proof.
  intros Ha Ht Hf (features & Hc & Hin) Hh Hhead.
  rewrite (hideTile_fulfilled x y s tile features) by done.
  set (s0 := removeLayer (tileKey x y) s).
  assert (featureHolders s0 !! fid = Some hs) as Hh0 by done.
  destruct (fold_removeFeatureHolder_later (tileKey x y) fid features s0 hs Hh0 Hhead)
    as [H1 H2].
  split_and!.
  - simpl. rewrite fold_removeFeatureHolder_holders.
    by rewrite bool_decide_eq_true_2, Hh0.
  - intros H. by apply list_elem_of_filter in H as [? _].
  - apply H2. by left.
  - intros k Hk. by apply H1.
Qed.

Lemma hideTile_not_first_holder_witness :
  featureHolders (hideTile 1 0 sampleShared) !! 7%Z = Some ["0,0"] ∧
  maskOf (hideTile 1 0 sampleShared) "1,0" 7 = None ∧
  maskOf (hideTile 1 0 sampleShared) "0,0" 7 = maskOf sampleShared "0,0" 7.
Proof.
  destruct (hideTile_not_first_holder sampleShared 1 0
              (Tile.maskFeature 7 (Tile.loaded [feature7] (Tile.new "1,0" "h2")))
              7 ["0,0"; "1,0"])
    as (H1 & _ & H2 & H3).
  - vm_compute. apply elem_of_cons. right. apply elem_of_cons. by left.
  - vm_compute. reflexivity.
  - reflexivity.
  - exists [feature7]. split; [reflexivity|]. apply elem_of_cons. by left.
  - vm_compute. reflexivity.
  - vm_compute. congruence.
  - split_and!; [exact H1|exact H2|]. apply H3. vm_compute. congruence.
Defined.

(** C3 as it is worded fails: in the state where the tiles "0,0" and "1,0"
    both hold the feature 7 and "1,0" is its second holder, hiding "1,0"
    unmasks the feature in "1,0": the mask of the hidden tile changes. *)
Lemma hideTile_not_first_holder_counterexample :
  ¬ (∀ s x y tile fid hs,
       tileKey x y ∈ activeTiles s → tiles s !! tileKey x y = Some tile →
       Tile.fulfilled tile = true → Tile.contains fid tile →
       featureHolders s !! fid = Some hs → head hs ≠ Some (tileKey x y) →
       ∀ k t t', tiles s !! k = Some t → tiles (hideTile x y s) !! k = Some t' →
                 (Tile.masked fid t ↔ Tile.masked fid t')).
Proof.
  intros H.
  specialize (H sampleShared 1%Z 0%Z
                (Tile.maskFeature 7 (Tile.loaded [feature7] (Tile.new "1,0" "h2")))
                7%Z ["0,0"; "1,0"]).
  assert (tileKey 1 0 ∈ activeTiles sampleShared) as Ha.
  { vm_compute. apply elem_of_cons. right. apply elem_of_cons. by left. }
  assert (Tile.contains 7 (Tile.maskFeature 7 (Tile.loaded [feature7] (Tile.new "1,0" "h2")))) as Hc.
  { exists [feature7]. split; [reflexivity|]. apply elem_of_cons. by left. }
  specialize (H Ha ltac:(vm_compute; reflexivity) eq_refl Hc
                ltac:(vm_compute; reflexivity) ltac:(vm_compute; congruence)
                "1,0"
                (Tile.maskFeature 7 (Tile.loaded [feature7] (Tile.new "1,0" "h2")))
                (Tile.unmaskFeature 7
                   (Tile.maskFeature 7 (Tile.loaded [feature7] (Tile.new "1,0" "h2"))))
                ltac:(vm_compute; reflexivity) ltac:(vm_compute; reflexivity)).
  destruct H as [H _].
  eapply unmaskFeature_not_masked, H. by exists feature7.
Qed.

(** C10.  Hiding a tile that is active and not yet fulfilled takes its key
    out of the active tiles and changes nothing else: the registry, the layer
    group and every tile, masks included, are as before. *)
Theorem hideTile_while_loading s x y tile :
  tileKey x y ∈ activeTiles s → tiles s !! tileKey x y = Some tile →
  Tile.fulfilled tile = false →
  hideTile x y s = set_activeTiles (deactivate (tileKey x y) (activeTiles s)) s ∧
  (tileKey x y ∉ activeTiles (hideTile x y s)) ∧
  (∀ k, k ≠ tileKey x y → k ∈ activeTiles (hideTile x y s) ↔ k ∈ activeTiles s) ∧
  featureHolders (hideTile x y s) = featureHolders s ∧
  layers (hideTile x y s) = layers s ∧
  tiles (hideTile x y s) = tiles s ∧
  tiles (hideTile x y s) !! tileKey x y = Some tile.
Proof.
  intros Ha Ht Hf. rewrite (hideTile_unfulfilled x y s tile) by done.
  split_and!; try done.
  - apply not_elem_of_deactivate.
  - intros k Hk. simpl. rewrite elem_of_deactivate. tauto.
Qed.

Lemma hideTile_while_loading_witness :
  (tileKey 0 0 ∉ activeTiles (hideTile 0 0 (showCell (Lod.new sampleMeta) (0, 0)%Z))) ∧
  featureHolders (hideTile 0 0 (showCell (Lod.new sampleMeta) (0, 0)%Z)) =
    featureHolders (showCell (Lod.new sampleMeta) (0, 0)%Z).
Proof.
  destruct (hideTile_while_loading (showCell (Lod.new sampleMeta) (0, 0)%Z) 0 0
              (Tile.new "0,0" "h1"))
    as (_ & H1 & _ & H2 & _).
  - vm_compute. apply elem_of_cons. by left.
  - vm_compute. reflexivity.
  - reflexivity.
  - split; [exact H1|exact H2].
Defined.

(** C8.  In every state, the show step of the view update leaves a cell that
    is already active alone (the state is unchanged, so are the active tiles
    and the registry), and hiding a cell that is not active leaves the state
    unchanged (the active tiles, the registry and the layer group). *)
Theorem show_active_hide_inactive_noop s x y :
  (tileKey x y ∈ activeTiles s →
   showCell s (x, y) = s ∧
   activeTiles (showCell s (x, y)) = activeTiles s ∧
   featureHolders (showCell s (x, y)) = featureHolders s) ∧
  (tileKey x y ∉ activeTiles s →
   hideTile x y s = s ∧
   activeTiles (hideTile x y s) = activeTiles s ∧
   featureHolders (hideTile x y s) = featureHolders s ∧
   layers (hideTile x y s) = layers s).
Proof.
  split; intros H.
  - by rewrite showCell_active.
  - by rewrite hideTile_inactive.
Qed.

Lemma show_active_hide_inactive_noop_witness :
  showCell sampleShared (1, 0)%Z = sampleShared ∧
  hideTile 2 0 sampleShared = sampleShared.
Proof.
  split.
  - apply (show_active_hide_inactive_noop sampleShared 1 0).
    vm_compute. apply elem_of_cons. right. apply elem_of_cons. by left.
  - apply (show_active_hide_inactive_noop sampleShared 2 0).
    vm_compute. intros H. apply elem_of_cons in H as [H|H]; [discriminate|].
    apply elem_of_cons in H as [H|H]; [discriminate|]. by apply elem_of_nil in H.
Defined.

End FrameClaims.

(** ** Loading a tile *)

Section Loading.
Import Lod.

Lemma addData_static features tile :
  Tile_static (Tile.addData features tile) = Tile_static tile.
Proof.
  unfold Tile.addData. generalize (seq 0 (length features)). intros ls.
  revert tile. induction ls as [|l ls IH]; intros tile; [done|].
  simpl. rewrite IH. done.
Qed.

Lemma loaded_fulfilled features tile :
  Tile.fulfilled (Tile.loaded features tile) = true.
Proof.
  unfold Tile.loaded.
  pose proof (addData_static features (Tile.set_loaded features tile)) as H.
  apply static_fulfilled in H. by rewrite H.
Qed.

Lemma loaded_collection features tile :
  Tile.featureCollection (Tile.loaded features tile) = Some features.
Proof.
  unfold Tile.loaded.
  pose proof (addData_static features (Tile.set_loaded features tile)) as H.
  apply static_collection in H. by rewrite H.
Qed.

Lemma hasHash_true key s :
  hasHash key s = true → is_Some (LodMeta.tiles (meta s) !! key).
Proof. unfold hasHash. destruct (_ !! key); [eauto|done]. Qed.

(** Showing a cell whose tile is not fulfilled (not built yet, or still
    loading) only builds the tile if need be and makes it active. *)
Lemma showCell_unfulfilled s x y :
  tileKey x y ∉ activeTiles s → hasHash (tileKey x y) s = true →
  (∀ tile, tiles s !! tileKey x y = Some tile → Tile.fulfilled tile = false) →
  featureHolders (showCell s (x, y)) = featureHolders s ∧
  layers (showCell s (x, y)) = layers s ∧
  activeTiles (showCell s (x, y)) = activeTiles s ++ [tileKey x y] ∧
  ∃ tile, tiles (showCell s (x, y)) !! tileKey x y = Some tile ∧
          Tile.fulfilled tile = false.
Proof.
  intros Ha Hh Hu. unfold showCell. cbn [fst snd].
  rewrite bool_decide_eq_false_2 by done. rewrite Hh. simpl.
  apply hasHash_true in Hh as [h Hh]. unfold showTile, loadTile. rewrite Hh.
  assert (activate (tileKey x y) (activeTiles s) = activeTiles s ++ [tileKey x y]) as Hact
    by (unfold activate; by rewrite decide_False).
  destruct (tiles s !! tileKey x y) as [tile|] eqn:Ht; cbv zeta.
  - rewrite Ht. rewrite (Hu tile eq_refl). simpl. split_and!; try done.
    exists tile. split; [done|]. by apply Hu.
  - cbn [tiles set_tiles]. rewrite lookup_insert_eq. simpl.
    split_and!; try done.
    eexists. rewrite lookup_insert_eq. split; [done|]. done.
Qed.

(** The completion of a load of a tile that is not active leaves the
    registry, the layer group and the active tiles alone. *)
Lemma tileLoaded_inactive key features s :
  key ∉ activeTiles s →
  tileLoaded key features s = onTile key (Tile.loaded features) s.
Proof. intros H. unfold tileLoaded, loadCallback. simpl. by rewrite decide_False. Qed.

Lemma tileLoaded_active key features s :
  key ∈ activeTiles s →
  tileLoaded key features s =
  addLayer key (addFeatureHolders key (onTile key (Tile.loaded features) s)).
Proof. intros H. unfold tileLoaded, loadCallback. simpl. by rewrite decide_True. Qed.

(** After the completion the tile is fulfilled, active or not. *)
Lemma tileLoaded_fulfilled key features s tile :
  tiles s !! key = Some tile →
  ∃ tile', tiles (tileLoaded key features s) !! key = Some tile' ∧
           Tile.fulfilled tile' = true ∧
           Tile.featureCollection tile' = Some features.
Proof.
  intros Ht.
  assert (tiles (onTile key (Tile.loaded features) s) !! key =
          Some (Tile.loaded features tile)) as H1.
  { rewrite onTile_lookup, decide_True by done. by rewrite Ht. }
  unfold tileLoaded, loadCallback. case_decide.
  - pose proof (addFeatureHolders_sameTiles key (onTile key (Tile.loaded features) s)) as Hs.
    destruct (sameTiles_lookup _ _ _ _ Hs H1) as (tile' & Ht' & Hst).
    exists tile'. split_and!; [done| |].
    + rewrite (static_fulfilled _ _ Hst). apply loaded_fulfilled.
    + rewrite (static_collection _ _ Hst). apply loaded_collection.
  - exists (Tile.loaded features tile).
    split_and!; [done|apply loaded_fulfilled|apply loaded_collection].
Qed.

End Loading.


(** ** The loop of removeFeatureHolders: promotion of the next holder *)

Section Promotion.
Import Lod.







End Promotion.


(** ** Well-formed tiles *)

Section TileShape.
Import Tile.

Lemma new_wf key hash : tile_wf key (new key hash).
Proof. by split. Qed.

Lemma layerFid_static tile tile' l :
  Tile_static tile' = Tile_static tile → layerFid tile' l = layerFid tile l.
Proof. intros H. unfold layerFid. by rewrite (static_collection _ _ H). Qed.

Lemma elem_of_fids fid features :
  fid ∈ fids features ↔ ∃ i feature, features !! i = Some feature ∧ __fid feature = Some fid.
Proof.
  unfold fids. rewrite list_elem_of_omap. split.
  - intros (feature & Hin & Hf). apply list_elem_of_lookup in Hin as [i Hi]. eauto.
  - intros (i & feature & Hi & Hf). exists feature. split; [|done].
    by apply list_elem_of_lookup_2 in Hi.
Qed.

(** Without repeated identifiers, an identifier names one position of the
    collection. *)
Lemma fids_index_unique features i j a b fid :
  uniqueFids features →
  features !! i = Some a → features !! j = Some b →
  __fid a = Some fid → __fid b = Some fid → i = j.
Proof.
  unfold uniqueFids. revert i j.
  induction features as [|x l IH]; intros i j Hnd Hi Hj Ha Hb; [done|].
  rewrite fids_cons in Hnd.
  assert (∀ n c, l !! n = Some c → __fid c = Some fid → fid ∈ fids l) as Hin
    by (intros n c Hn Hc; apply elem_of_fids; eauto).
  assert (NoDup (fids l)) as Hnd'
    by (destruct (__fid x); [by apply NoDup_cons in Hnd as [_ ?]|done]).
  destruct i as [|i], j as [|j]; simpl in Hi, Hj.
  - done.
  - injection Hi as ->. rewrite Ha in Hnd. apply NoDup_cons in Hnd as [Hn _].
    exfalso. apply Hn. by apply (Hin j b).
  - injection Hj as ->. rewrite Hb in Hnd. apply NoDup_cons in Hnd as [Hn _].
    exfalso. apply Hn. by apply (Hin i a).
  - f_equal. by apply IH.
Qed.

Lemma layerFid_Some tile l fid :
  layerFid tile l = Some fid →
  ∃ features feature, featureCollection tile = Some features ∧
                      features !! l = Some feature ∧ __fid feature = Some fid.
Proof.
  unfold layerFid. destruct (featureCollection tile) as [features|]; [|done].
  simpl. unfold Layer in *. destruct (features !! l) as [feature|] eqn:E; [|done].
  simpl. intros H. by exists features, feature.
Qed.

(** The loop of [addData]: every layer is recorded under the identifier of
    its feature and is in the layer group. *)
Lemma addData_fold (ls : list Layer) tile :
  (∀ o l, featureLayers tile !! o = Some l → layerFid tile l = o) →
  (∀ o l, featureLayers tile !! o = Some l → l ∈ layers tile) →
  let tile' := fold_left (λ this l, addLayer (Some l) this) ls tile in
  (∀ o l, featureLayers tile' !! o = Some l → layerFid tile l = o) ∧
  (∀ o l, featureLayers tile' !! o = Some l → l ∈ layers tile') ∧
  (∀ l, l ∈ ls → is_Some (featureLayers tile' !! layerFid tile l)) ∧
  (∀ o, is_Some (featureLayers tile !! o) → is_Some (featureLayers tile' !! o)) ∧
  maskedFeatures tile' = maskedFeatures tile.
Proof.
  revert tile. induction ls as [|x ls IH]; intros tile H1 H3.
  - simpl. split_and!; try done. intros l H. by apply elem_of_nil in H.
  - cbn [fold_left]. set (t1 := addLayer (Some x) tile).
    assert (Tile_static t1 = Tile_static tile) as Hst by done.
    assert (∀ l, layerFid t1 l = layerFid tile l) as Hlf
      by (intros; by apply layerFid_static).
    destruct (IH t1) as (I1 & I3 & I2 & I4 & I5).
    + intros o l. unfold t1. simpl. rewrite lookup_insert, Hlf.
      case_decide; [congruence|]. apply H1.
    + intros o l. unfold t1. simpl. rewrite lookup_insert.
      case_decide.
      * intros [= <-]. apply elem_of_union. left. by apply elem_of_singleton.
      * intros Hlk. apply elem_of_union. right. by apply (H3 o).
    + split_and!.
      * intros o l H. rewrite <- Hlf. by apply I1.
      * done.
      * intros l Hl. apply elem_of_cons in Hl as [->|Hl].
        -- apply I4. unfold t1. simpl. rewrite lookup_insert_eq. eauto.
        -- rewrite <- Hlf. by apply I2.
      * intros o Ho. apply I4. unfold t1. simpl. rewrite lookup_insert.
        case_decide; [eauto|done].
      * by rewrite I5.
Qed.

Lemma loaded_wf key features tile :
  tile_wf key tile → featureCollection tile = None →
  tile_wf key (loaded features tile) ∧ maskedFeatures (loaded features tile) = ∅.
Proof.
  intros [Hk Hwf] Hc. rewrite Hc in Hwf. destruct Hwf as (_ & Hfl & Hm).
  unfold loaded, addData.
  set (t0 := set_loaded features tile).
  destruct (addData_fold (seq 0 (length features)) t0) as (I1 & I3 & I2 & _ & I5).
  { intros o l. unfold t0. simpl. by rewrite Hfl, lookup_empty. }
  { intros o l. unfold t0. simpl. by rewrite Hfl, lookup_empty. }
  set (t1 := fold_left _ _ t0) in *.
  assert (Tile_static t1 = Tile_static t0) as Hst
    by apply (addData_static features t0).
  assert (maskedFeatures t1 = ∅) as Hm1 by (by rewrite I5).
  split; [|done]. split.
  - pose proof Hst as Hst'. unfold Tile_static in Hst'.
    assert (Tile.key t1 = Tile.key t0) as -> by congruence. done.
  - rewrite (static_collection _ _ Hst). simpl. split_and!.
    + by rewrite (static_fulfilled _ _ Hst).
    + intros fid Hin. apply elem_of_fids in Hin as (i & feature & Hi & Hf).
      assert (layerFid t0 i = Some fid) as <-.
      { unfold layerFid, t0. cbn [featureCollection set_loaded mbind option_bind].
        unfold Layer. by rewrite Hi. }
      apply I2. apply elem_of_seq. split; [lia|]. simpl.
      by apply lookup_lt_Some in Hi.
    + intros o l H. rewrite (layerFid_static _ _ _ Hst). by apply I1.
    + intros fid l H. rewrite Hm1, lookup_empty. split; [done|].
      intros _. by apply (I3 (Some fid)).
    + intros Hu fid l _ Hlf. rewrite (layerFid_static _ _ _ Hst) in Hlf.
      destruct (layerFid_Some _ _ _ Hlf) as (fc & feature & Hfc & Hl & Hf).
      injection Hfc as <-.
      assert (is_Some (featureLayers t1 !! Some fid)) as [l' Hl'].
      { rewrite <- Hlf. apply I2. apply elem_of_seq. split; [lia|]. simpl.
        by apply lookup_lt_Some in Hl. }
      rewrite Hl'. f_equal.
      destruct (layerFid_Some _ _ _ (I1 _ _ Hl')) as (fc & feature' & Hfc & Hl2 & Hf').
      injection Hfc as <-.
      by apply (fids_index_unique features l' l feature' feature fid).
Qed.

Lemma fold_mask_is_Some fid (features : list Feature) (m : gmap Z Feature) fid' :
  is_Some (fold_left (λ m feat, if decide (__fid feat = Some fid)
                                then <[fid := feat]> m else m) features m !! fid') ↔
  (fid' = fid ∧ fid ∈ fids features) ∨ is_Some (m !! fid').
Proof.
  revert m. induction features as [|x l IH]; intros m.
  - simpl. split; [by right|]. intros [[_ H]|H]; [by apply elem_of_nil in H|done].
  - cbn [fold_left]. rewrite IH, fids_cons. case_decide as Hx.
    + rewrite Hx. rewrite lookup_insert. split.
      * intros [[-> H]|H].
        -- left. split; [done|]. apply elem_of_cons. by right.
        -- case_decide as Hd.
           ++ subst. left. split; [done|]. apply elem_of_cons. by left.
           ++ by right.
      * intros [[-> H]|H].
        -- right. rewrite decide_True by done. eauto.
        -- right. case_decide; [eauto|done].
    + destruct (__fid x) as [fid0|] eqn:E; [|done].
      split.
      * intros [[-> H]|H]; [|by right]. left. split; [done|].
        apply elem_of_cons. by right.
      * intros [[-> H]|H]; [|by right]. left. split; [done|].
        apply elem_of_cons in H as [->|H]; [congruence|done].
Qed.

Lemma maskFeature_masked_iff fid fid' tile features :
  featureCollection tile = Some features → fid ∈ fids features →
  masked fid' (maskFeature fid tile) ↔ fid' = fid ∨ masked fid' tile.
Proof.
  intros Hc Hin. unfold masked, maskFeature. rewrite Hc.
  assert (∀ l t, maskedFeatures (removeLayer l t) = maskedFeatures t) as ->
    by (by intros []).
  simpl. rewrite fold_mask_is_Some. tauto.
Qed.

Lemma maskFeature_wf key fid tile features :
  tile_wf key tile → featureCollection tile = Some features → fid ∈ fids features →
  tile_wf key (maskFeature fid tile).
Proof.
  intros [Hk Hwf] Hc Hin. rewrite Hc in Hwf.
  destruct Hwf as (Hf & Ha & Hb & Hcc & He).
  pose proof (maskFeature_masked_iff fid) as Hm.
  pose proof (maskFeature_static fid tile) as Hst.
  split.
  - unfold Tile_static in Hst. congruence.
  - rewrite (static_collection _ _ Hst), Hc.
    destruct (Ha fid Hin) as [l0 Hl0].
    assert (featureLayers (maskFeature fid tile) = featureLayers tile) as Hfl.
    { unfold maskFeature. rewrite Hc. by destruct (featureLayers tile !! Some fid). }
    assert (layers (maskFeature fid tile) = layers tile ∖ {[l0]}) as Hly.
    { unfold maskFeature. rewrite Hc, Hl0. done. }
    split_and!.
    + by rewrite (static_fulfilled _ _ Hst).
    + intros fid' H'. rewrite Hfl. by apply Ha.
    + intros o l. rewrite Hfl, (layerFid_static _ _ _ Hst). apply Hb.
    + intros fid' l. rewrite Hfl, Hly. intros Hl.
      specialize (Hm fid' tile features Hc Hin). unfold masked in Hm.
      rewrite elem_of_difference, elem_of_singleton, (Hcc fid' l Hl).
      rewrite !eq_None_not_Some, Hm.
      destruct (decide (fid' = fid)) as [->|Hne].
      * assert (l = l0) as -> by congruence. tauto.
      * assert (l ≠ l0) as Hll.
        { intros ->. apply Hb in Hl, Hl0. congruence. }
        tauto.
    + intros Hu fid' l. rewrite Hfl, Hly, (layerFid_static _ _ _ Hst).
      rewrite elem_of_difference. intros [Hl _]. by apply He.
Qed.

Lemma unmaskFeature_wf key fid tile :
  tile_wf key tile → tile_wf key (unmaskFeature fid tile).
Proof.
  intros [Hk Hwf]. pose proof (unmaskFeature_static fid tile) as Hst.
  split; [unfold Tile_static in Hst; congruence|].
  rewrite (static_collection _ _ Hst).
  destruct (unmaskFeature_fields fid tile) as (added & Hadd & Hly & Hfl).
  destruct (featureCollection tile) as [features|] eqn:Hc.
  - destruct Hwf as (Hf & Ha & Hb & Hcc & He).
    assert (featureLayers (unmaskFeature fid tile) = featureLayers tile) as Hfl'.
    { rewrite Hfl. destruct added as [l|]; [|done].
      destruct (maskedFeatures tile !! fid); [|done].
      symmetry in Hadd. rewrite (Hb _ _ Hadd). by apply insert_id. }
    rewrite (static_fulfilled _ _ Hst), Hfl', Hly, unmaskFeature_masked.
    split_and!; try done.
    + intros o l. rewrite (layerFid_static _ _ _ Hst). apply Hb.
    + intros fid' l Hl.
      destruct (maskedFeatures tile !! fid) as [feat|] eqn:Hm.
      * destruct added as [l0|].
        -- symmetry in Hadd. rewrite elem_of_union, elem_of_singleton.
           destruct (decide (fid' = fid)) as [->|Hne].
           ++ rewrite lookup_delete_eq. assert (l = l0) as -> by congruence. tauto.
           ++ rewrite lookup_delete_ne by done.
              assert (l ≠ l0) as Hll.
              { intros ->. apply Hb in Hl, Hadd. congruence. }
              rewrite <- (Hcc fid' l Hl). tauto.
        -- assert (fid' ≠ fid) as Hne by congruence.
           rewrite lookup_delete_ne by done. by apply Hcc.
      * subst added. rewrite delete_id by done. by apply Hcc.
    + intros Hu fid' l. rewrite (layerFid_static _ _ _ Hst).
      destruct added as [l0|]; [|by apply He].
      rewrite elem_of_union, elem_of_singleton. intros [->|Hl] Hlf; [|by apply He].
      destruct (maskedFeatures tile !! fid); [|done]. symmetry in Hadd.
      pose proof (Hb _ _ Hadd) as Hlf'. congruence.
  - destruct Hwf as (Hf & Hfl0 & Hm).
    rewrite (static_fulfilled _ _ Hst), unmaskFeature_masked, Hfl.
    rewrite Hm in *. rewrite lookup_empty in Hadd. subst added.
    split_and!; [done|done|]. apply delete_empty.
Qed.

(** [unmaskAll]: every step is an unmasking, so the tile stays well formed
    and ends without masks. *)
Lemma unmaskAll_step_wf key fid tile :
  tile_wf key tile →
  tile_wf key (set_maskedFeatures
                 (delete fid (maskedFeatures (addLayer (featureLayers tile !! Some fid) tile)))
                 (addLayer (featureLayers tile !! Some fid) tile)).
Proof.
  intros Hwf.
  destruct (maskedFeatures tile !! fid) as [feat|] eqn:Hm.
  - assert (set_maskedFeatures
              (delete fid (maskedFeatures (addLayer (featureLayers tile !! Some fid) tile)))
              (addLayer (featureLayers tile !! Some fid) tile)
            = unmaskFeature fid tile) as ->.
    { unfold unmaskFeature. rewrite Hm. simpl.
      by destruct (featureLayers tile !! Some fid). }
    by apply unmaskFeature_wf.
  - rewrite addLayer_masked, delete_id by done.
    destruct Hwf as [Hk Hwf]. split; [by destruct (featureLayers tile !! Some fid)|].
    destruct (featureLayers tile !! Some fid) as [l0|] eqn:Hl0.
    + cbn [addLayer set_maskedFeatures set_layers set_featureLayers featureCollection
             fulfilled featureLayers layers maskedFeatures].
      destruct (featureCollection tile) as [features|] eqn:Hc.
      * destruct Hwf as (Hf & Ha & Hb & Hcc & He).
        assert (layerFid tile l0 = Some fid) as Hlf by (by apply Hb).
        assert (<[layerFid tile l0 := l0]> (featureLayers tile) = featureLayers tile)
          as Hid by (rewrite Hlf; by apply insert_id).
        rewrite Hid. split_and!; try done.
        -- intros fid' l Hl. rewrite elem_of_union, elem_of_singleton.
           rewrite <- (Hcc fid' l Hl). split; [|tauto].
           intros [->|H]; [|done]. apply (Hcc fid l0 Hl0). done.
        -- intros Hu fid' l. rewrite elem_of_union, elem_of_singleton.
           intros [->|Hl] Hlf'; [|by apply He].
           change (layerFid tile l0 = Some fid') in Hlf'. congruence.
      * destruct Hwf as (_ & Hfl & _). by rewrite Hfl, lookup_empty in Hl0.
    + by destruct tile.
Qed.

Lemma unmaskAll_fold key (fidl : list Z) tile :
  tile_wf key tile →
  let tile' :=
    fold_left (λ this fid,
                 let this := addLayer (featureLayers this !! Some fid) this in
                 set_maskedFeatures (delete fid (maskedFeatures this)) this)
              fidl tile in
  tile_wf key tile' ∧ Tile_static tile' = Tile_static tile ∧
  ∀ fid, maskedFeatures tile' !! fid =
         if bool_decide (fid ∈ fidl) then None else maskedFeatures tile !! fid.
Proof.
  revert tile. induction fidl as [|x l IH]; intros tile Hwf.
  - simpl. split_and!; try done.
  - cbn [fold_left].
    destruct (IH _ (unmaskAll_step_wf key x tile Hwf)) as (I1 & I2 & I3).
    split_and!; [done| |].
    + etrans; [exact I2|]. by destruct (featureLayers tile !! Some x).
    + intros fid. etrans; [exact (I3 fid)|].
      cbn [set_maskedFeatures maskedFeatures]. rewrite addLayer_masked.
      destruct (decide (fid ∈ l)) as [Hin|Hin].
      * rewrite (bool_decide_eq_true_2 _ Hin).
        by rewrite (bool_decide_eq_true_2 (fid ∈ x :: l)) by (apply elem_of_cons; by right).
      * rewrite (bool_decide_eq_false_2 _ Hin).
        destruct (decide (fid = x)) as [->|Hne].
        -- rewrite (bool_decide_eq_true_2 (x ∈ x :: l)) by (apply elem_of_cons; by left).
           apply lookup_delete_eq.
        -- rewrite (bool_decide_eq_false_2 (fid ∈ x :: l)).
           ++ by apply lookup_delete_ne.
           ++ intros H. apply elem_of_cons in H as [?|?]; done.
Qed.

Lemma unmaskAll_wf key tile :
  tile_wf key tile →
  tile_wf key (unmaskAll tile) ∧ Tile_static (unmaskAll tile) = Tile_static tile ∧
  maskedFeatures (unmaskAll tile) = ∅.
Proof.
  intros Hwf. unfold unmaskAll.
  destruct (unmaskAll_fold key (elements (dom (maskedFeatures tile))) tile Hwf)
    as (H1 & H2 & H3).
  split_and!; [done..|].
  apply map_eq. intros fid. rewrite H3, lookup_empty.
  destruct (maskedFeatures tile !! fid) eqn:E.
  - rewrite bool_decide_eq_true_2; [done|].
    apply elem_of_elements, elem_of_dom. by rewrite E.
  - by case_bool_decide.
Qed.

End TileShape.

(** ** The shape of a level of detail is kept by every operation *)

Section Shape.
Import Lod.

Lemma visible_iff s k :
  (∃ tile, visible s k tile) ↔ k ∈ activeTiles s ∧ fulfilledAt s k.
Proof.
  unfold visible, fulfilledAt. split.
  - intros (tile & ? & ? & ?). eauto.
  - intros (? & tile & ? & ?). eauto.
Qed.

Lemma sameTiles_fulfilledAt s s' k :
  sameTiles s s' → fulfilledAt s k ↔ fulfilledAt s' k.
Proof.
  intros (_&_&_&_&H). specialize (H k). unfold fulfilledAt.
  destruct (tiles s !! k) as [t|], (tiles s' !! k) as [t'|]; simpl in H;
    try discriminate.
  - assert (Tile.fulfilled t' = Tile.fulfilled t) as Hf by (apply static_fulfilled; congruence).
    split; intros (? & [= <-] & ?); eexists; (split; [done|congruence]).
  - split; intros (? & ? & _); discriminate.
Qed.

Lemma sameTiles_is_Some s s' k :
  sameTiles s s' → is_Some (tiles s !! k) ↔ is_Some (tiles s' !! k).
Proof.
  intros (_&_&_&_&H). specialize (H k).
  destruct (tiles s !! k), (tiles s' !! k); simpl in H; try discriminate.
  - split; eauto.
  - split; intros [? ?]; discriminate.
Qed.

Lemma onTile_wf key f s :
  tiles_wf s → (∀ tile, tiles s !! key = Some tile → tile_wf key (f tile)) →
  tiles_wf (onTile key f s).
Proof.
  intros Hwf Hf k tile. rewrite onTile_lookup. case_decide as Hk.
  - subst k. destruct (tiles s !! key) as [t|] eqn:E; simpl; [|done].
    intros [= <-]. by apply Hf.
  - apply Hwf.
Qed.

Lemma removeFeatureHolder_wf key s feature :
  tiles_wf s → tiles_wf (removeFeatureHolder key s feature).
Proof.
  intros Hwf k tile. rewrite removeFeatureHolder_tiles.
  destruct (unmaskTarget key s feature) as [[target fid]|]; [|apply Hwf].
  destruct (decide (target = k)) as [->|Hne].
  - rewrite lookup_alter_eq. destruct (tiles s !! k) as [t|] eqn:E; simpl; [|done].
    intros [= <-]. apply unmaskFeature_wf. by apply Hwf.
  - rewrite lookup_alter_ne by done. apply Hwf.
Qed.

Lemma fold_removeFeatureHolder_wf key features s :
  tiles_wf s → tiles_wf (fold_left (removeFeatureHolder key) features s).
Proof.
  revert s. induction features as [|x l IH]; intros s H; [done|].
  simpl. by apply IH, removeFeatureHolder_wf.
Qed.

Lemma addFeatureHolder_wf key s feature tile features :
  tiles_wf s → tiles s !! key = Some tile →
  Tile.featureCollection tile = Some features → feature ∈ features →
  tiles_wf (addFeatureHolder key s feature).
Proof.
  intros Hwf Ht Hc Hin. unfold addFeatureHolder.
  destruct (__fid feature) as [fid|] eqn:Hf; [|done].
  destruct (default [] (featureHolders s !! fid)); [done|].
  assert (tiles_wf (onTile key (Tile.maskFeature fid) s)) as H; [|done].
  apply onTile_wf; [done|]. intros t Ht'. rewrite Ht in Ht'. injection Ht' as <-.
  apply (maskFeature_wf key fid tile features); [by apply Hwf|done|].
  apply list_elem_of_omap. by exists feature.
Qed.

Lemma fold_addFeatureHolder_wf key l s tile features :
  tiles_wf s → tiles s !! key = Some tile →
  Tile.featureCollection tile = Some features → l ⊆ features →
  tiles_wf (fold_left (addFeatureHolder key) l s).
Proof.
  revert s tile. induction l as [|x l IH]; intros s tile Hwf Ht Hc Hsub; [done|].
  cbn [fold_left].
  destruct (sameTiles_lookup s _ key tile (addFeatureHolder_sameTiles key s x) Ht)
    as (tile' & Ht' & Hst).
  apply (IH _ tile').
  - apply (addFeatureHolder_wf key s x tile features); try done.
    apply Hsub, elem_of_cons. by left.
  - done.
  - by rewrite (static_collection _ _ Hst).
  - intros y Hy. apply Hsub, elem_of_cons. by right.
Qed.

Lemma addFeatureHolders_wf key s : tiles_wf s → tiles_wf (addFeatureHolders key s).
Proof.
  intros Hwf. unfold addFeatureHolders.
  destruct (tiles s !! key) as [tile|] eqn:Ht; simpl; [|done].
  destruct (Tile.featureCollection tile) as [features|] eqn:Hc; [|done].
  by apply (fold_addFeatureHolder_wf key features s tile features).
Qed.

End Shape.

Section ShapeOps.
Import Lod.

Lemma shape_build s :
  tiles_wf s → NoDup (activeTiles s) →
  (∀ k, k ∈ activeTiles s → is_Some (tiles s !! k)) →
  (∀ k, k ∈ layers s ↔ k ∈ activeTiles s ∧ fulfilledAt s k) →
  shape_inv s.
Proof.
  intros H1 H2 H3 H4. split_and!; try done.
  intros k. by rewrite visible_iff.
Qed.

Lemma fulfilledAt_tiles s s' k :
  tiles s' = tiles s → fulfilledAt s' k ↔ fulfilledAt s k.
Proof. intros H. unfold fulfilledAt. by rewrite H. Qed.

Lemma shape_layers s k :
  shape_inv s → k ∈ layers s ↔ k ∈ activeTiles s ∧ fulfilledAt s k.
Proof. intros (_&_&_&H). by rewrite <- visible_iff. Qed.

Lemma activate_fresh key (a : list string) : key ∉ a → activate key a = a ++ [key].
Proof. intros H. unfold activate. by rewrite decide_False. Qed.

Lemma NoDup_snoc (key : string) (a : list string) :
  NoDup a → key ∉ a → NoDup (a ++ [key]).
Proof.
  intros Ha Hk. apply NoDup_app. split_and!; [done| |apply NoDup_singleton].
  intros x Hx Hx'. apply list_elem_of_singleton in Hx'. by subst.
Qed.

Lemma elem_of_snoc (key k : string) (a : list string) :
  k ∈ a ++ [key] ↔ k ∈ a ∨ k = key.
Proof. by rewrite elem_of_app, list_elem_of_singleton. Qed.

(** The four cases of [showTile]. *)
Lemma showTile_nometa x y s :
  LodMeta.tiles (meta s) !! tileKey x y = None → showTile x y s = s.
Proof. intros H. unfold showTile. by rewrite H. Qed.

Lemma showTile_new x y s h :
  LodMeta.tiles (meta s) !! tileKey x y = Some h → tiles s !! tileKey x y = None →
  showTile x y s =
  set_activeTiles (activate (tileKey x y) (activeTiles s))
    (set_tiles (<[tileKey x y := Tile.new (tileKey x y) h]> (tiles s)) s).
Proof.
  intros Hm Ht. unfold showTile, loadTile. rewrite Hm, Ht. cbv zeta.
  cbn [tiles set_tiles]. by rewrite lookup_insert_eq.
Qed.

Lemma showTile_loading x y s h tile :
  LodMeta.tiles (meta s) !! tileKey x y = Some h →
  tiles s !! tileKey x y = Some tile → Tile.fulfilled tile = false →
  showTile x y s = set_activeTiles (activate (tileKey x y) (activeTiles s)) s.
Proof.
  intros Hm Ht Hf. unfold showTile. rewrite Hm, Ht. cbv zeta. by rewrite Ht, Hf.
Qed.

Lemma showTile_fulfilled x y s h tile :
  LodMeta.tiles (meta s) !! tileKey x y = Some h →
  tiles s !! tileKey x y = Some tile → Tile.fulfilled tile = true →
  showTile x y s =
  set_activeTiles (activate (tileKey x y) (activeTiles s))
    (addLayer (tileKey x y) (addFeatureHolders (tileKey x y) s)).
Proof.
  intros Hm Ht Hf. unfold showTile. rewrite Hm, Ht. cbv zeta. rewrite Ht, Hf.
  destruct (addFeatureHolders_sameTiles (tileKey x y) s) as (_ & Ha & _).
  cbn [activeTiles addLayer set_layers]. by rewrite Ha.
Qed.

Lemma showTile_shape x y s :
  shape_inv s → tileKey x y ∉ activeTiles s → shape_inv (showTile x y s).
Proof.
  intros Hs Hk. pose proof Hs as (Hwf & Hnd & Hdom & _).
  pose proof (shape_layers s) as Hly.
  destruct (LodMeta.tiles (meta s) !! tileKey x y) as [h|] eqn:Hm;
    [|by rewrite showTile_nometa].
  set (key := tileKey x y) in *.
  destruct (tiles s !! key) as [tile|] eqn:Ht.
  - destruct (Tile.fulfilled tile) eqn:Hf.
    + rewrite (showTile_fulfilled x y s h tile) by done. fold key.
      pose proof (addFeatureHolders_sameTiles key s) as Hsame.
      apply shape_build; cbn [tiles activeTiles layers set_activeTiles addLayer set_layers].
      * by apply addFeatureHolders_wf.
      * rewrite activate_fresh by done. by apply NoDup_snoc.
      * intros k. rewrite activate_fresh, elem_of_snoc by done.
        rewrite <- (sameTiles_is_Some _ _ _ Hsame).
        intros [?| ->]; [by apply Hdom|by rewrite Ht].
      * intros k. rewrite activate_fresh, elem_of_snoc by done.
        rewrite (fulfilledAt_tiles (addFeatureHolders key s)) by done.
        rewrite <- (sameTiles_fulfilledAt _ _ _ Hsame).
        destruct Hsame as (_ & _ & -> & _).
        rewrite elem_of_union, elem_of_singleton, (Hly k Hs).
        split.
        -- intros [->|[? ?]]; [|tauto]. split; [by right|]. by exists tile.
        -- intros [[?| ->] ?]; [right; tauto|by left].
    + rewrite (showTile_loading x y s h tile) by done. fold key.
      apply shape_build; cbn [tiles activeTiles layers set_activeTiles]; try done.
      * rewrite activate_fresh by done. by apply NoDup_snoc.
      * intros k. rewrite activate_fresh, elem_of_snoc by done.
        intros [?| ->]; [by apply Hdom|by rewrite Ht].
      * intros k. rewrite activate_fresh, elem_of_snoc by done.
        rewrite (Hly k Hs). unfold fulfilledAt. cbn [tiles]. split; [tauto|].
        intros [[?| ->] Hfu]; [tauto|]. destruct Hfu as (t & Ht' & Hf').
        cbn [tiles set_activeTiles] in Ht'. congruence.
  - rewrite (showTile_new x y s h) by done. fold key.
    apply shape_build;
      cbn [tiles activeTiles layers set_activeTiles set_tiles].
    + unfold tiles_wf. cbn [tiles set_activeTiles set_tiles].
      intros k t. rewrite lookup_insert. case_decide as Hd.
      * intros [= <-]. subst k. apply new_wf.
      * apply Hwf.
    + rewrite activate_fresh by done. by apply NoDup_snoc.
    + intros k. rewrite activate_fresh, elem_of_snoc by done.
      rewrite lookup_insert. case_decide; [eauto|].
      intros [?| ->]; [by apply Hdom|done].
    + intros k. rewrite activate_fresh, elem_of_snoc by done.
      rewrite (Hly k Hs). unfold fulfilledAt. cbn [tiles set_tiles set_activeTiles].
      rewrite lookup_insert. case_decide as Hd.
      * subst k. split; [tauto|]. intros [_ (t & [= <-] & Hf)]. done.
      * split; [tauto|]. intros [[?| ->] ?]; [tauto|done].
Qed.

Lemma showCell_shape s cell : shape_inv s → shape_inv (showCell s cell).
Proof.
  intros Hs. unfold showCell. case_bool_decide as Hk; simpl; [done|].
  destruct (hasHash _ s); [|done]. by apply showTile_shape.
Qed.

End ShapeOps.

Section ShapeOps2.
Import Lod.

Lemma wf_fulfilled_collection key tile :
  tile_wf key tile → Tile.fulfilled tile = true →
  ∃ features, Tile.featureCollection tile = Some features.
Proof.
  intros [_ H] Hf. destruct (Tile.featureCollection tile) as [features|]; [eauto|].
  destruct H as (H & _). congruence.
Qed.

Lemma wf_unfulfilled_collection key tile :
  tile_wf key tile → Tile.fulfilled tile = false →
  Tile.featureCollection tile = None.
Proof.
  intros [_ H] Hf. destruct (Tile.featureCollection tile) as [features|]; [|done].
  destruct H as (H & _). congruence.
Qed.

Lemma hideTile_shape x y s : shape_inv s → shape_inv (hideTile x y s).
Proof.
  intros Hs. pose proof Hs as (Hwf & Hnd & Hdom & _).
  pose proof (shape_layers s) as Hly.
  destruct (decide (tileKey x y ∈ activeTiles s)) as [Ha|Ha];
    [|by rewrite hideTile_inactive].
  set (key := tileKey x y) in *.
  destruct (Hdom key Ha) as [tile Ht].
  destruct (Tile.fulfilled tile) eqn:Hf.
  - destruct (wf_fulfilled_collection key tile (Hwf _ _ Ht) Hf) as [features Hc].
    rewrite (hideTile_fulfilled x y s tile features) by done. fold key.
    set (s0 := removeLayer key s).
    assert (sameTiles s0 (fold_left (removeFeatureHolder key) features s0)) as Hsame
      by apply fold_sameTiles, removeFeatureHolder_sameTiles.
    set (f := fold_left (removeFeatureHolder key) features s0) in *.
    apply shape_build; cbn [tiles activeTiles layers set_activeTiles].
    + by apply fold_removeFeatureHolder_wf.
    + by apply NoDup_filter.
    + intros k Hk. apply elem_of_deactivate in Hk as [_ Hk].
      apply (sameTiles_is_Some _ _ _ Hsame). by apply Hdom.
    + intros k. rewrite elem_of_deactivate.
      change (fulfilledAt (set_activeTiles (deactivate key (activeTiles s)) f) k)
        with (fulfilledAt f k).
      rewrite <- (sameTiles_fulfilledAt _ _ _ Hsame).
      change (fulfilledAt s0 k) with (fulfilledAt s k).
      destruct Hsame as (_ & _ & -> & _). unfold s0. cbn [layers removeLayer set_layers].
      rewrite elem_of_difference, elem_of_singleton, (Hly k Hs). tauto.
  - rewrite (hideTile_unfulfilled x y s tile) by done. fold key.
    apply shape_build; cbn [tiles activeTiles layers set_activeTiles]; try done.
    + by apply NoDup_filter.
    + intros k Hk. apply elem_of_deactivate in Hk as [_ Hk]. by apply Hdom.
    + intros k. rewrite elem_of_deactivate, (Hly k Hs).
      change (fulfilledAt (set_activeTiles (deactivate key (activeTiles s)) s) k)
        with (fulfilledAt s k).
      split; [|tauto]. intros [H1 H2]. split_and!; try done.
      intros ->. destruct H2 as (t & Ht' & Hf'). congruence.
Qed.

Lemma fulfilledAt_loaded key features s tile k :
  tiles s !! key = Some tile →
  fulfilledAt (onTile key (Tile.loaded features) s) k ↔ fulfilledAt s k ∨ k = key.
Proof.
  intros Ht. unfold fulfilledAt. rewrite onTile_lookup. case_decide as Hd.
  - subst k. rewrite Ht. simpl. split; [by right|]. intros _.
    eexists. split; [done|]. apply loaded_fulfilled.
  - split; [by left|]. intros [?|?]; done.
Qed.

Lemma tileLoaded_shape key features s tile :
  shape_inv s → tiles s !! key = Some tile → Tile.fulfilled tile = false →
  shape_inv (tileLoaded key features s).
Proof.
  intros Hs Ht Hf. pose proof Hs as (Hwf & Hnd & Hdom & _).
  pose proof (shape_layers s) as Hly.
  set (s0 := onTile key (Tile.loaded features) s).
  assert (tiles_wf s0) as Hwf0.
  { apply onTile_wf; [done|]. intros t Ht'. rewrite Ht in Ht'. injection Ht' as <-.
    apply loaded_wf; [by apply Hwf|].
    apply (wf_unfulfilled_collection key); [by apply Hwf|done]. }
  assert (∀ k, is_Some (tiles s !! k) → is_Some (tiles s0 !! k)) as Hdom0.
  { intros k [t Hk]. unfold s0. rewrite onTile_lookup. case_decide; rewrite Hk; eauto. }
  destruct (decide (key ∈ activeTiles s)) as [Ha|Ha].
  - rewrite tileLoaded_active by done. fold s0.
    pose proof (addFeatureHolders_sameTiles key s0) as Hsame.
    apply shape_build.
    + by apply addFeatureHolders_wf.
    + destruct Hsame as (_ & Hact & _). cbn [activeTiles addLayer set_layers].
      by rewrite Hact.
    + intros k. rewrite <- (sameTiles_is_Some _ _ _ Hsame).
      destruct Hsame as (_ & Hact & _). cbn [activeTiles addLayer set_layers].
      rewrite Hact. intros Hk. apply Hdom0. by apply Hdom.
    + intros k. rewrite (fulfilledAt_tiles (addFeatureHolders key s0)) by done.
      rewrite <- (sameTiles_fulfilledAt _ _ _ Hsame).
      destruct Hsame as (_ & Hact & Hl & _).
      cbn [activeTiles layers addLayer set_layers]. rewrite Hact, Hl.
      change (activeTiles s0) with (activeTiles s).
      change (layers s0) with (layers s).
      pose proof (fulfilledAt_loaded key features s tile k Ht) as Hfl.
      fold s0 in Hfl. rewrite Hfl.
      rewrite elem_of_union, elem_of_singleton, (Hly k Hs).
      split; [|tauto]. intros [->|?]; tauto.
  - rewrite tileLoaded_inactive by done. fold s0.
    apply shape_build; try done.
    + intros k Hk. apply Hdom0. by apply Hdom.
    + intros k. change (activeTiles s0) with (activeTiles s).
      change (layers s0) with (layers s).
      pose proof (fulfilledAt_loaded key features s tile k Ht) as Hfl.
      fold s0 in Hfl. rewrite Hfl, (Hly k Hs).
      split; [tauto|]. intros [H1 [H2| ->]]; tauto.
Qed.

End ShapeOps2.

Section ClearActive.
Import Lod.

Lemma clearActive_unfold s :
  clearActive s =
  set_activeTiles []
    (set_featureHolders ∅
       (fold_left clearStep (activeTiles s) (set_currentView None s))).
Proof. done. Qed.

(** One step of the loop. *)
Lemma clearStep_spec s x :
  tiles_wf s →
  tiles_wf (clearStep s x) ∧
  meta (clearStep s x) = meta s ∧ activeTiles (clearStep s x) = activeTiles s ∧
  featureHolders (clearStep s x) = featureHolders s ∧
  currentView (clearStep s x) = currentView s ∧
  (∀ k, fulfilledAt (clearStep s x) k ↔ fulfilledAt s k) ∧
  (∀ k, k ∈ layers (clearStep s x) ↔ k ∈ layers s ∧ ¬ (k = x ∧ fulfilledAt s k)) ∧
  (∀ k t', tiles (clearStep s x) !! k = Some t' →
           ∃ t, tiles s !! k = Some t ∧ Tile_static t' = Tile_static t ∧
                (k = x ∧ Tile.fulfilled t = true → Tile.maskedFeatures t' = ∅) ∧
                (¬ (k = x ∧ Tile.fulfilled t = true) → t' = t)).
Proof.
  intros Hwf. unfold clearStep.
  destruct (tiles s !! x) as [tile|] eqn:Ht.
  - destruct (Tile.fulfilled tile) eqn:Hf.
    + destruct (unmaskAll_wf x tile (Hwf _ _ Ht)) as (Hw & Hst & Hm).
      assert (∀ k t', tiles (onTile x Tile.unmaskAll (removeLayer x s)) !! k = Some t' →
                ∃ t, tiles s !! k = Some t ∧ Tile_static t' = Tile_static t ∧
                     (k = x ∧ Tile.fulfilled t = true → Tile.maskedFeatures t' = ∅) ∧
                     (¬ (k = x ∧ Tile.fulfilled t = true) → t' = t)) as Htiles.
      { intros k t'. rewrite onTile_lookup. cbn [tiles removeLayer set_layers].
        case_decide as Hd.
        - subst k. rewrite Ht. simpl. intros [= <-]. exists tile.
          split_and!; [done..|]. intros Hn. exfalso. by apply Hn.
        - intros Hk. exists t'. split_and!; [done..| |done].
          intros [-> _]. done. }
      split_and!; try done.
      * apply onTile_wf; [done|]. cbn [tiles removeLayer set_layers].
        intros t Ht'. rewrite Ht in Ht'. by injection Ht' as <-.
      * intros k. unfold fulfilledAt. split.
        -- intros (t' & Hk & Hf'). destruct (Htiles k t' Hk) as (t & Hk' & Hs' & _).
           exists t. split; [done|]. by rewrite <- (static_fulfilled _ _ Hs').
        -- intros (t & Hk & Hf'). rewrite onTile_lookup.
           cbn [tiles removeLayer set_layers]. rewrite Hk.
           case_decide; simpl; eexists; (split; [done|]); [|done].
           by rewrite (static_fulfilled _ _ (proj1 (proj2 (unmaskAll_wf k t (Hwf _ _ Hk))))).
      * intros k. cbn [layers onTile set_tiles removeLayer set_layers].
        rewrite elem_of_difference, elem_of_singleton. split.
        -- intros [? ?]. split; [done|]. tauto.
        -- intros [? Hn]. split; [done|]. intros ->. apply Hn. split; [done|].
           by exists tile.
    + split_and!; try done.
      * intros k. split; [|tauto]. intros ?. split; [done|].
        intros [-> (t & Ht' & Hf')]. congruence.
      * intros k t' Hk. exists t'. split_and!; [done..| |done].
        intros [-> Hf']. congruence.
  - split_and!; try done.
    + intros k. split; [|tauto]. intros ?. split; [done|].
      intros [-> (t & Ht' & Hf')]. congruence.
    + intros k t' Hk. exists t'. split_and!; [done..| |done].
      intros [-> Hf']. congruence.
Qed.

(** The loop of [clearActive]. *)
Lemma clearStep_fold (L : list string) s :
  tiles_wf s →
  let f := fold_left clearStep L s in
  tiles_wf f ∧
  meta f = meta s ∧ activeTiles f = activeTiles s ∧
  featureHolders f = featureHolders s ∧ currentView f = currentView s ∧
  (∀ k, fulfilledAt f k ↔ fulfilledAt s k) ∧
  (∀ k, k ∈ layers f ↔ k ∈ layers s ∧ ¬ (k ∈ L ∧ fulfilledAt s k)) ∧
  (∀ k t', tiles f !! k = Some t' →
           ∃ t, tiles s !! k = Some t ∧ Tile_static t' = Tile_static t ∧
                (k ∈ L ∧ Tile.fulfilled t = true → Tile.maskedFeatures t' = ∅) ∧
                (¬ (k ∈ L ∧ Tile.fulfilled t = true) → t' = t)).
Proof.
  revert s. induction L as [|x L IH]; intros s Hwf.
  - simpl. split_and!; try done.
    + intros k. split; [|tauto]. intros ?. split; [done|].
      intros [Hnil _]. by apply elem_of_nil in Hnil.
    + intros k t' Hk. exists t'. split_and!; [done..| |done].
      intros [Hnil _]. by apply elem_of_nil in Hnil.
  - cbn [fold_left].
    destruct (clearStep_spec s x Hwf) as (S1 & S2 & S3 & S4 & S5 & S6 & S7 & S8).
    destruct (IH _ S1) as (I1 & I2 & I3 & I4 & I5 & I6 & I7 & I8).
    split_and!; try congruence.
    + done.
    + intros k. by rewrite I6, S6.
    + intros k. rewrite I7, S7, S6, elem_of_cons. tauto.
    + intros k t' Hk. destruct (I8 k t' Hk) as (t1 & Hk1 & Hst1 & Hc1 & Hd1).
      destruct (S8 k t1 Hk1) as (t & Hk0 & Hst0 & Hc0 & Hd0).
      pose proof (static_fulfilled _ _ Hst0) as Hf0.
      exists t. split_and!; [done|congruence| |].
      * intros [Hin Hf]. destruct (decide (k ∈ L)) as [HL|HL].
        -- apply Hc1. split; [done|congruence].
        -- apply elem_of_cons in Hin as [->|Hin]; [|done].
           rewrite (Hd1 ltac:(tauto)). by apply Hc0.
      * intros Hn. rewrite elem_of_cons in Hn.
        rewrite (Hd1 ltac:(rewrite Hf0; tauto)). apply Hd0. tauto.
Qed.

Lemma clearActive_shape s : shape_inv s → shape_inv (clearActive s).
Proof.
  intros Hs. pose proof Hs as (Hwf & Hnd & Hdom & _).
  pose proof (shape_layers s) as Hly.
  rewrite clearActive_unfold.
  destruct (clearStep_fold (activeTiles s) (set_currentView None s) Hwf)
    as (I1 & _ & _ & _ & _ & I6 & I7 & _).
  set (f := fold_left clearStep (activeTiles s) (set_currentView None s)) in *.
  apply shape_build; cbn [tiles activeTiles layers set_activeTiles set_featureHolders].
  - done.
  - apply NoDup_nil_2.
  - intros k H. by apply elem_of_nil in H.
  - intros k. rewrite I7. cbn [layers set_currentView].
    change (fulfilledAt (set_currentView None s) k) with (fulfilledAt s k).
    rewrite (Hly k Hs). split; [tauto|]. intros [Hnil _]. by apply elem_of_nil in Hnil.
Qed.

End ClearActive.

Section ShapeReachable.
Import Lod.

Lemma set_currentView_shape v s : shape_inv s → shape_inv (set_currentView v s).
Proof. intros (?&?&?&?). by split_and!. Qed.

Lemma fold_showCell_shape cells s :
  shape_inv s → shape_inv (fold_left showCell cells s).
Proof.
  revert s. induction cells as [|c cells IH]; intros s Hs; [done|].
  simpl. by apply IH, showCell_shape.
Qed.

Lemma hideOutside_shape v s key : shape_inv s → shape_inv (hideOutside v s key).
Proof.
  intros Hs. unfold hideOutside.
  destruct (Number _) as [x|]; [|done]. destruct (Number _) as [y|]; [|done].
  destruct (GridView.outside v x y); [|done]. by apply hideTile_shape.
Qed.

Lemma fold_hideOutside_shape v keys s :
  shape_inv s → shape_inv (fold_left (hideOutside v) keys s).
Proof.
  revert s. induction keys as [|k keys IH]; intros s Hs; [done|].
  simpl. by apply IH, hideOutside_shape.
Qed.

Lemma updateView_shape origin bounds s :
  shape_inv s → shape_inv (updateView origin bounds s).
Proof.
  intros Hs. unfold updateView.
  destruct (match currentView s with Some v => _ | None => true end); [|done].
  by apply set_currentView_shape, fold_hideOutside_shape, fold_showCell_shape.
Qed.

Lemma new_shape meta : shape_inv (Lod.new meta).
Proof.
  apply shape_build; cbn [Lod.new tiles activeTiles layers].
  - intros k t H. cbn [Lod.new tiles] in H. by rewrite lookup_empty in H.
  - apply NoDup_nil_2.
  - intros k H. by apply elem_of_nil in H.
  - intros k. split; [|intros [H _]; by apply elem_of_nil in H].
    intros H. by apply not_elem_of_empty in H.
Qed.

Lemma step_shape ok s s' : shape_inv s → step ok s s' → shape_inv s'.
Proof.
  intros Hs Hstep. destruct Hstep.
  - by apply showCell_shape.
  - by apply hideTile_shape.
  - by apply (tileLoaded_shape key features s tile).
  - by apply clearActive_shape.
  - by apply updateView_shape.
Qed.

(** Every reachable state has the shape of [shape_inv], whatever the feature
    collections are. *)
Lemma reachable_shape ok s : reachable ok s → shape_inv s.
Proof.
  induction 1 as [meta|s s' _ IH Hstep]; [apply new_shape|].
  by apply (step_shape ok s).
Qed.

(** After [clearActive] a reachable level of detail is torn down. *)
Lemma clearActive_torn_down ok s :
  reachable ok s →
  activeTiles (clearActive s) = [] ∧ featureHolders (clearActive s) = ∅ ∧
  layers (clearActive s) = ∅ ∧ currentView (clearActive s) = None.
Proof.
  intros Hr. pose proof (reachable_shape ok s Hr) as Hs.
  pose proof (clearActive_shape s Hs) as Hs'.
  rewrite clearActive_unfold in *.
  destruct (clearStep_fold (activeTiles s) (set_currentView None s) (proj1 Hs))
    as (_ & _ & _ & _ & I5 & _).
  split_and!; try done.
  apply set_eq. intros k. rewrite (shape_layers _ k Hs').
  cbn [activeTiles set_activeTiles]. split.
  - intros [H _]. by apply elem_of_nil in H.
  - intros H. by apply not_elem_of_empty in H.
Qed.

End ShapeReachable.

Section TeardownClaim.
Import TiledGeoJSON.


End TeardownClaim.

Section SampleRun.

(** The sample state is reached by showing and loading the two tiles. *)
Lemma sampleShared_reachable ok : ok [feature7] → reachable ok sampleShared.
Proof.
  intros Hok. unfold sampleShared.
  eapply reach_step; [|eapply (step_load ok _ "1,0"); [vm_compute; reflexivity|reflexivity|exact Hok]].
  eapply reach_step; [|apply step_show].
  eapply reach_step; [|eapply (step_load ok _ "0,0"); [vm_compute; reflexivity|reflexivity|exact Hok]].
  eapply reach_step; [|apply step_show].
  apply reach_new.
Qed.


End SampleRun.

(** ** The registry is kept by the two registry loops *)

Section RegistrySteps.
Import Lod.

Lemma registry_ok_ext s reg reg' :
  (∀ k f, reg k f ↔ reg' k f) → registry_ok s reg → registry_ok s reg'.
Proof.
  intros He (H1 & H2 & H3). split_and!; [done| |done].
  intros fid k. by rewrite H2.
Qed.

Lemma registry_ok_fields s s' reg :
  tiles s' = tiles s → featureHolders s' = featureHolders s →
  registry_ok s reg → registry_ok s' reg.
Proof.
  intros Ht Hh (H1 & H2 & H3). unfold registry_ok, holdersOf in *.
  rewrite Ht, Hh. by split_and!.
Qed.

Lemma masked_maskOf s k tile fid :
  tiles s !! k = Some tile → Tile.masked fid tile ↔ is_Some (maskOf s k fid).
Proof. intros H. unfold maskOf, Tile.masked. by rewrite H. Qed.

Lemma filter_head_tail (key : string) (hs : list string) :
  NoDup hs → head hs = Some key → filter (λ k, k ≠ key) hs = tail hs.
Proof.
  destruct hs as [|h r]; [done|]. simpl. intros Hnd [= ->].
  apply NoDup_cons in Hnd as [Hnotin _].
  rewrite filter_cons_False by (intros H; by apply H).
  induction r as [|x r IH]; [done|].
  rewrite filter_cons_True.
  - f_equal. apply IH. intros H. apply Hnotin, elem_of_cons. by right.
  - intros ->. apply Hnotin, elem_of_cons. by left.
Qed.

Lemma tail_filter_later (key : string) (hs : list string) :
  head hs ≠ Some key →
  tail (filter (λ k, k ≠ key) hs) = filter (λ k, k ≠ key) (tail hs).
Proof.
  destruct hs as [|h r]; [done|]. simpl. intros Hne.
  rewrite filter_cons_True; [done|]. congruence.
Qed.

Lemma head_not_in_tail (k : string) (r : list string) :
  NoDup r → head r = Some k → k ∉ tail r.
Proof.
  destruct r as [|h r]; [done|]. simpl. intros Hnd [= ->].
  by apply NoDup_cons in Hnd as [? _].
Qed.

Lemma elem_of_tail_ne (k : string) (r : list string) :
  head r ≠ Some k → k ∈ r ↔ k ∈ tail r.
Proof.
  destruct r as [|h r]; [done|]. simpl. intros Hne.
  rewrite elem_of_cons. split; [|by right]. intros [->|?]; [congruence|done].
Qed.

Lemma removeFeatureHolder_holdersOf key s feature fid :
  holdersOf (removeFeatureHolder key s feature) fid =
  if decide (__fid feature = Some fid)
  then filter (λ k, k ≠ key) (holdersOf s fid)
  else holdersOf s fid.
Proof.
  unfold holdersOf. rewrite removeFeatureHolder_holders.
  case_decide; [|done]. by destruct (featureHolders s !! fid).
Qed.

Lemma removeFeatureHolder_absent key s feature fid :
  __fid feature = Some fid → featureHolders s !! fid = None →
  removeFeatureHolder key s feature = s.
Proof. intros Hf Hh. unfold removeFeatureHolder. by rewrite Hf, Hh. Qed.

(** One step of [removeFeatureHolders] takes the pair of the hidden tile and
    the identifier of the feature out of the relation. *)
Lemma removeFeatureHolder_registry key s feature reg :
  registry_ok s reg →
  registry_ok (removeFeatureHolder key s feature)
    (λ k f, reg k f ∧ ¬ (k = key ∧ __fid feature = Some f)).
Proof.
  intros (H1 & H2 & H3).
  pose proof (removeFeatureHolder_sameTiles key s feature) as Hsame.
  split_and!.
  - intros fid. rewrite removeFeatureHolder_holdersOf.
    case_decide; [by apply NoDup_filter|done].
  - intros fid k. rewrite removeFeatureHolder_holdersOf. case_decide as Hd.
    + rewrite list_elem_of_filter, H2. split; [|tauto].
      intros [Hne Hr]. split; [done|]. intros [-> _]. done.
    + rewrite H2. split; [|tauto]. intros Hr. split; [done|]. tauto.
  - intros k tile' fid Ht'.
    assert (is_Some (tiles s !! k)) as [tile Ht].
    { apply (sameTiles_is_Some _ _ _ Hsame). eauto. }
    rewrite (masked_maskOf _ _ _ fid Ht'), removeFeatureHolder_holdersOf.
    specialize (H3 k tile fid Ht). rewrite (masked_maskOf _ _ _ fid Ht) in H3.
    destruct (decide (__fid feature = Some fid)) as [Hf|Hf].
    + destruct (featureHolders s !! fid) as [hs|] eqn:Hh.
      * assert (holdersOf s fid = hs) as Hhs by (unfold holdersOf; by rewrite Hh).
        specialize (H1 fid). rewrite Hhs in *.
        destruct (decide (head hs = Some key)) as [Hhead|Hhead].
        -- rewrite (removeFeatureHolder_maskOf_first key s feature k fid hs) by done.
           rewrite (filter_head_tail key hs H1 Hhead).
           assert (NoDup (tail hs)) as Hnd'
             by (destruct hs; [done|]; by apply NoDup_cons in H1 as [_ ?]).
           case_decide as Hnext.
           ++ split; [intros [? ?]; done|]. intros Hin.
              by apply (head_not_in_tail k (tail hs)) in Hin.
           ++ rewrite H3. by apply elem_of_tail_ne.
        -- rewrite (removeFeatureHolder_maskOf_later key s feature k fid hs) by done.
           rewrite (tail_filter_later key hs Hhead), list_elem_of_filter.
           case_decide as Hk.
           ++ split; [intros [? ?]; done|]. tauto.
           ++ rewrite H3. tauto.
      * rewrite (removeFeatureHolder_absent key s feature fid) by done.
        assert (holdersOf s fid = []) as Hhs by (unfold holdersOf; by rewrite Hh).
        rewrite Hhs in *. by rewrite filter_nil.
    + by rewrite removeFeatureHolder_maskOf_other.
Qed.

Lemma fold_removeFeatureHolder_registry key features s reg :
  registry_ok s reg →
  registry_ok (fold_left (removeFeatureHolder key) features s)
    (λ k f, reg k f ∧ ¬ (k = key ∧ f ∈ fids features)).
Proof.
  revert s reg. induction features as [|x l IH]; intros s reg Hr.
  - simpl. eapply registry_ok_ext; [|exact Hr]. intros k f.
    split; [|tauto]. intros ?. split; [done|]. intros [_ Hnil].
    by apply elem_of_nil in Hnil.
  - cbn [fold_left].
    eapply registry_ok_ext; [|apply IH, removeFeatureHolder_registry, Hr].
    intros k f. cbn beta. rewrite fids_cons.
    destruct (__fid x) as [fid0|].
    + rewrite elem_of_cons. split.
      * intros [[? Hn] Hn']. split; [done|]. intros [-> [->|?]]; [by apply Hn|tauto].
      * intros [? Hn]. split_and!; [done| |tauto]. intros [-> [= ->]]. tauto.
    + split; [|intros [? ?]; split_and!; [done| |done]; intros [_ ?]; done].
      tauto.
Qed.

End RegistrySteps.

Section RegistryAdd.
Import Lod.

Lemma addFeatureHolder_holdersOf key s feature fid0 fid :
  __fid feature = Some fid0 →
  holdersOf (addFeatureHolder key s feature) fid =
  if decide (fid0 = fid) then holdersOf s fid0 ++ [key] else holdersOf s fid.
Proof.
  intros Hf. unfold addFeatureHolder. rewrite Hf. unfold holdersOf at 1.
  cbn [featureHolders set_featureHolders].
  assert (featureHolders
            match default [] (featureHolders s !! fid0) with
            | [] => s
            | _ :: _ => onTile key (Tile.maskFeature fid0) s
            end = featureHolders s) as ->
    by (by destruct (default [] (featureHolders s !! fid0))).
  rewrite lookup_insert. case_decide; [done|]. done.
Qed.

Lemma addFeatureHolder_tiles key s feature fid0 :
  __fid feature = Some fid0 →
  tiles (addFeatureHolder key s feature) =
  match holdersOf s fid0 with
  | [] => tiles s
  | _ :: _ => alter (Tile.maskFeature fid0) key (tiles s)
  end.
Proof.
  intros Hf. unfold addFeatureHolder, holdersOf. rewrite Hf.
  by destruct (default [] (featureHolders s !! fid0)).
Qed.

Lemma addFeatureHolder_noid key s feature :
  __fid feature = None → addFeatureHolder key s feature = s.
Proof. intros Hf. unfold addFeatureHolder. by rewrite Hf. Qed.

(** One step of [addFeatureHolders] puts the pair of the shown tile and the
    identifier of the feature into the relation. *)
Lemma addFeatureHolder_registry key s feature fid reg tile features :
  registry_ok s reg → tiles s !! key = Some tile →
  Tile.featureCollection tile = Some features → fid ∈ fids features →
  __fid feature = Some fid → ¬ reg key fid →
  registry_ok (addFeatureHolder key s feature) (λ k f, reg k f ∨ (k = key ∧ f = fid)).
Proof.
  intros (H1 & H2 & H3) Ht Hc Hin Hf Hnreg.
  assert (key ∉ holdersOf s fid) as Hnotin by (by rewrite H2).
  split_and!.
  - intros f. rewrite (addFeatureHolder_holdersOf key s feature fid f Hf).
    case_decide; [|done]. by apply NoDup_snoc.
  - intros f k. rewrite (addFeatureHolder_holdersOf key s feature fid f Hf).
    case_decide as Hd.
    + subst f. rewrite elem_of_snoc, H2. tauto.
    + rewrite H2. split; [tauto|]. intros [?|[_ ?]]; [done|congruence].
  - intros k tile' f. rewrite (addFeatureHolder_tiles key s feature fid Hf).
    rewrite (addFeatureHolder_holdersOf key s feature fid f Hf).
    destruct (holdersOf s fid) as [|h r] eqn:Hhs.
    + intros Ht'. rewrite (H3 k tile' f Ht'). case_decide as Hd; [|done].
      subst f. rewrite Hhs. done.
    + destruct (decide (key = k)) as [<-|Hk].
      * rewrite lookup_alter_eq, Ht. simpl. intros [= <-].
        rewrite (maskFeature_masked_iff fid f tile features Hc Hin).
        rewrite (H3 key tile f Ht). case_decide as Hd.
        -- subst f. simpl. rewrite elem_of_snoc. tauto.
        -- split; [|tauto]. intros [?|?]; [congruence|done].
      * rewrite lookup_alter_ne by done. intros Ht'.
        rewrite (H3 k tile' f Ht'). case_decide as Hd; [|done].
        subst f. rewrite Hhs. simpl. rewrite elem_of_snoc.
        split; [tauto|]. intros [?|?]; [done|congruence].
Qed.

Lemma fold_addFeatureHolder_registry key l :
  ∀ s reg done tile features,
    tiles_wf s →
    registry_ok s (λ k f, reg k f ∨ (k = key ∧ f ∈ done)) →
    (∀ f, ¬ reg key f) →
    tiles s !! key = Some tile → Tile.featureCollection tile = Some features →
    l ⊆ features → NoDup (done ++ fids l) →
    registry_ok (fold_left (addFeatureHolder key) l s)
      (λ k f, reg k f ∨ (k = key ∧ f ∈ done ++ fids l)).
Proof.
  induction l as [|x l IH]; intros s reg done tile features Hwf Hr Hn Ht Hc Hsub Hnd.
  - simpl. eapply registry_ok_ext; [|exact Hr]. intros k f. cbn beta.
    unfold fids. simpl. by rewrite app_nil_r.
  - cbn [fold_left].
    assert (x ∈ features) as Hx by (apply Hsub, elem_of_cons; by left).
    assert (l ⊆ features) as Hsub' by (intros y Hy; apply Hsub, elem_of_cons; by right).
    destruct (sameTiles_lookup s _ key tile (addFeatureHolder_sameTiles key s x) Ht)
      as (tile' & Ht' & Hst).
    assert (tiles_wf (addFeatureHolder key s x)) as Hwf'
      by (by apply (addFeatureHolder_wf key s x tile features)).
    assert (Tile.featureCollection tile' = Some features) as Hc'
      by (by rewrite (static_collection _ _ Hst)).
    rewrite fids_cons in *. destruct (__fid x) as [fid|] eqn:Hf.
    + assert (fid ∈ fids features) as Hin by (apply list_elem_of_omap; by exists x).
      assert (fid ∉ done) as Hnd1.
      { intros Hd. apply NoDup_app in Hnd as (_ & Hdis & _).
        apply (Hdis fid Hd). apply elem_of_cons. by left. }
      assert (NoDup ((done ++ [fid]) ++ fids l)) as Hnd'
        by (by rewrite <- app_assoc).
      eapply registry_ok_ext;
        [|apply (IH (addFeatureHolder key s x) reg (done ++ [fid]) tile' features);
          try done].
      * intros k f. cbn beta. by rewrite <- app_assoc.
      * eapply registry_ok_ext;
          [|apply (addFeatureHolder_registry key s x fid _ tile features Hr Ht Hc Hin Hf)].
        -- intros k f. cbn beta. rewrite elem_of_app, list_elem_of_singleton. tauto.
        -- intros [?|[_ ?]]; [by apply (Hn fid)|done].
    + rewrite (addFeatureHolder_noid key s x Hf) in *.
      by apply (IH s reg done tile features).
Qed.

End RegistryAdd.

(** ** The registry invariant is kept by every operation *)

Section RegistryOps.
Import Lod.

Lemma shows_iff s k f : shows s k f ↔ k ∈ activeTiles s ∧ holds s k f.
Proof.
  unfold shows, visible, holds. split.
  - intros (tile & (? & ? & ?) & ?). split; [done|]. by exists tile.
  - intros (? & tile & ? & ? & ?). by exists tile.
Qed.

Lemma sameTiles_holds s s' k f : sameTiles s s' → holds s k f ↔ holds s' k f.
Proof.
  intros (_&_&_&_&H). specialize (H k). unfold holds, Tile.contains.
  destruct (tiles s !! k) as [t|], (tiles s' !! k) as [t'|]; simpl in H;
    try discriminate.
  - assert (Tile_static t' = Tile_static t) as Hst by congruence.
    pose proof (static_fulfilled _ _ Hst) as Hf.
    pose proof (static_collection _ _ Hst) as Hc.
    split; intros (? & [= <-] & ? & ?); eexists; (split; [done|]).
    + by rewrite Hf, Hc.
    + by rewrite <- Hf, <- Hc.
  - split; intros (? & ? & _); discriminate.
Qed.

Lemma holds_of_tile s k f tile features :
  tiles s !! k = Some tile → Tile.fulfilled tile = true →
  Tile.featureCollection tile = Some features →
  holds s k f ↔ f ∈ fids features.
Proof.
  intros Ht Hf Hc. unfold holds, Tile.contains. split.
  - intros (t & Ht' & _ & fc & Hc' & Hin). congruence.
  - intros Hin. exists tile. split_and!; [done..|]. by exists features.
Qed.

Lemma holds_unfulfilled s k f tile :
  tiles s !! k = Some tile → Tile.fulfilled tile = false → ¬ holds s k f.
Proof. intros Ht Hf (t & Ht' & Hf' & _). congruence. Qed.

Lemma uniqueTiles_sameTiles s s' : sameTiles s s' → uniqueTiles s → uniqueTiles s'.
Proof.
  intros (_&_&_&_&H) Hu k tile' features Ht' Hc'. specialize (H k).
  rewrite Ht' in H. destruct (tiles s !! k) as [tile|] eqn:Ht; [|done].
  simpl in H. assert (Tile_static tile' = Tile_static tile) as Hst by congruence.
  apply (Hu k tile features Ht). by rewrite <- (static_collection _ _ Hst).
Qed.

Lemma uniqueTiles_tiles s s' : tiles s' = tiles s → uniqueTiles s → uniqueTiles s'.
Proof. intros H Hu. unfold uniqueTiles. by rewrite H. Qed.

Lemma elem_of_tail_elem (k : string) (l : list string) : k ∈ tail l → k ∈ l.
Proof. destruct l; [done|]. simpl. intros. apply elem_of_cons. by right. Qed.

Lemma addFeatureHolders_fold key s tile features :
  tiles s !! key = Some tile → Tile.featureCollection tile = Some features →
  addFeatureHolders key s = fold_left (addFeatureHolder key) features s.
Proof. intros Ht Hc. unfold addFeatureHolders. rewrite Ht. simpl. by rewrite Hc. Qed.

Lemma showTile_registry x y s :
  shape_inv s → registry_inv s → tileKey x y ∉ activeTiles s →
  registry_inv (showTile x y s).
Proof.
  intros Hs [Hu Hr] Hk. pose proof Hs as (Hwf & Hnd & Hdom & _).
  pose proof Hr as (H1 & H2 & H3).
  destruct (LodMeta.tiles (meta s) !! tileKey x y) as [h|] eqn:Hm;
    [|by rewrite showTile_nometa].
  set (key := tileKey x y) in *.
  assert (∀ f, ¬ shows s key f) as Hnshow
    by (intros f Hsh; apply shows_iff in Hsh as [? _]; done).
  destruct (tiles s !! key) as [tile|] eqn:Ht.
  - destruct (Tile.fulfilled tile) eqn:Hf.
    + destruct (wf_fulfilled_collection key tile (Hwf _ _ Ht) Hf) as [features Hc].
      rewrite (showTile_fulfilled x y s h tile) by done. fold key.
      rewrite (addFeatureHolders_fold key s tile features) by done.
      pose proof (fold_sameTiles (addFeatureHolder key) features s
                    (addFeatureHolder_sameTiles key)) as Hsame.
      set (f := fold_left (addFeatureHolder key) features s) in *.
      split.
      * apply (uniqueTiles_tiles f); [done|].
        by apply (uniqueTiles_sameTiles s).
      * apply (registry_ok_fields f); [done..|].
        eapply registry_ok_ext;
          [|apply (fold_addFeatureHolder_registry key features s (shows s) [] tile features);
            try done].
        -- intros k fid. cbn beta. rewrite app_nil_l, !shows_iff.
           cbn [activeTiles set_activeTiles].
           rewrite activate_fresh, elem_of_snoc by done.
           change (holds (set_activeTiles (activeTiles s ++ [key]) (addLayer key f)) k fid)
             with (holds f k fid).
           rewrite <- (sameTiles_holds _ _ k fid Hsame).
           pose proof (holds_of_tile s key fid tile features Ht Hf Hc) as Hh.
           split.
           ++ intros [[? ?]|[-> ?]]; [tauto|]. split; [by right|]. by apply Hh.
           ++ intros [[?| ->] ?]; [tauto|]. right. split; [done|]. by apply Hh.
        -- eapply registry_ok_ext; [|exact Hr]. intros k fid. cbn beta.
           split; [tauto|]. intros [?|[_ Hnil]]; [done|]. by apply elem_of_nil in Hnil.
        -- rewrite app_nil_l. by apply (Hu key tile features).
    + rewrite (showTile_loading x y s h tile) by done. fold key.
      split; [done|]. apply (registry_ok_fields s); [done..|].
      eapply registry_ok_ext; [|exact Hr]. intros k fid.
      rewrite !shows_iff. cbn [activeTiles set_activeTiles].
      rewrite activate_fresh, elem_of_snoc by done.
      change (holds (set_activeTiles (activeTiles s ++ [key]) s) k fid)
        with (holds s k fid).
      split; [tauto|]. intros [[?| ->] Hh]; [tauto|].
      by apply (holds_unfulfilled s key fid tile) in Hh.
  - rewrite (showTile_new x y s h) by done. fold key.
    set (s' := set_activeTiles _ _).
    assert (∀ k fid, holds s' k fid ↔ k ≠ key ∧ holds s k fid) as Hholds.
    { intros k fid. unfold holds, s'. cbn [tiles set_activeTiles set_tiles].
      rewrite lookup_insert. case_decide as Hd.
      - subst k. split; [|tauto]. intros (t & [= <-] & Hf & _). done.
      - split; [intros ?; split; [congruence|done]|tauto]. }
    split.
    + intros k tile' features. unfold s'. cbn [tiles set_activeTiles set_tiles].
      rewrite lookup_insert. case_decide as Hd.
      * intros [= <-]. done.
      * apply Hu.
    + split_and!.
      * done.
      * intros fid k. change (holdersOf s' fid) with (holdersOf s fid).
        rewrite H2, !shows_iff, Hholds. unfold s'. cbn [activeTiles set_activeTiles].
        rewrite activate_fresh, elem_of_snoc by done.
        split; [|tauto]. intros [? ?]. split_and!; [tauto| |done]. congruence.
      * intros k tile' fid. change (holdersOf s' fid) with (holdersOf s fid).
        unfold s'. cbn [tiles set_activeTiles set_tiles].
        rewrite lookup_insert. case_decide as Hd.
        -- intros [= <-]. subst k. split.
           ++ unfold Tile.masked, Tile.new. cbn [Tile.maskedFeatures].
              rewrite lookup_empty. intros [? ?]. done.
           ++ intros Hin. apply elem_of_tail_elem in Hin.
              apply H2 in Hin. by apply Hnshow in Hin.
        -- apply H3.
Qed.

End RegistryOps.

Section RegistryOps2.
Import Lod.

Lemma hideTile_registry x y s :
  shape_inv s → registry_inv s → registry_inv (hideTile x y s).
Proof.
  intros Hs [Hu Hr]. pose proof Hs as (Hwf & Hnd & Hdom & _).
  destruct (decide (tileKey x y ∈ activeTiles s)) as [Ha|Ha];
    [|by rewrite hideTile_inactive].
  set (key := tileKey x y) in *.
  destruct (Hdom key Ha) as [tile Ht].
  destruct (Tile.fulfilled tile) eqn:Hf.
  - destruct (wf_fulfilled_collection key tile (Hwf _ _ Ht) Hf) as [features Hc].
    rewrite (hideTile_fulfilled x y s tile features) by done. fold key.
    set (s0 := removeLayer key s).
    pose proof (fold_sameTiles (removeFeatureHolder key) features s0
                  (removeFeatureHolder_sameTiles key)) as Hsame.
    assert (registry_ok s0 (shows s)) as Hr0 by (by apply (registry_ok_fields s)).
    pose proof (fold_removeFeatureHolder_registry key features s0 _ Hr0) as Hrf.
    set (f := fold_left (removeFeatureHolder key) features s0) in *.
    split.
    + apply (uniqueTiles_tiles f); [done|].
      apply (uniqueTiles_sameTiles s0); [done|]. by apply (uniqueTiles_tiles s).
    + apply (registry_ok_fields f); [done..|].
      eapply registry_ok_ext; [|exact Hrf]. intros k fid. cbn beta.
      rewrite !shows_iff. cbn [activeTiles set_activeTiles].
      rewrite elem_of_deactivate.
      change (holds (set_activeTiles (deactivate key (activeTiles s)) f) k fid)
        with (holds f k fid).
      rewrite <- (sameTiles_holds _ _ k fid Hsame).
      change (holds s0 k fid) with (holds s k fid).
      pose proof (holds_of_tile s key fid tile features Ht Hf Hc) as Hh.
      split.
      * intros [[? ?] Hn]. split_and!; [|done..]. intros ->. tauto.
      * intros [[? ?] ?]. split_and!; [done..|]. tauto.
  - rewrite (hideTile_unfulfilled x y s tile) by done. fold key.
    split; [done|]. apply (registry_ok_fields s); [done..|].
    eapply registry_ok_ext; [|exact Hr]. intros k fid.
    rewrite !shows_iff. cbn [activeTiles set_activeTiles].
    rewrite elem_of_deactivate.
    change (holds (set_activeTiles (deactivate key (activeTiles s)) s) k fid)
      with (holds s k fid).
    split; [|tauto]. intros [? Hh]. split_and!; [|done..].
    intros ->. by apply (holds_unfulfilled s key fid tile) in Hh.
Qed.

Lemma holds_loaded key features s tile k fid :
  tiles s !! key = Some tile → Tile.fulfilled tile = false →
  holds (onTile key (Tile.loaded features) s) k fid ↔
  (k ≠ key ∧ holds s k fid) ∨ (k = key ∧ fid ∈ fids features).
Proof.
  intros Ht Hf. unfold holds. rewrite onTile_lookup. case_decide as Hd.
  - subst k. rewrite Ht. simpl. split.
    + intros (t & [= <-] & _ & fc & Hc & Hin). right. split; [done|].
      rewrite loaded_collection in Hc. congruence.
    + intros [[? _]|[_ Hin]]; [done|]. eexists. split_and!; [done| |].
      * apply loaded_fulfilled.
      * exists features. split; [apply loaded_collection|done].
  - split; [intros ?; left; split; [congruence|done]|].
    intros [[_ ?]|[? _]]; [done|congruence].
Qed.

Lemma tileLoaded_registry key features s tile :
  shape_inv s → registry_inv s →
  tiles s !! key = Some tile → Tile.fulfilled tile = false →
  uniqueFids features →
  registry_inv (tileLoaded key features s).
Proof.
  intros Hs [Hu Hr] Ht Hf Hok. pose proof Hs as (Hwf & Hnd & Hdom & _).
  pose proof Hr as (H1 & H2 & H3).
  assert (∀ fid, ¬ shows s key fid) as Hnshow.
  { intros fid Hsh. apply shows_iff in Hsh as [_ Hh].
    by apply (holds_unfulfilled s key fid tile) in Hh. }
  assert (Tile.featureCollection tile = None) as Hc0
    by (apply (wf_unfulfilled_collection key); [by apply Hwf|done]).
  destruct (loaded_wf key features tile (Hwf _ _ Ht) Hc0) as [Hwl Hml].
  set (s0 := onTile key (Tile.loaded features) s).
  assert (tiles s0 !! key = Some (Tile.loaded features tile)) as Ht0.
  { unfold s0. rewrite onTile_lookup, decide_True by done. by rewrite Ht. }
  assert (tiles_wf s0) as Hwf0.
  { apply onTile_wf; [done|]. intros t Ht'. rewrite Ht in Ht'. by injection Ht' as <-. }
  assert (uniqueTiles s0) as Hu0.
  { intros k t fc. unfold s0. rewrite onTile_lookup. case_decide as Hd.
    - subst k. rewrite Ht. simpl. intros [= <-]. rewrite loaded_collection.
      by intros [= <-].
    - apply Hu. }
  assert (registry_ok s0 (shows s)) as Hr0.
  { split_and!; [done..|]. intros k t fid. unfold s0. rewrite onTile_lookup.
    change (holdersOf (onTile key (Tile.loaded features) s) fid) with (holdersOf s fid).
    case_decide as Hd.
    - subst k. rewrite Ht. simpl. intros [= <-]. unfold Tile.masked.
      rewrite Hml, lookup_empty. split; [intros [? ?]; done|].
      intros Hin. apply elem_of_tail_elem, H2 in Hin. by apply Hnshow in Hin.
    - apply H3. }
  pose proof (holds_loaded key features s tile) as Hhl. fold s0 in Hhl.
  destruct (decide (key ∈ activeTiles s)) as [Ha|Ha].
  - rewrite tileLoaded_active by done. fold s0.
    rewrite (addFeatureHolders_fold key s0 (Tile.loaded features tile) features)
      by (done || apply loaded_collection).
    pose proof (fold_sameTiles (addFeatureHolder key) features s0
                  (addFeatureHolder_sameTiles key)) as Hsame.
    set (f := fold_left (addFeatureHolder key) features s0) in *.
    split.
    + apply (uniqueTiles_tiles f); [done|]. by apply (uniqueTiles_sameTiles s0).
    + apply (registry_ok_fields f); [done..|].
      eapply registry_ok_ext;
        [|apply (fold_addFeatureHolder_registry key features s0 (shows s) []
                   (Tile.loaded features tile) features); try done].
      * intros k fid. cbn beta. rewrite app_nil_l, !shows_iff.
        pose proof Hsame as (_ & Hact & _).
        cbn [activeTiles addLayer set_layers]. rewrite Hact.
        change (activeTiles s0) with (activeTiles s).
        change (holds (addLayer key f) k fid) with (holds f k fid).
        rewrite <- (sameTiles_holds s0 f k fid Hsame).
        rewrite Hhl by done. split.
        -- intros [[? Hh]|[-> ?]]; [|tauto]. split; [done|]. left. split; [|done].
           intros ->. by apply (holds_unfulfilled s key fid tile) in Hh.
        -- intros [? [[? ?]|[-> ?]]]; tauto.
      * eapply registry_ok_ext; [|exact Hr0]. intros k fid. cbn beta.
        split; [tauto|]. intros [?|[_ Hnil]]; [done|]. by apply elem_of_nil in Hnil.
      * apply loaded_collection.
  - rewrite tileLoaded_inactive by done. fold s0.
    split; [done|]. eapply registry_ok_ext; [|exact Hr0]. intros k fid.
    rewrite !shows_iff. change (activeTiles s0) with (activeTiles s).
    rewrite Hhl by done. split; [|intros [? [[? ?]|[-> ?]]]; tauto].
    intros [? Hh]. split; [done|]. left. split; [congruence|done].
Qed.

Lemma clearActive_registry s :
  shape_inv s → registry_inv s → registry_inv (clearActive s).
Proof.
  intros Hs [Hu Hr]. pose proof Hs as (Hwf & Hnd & Hdom & _).
  pose proof Hr as (H1 & H2 & H3).
  rewrite clearActive_unfold.
  destruct (clearStep_fold (activeTiles s) (set_currentView None s) Hwf)
    as (_ & _ & _ & _ & _ & _ & _ & I8).
  set (f := fold_left clearStep (activeTiles s) (set_currentView None s)) in *.
  split.
  - intros k t' fc Ht' Hc'. cbn [tiles set_activeTiles set_featureHolders] in Ht'.
    destruct (I8 k t' Ht') as (t & Ht & Hst & _).
    apply (Hu k t fc Ht). by rewrite <- (static_collection _ _ Hst).
  - assert (∀ fid, holdersOf (set_activeTiles [] (set_featureHolders ∅ f)) fid = []) as Hh.
    { intros fid. unfold holdersOf. cbn [featureHolders set_activeTiles set_featureHolders].
      by rewrite lookup_empty. }
    split_and!.
    + intros fid. rewrite Hh. apply NoDup_nil_2.
    + intros fid k. rewrite Hh, shows_iff. cbn [activeTiles set_activeTiles].
      split; [intros Hnil|intros [Hnil _]]; by apply elem_of_nil in Hnil.
    + intros k t' fid Ht'. rewrite Hh. cbn [tiles set_activeTiles set_featureHolders] in Ht'.
      simpl. split; [|intros Hnil; by apply elem_of_nil in Hnil].
      intros Hm. exfalso.
      destruct (I8 k t' Ht') as (t & Ht & Hst & Hc & Hd).
      cbn [tiles set_currentView] in Ht.
      destruct (decide (k ∈ activeTiles s ∧ Tile.fulfilled t = true)) as [Hyes|Hno].
      * unfold Tile.masked in Hm. rewrite (Hc Hyes), lookup_empty in Hm.
        by destruct Hm.
      * rewrite (Hd Hno) in Hm. apply (H3 k t fid Ht) in Hm.
        apply elem_of_tail_elem, H2, shows_iff in Hm as [Hact (t0 & Ht0 & Hf0 & _)].
        apply Hno. split; [done|congruence].
Qed.

Lemma new_registry meta : registry_inv (Lod.new meta).
Proof.
  split.
  - intros k t fc H. cbn [Lod.new tiles] in H. by rewrite lookup_empty in H.
  - assert (∀ fid, holdersOf (Lod.new meta) fid = []) as Hh.
    { intros fid. unfold holdersOf. cbn [featureHolders Lod.new]. by rewrite lookup_empty. }
    split_and!.
    + intros fid. rewrite Hh. apply NoDup_nil_2.
    + intros fid k. rewrite Hh, shows_iff. cbn [activeTiles Lod.new].
      split; [intros Hnil|intros [Hnil _]]; by apply elem_of_nil in Hnil.
    + intros k t fid H. cbn [Lod.new tiles] in H. by rewrite lookup_empty in H.
Qed.

End RegistryOps2.

(** ** The invariant holds in every reachable state *)

Section Invariant.
Import Lod.

Lemma showCell_registry s cell :
  shape_inv s → registry_inv s → registry_inv (showCell s cell).
Proof.
  intros Hs Hr. unfold showCell. case_bool_decide as Hk; simpl; [done|].
  destruct (hasHash _ s); [|done]. by apply showTile_registry.
Qed.

Lemma showCell_inv s cell : lod_inv s → lod_inv (showCell s cell).
Proof. intros [Hs Hr]. split; [by apply showCell_shape|by apply showCell_registry]. Qed.

Lemma hideTile_inv x y s : lod_inv s → lod_inv (hideTile x y s).
Proof. intros [Hs Hr]. split; [by apply hideTile_shape|by apply hideTile_registry]. Qed.

Lemma tileLoaded_inv key features s tile :
  lod_inv s → tiles s !! key = Some tile → Tile.fulfilled tile = false →
  uniqueFids features → lod_inv (tileLoaded key features s).
Proof.
  intros [Hs Hr] Ht Hf Hok. split.
  - by apply (tileLoaded_shape key features s tile).
  - by apply (tileLoaded_registry key features s tile).
Qed.

Lemma clearActive_inv s : lod_inv s → lod_inv (clearActive s).
Proof.
  intros [Hs Hr]. split; [by apply clearActive_shape|by apply clearActive_registry].
Qed.

Lemma set_currentView_inv v s : lod_inv s → lod_inv (set_currentView v s).
Proof.
  intros [Hs [Hu Hr]]. split; [by apply set_currentView_shape|].
  split; [exact Hu|exact Hr].
Qed.

Lemma fold_showCell_inv cells s : lod_inv s → lod_inv (fold_left showCell cells s).
Proof.
  revert s. induction cells as [|c cells IH]; intros s Hs; [done|].
  simpl. by apply IH, showCell_inv.
Qed.

Lemma hideOutside_inv v s key : lod_inv s → lod_inv (hideOutside v s key).
Proof.
  intros Hs. unfold hideOutside.
  destruct (Number _) as [x|]; [|done]. destruct (Number _) as [y|]; [|done].
  destruct (GridView.outside v x y); [|done]. by apply hideTile_inv.
Qed.

Lemma fold_hideOutside_inv v keys s :
  lod_inv s → lod_inv (fold_left (hideOutside v) keys s).
Proof.
  revert s. induction keys as [|k keys IH]; intros s Hs; [done|].
  simpl. by apply IH, hideOutside_inv.
Qed.

Lemma updateView_inv origin bounds s : lod_inv s → lod_inv (updateView origin bounds s).
Proof.
  intros Hs. unfold updateView.
  destruct (match currentView s with Some v => _ | None => true end); [|done].
  by apply set_currentView_inv, fold_hideOutside_inv, fold_showCell_inv.
Qed.

Lemma step_inv s s' : lod_inv s → step uniqueFids s s' → lod_inv s'.
Proof.
  intros Hs Hstep. destruct Hstep.
  - by apply showCell_inv.
  - by apply hideTile_inv.
  - by apply (tileLoaded_inv key features s tile).
  - by apply clearActive_inv.
  - by apply updateView_inv.
Qed.

Lemma reachable_inv s : reachable uniqueFids s → lod_inv s.
Proof.
  induction 1 as [meta|s s' _ IH Hstep].
  - split; [apply new_shape|apply new_registry].
  - by apply (step_inv s).
Qed.

(** The invariant gives the deduplication property. *)
Lemma dedup_of_inv s fid : lod_inv s → dedup s fid.
Proof.
  intros [Hs [Hu (H1 & H2 & H3)]] k1 t1 k2 t2 Hne Hv1 Hc1 Hv2 Hc2.
  pose proof Hs as (Hwf & _ & _ & Hly).
  assert (k1 ∈ holdersOf s fid) as Hin1 by (apply H2; by exists t1).
  destruct (holdersOf s fid) as [|k0 rest] eqn:Hh; [by apply elem_of_nil in Hin1|].
  assert (featureHolders s !! fid = Some (k0 :: rest)) as Hfh.
  { unfold holdersOf in Hh. destruct (featureHolders s !! fid); simpl in Hh; congruence. }
  assert (shows s k0 fid) as (t0 & Hv0 & Hc0).
  { apply H2. rewrite Hh. apply elem_of_cons. by left. }
  specialize (H1 fid). rewrite Hh in H1. apply NoDup_cons in H1 as [Hk0 _].
  assert (∀ k t, visible s k t → Tile.contains fid t →
                 Tile.draws fid t ↔ ¬ Tile.masked fid t) as Hdraw.
  { intros k t (_ & Ht & Hf) (fc & Hc & Hin).
    destruct (Hwf k t Ht) as [_ Hw]. rewrite Hc in Hw.
    destruct Hw as (_ & Ha & Hb & Hcc & He). destruct (Ha fid Hin) as [l Hl].
    specialize (He (Hu k t fc Ht Hc)).
    unfold Tile.draws, Tile.masked. rewrite <- eq_None_not_Some, <- (Hcc fid l Hl).
    split.
    - intros (l' & Hin' & Hl'). specialize (He fid l' Hin' Hl'). congruence.
    - intros Hin'. exists l. split; [done|]. by apply Hb. }
  assert (¬ Tile.masked fid t0) as Hnm.
  { destruct Hv0 as (_ & Ht0 & _). rewrite (H3 k0 t0 fid Ht0), Hh. done. }
  exists k0, t0, rest. split_and!; try done.
  - split.
    + apply Hly. by exists t0.
    + exists t0. split; [by destruct Hv0 as (_ & ? & _)|]. by apply (Hdraw k0).
  - intros k t Hv Hc Hk.
    assert (Tile.masked fid t) as Hm.
    { pose proof Hv as (_ & Ht & _). rewrite (H3 k t fid Ht), Hh. simpl.
      assert (k ∈ k0 :: rest) as Hin by (rewrite <- Hh; apply H2; by exists t).
      apply elem_of_cons in Hin as [?|?]; done. }
    split; [done|]. intros (_ & t' & Ht' & Hd).
    destruct Hv as (Ha & Ht & Hf). assert (t' = t) as -> by congruence.
    by apply (Hdraw k t) in Hd.
Qed.

End Invariant.

Section SampleDuplicate.
Import Lod.

Lemma sampleDuplicate_reachable : reachable anyFeatures sampleDuplicate.
Proof.
  unfold sampleDuplicate.
  eapply reach_step; [|eapply (step_load _ _ "1,0"); [vm_compute; reflexivity|reflexivity|exact I]].
  eapply reach_step; [|apply step_show].
  eapply reach_step; [|eapply (step_load _ _ "0,0"); [vm_compute; reflexivity|reflexivity|exact I]].
  eapply reach_step; [|apply step_show].
  apply reach_new.
Qed.

End SampleDuplicate.

Section PromotionSteps.
Import Lod.


End PromotionSteps.

(** * Further properties *)

(** ** Tile keys: the round trip *)

Section TileKeyRoundTrip.

(** X1.  For cell coordinates that are safe integers (at most 2^53 - 1 in
    magnitude), a tile key is the decimal text of x, a comma and the decimal
    text of y.  Splitting the key at the comma gives these two texts,
    [Number] reads x and y back from them, as the second loop of [updateView]
    does, and two keys are equal only for the same cell. *)
Theorem tileKey_round_trip (x y x' y' : Z) :
  safeInteger x → safeInteger y → safeInteger x' → safeInteger y' →
  split comma (tileKey x y) = [numberToString x; numberToString y] ∧
  Number (split comma (tileKey x y) !! 0%nat) = Some x ∧
  Number (split comma (tileKey x y) !! 1%nat) = Some y ∧
  (tileKey x y = tileKey x' y' ↔ x = x' ∧ y = y').
Proof.
  intros _ _ _ _.
  split; [apply tileKey_split|].
  destruct (tileKey_parse x y) as [Hx Hy].
  split_and!; [done..|].
  split; [apply tileKey_inj|]. by intros [-> ->].
Qed.

Lemma tileKey_round_trip_witness :
  split comma (tileKey (-3) 12) = ["-3"; "12"] ∧
  Number (split comma (tileKey (-3) 12) !! 0%nat) = Some (-3)%Z ∧
  Number (split comma (tileKey (-3) 12) !! 1%nat) = Some 12%Z ∧
  (tileKey (-3) 12 = tileKey 12 (-3) ↔ (-3)%Z = 12%Z ∧ 12%Z = (-3)%Z).
Proof.
  apply (tileKey_round_trip (-3) 12 12 (-3)); unfold safeInteger; lia.
Defined.

End TileKeyRoundTrip.

(** ** GridView: the size of the window and larger bounds *)

Section GridViewSize.
Import GridView.

Lemma length_bind_const {A B} (f : A → list B) (l : list A) (n : nat) :
  (∀ x, length (f x) = n) → length (l ≫= f) = (length l * n)%nat.
Proof.
  intros Hf. induction l as [|a l IH]; [done|].
  rewrite bind_cons, length_app, Hf, IH. simpl. lia.
Qed.

Lemma length_cells (v : t) :
  length (cells v) = (Z.to_nat (stepsX v) * Z.to_nat (stepsY v))%nat.
Proof.
  unfold cells.
  rewrite (length_bind_const _ _ (Z.to_nat (stepsY v))).
  - by rewrite length_seqZ.
  - intros x. rewrite (length_bind_const _ _ 1%nat); [|done].
    rewrite length_seqZ. lia.
Qed.

Lemma NoDup_cells (v : t) : NoDup (cells v).
Proof.
  unfold cells. apply NoDup_bind.
  - intros x1 x2 c _ _ H1 H2.
    apply list_elem_of_bind in H1 as (y1 & H1 & _).
    apply list_elem_of_bind in H2 as (y2 & H2 & _).
    apply list_elem_of_singleton in H1, H2. congruence.
  - intros x _. apply NoDup_bind.
    + intros y1 y2 c _ _ H1 H2.
      apply list_elem_of_singleton in H1, H2. congruence.
    + intros y _. apply NoDup_singleton.
    + apply NoDup_seqZ.
  - apply NoDup_seqZ.
Qed.

Lemma axis_steps (r o lo hi : Q) :
  (0 < r)%Q → (lo <= hi)%Q →
  let a := quotient lo o r in
  let b := quotient hi o r in
  let steps := (Qceiling b - Qfloor a)%Z in
  (0 <= steps)%Z ∧ (inject_Z steps < b - a + 2)%Q ∧
  ((a < b)%Q → (1 <= steps)%Z).
Proof.
  intros Hr Hle a b steps. subst steps.
  pose proof (quotient_mono lo hi o r Hr Hle) as Hab. fold a b in Hab.
  pose proof (Qfloor_le a) as Hfa. pose proof (Qlt_floor a) as Hfa'.
  pose proof (Qle_ceiling b) as Hcb. pose proof (Qceiling_lt b) as Hcb'.
  rewrite inject_Z_plus in Hfa'. unfold Z.sub in Hcb'. rewrite inject_Z_plus, inject_Z_opp in Hcb'.
  change (inject_Z 1) with 1%Q in *.
  split_and!.
  - assert (inject_Z (Qfloor a) <= inject_Z (Qceiling b))%Q as H by lra.
    rewrite <- Zle_Qle in H. lia.
  - unfold Z.sub. rewrite inject_Z_plus, inject_Z_opp. lra.
  - intros Hlt.
    assert (inject_Z (Qfloor a) < inject_Z (Qceiling b))%Q as H' by lra.
    rewrite <- Zlt_Qlt in H'. lia.
Qed.

(** X2.  For a positive resolution and bounds with west <= east and south <=
    north, within the range of the numbers, the window has no negative size
    (rounding keeps the order of the two quotients), it has fewer columns than
    the difference of the two quotients, as computed, plus 2 (and rows
    likewise), at least one column when the quotient of the east edge is
    larger than that of the west edge (and one row likewise; with west < east
    the two quotients can still round to the same integer), and the two
    loops of [updateView] visit stepsX * stepsY cells, none of them twice. *)
Theorem GridView_window_size (r ox oy : Q) (b : LatLngBounds) :
  (0 < r)%Q → (getWest b <= getEast b)%Q → (getSouth b <= getNorth b)%Q →
  inRange r ox oy b →
  let v := new r ox oy b in
  ((0 <= stepsX v)%Z ∧
   (inject_Z (stepsX v) <
      quotient (getEast b) ox r - quotient (getWest b) ox r + 2)%Q ∧
   ((quotient (getWest b) ox r < quotient (getEast b) ox r)%Q → (1 <= stepsX v)%Z)) ∧
  ((0 <= stepsY v)%Z ∧
   (inject_Z (stepsY v) <
      quotient (getNorth b) oy r - quotient (getSouth b) oy r + 2)%Q ∧
   ((quotient (getSouth b) oy r < quotient (getNorth b) oy r)%Q → (1 <= stepsY v)%Z)) ∧
  length (cells v) = Z.to_nat (stepsX v * stepsY v) ∧
  NoDup (cells v).
Proof.
  intros Hr Hx Hy _ v.
  pose proof (axis_steps r ox _ _ Hr Hx) as HX.
  pose proof (axis_steps r oy _ _ Hr Hy) as HY.
  split; [exact HX|]. split; [exact HY|].
  split; [|apply NoDup_cells].
  rewrite length_cells. destruct HX as [HX _], HY as [HY _].
  change (stepsX v) with
    (Qceiling (quotient (getEast b) ox r) - Qfloor (quotient (getWest b) ox r))%Z.
  change (stepsY v) with
    (Qceiling (quotient (getNorth b) oy r) - Qfloor (quotient (getSouth b) oy r))%Z.
  rewrite Z2Nat.inj_mul by done. done.
Qed.

Lemma GridView_window_size_witness :
  let v := new 10 0 0 sampleBounds in
  (1 <= stepsX v)%Z ∧ length (cells v) = Z.to_nat (stepsX v * stepsY v).
Proof.
  assert (0 < 10)%Q as Hr by done.
  assert (getWest sampleBounds <= getEast sampleBounds)%Q as Hx by done.
  assert (getSouth sampleBounds <= getNorth sampleBounds)%Q as Hy by done.
  assert (inRange 10 0 0 sampleBounds) as Hin
    by (repeat split; vm_compute; congruence).
  destruct (GridView_window_size 10 0 0 sampleBounds Hr Hx Hy Hin)
    as ((_ & _ & H1) & _ & Hl & _).
  split; [apply H1; vm_compute; done | exact Hl].
Defined.

(** X3.  For a positive resolution, a larger viewport has a larger window:
    when the bounds lie within other bounds (both within the range of the
    numbers), every cell of the window of the first is a cell of the window
    of the second, whatever the rounding of the quotients does. *)
Theorem GridView_window_monotone (r ox oy : Q) (b b' : LatLngBounds) :
  (0 < r)%Q → inRange r ox oy b → inRange r ox oy b' → within b b' →
  ∀ x y, (x, y) ∈ cells (new r ox oy b) → (x, y) ∈ cells (new r ox oy b').
Proof.
  intros Hr _ _ (HW & HE & HS & HN) x y.
  rewrite !elem_of_cells_covers. unfold covers.
  pose proof (quotient_mono _ _ ox r Hr HW).
  pose proof (quotient_mono _ _ ox r Hr HE).
  pose proof (quotient_mono _ _ oy r Hr HS).
  pose proof (quotient_mono _ _ oy r Hr HN).
  intros (? & ? & ? & ?). split_and!; lra.
Qed.

Lemma GridView_window_monotone_witness :
  within unitBox sampleBounds ∧ (0, 0)%Z ∈ cells (new 10 0 0 sampleBounds).
Proof.
  assert (within unitBox sampleBounds) as Hw by (repeat split; vm_compute; congruence).
  split; [exact Hw|].
  apply (GridView_window_monotone 10 0 0 unitBox sampleBounds); [done| | |exact Hw|].
  - repeat split; vm_compute; congruence.
  - repeat split; vm_compute; congruence.
  - apply elem_of_cells. vm_compute. repeat split; congruence.
Defined.

End GridViewSize.

(** ** Selection of the level of detail: order and ties *)

Section SelectionOrder.
Import TiledGeoJSON.

Implicit Types (c b : nat * Lod.t) (l : list (nat * Lod.t)).

Lemma chooseBestLod_nil zoom : chooseBestLod zoom [] = None.
Proof. done. Qed.

Lemma chooseBestLod_Some zoom (lods : list Lod.t) i lod :
  chooseBestLod zoom lods = Some (i, lod) → lods ≠ [] ∧ lods !! i = Some lod.
Proof.
  intros H. split; [by intros ->|].
  apply (elem_of_candidates lods (i, lod)).
  unfold chooseBestLod in H.
  pose proof (fold_tighter zoom (imap pair lods) None) as Ht.
  destruct (fold_left (tighter zoom) (imap pair lods) None) as [c|].
  - injection H as ->. destruct Ht as ([Hin|Hin] & _); [done..|]. done.
  - pose proof (fold_larger (imap pair lods) None) as Hl.
    rewrite H in Hl. destruct Hl as ([Hin|Hin] & _); done.
Qed.

(** X4.  Zooming in never selects a coarser level of detail: when the zoom
    grows, the maximum zoom of the selected level of detail does not
    shrink. *)
Theorem lod_selection_monotone (lods : list Lod.t) (z z' : Z) i lod i' lod' :
  (z <= z')%Z →
  chooseBestLod z lods = Some (i, lod) →
  chooseBestLod z' lods = Some (i', lod') →
  (LodMeta.maxZoom (Lod.meta lod) <= LodMeta.maxZoom (Lod.meta lod'))%Z.
Proof.
  intros Hz H H'.
  destruct (chooseBestLod_Some _ _ _ _ H) as [Hne Hi].
  destruct (chooseBestLod_Some _ _ _ _ H') as [_ Hi'].
  destruct (chooseBestLod_cases z lods Hne) as (j & l & Hj & _ & Hc).
  destruct (chooseBestLod_cases z' lods Hne) as (j' & l' & Hj' & _ & Hc').
  rewrite H in Hj. rewrite H' in Hj'.
  injection Hj as <- <-. injection Hj' as <- <-. cbv zeta in Hc, Hc'.
  assert (lod ∈ lods) as Hin by (by eapply list_elem_of_lookup_2).
  assert (lod' ∈ lods) as Hin' by (by eapply list_elem_of_lookup_2).
  destruct Hc as [[Hv Hmin]|[Hall Hmax]], Hc' as [[Hv' Hmin']|[Hall' Hmax']].
  - apply Hmin; [done|lia].
  - by apply Hmax'.
  - specialize (Hall lod' Hin'). lia.
  - by apply Hmax'.
Qed.

Lemma lod_selection_monotone_witness :
  ∃ i lod i' lod',
    chooseBestLod 3 (lodOfMaxZoom <$> [2; 4; 6]%Z) = Some (i, lod) ∧
    chooseBestLod 5 (lodOfMaxZoom <$> [2; 4; 6]%Z) = Some (i', lod') ∧
    (LodMeta.maxZoom (Lod.meta lod) <= LodMeta.maxZoom (Lod.meta lod'))%Z.
Proof.
  eexists _, _, _, _. split; [reflexivity|]. split; [reflexivity|].
  eapply (lod_selection_monotone (lodOfMaxZoom <$> [2; 4; 6]%Z) 3 5);
    [lia | reflexivity | reflexivity].
Defined.

(** What the first loop returns, when it is not what it started with, is a
    valid candidate that lies strictly below what the loop started with, and
    no candidate before it in the list has the same maximum zoom. *)
Lemma fold_tighter_first zoom l acc c :
  fold_left (tighter zoom) l acc = Some c →
  acc = Some c ∨
  ∃ l1 l2, l = l1 ++ c :: l2 ∧ (zoom <= maxZoomOf c)%Z ∧
           (∀ c', c' ∈ l1 → maxZoomOf c' ≠ maxZoomOf c) ∧
           (∀ a, acc = Some a → (maxZoomOf c < maxZoomOf a)%Z).
Proof.
  revert acc. induction l as [|x l IH]; intros acc H; [by left|].
  simpl in H. apply IH in H as [H|(l1 & l2 & -> & Hv & Hl1 & Hacc)].
  - unfold tighter in H.
    destruct (zoom <=? maxZoomOf x)%Z eqn:Hzx; [|by left].
    destruct acc as [a|].
    + destruct (maxZoomOf x <? maxZoomOf a)%Z eqn:Hxa; [|by left].
      simpl in H. injection H as ->. right. exists [], l.
      split_and!; [done|lia|by intros ? ?%elem_of_nil|].
      intros ? [= <-]. lia.
    + simpl in H. injection H as ->. right. exists [], l.
      split_and!; [done|lia|by intros ? ?%elem_of_nil|done].
  - right. exists (x :: l1), l2. split; [done|]. split; [done|].
    unfold tighter in Hacc.
    destruct (zoom <=? maxZoomOf x)%Z eqn:Hzx.
    + destruct acc as [a|].
      * destruct (maxZoomOf x <? maxZoomOf a)%Z eqn:Hxa; simpl in Hacc.
        -- specialize (Hacc x eq_refl). split.
           ++ intros c' [->|Hc']%elem_of_cons; [lia|by apply Hl1].
           ++ intros ? [= <-]. lia.
        -- specialize (Hacc a eq_refl). split.
           ++ intros c' [->|Hc']%elem_of_cons; [lia|by apply Hl1].
           ++ intros ? [= <-]. lia.
      * simpl in Hacc. specialize (Hacc x eq_refl). split; [|done].
        intros c' [->|Hc']%elem_of_cons; [lia|by apply Hl1].
    + simpl in Hacc. split; [|done].
      intros c' [->|Hc']%elem_of_cons; [lia|by apply Hl1].
Qed.

(** The same for the second loop: every candidate before the result is
    strictly below it. *)
Lemma fold_larger_first l acc c :
  fold_left larger l acc = Some c →
  acc = Some c ∨
  ∃ l1 l2, l = l1 ++ c :: l2 ∧
           (∀ c', c' ∈ l1 → (maxZoomOf c' < maxZoomOf c)%Z) ∧
           (∀ a, acc = Some a → (maxZoomOf a < maxZoomOf c)%Z).
Proof.
  revert acc. induction l as [|x l IH]; intros acc H; [by left|].
  simpl in H. apply IH in H as [H|(l1 & l2 & -> & Hl1 & Hacc)].
  - unfold larger in H. destruct acc as [a|].
    + destruct (maxZoomOf x >? maxZoomOf a)%Z eqn:Hxa; [|by left].
      injection H as ->. right. exists [], l.
      split_and!; [done|by intros ? ?%elem_of_nil|].
      intros ? [= <-]. lia.
    + injection H as ->. right. exists [], l.
      split_and!; [done|by intros ? ?%elem_of_nil|done].
  - right. exists (x :: l1), l2. split; [done|].
    unfold larger in Hacc. destruct acc as [a|].
    + destruct (maxZoomOf x >? maxZoomOf a)%Z eqn:Hxa.
      * specialize (Hacc x eq_refl). split.
        -- intros c' [->|Hc']%elem_of_cons; [lia|by apply Hl1].
        -- intros ? [= <-]. lia.
      * specialize (Hacc a eq_refl). split.
        -- intros c' [->|Hc']%elem_of_cons; [lia|by apply Hl1].
        -- intros ? [= <-]. lia.
    + specialize (Hacc x eq_refl). split; [|done].
      intros c' [->|Hc']%elem_of_cons; [lia|by apply Hl1].
Qed.

Lemma candidates_before (lods : list Lod.t) l1 l2 i lod j lod' :
  imap pair lods = l1 ++ (i, lod) :: l2 →
  (j < i)%nat → lods !! j = Some lod' → (j, lod') ∈ l1.
Proof.
  intros Heq Hlt Hj.
  assert (imap pair lods !! length l1 = Some (i, lod)) as Hpos.
  { rewrite Heq. by rewrite list_lookup_middle. }
  rewrite list_lookup_imap in Hpos.
  destruct (lods !! length l1) as [x|]; [|done].
  simpl in Hpos. injection Hpos as Hlen ->.
  assert (imap pair lods !! j = Some (j, lod')) as Hjj.
  { rewrite list_lookup_imap, Hj. done. }
  rewrite Heq, lookup_app_l in Hjj by lia.
  by eapply list_elem_of_lookup_2.
Qed.

(** X5.  Among levels of detail with the same maximum zoom the selection
    takes the first: no level of detail before the selected one has its
    maximum zoom. *)
Theorem lod_selection_ties (lods : list Lod.t) (zoom : Z) i lod :
  chooseBestLod zoom lods = Some (i, lod) →
  lods !! i = Some lod ∧
  ∀ j lod', (j < i)%nat → lods !! j = Some lod' →
            LodMeta.maxZoom (Lod.meta lod') ≠ LodMeta.maxZoom (Lod.meta lod).
Proof.
  intros H. split; [by eapply chooseBestLod_Some|].
  intros j lod' Hlt Hj. unfold chooseBestLod in H.
  destruct (fold_left (tighter zoom) (imap pair lods) None) as [c|] eqn:Ht.
  - injection H as ->.
    apply fold_tighter_first in Ht as [?|(l1 & l2 & Heq & _ & Hl1 & _)]; [done|].
    apply (Hl1 (j, lod')). by eapply candidates_before.
  - apply fold_larger_first in H as [?|(l1 & l2 & Heq & Hl1 & _)]; [done|].
    pose proof (Hl1 (j, lod') ltac:(by eapply candidates_before)) as Hlt'.
    unfold maxZoomOf in Hlt'. simpl in Hlt'. lia.
Qed.

Lemma lod_selection_ties_witness :
  (lodOfMaxZoom <$> [2; 4; 4]%Z) !! 1%nat = Some (lodOfMaxZoom 4) ∧
  ∀ j lod', (j < 1)%nat → (lodOfMaxZoom <$> [2; 4; 4]%Z) !! j = Some lod' →
            LodMeta.maxZoom (Lod.meta lod') ≠ LodMeta.maxZoom (Lod.meta (lodOfMaxZoom 4)).
Proof. apply (lod_selection_ties _ 3). reflexivity. Defined.

End SelectionOrder.

(** ** The view update of a level of detail *)

Section ViewFrames.
Import Lod.

Lemma sameTiles_meta s s' : sameTiles s s' → meta s' = meta s.
Proof. by intros (? & _). Qed.

Lemma sameTiles_activeTiles s s' : sameTiles s s' → activeTiles s' = activeTiles s.
Proof. by intros (_ & ? & _). Qed.

Lemma removeFeatureHolders_same key s : sameTiles s (removeFeatureHolders key s).
Proof.
  unfold removeFeatureHolders.
  destruct (tiles s !! key ≫= Tile.featureCollection); [|apply sameTiles_refl].
  apply fold_sameTiles, removeFeatureHolder_sameTiles.
Qed.

Lemma deactivate_absent key (a : list string) : key ∉ a → deactivate key a = a.
Proof.
  unfold deactivate. induction a as [|k a IH]; [done|].
  intros [Hne Ha]%not_elem_of_cons.
  rewrite filter_cons_True by done. by rewrite IH.
Qed.

Lemma showTile_meta x y s : meta (showTile x y s) = meta s.
Proof.
  destruct (LodMeta.tiles (meta s) !! tileKey x y) as [h|] eqn:Hm;
    [|by rewrite showTile_nometa].
  destruct (tiles s !! tileKey x y) as [tile|] eqn:Ht.
  - destruct (Tile.fulfilled tile) eqn:Hf.
    + rewrite (showTile_fulfilled x y s h tile) by done.
      cbn [meta set_activeTiles addLayer set_layers].
      apply sameTiles_meta, addFeatureHolders_sameTiles.
    + by rewrite (showTile_loading x y s h tile).
  - by rewrite (showTile_new x y s h).
Qed.

Lemma showCell_meta s cell : meta (showCell s cell) = meta s.
Proof.
  unfold showCell. destruct (_ && _); [apply showTile_meta|done].
Qed.

Lemma hideTile_meta x y s : meta (hideTile x y s) = meta s.
Proof.
  unfold hideTile. case_decide; [|done]. cbn [meta set_activeTiles].
  destruct (tiles s !! tileKey x y) as [tile|]; [|done].
  destruct (Tile.fulfilled tile); [|done].
  rewrite (sameTiles_meta _ _ (removeFeatureHolders_same _ _)). done.
Qed.

Lemma hideTile_activeTiles x y s :
  activeTiles (hideTile x y s) = deactivate (tileKey x y) (activeTiles s).
Proof.
  unfold hideTile. case_decide as Hk; [|by rewrite deactivate_absent].
  cbn [activeTiles set_activeTiles].
  destruct (tiles s !! tileKey x y) as [tile|]; [|done].
  destruct (Tile.fulfilled tile); [|done].
  rewrite (sameTiles_activeTiles _ _ (removeFeatureHolders_same _ _)). done.
Qed.

Lemma hideOutside_meta v s key : meta (hideOutside v s key) = meta s.
Proof.
  unfold hideOutside. destruct (Number _); [|done]. destruct (Number _); [|done].
  destruct (GridView.outside _ _ _); [apply hideTile_meta|done].
Qed.

Lemma fold_meta {A} (f : t → A → t) (l : list A) s :
  (∀ s a, meta (f s a) = meta s) → meta (fold_left f l s) = meta s.
Proof.
  intros Hf. revert s. induction l as [|a l IH]; intros s; [done|].
  simpl. by rewrite IH, Hf.
Qed.

Lemma updateView_cases origin bounds s :
  let v := GridView.new (LodMeta.tileSize (meta s)) origin.1 origin.2 bounds in
  updateView origin bounds s = s ∨
  updateView origin bounds s =
  set_currentView (Some v)
    (fold_left (hideOutside v)
       (activeTiles (fold_left showCell (GridView.cells v) s))
       (fold_left showCell (GridView.cells v) s)).
Proof.
  intros v. unfold updateView. fold v.
  destruct (currentView s) as [v0|]; [|by right].
  destruct (negb (GridView.sameAs v0 v)); [by right|by left].
Qed.

Lemma updateView_meta origin bounds s : meta (updateView origin bounds s) = meta s.
Proof.
  destruct (updateView_cases origin bounds s) as [->| ->]; [done|].
  cbn [meta set_currentView].
  rewrite (fold_meta _ _ _ (hideOutside_meta _)).
  by rewrite (fold_meta _ _ _ showCell_meta).
Qed.

Lemma tileLoaded_meta key features s : meta (tileLoaded key features s) = meta s.
Proof.
  unfold tileLoaded, loadCallback. case_decide; [|done].
  cbn [meta addLayer set_layers].
  rewrite (sameTiles_meta _ _ (addFeatureHolders_sameTiles _ _)). done.
Qed.

Lemma tileLoaded_activeTiles key features s :
  activeTiles (tileLoaded key features s) = activeTiles s.
Proof.
  unfold tileLoaded, loadCallback. case_decide; [|done].
  cbn [activeTiles addLayer set_layers].
  rewrite (sameTiles_activeTiles _ _ (addFeatureHolders_sameTiles _ _)). done.
Qed.

Lemma clearActive_meta s : meta (clearActive s) = meta s.
Proof.
  rewrite clearActive_unfold. cbn [meta set_activeTiles set_featureHolders].
  rewrite fold_meta; [done|].
  intros s' k. unfold clearStep. destruct (tiles s' !! k) as [tile|]; [|done].
  by destruct (Tile.fulfilled tile).
Qed.

Lemma hasHash_meta key s s' : meta s = meta s' → hasHash key s = hasHash key s'.
Proof. unfold hasHash. by intros ->. Qed.

Lemma showCell_activeTiles s x y k :
  k ∈ activeTiles (showCell s (x, y)) ↔
  k ∈ activeTiles s ∨ (k = tileKey x y ∧ hasHash k s = true).
Proof.
  unfold showCell. cbn [fst snd].
  case_bool_decide as Hk; simpl.
  { split; [by left|]. intros [?|[-> _]]; done. }
  destruct (hasHash (tileKey x y) s) eqn:Hh; simpl.
  2:{ split; [by left|]. intros [?|[-> ?]]; [done|congruence]. }
  destruct (hasHash_true _ _ Hh) as [h Hm].
  assert (activeTiles (showTile x y s) = activeTiles s ++ [tileKey x y]) as ->.
  { destruct (tiles s !! tileKey x y) as [tile|] eqn:Ht.
    - destruct (Tile.fulfilled tile) eqn:Hf.
      + rewrite (showTile_fulfilled x y s h tile) by done.
        cbn [activeTiles set_activeTiles]. by rewrite activate_fresh.
      + rewrite (showTile_loading x y s h tile) by done.
        cbn [activeTiles set_activeTiles]. by rewrite activate_fresh.
    - rewrite (showTile_new x y s h) by done.
      cbn [activeTiles set_activeTiles set_tiles]. by rewrite activate_fresh. }
  rewrite elem_of_snoc. split.
  - intros [?| ->]; [by left|by right].
  - intros [?|[-> _]]; [by left|by right].
Qed.

Lemma fold_showCell_activeTiles cells s k :
  k ∈ activeTiles (fold_left showCell cells s) ↔
  k ∈ activeTiles s ∨
  ∃ x y, (x, y) ∈ cells ∧ k = tileKey x y ∧ hasHash k s = true.
Proof.
  revert s. induction cells as [|[x y] cells IH]; intros s.
  { simpl. split; [by left|]. intros [?|(? & ? & ?%elem_of_nil & _)]; done. }
  simpl. rewrite IH, showCell_activeTiles.
  rewrite (hasHash_meta k _ s (showCell_meta s (x, y))).
  split.
  - intros [[?|[-> Hh]]|(x' & y' & Hin & -> & Hh)].
    + by left.
    + right. exists x, y. split; [apply elem_of_cons; by left|done].
    + right. exists x', y'. split; [apply elem_of_cons; by right|done].
  - intros [?|(x' & y' & Hin & -> & Hh)]; [by left; left|].
    apply elem_of_cons in Hin as [[= -> ->]|Hin]; [left; by right|].
    right. by exists x', y'.
Qed.

Lemma outsideKey_tileKey v x y : outsideKey v (tileKey x y) ↔ GridView.outside v x y = true.
Proof.
  split.
  - intros (x' & y' & Heq & Ho). by apply tileKey_inj in Heq as [-> ->].
  - intros Ho. by exists x, y.
Qed.

Lemma fold_hideOutside_activeTiles v keys s k :
  (∀ k', k' ∈ keys → ∃ x y, k' = tileKey x y) →
  k ∈ activeTiles (fold_left (hideOutside v) keys s) ↔
  k ∈ activeTiles s ∧ ¬ (k ∈ keys ∧ outsideKey v k).
Proof.
  revert s. induction keys as [|k0 keys IH]; intros s Hkeys.
  { simpl. split; [|tauto]. intros ?. split; [done|]. by intros [?%elem_of_nil _]. }
  destruct (Hkeys k0) as (x0 & y0 & ->); [apply elem_of_cons; by left|].
  simpl. rewrite IH by (intros k' Hk'; apply Hkeys, elem_of_cons; by right).
  rewrite hideOutside_tileKey.
  pose proof (outsideKey_tileKey v x0 y0) as Hout.
  destruct (GridView.outside v x0 y0) eqn:Ho.
  - rewrite hideTile_activeTiles, elem_of_deactivate. split.
    + intros [[Hne Hin] Hn]. split; [done|].
      intros [[->|Hk]%elem_of_cons Hok]; [done|]. by apply Hn.
    + intros [Hin Hn]. split.
      * split; [|done]. intros ->. apply Hn. split; [apply elem_of_cons; by left|].
        by apply Hout.
      * intros [Hk Hok]. apply Hn. split; [apply elem_of_cons; by right|done].
  - split.
    + intros [Hin Hn]. split; [done|].
      intros [[->|Hk]%elem_of_cons Hok]; [|by apply Hn].
      apply Hout in Hok. congruence.
    + intros [Hin Hn]. split; [done|]. intros [Hk Hok]. apply Hn.
      split; [apply elem_of_cons; by right|done].
Qed.

End ViewFrames.

Section KeysReachable.
Import Lod.

Lemma showCell_keys s cell : keys_inv s → keys_inv (showCell s cell).
Proof.
  destruct cell as [x y]. intros Hk k [Hin|[-> Hh]]%showCell_activeTiles.
  - destruct (Hk k Hin) as (x' & y' & -> & Hh). exists x', y'.
    by rewrite (hasHash_meta _ _ s (showCell_meta s (x, y))).
  - exists x, y. by rewrite (hasHash_meta _ _ s (showCell_meta s (x, y))).
Qed.

Lemma hideTile_keys x y s : keys_inv s → keys_inv (hideTile x y s).
Proof.
  intros Hk k. rewrite hideTile_activeTiles, elem_of_deactivate. intros [_ Hin].
  destruct (Hk k Hin) as (x' & y' & -> & Hh). exists x', y'.
  by rewrite (hasHash_meta _ _ s (hideTile_meta x y s)).
Qed.

Lemma hideOutside_keys v s key : keys_inv s → keys_inv (hideOutside v s key).
Proof.
  intros Hk. unfold hideOutside.
  destruct (Number _); [|done]. destruct (Number _); [|done].
  destruct (GridView.outside _ _ _); [by apply hideTile_keys|done].
Qed.

Lemma fold_keys {A} (f : t → A → t) (l : list A) s :
  (∀ s a, keys_inv s → keys_inv (f s a)) → keys_inv s → keys_inv (fold_left f l s).
Proof.
  intros Hf. revert s. induction l as [|a l IH]; intros s Hs; [done|].
  simpl. by apply IH, Hf.
Qed.

Lemma updateView_keys origin bounds s :
  keys_inv s → keys_inv (updateView origin bounds s).
Proof.
  intros Hk. destruct (updateView_cases origin bounds s) as [->| ->]; [done|].
  intros k Hin. cbn [activeTiles set_currentView] in Hin.
  apply (fold_keys _ _ _ (hideOutside_keys _)) in Hin;
    [|by apply (fold_keys _ _ _ showCell_keys)].
  destruct Hin as (x & y & -> & Hh). by exists x, y.
Qed.

Lemma step_keys ok s s' : keys_inv s → step ok s s' → keys_inv s'.
Proof.
  intros Hk Hstep. destruct Hstep.
  - by apply showCell_keys.
  - by apply hideTile_keys.
  - intros k. rewrite tileLoaded_activeTiles. intros Hin.
    destruct (Hk k Hin) as (x & y & -> & Hh). exists x, y.
    by rewrite (hasHash_meta _ _ s (tileLoaded_meta _ _ _)).
  - intros k Hin. rewrite clearActive_unfold in Hin.
    cbn [activeTiles set_activeTiles] in Hin. by apply elem_of_nil in Hin.
  - by apply updateView_keys.
Qed.

Lemma reachable_keys ok s : reachable ok s → keys_inv s.
Proof.
  induction 1 as [m|s s' _ IH Hstep].
  - intros k Hin. by apply elem_of_nil in Hin.
  - by eapply step_keys.
Qed.

End KeysReachable.

Section ViewUpdate.
Import Lod.


Lemma updateView_changed origin bounds s :
  let v := GridView.new (LodMeta.tileSize (meta s)) origin.1 origin.2 bounds in
  (currentView s = None ∨
   ∃ v0, currentView s = Some v0 ∧ GridView.sameAs v0 v = false) →
  updateView origin bounds s =
  set_currentView (Some v)
    (fold_left (hideOutside v)
       (activeTiles (fold_left showCell (GridView.cells v) s))
       (fold_left showCell (GridView.cells v) s)).
Proof.
  intros v Hc. unfold updateView. fold v.
  destruct Hc as [->|(v0 & -> & ->)]; done.
Qed.

Lemma updateView_unchanged origin bounds s v0 :
  currentView s = Some v0 →
  GridView.sameAs v0
    (GridView.new (LodMeta.tileSize (meta s)) origin.1 origin.2 bounds) = true →
  updateView origin bounds s = s.
Proof. intros Hc Hs. unfold updateView. by rewrite Hc, Hs. Qed.

(** The active keys after a view update that recomputes the window. *)
Lemma updateView_window s origin bounds :
  keys_inv s →
  let v := GridView.new (LodMeta.tileSize (meta s)) origin.1 origin.2 bounds in
  (currentView s = None ∨
   ∃ v0, currentView s = Some v0 ∧ GridView.sameAs v0 v = false) →
  currentView (updateView origin bounds s) = Some v ∧
  ∀ k, k ∈ activeTiles (updateView origin bounds s) ↔ inWindow v s k.
Proof.
  intros Hk v Hc. rewrite updateView_changed by done. fold v.
  split; [done|]. intros k. cbn [activeTiles set_currentView].
  set (s1 := fold_left showCell (GridView.cells v) s).
  assert (keys_inv s1) as Hk1 by (by apply (fold_keys _ _ _ showCell_keys)).
  rewrite fold_hideOutside_activeTiles
    by (intros k' Hk'; destruct (Hk1 k' Hk') as (x & y & -> & _); eauto).
  subst s1. rewrite fold_showCell_activeTiles. split.
  - intros [Hin Hn].
    assert (∃ x y, k = tileKey x y ∧ hasHash k s = true) as (x & y & -> & Hh).
    { destruct Hin as [Hin|(x & y & _ & -> & Hh)]; [by apply Hk|eauto]. }
    exists x, y. split; [|done].
    apply outside_cells.
    destruct (GridView.outside v x y) eqn:Ho; [|done].
    exfalso. apply Hn. split; [|by apply outsideKey_tileKey].
    exact Hin.
  - intros (x & y & Hin & -> & Hh). split; [right; eauto|].
    intros [_ Ho]. apply outsideKey_tileKey in Ho.
    apply outside_cells in Hin. congruence.
Qed.





End ViewUpdate.

(** ** The registry, whatever the collections are *)

Section HoldersExact.
Import Lod.

Lemma holds_store s s' k f : tiles s' = tiles s → holds s' k f ↔ holds s k f.
Proof. unfold holds. by intros ->. Qed.

Lemma count_fid_pos (fid : Z) (l : list Z) :
  length (filter (λ f, f = fid) l) ≠ 0%nat ↔ fid ∈ l.
Proof.
  induction l as [|a l IH]; [by split; [|intros ?%elem_of_nil]|].
  rewrite elem_of_cons. destruct (decide (a = fid)) as [->|Hne].
  - rewrite filter_cons_True by done. simpl. split; [by left|lia].
  - rewrite filter_cons_False by done. rewrite IH. split; [by right|].
    intros [?|?]; [congruence|done].
Qed.

Lemma fold_addFeatureHolder_holdersOf key l s fid :
  holdersOf (fold_left (addFeatureHolder key) l s) fid =
  holdersOf s fid ++ replicate (length (filter (λ f, f = fid) (fids l))) key.
Proof.
  revert s. induction l as [|feature l IH]; intros s.
  { simpl. by rewrite app_nil_r. }
  simpl fold_left. rewrite IH, fids_cons.
  destruct (__fid feature) as [fid0|] eqn:Hf.
  - rewrite (addFeatureHolder_holdersOf key s feature fid0 fid Hf).
    destruct (decide (fid0 = fid)) as [->|Hne].
    + rewrite filter_cons_True by done. simpl. by rewrite <- app_assoc.
    + by rewrite filter_cons_False.
  - by rewrite addFeatureHolder_noid.
Qed.

Lemma fold_addFeatureHolder_elem key l s fid k :
  k ∈ holdersOf (fold_left (addFeatureHolder key) l s) fid ↔
  k ∈ holdersOf s fid ∨ (k = key ∧ fid ∈ fids l).
Proof.
  rewrite fold_addFeatureHolder_holdersOf, elem_of_app, elem_of_replicate.
  by rewrite count_fid_pos.
Qed.

Lemma fold_removeFeatureHolder_holdersOf key features s fid :
  holdersOf (fold_left (removeFeatureHolder key) features s) fid =
  if bool_decide (fid ∈ fids features)
  then filter (λ k, k ≠ key) (holdersOf s fid)
  else holdersOf s fid.
Proof.
  unfold holdersOf. rewrite fold_removeFeatureHolder_holders.
  case_bool_decide; [|done]. by destruct (featureHolders s !! fid).
Qed.

Lemma fold_removeFeatureHolder_elem key features s fid k :
  k ∈ holdersOf (fold_left (removeFeatureHolder key) features s) fid ↔
  k ∈ holdersOf s fid ∧ ¬ (k = key ∧ fid ∈ fids features).
Proof.
  rewrite fold_removeFeatureHolder_holdersOf. case_bool_decide as Hin.
  - rewrite list_elem_of_filter. split; [intros [? ?]|intros [? Hn]].
    + split; [done|]. by intros [? _].
    + split; [|done]. intros ->. by apply Hn.
  - split; [|tauto]. intros ?. split; [done|]. by intros [_ ?].
Qed.

Lemma showTile_exact x y s :
  shape_inv s → holders_exact s → tileKey x y ∉ activeTiles s →
  holders_exact (showTile x y s).
Proof.
  intros Hs He Hk. pose proof Hs as (Hwf & _).
  destruct (LodMeta.tiles (meta s) !! tileKey x y) as [h|] eqn:Hm;
    [|by rewrite showTile_nometa].
  set (key := tileKey x y) in *.
  assert (∀ fid, ¬ shows s key fid) as Hnot.
  { intros fid [Ha _]%shows_iff. done. }
  destruct (tiles s !! key) as [tile|] eqn:Ht.
  - destruct (Tile.fulfilled tile) eqn:Hf.
    + destruct (wf_fulfilled_collection key tile (Hwf _ _ Ht) Hf) as [features Hc].
      rewrite (showTile_fulfilled x y s h tile) by done. fold key.
      intros fid k. rewrite shows_iff.
      cbn [activeTiles set_activeTiles]. rewrite activate_fresh, elem_of_snoc by done.
      change (holdersOf (set_activeTiles (activeTiles s ++ [key])
                (addLayer key (addFeatureHolders key s))) fid)
        with (holdersOf (addFeatureHolders key s) fid).
      rewrite (holds_store (addFeatureHolders key s)) by done.
      rewrite <- (sameTiles_holds _ _ _ _ (addFeatureHolders_sameTiles key s)).
      rewrite (addFeatureHolders_fold key s tile features) by done.
      rewrite fold_addFeatureHolder_elem, (He fid k), shows_iff.
      pose proof (holds_of_tile s key fid tile features Ht Hf Hc) as Hh.
      split.
      * intros [[? ?]|[-> ?]]; [tauto|]. split; [by right|by apply Hh].
      * intros [[?| ->] ?]; [tauto|]. right. split; [done|by apply Hh].
    + rewrite (showTile_loading x y s h tile) by done. fold key.
      intros fid k. rewrite shows_iff.
      cbn [activeTiles set_activeTiles]. rewrite activate_fresh, elem_of_snoc by done.
      change (holdersOf (set_activeTiles (activeTiles s ++ [key]) s) fid)
        with (holdersOf s fid).
      rewrite (holds_store s) by done. rewrite (He fid k), shows_iff.
      split; [tauto|]. intros [[?| ->] Hh]; [tauto|].
      by apply (holds_unfulfilled s key fid tile) in Hh.
  - rewrite (showTile_new x y s h) by done. fold key.
    intros fid k. rewrite shows_iff.
    cbn [activeTiles set_activeTiles set_tiles].
    rewrite activate_fresh, elem_of_snoc by done.
    change (holdersOf (set_activeTiles (activeTiles s ++ [key])
              (set_tiles (<[key:=Tile.new key h]> (tiles s)) s)) fid)
      with (holdersOf s fid).
    rewrite (He fid k), shows_iff. unfold holds.
    cbn [tiles set_activeTiles set_tiles]. rewrite lookup_insert.
    case_decide as Hd.
    + subst k. split.
      * intros [_ (t & Ht' & _)]. congruence.
      * intros [_ (t & [= <-] & Hf & _)]. done.
    + split; [tauto|]. intros [[?| ->] ?]; [tauto|done].
Qed.

Lemma showCell_exact s cell :
  shape_inv s → holders_exact s → holders_exact (showCell s cell).
Proof.
  intros Hs He. unfold showCell. case_bool_decide as Hk; simpl; [done|].
  destruct (hasHash _ s); [|done]. by apply showTile_exact.
Qed.

Lemma hideTile_exact x y s :
  shape_inv s → holders_exact s → holders_exact (hideTile x y s).
Proof.
  intros Hs He. pose proof Hs as (Hwf & Hnd & Hdom & _).
  destruct (decide (tileKey x y ∈ activeTiles s)) as [Ha|Ha];
    [|by rewrite hideTile_inactive].
  set (key := tileKey x y) in *.
  destruct (Hdom key Ha) as [tile Ht].
  destruct (Tile.fulfilled tile) eqn:Hf.
  - destruct (wf_fulfilled_collection key tile (Hwf _ _ Ht) Hf) as [features Hc].
    rewrite (hideTile_fulfilled x y s tile features) by done. fold key.
    set (s0 := removeLayer key s).
    assert (sameTiles s0 (fold_left (removeFeatureHolder key) features s0)) as Hsame
      by apply fold_sameTiles, removeFeatureHolder_sameTiles.
    intros fid k. rewrite shows_iff.
    cbn [activeTiles set_activeTiles]. rewrite elem_of_deactivate.
    change (holdersOf (set_activeTiles (deactivate key (activeTiles s))
              (fold_left (removeFeatureHolder key) features s0)) fid)
      with (holdersOf (fold_left (removeFeatureHolder key) features s0) fid).
    rewrite (holds_store (fold_left (removeFeatureHolder key) features s0)) by done.
    rewrite <- (sameTiles_holds _ _ _ _ Hsame).
    rewrite (holds_store s) by done.
    rewrite fold_removeFeatureHolder_elem.
    change (holdersOf s0 fid) with (holdersOf s fid).
    rewrite (He fid k), shows_iff.
    pose proof (holds_of_tile s key fid tile features Ht Hf Hc) as Hh.
    split.
    + intros [[? ?] Hn]. split_and!; [|done..]. intros ->. apply Hn.
      split; [done|by apply Hh].
    + intros [[? ?] ?]. split; [done|]. by intros [? _].
  - rewrite (hideTile_unfulfilled x y s tile) by done. fold key.
    intros fid k. rewrite shows_iff.
    cbn [activeTiles set_activeTiles]. rewrite elem_of_deactivate.
    change (holdersOf (set_activeTiles (deactivate key (activeTiles s)) s) fid)
      with (holdersOf s fid).
    rewrite (holds_store s) by done. rewrite (He fid k), shows_iff.
    split; [|tauto]. intros [? Hh]. split_and!; [|done..]. intros ->.
    by apply (holds_unfulfilled s key fid tile) in Hh.
Qed.

Lemma tileLoaded_exact key features s tile :
  shape_inv s → holders_exact s →
  tiles s !! key = Some tile → Tile.fulfilled tile = false →
  holders_exact (tileLoaded key features s).
Proof.
  intros Hs He Ht Hf.
  set (s0 := onTile key (Tile.loaded features) s).
  assert (∀ fid, ¬ holds s key fid) as Hnot
    by (intros fid; by apply (holds_unfulfilled s key fid tile)).
  assert (∃ tile0, tiles s0 !! key = Some tile0 ∧
                   Tile.featureCollection tile0 = Some features) as (tile0 & Ht0 & Hc0).
  { unfold s0. rewrite onTile_lookup. rewrite decide_True by done. rewrite Ht. simpl.
    eexists. split; [done|]. apply loaded_collection. }
  destruct (decide (key ∈ activeTiles s)) as [Ha|Ha].
  - rewrite tileLoaded_active by done. fold s0.
    intros fid k. rewrite shows_iff.
    cbn [activeTiles addLayer set_layers].
    rewrite (sameTiles_activeTiles _ _ (addFeatureHolders_sameTiles key s0)).
    change (activeTiles s0) with (activeTiles s).
    change (holdersOf (addLayer key (addFeatureHolders key s0)) fid)
      with (holdersOf (addFeatureHolders key s0) fid).
    rewrite (holds_store (addFeatureHolders key s0)) by done.
    rewrite <- (sameTiles_holds _ _ _ _ (addFeatureHolders_sameTiles key s0)).
    rewrite (addFeatureHolders_fold key s0 tile0 features) by done.
    rewrite fold_addFeatureHolder_elem.
    change (holdersOf s0 fid) with (holdersOf s fid).
    unfold s0. rewrite (holds_loaded key features s tile k fid Ht Hf).
    rewrite (He fid k), shows_iff. split.
    + intros [[? Hh]|[-> ?]].
      * split; [done|]. left. split; [|done]. intros ->. by apply (Hnot fid).
      * split; [done|]. by right.
    + intros [? [[? ?]|[-> ?]]]; [by left|by right].
  - rewrite tileLoaded_inactive by done. fold s0.
    intros fid k. rewrite shows_iff.
    change (activeTiles s0) with (activeTiles s).
    change (holdersOf s0 fid) with (holdersOf s fid).
    unfold s0. rewrite (holds_loaded key features s tile k fid Ht Hf).
    rewrite (He fid k), shows_iff. split.
    + intros [? Hh]. split; [done|]. left. split; [|done]. intros ->.
      by apply (Hnot fid).
    + intros [? [[? ?]|[-> ?]]]; done.
Qed.

Lemma clearActive_exact s : holders_exact (clearActive s).
Proof.
  intros fid k. rewrite shows_iff, clearActive_unfold.
  cbn [activeTiles set_activeTiles]. unfold holdersOf.
  cbn [featureHolders set_activeTiles set_featureHolders].
  rewrite lookup_empty. simpl. split.
  - by intros ?%elem_of_nil.
  - by intros [?%elem_of_nil _].
Qed.

(** The two invariants that hold whatever the collections are. *)
Lemma fold_shape_exact {A} (f : t → A → t) (l : list A) s :
  (∀ s a, shape_inv s ∧ holders_exact s → shape_inv (f s a) ∧ holders_exact (f s a)) →
  shape_inv s ∧ holders_exact s →
  shape_inv (fold_left f l s) ∧ holders_exact (fold_left f l s).
Proof.
  intros Hf. revert s. induction l as [|a l IH]; intros s Hs; [done|].
  simpl. by apply IH, Hf.
Qed.

Lemma hideOutside_exact v s key :
  shape_inv s ∧ holders_exact s →
  shape_inv (hideOutside v s key) ∧ holders_exact (hideOutside v s key).
Proof.
  intros [Hs He]. unfold hideOutside.
  destruct (Number _); [|done]. destruct (Number _); [|done].
  destruct (GridView.outside _ _ _); [|done].
  split; [by apply hideTile_shape|by apply hideTile_exact].
Qed.

Lemma updateView_exact origin bounds s :
  shape_inv s → holders_exact s → holders_exact (updateView origin bounds s).
Proof.
  intros Hs He. destruct (updateView_cases origin bounds s) as [->| ->]; [done|].
  set (v := GridView.new _ _ _ _).
  assert (shape_inv (fold_left showCell (GridView.cells v) s) ∧
          holders_exact (fold_left showCell (GridView.cells v) s)) as H1.
  { apply fold_shape_exact; [|done]. intros s' c [? ?].
    split; [by apply showCell_shape|by apply showCell_exact]. }
  pose proof (fold_shape_exact _ (activeTiles (fold_left showCell (GridView.cells v) s))
                _ (hideOutside_exact v) H1) as [_ H2].
  intros fid k. specialize (H2 fid k). rewrite !shows_iff in *. exact H2.
Qed.

Lemma step_exact ok s s' :
  shape_inv s → holders_exact s → step ok s s' → holders_exact s'.
Proof.
  intros Hs He Hstep. destruct Hstep.
  - by apply showCell_exact.
  - by apply hideTile_exact.
  - by apply (tileLoaded_exact key features s tile).
  - apply clearActive_exact.
  - by apply updateView_exact.
Qed.

Lemma reachable_exact ok s : reachable ok s → holders_exact s.
Proof.
  induction 1 as [m|s s' Hr IH Hstep].
  - intros fid k. rewrite shows_iff. unfold holdersOf. simpl.
    rewrite lookup_empty. simpl. split.
    + by intros ?%elem_of_nil.
    + by intros [?%elem_of_nil _].
  - apply (step_exact ok s); [by eapply reachable_shape|done..].
Qed.

End HoldersExact.

Section RegistryMembership.
Import Lod.

(** X9.  The closing loop of [removeFeatureHolders] never writes "Failed to
    remove holder tile": in a reachable state, after the holders of a tile
    are removed, no holder sequence names the tile. *)
Theorem removeFeatureHolders_never_fails ok s key fid :
  reachable ok s →
  failedToRemove key (removeFeatureHolders key (removeLayer key s)) fid = false.
Proof.
  intros Hr. pose proof (reachable_exact ok s Hr) as He.
  apply bool_decide_eq_false. intros Hin.
  unfold removeFeatureHolders in Hin. cbn [tiles removeLayer set_layers] in Hin.
  destruct (tiles s !! key) as [tile|] eqn:Ht; simpl in Hin.
  - destruct (Tile.featureCollection tile) as [features|] eqn:Hc.
    + apply fold_removeFeatureHolder_elem in Hin as [Hk Hnk].
      change (holdersOf (removeLayer key s) fid) with (holdersOf s fid) in Hk.
      apply He, shows_iff in Hk as [_ (t & Ht' & Hf & fc & Hc' & Hfid)].
      apply Hnk. split; [done|]. congruence.
    + change (holdersOf (removeLayer key s) fid) with (holdersOf s fid) in Hin.
      apply He, shows_iff in Hin as [_ (t & Ht' & Hf & fc & Hc' & Hfid)]. congruence.
  - change (holdersOf (removeLayer key s) fid) with (holdersOf s fid) in Hin.
    apply He, shows_iff in Hin as [_ (t & Ht' & _)]. congruence.
Qed.

Lemma removeFeatureHolders_never_fails_witness :
  failedToRemove "0,0" (removeFeatureHolders "0,0" (removeLayer "0,0" sampleDuplicate)) 7
  = false.
Proof.
  apply (removeFeatureHolders_never_fails anyFeatures). apply sampleDuplicate_reachable.
Defined.

End RegistryMembership.

(** ** The store of tiles *)

Section Store.
Import Lod.

Lemma keepsAll_refl s : keepsAll s s.
Proof. intros k tile Hk. by exists tile. Qed.

Lemma keepsAll_trans s1 s2 s3 : keepsAll s1 s2 → keepsAll s2 s3 → keepsAll s1 s3.
Proof.
  intros H12 H23 k tile Hk. destruct (H12 k tile Hk) as (t2 & Hk2 & Hs2).
  destruct (H23 k t2 Hk2) as (t3 & Hk3 & Hs3). exists t3. split; [done|congruence].
Qed.

Lemma keepsAll_store s s' : tiles s' = tiles s → keepsAll s s'.
Proof. intros Heq k tile Hk. exists tile. by rewrite Heq. Qed.

Lemma sameTiles_keepsAll s s' : sameTiles s s' → keepsAll s s'.
Proof. intros Hsame k tile Hk. by apply (sameTiles_lookup s). Qed.

Lemma keepsAll_keeps s s' : keepsAll s s' → keeps s s'.
Proof.
  intros H k tile Hk. destruct (H k tile Hk) as (tile' & Hk' & Hs).
  exists tile'. unfold Tile_static in Hs. split_and!; [done|congruence..|done].
Qed.

Lemma showTile_keepsAll x y s : keepsAll s (showTile x y s).
Proof.
  destruct (LodMeta.tiles (meta s) !! tileKey x y) as [h|] eqn:Hm;
    [|rewrite showTile_nometa by done; apply keepsAll_refl].
  destruct (tiles s !! tileKey x y) as [tile|] eqn:Ht.
  - destruct (Tile.fulfilled tile) eqn:Hf.
    + rewrite (showTile_fulfilled x y s h tile) by done.
      apply (keepsAll_trans _ (addFeatureHolders (tileKey x y) s));
        [apply sameTiles_keepsAll, addFeatureHolders_sameTiles|by apply keepsAll_store].
    + rewrite (showTile_loading x y s h tile) by done. by apply keepsAll_store.
  - rewrite (showTile_new x y s h) by done.
    intros k tile Hk. exists tile. split; [|done].
    cbn [tiles set_activeTiles set_tiles]. rewrite lookup_insert_ne; [done|].
    intros <-. congruence.
Qed.

Lemma showCell_keepsAll s cell : keepsAll s (showCell s cell).
Proof.
  unfold showCell. destruct (_ && _); [apply showTile_keepsAll|apply keepsAll_refl].
Qed.

Lemma hideTile_keepsAll x y s : keepsAll s (hideTile x y s).
Proof.
  unfold hideTile. case_decide; [|apply keepsAll_refl].
  destruct (tiles s !! tileKey x y) as [tile|]; [|by apply keepsAll_store].
  destruct (Tile.fulfilled tile); [|by apply keepsAll_store].
  apply (keepsAll_trans _ (removeFeatureHolders (tileKey x y) (removeLayer (tileKey x y) s)));
    [|by apply keepsAll_store].
  apply (keepsAll_trans _ (removeLayer (tileKey x y) s)); [by apply keepsAll_store|].
  apply sameTiles_keepsAll, removeFeatureHolders_same.
Qed.

Lemma hideOutside_keepsAll v s key : keepsAll s (hideOutside v s key).
Proof.
  unfold hideOutside. destruct (Number _); [|apply keepsAll_refl].
  destruct (Number _); [|apply keepsAll_refl].
  destruct (GridView.outside _ _ _); [apply hideTile_keepsAll|apply keepsAll_refl].
Qed.

Lemma fold_keepsAll {A} (f : t → A → t) (l : list A) s :
  (∀ s a, keepsAll s (f s a)) → keepsAll s (fold_left f l s).
Proof.
  intros Hf. revert s. induction l as [|a l IH]; intros s; [apply keepsAll_refl|].
  simpl. by eapply keepsAll_trans.
Qed.

Lemma updateView_keepsAll origin bounds s : keepsAll s (updateView origin bounds s).
Proof.
  destruct (updateView_cases origin bounds s) as [->| ->]; [apply keepsAll_refl|].
  set (v := GridView.new _ _ _ _).
  apply (keepsAll_trans _ (fold_left showCell (GridView.cells v) s));
    [apply fold_keepsAll, showCell_keepsAll|].
  eapply keepsAll_trans;
    [apply (fold_keepsAll (hideOutside v)), hideOutside_keepsAll|].
  by apply keepsAll_store.
Qed.

Lemma clearStep_keepsAll s key : tiles_wf s → keepsAll s (clearStep s key).
Proof.
  intros Hwf. unfold clearStep.
  destruct (tiles s !! key) as [tile|] eqn:Ht; [|apply keepsAll_refl].
  destruct (Tile.fulfilled tile); [|apply keepsAll_refl].
  intros k t Hk. rewrite onTile_lookup. cbn [tiles removeLayer set_layers].
  case_decide as Hd; [|by exists t]. subst k. rewrite Hk. simpl.
  eexists. split; [done|]. by apply (unmaskAll_wf key), Hwf.
Qed.

Lemma clearActive_keepsAll s : tiles_wf s → keepsAll s (clearActive s).
Proof.
  intros Hwf. rewrite clearActive_unfold.
  apply (keepsAll_trans _ (fold_left clearStep (activeTiles s) (set_currentView None s)));
    [|by apply keepsAll_store].
  apply (keepsAll_trans _ (set_currentView None s)); [by apply keepsAll_store|].
  assert (tiles_wf (set_currentView None s)) as Hwf0 by done.
  revert Hwf0. generalize (set_currentView None s). generalize (activeTiles s).
  intros l. induction l as [|a l IH]; intros s0 Hwf0; [apply keepsAll_refl|].
  simpl. eapply keepsAll_trans; [by apply clearStep_keepsAll|].
  apply IH. by apply clearStep_spec.
Qed.

Lemma tileLoaded_keeps key features s tile :
  tiles s !! key = Some tile → Tile.fulfilled tile = false →
  keeps s (tileLoaded key features s).
Proof.
  intros Ht Hf k t Hk.
  assert (keepsAll (onTile key (Tile.loaded features) s) (tileLoaded key features s))
    as Hall.
  { unfold tileLoaded, loadCallback. case_decide; [|apply keepsAll_refl].
    eapply keepsAll_trans;
      [apply sameTiles_keepsAll, addFeatureHolders_sameTiles|by apply keepsAll_store]. }
  destruct (decide (key = k)) as [->|Hne].
  - rewrite Ht in Hk. injection Hk as <-.
    destruct (Hall k (Tile.loaded features tile)) as (tile' & Hk' & Hs).
    { rewrite onTile_lookup, decide_True by done. by rewrite Ht. }
    exists tile'. split; [done|].
    pose proof (addData_static features (Tile.set_loaded features tile)) as Hd.
    unfold Tile.loaded in Hs. unfold Tile_static in *. simpl in Hd.
    split_and!; [congruence..|]. intros ?. congruence.
  - destruct (Hall k t) as (tile' & Hk' & Hs).
    { rewrite onTile_lookup, decide_False by done. done. }
    exists tile'. unfold Tile_static in Hs. split_and!; [done|congruence..|done].
Qed.

(** X10.  No operation drops or replaces a tile of the store: after a step
    from a reachable state the store has a tile under every key it had one
    under, with the same key and hash, and a tile that was fulfilled is still
    fulfilled and holds the same feature collection. *)
Theorem tiles_kept ok s s' k tile :
  reachable ok s → step ok s s' → tiles s !! k = Some tile →
  ∃ tile', tiles s' !! k = Some tile' ∧
           Tile.key tile' = Tile.key tile ∧ Tile.hash tile' = Tile.hash tile ∧
           (Tile.fulfilled tile = true →
            Tile.fulfilled tile' = true ∧
            Tile.featureCollection tile' = Tile.featureCollection tile).
Proof.
  intros Hr Hstep Hk.
  assert (keeps s s') as Hkeeps.
  { destruct Hstep.
    - apply keepsAll_keeps, showCell_keepsAll.
    - apply keepsAll_keeps, hideTile_keepsAll.
    - by apply (tileLoaded_keeps key features s tile0).
    - apply keepsAll_keeps, clearActive_keepsAll.
      by destruct (reachable_shape ok s Hr) as [? _].
    - apply keepsAll_keeps, updateView_keepsAll. }
  destruct (Hkeeps k tile Hk) as (tile' & Hk' & Hkey & Hhash & Hs).
  exists tile'. split_and!; [done..|].
  intros Hf. specialize (Hs Hf). unfold Tile_static in Hs. split; congruence.
Qed.

Lemma tiles_kept_witness :
  ∃ tile', tiles (hideTile 0 0 sampleShared) !! "0,0" = Some tile' ∧
           Tile.featureCollection tile' = Some [feature7].
Proof.
  assert (∃ tile, tiles sampleShared !! "0,0" = Some tile ∧
                  Tile.fulfilled tile = true ∧
                  Tile.featureCollection tile = Some [feature7]) as (tile & Ht & Hf & Hc).
  { eexists. split; [reflexivity|]. split; reflexivity. }
  destruct (tiles_kept anyFeatures sampleShared (hideTile 0 0 sampleShared) "0,0" tile)
    as (tile' & Hk' & _ & _ & Hs).
  - by apply sampleShared_reachable.
  - apply (step_hide anyFeatures sampleShared 0 0).
  - exact Ht.
  - exists tile'. split; [exact Hk'|].
    destruct (Hs Hf) as [_ Hc']. by rewrite Hc'.
Defined.

End Store.

(** ** Showing and hiding a tile again *)

Section RoundTrip.
Import Lod.







End RoundTrip.

(** ** Masks of a tile *)

Section TileMasks.
Import Tile.

Lemma tile_ext (a b : t) :
  key a = key b → hash a = hash b → fulfilled a = fulfilled b →
  featureCollection a = featureCollection b → maskedFeatures a = maskedFeatures b →
  featureLayers a = featureLayers b → layers a = layers b → a = b.
Proof. destruct a, b. simpl. congruence. Qed.

Lemma fold_mask_lookup_ne fid (features : list Feature) (m : gmap Z Feature) fid' :
  fid' ≠ fid →
  fold_left (λ m feat, if decide (__fid feat = Some fid) then <[fid := feat]> m else m)
            features m !! fid' = m !! fid'.
Proof.
  intros Hne. revert m. induction features as [|x l IH]; intros m; [done|].
  cbn [fold_left]. rewrite IH. case_decide; [|done]. by rewrite lookup_insert_ne.
Qed.

Lemma maskFeature_fields fid tile features :
  featureCollection tile = Some features →
  featureLayers (maskFeature fid tile) = featureLayers tile ∧
  layers (maskFeature fid tile) =
    match featureLayers tile !! Some fid with
    | Some l => layers tile ∖ {[l]}
    | None => layers tile
    end ∧
  (∀ fid', fid' ≠ fid →
           maskedFeatures (maskFeature fid tile) !! fid' = maskedFeatures tile !! fid') ∧
  ∀ l, layerFid (maskFeature fid tile) l = layerFid tile l.
Proof.
  intros Hc. split_and!.
  - unfold maskFeature. rewrite Hc. by destruct (featureLayers tile !! Some fid).
  - unfold maskFeature. rewrite Hc. by destruct (featureLayers tile !! Some fid).
  - intros fid' Hne. unfold maskFeature. rewrite Hc.
    assert (∀ l t, maskedFeatures (removeLayer l t) = maskedFeatures t) as ->
      by (by intros []).
    simpl. by apply fold_mask_lookup_ne.
  - intros l. apply layerFid_static, maskFeature_static.
Qed.

Lemma reachable_tile_wf ok s k tile :
  reachable ok s → Lod.tiles s !! k = Some tile → tile_wf k tile.
Proof. intros Hr Hk. by destruct (reachable_shape ok s Hr) as [Hwf _]; apply Hwf. Qed.

(** X12.  In a tile of a reachable state, masking a feature that the tile
    holds and has not masked, and unmasking it again, gives the tile back as
    it was. *)
Theorem mask_unmask_round_trip ok s k tile fid :
  reachable ok s → Lod.tiles s !! k = Some tile →
  contains fid tile → ¬ masked fid tile →
  unmaskFeature fid (maskFeature fid tile) = tile.
Proof.
  intros Hr Hk (features & Hc & Hin) Hnm.
  pose proof (reachable_tile_wf ok s k tile Hr Hk) as [_ Hwf]. rewrite Hc in Hwf.
  destruct Hwf as (_ & Ha & Hb & Hcc & _).
  destruct (Ha fid Hin) as [l Hl].
  assert (maskedFeatures tile !! fid = None) as Hnone.
  { destruct (maskedFeatures tile !! fid) eqn:E; [|done]. exfalso. apply Hnm.
    unfold masked. rewrite E. eauto. }
  destruct (maskFeature_fields fid tile features Hc) as (Hfl & Hly & Hmo & Hlf).
  rewrite Hl in Hly.
  pose proof (unmaskFeature_static fid (maskFeature fid tile)) as Hs1.
  pose proof (maskFeature_static fid tile) as Hs2.
  assert (masked fid (maskFeature fid tile)) as [feat Hfeat].
  { apply (maskFeature_masked_iff fid fid tile features); [done..|by left]. }
  destruct (unmaskFeature_fields fid (maskFeature fid tile)) as (added & Hadd & Hl' & Hfl').
  rewrite Hfeat, Hfl, Hl in Hadd. subst added.
  unfold Tile_static in Hs1, Hs2.
  apply tile_ext; [congruence..| | |].
  - rewrite unmaskFeature_masked. apply map_eq. intros fid'.
    destruct (decide (fid' = fid)) as [->|Hne].
    + by rewrite lookup_delete_eq.
    + rewrite lookup_delete_ne by done. by apply Hmo.
  - rewrite Hfl', Hfl, Hlf, (Hb _ _ Hl). by apply insert_id.
  - rewrite Hl', Hly. apply set_eq. intros l'.
    rewrite elem_of_union, elem_of_difference, elem_of_singleton.
    assert (l ∈ layers tile) as Hlin by (by apply (Hcc fid l Hl)).
    destruct (decide (l' = l)) as [->|?]; [tauto|]. tauto.
Qed.

Lemma mask_unmask_round_trip_witness :
  ∃ tile, Lod.tiles sampleShared !! "0,0" = Some tile ∧
          unmaskFeature 7 (maskFeature 7 tile) = tile.
Proof.
  assert (∃ tile, Lod.tiles sampleShared !! "0,0" = Some tile ∧
                  featureCollection tile = Some [feature7] ∧
                  maskedFeatures tile !! 7%Z = None) as (tile & Ht & Hc & Hm).
  { eexists. split; [reflexivity|]. split; reflexivity. }
  exists tile. split; [exact Ht|].
  apply (mask_unmask_round_trip anyFeatures sampleShared "0,0").
  - by apply sampleShared_reachable.
  - exact Ht.
  - exists [feature7]. split; [exact Hc|]. apply elem_of_cons. by left.
  - unfold masked. rewrite Hm. by intros [? ?].
Defined.

(** The state of a tile while [addData] runs: the layers of the first [n]
    features have gone through [addLayer]. *)
Lemma addData_prefix (n : nat) tile :
  featureLayers tile = ∅ → layers tile = ∅ →
  let tile' := fold_left (λ this (l : nat), addLayer (Some l) this) (seq 0 n) tile in
  Tile_static tile' = Tile_static tile ∧
  maskedFeatures tile' = maskedFeatures tile ∧
  layers tile' = list_to_set (seq 0 n) ∧
  ∀ o l, featureLayers tile' !! o = Some l ↔
         (l < n)%nat ∧ layerFid tile l = o ∧
         ∀ l', (l < l' < n)%nat → layerFid tile l' ≠ o.
Proof.
  intros Hfl Hly. unfold Layer in *. induction n as [|n IH].
  { simpl. split_and!; [done..|]. intros o l. rewrite Hfl, lookup_empty.
    split; [done|]. intros [? _]. lia. }
  rewrite seq_S, fold_left_app. cbn [fold_left Nat.add].
  destruct IH as (Hst & Hm & Hl & Hrec).
  set (tn := fold_left (λ this (l : nat), addLayer (Some l) this) (seq 0 n) tile) in *.
  split_and!.
  - by rewrite addLayer_static.
  - by rewrite addLayer_masked.
  - change (layers (addLayer (Some n) tn)) with ({[n]} ∪ layers tn).
    rewrite Hl, list_to_set_app_L. simpl.
    rewrite (right_id_L ∅ (∪)). apply (comm_L (∪)).
  - intros o l.
    change (featureLayers (addLayer (Some n) tn))
      with (<[layerFid tn n := n]> (featureLayers tn)).
    rewrite (layerFid_static tile tn n Hst). rewrite lookup_insert.
    case_decide as Hd.
    + split.
      * intros [= <-]. split_and!; [lia|done|]. intros l' ?. lia.
      * intros (Hlt & Hlo & Hlast).
        destruct (decide (l = n)) as [->|Hne]; [done|].
        exfalso. apply (Hlast n); [lia|done].
    + rewrite Hrec. split.
      * intros (Hlt & Hlo & Hlast). split_and!; [lia|done|].
        intros l' Hl'. destruct (decide (l' = n)) as [->|?]; [done|].
        apply Hlast. lia.
      * intros (Hlt & Hlo & Hlast).
        assert (l ≠ n) by congruence.
        split_and!; [lia|done|]. intros l' Hl'. apply Hlast. lia.
Qed.

(** X13.  The tile that the success branch of [loadTile] leaves before it
    calls the callback, when Leaflet builds a layer for every feature:
    fulfilled, with the collection, the layer of every feature in the layer
    group, nothing masked, and under each identifier ([None] is "undefined")
    the layer of the last feature that carries it. *)
Theorem loaded_layers key hash features :
  let tile := loaded features (new key hash) in
  fulfilled tile = true ∧ featureCollection tile = Some features ∧
  layers tile = list_to_set (seq 0 (length features)) ∧
  maskedFeatures tile = ∅ ∧
  ∀ o l, featureLayers tile !! o = Some l ↔
         (∃ feature, features !! l = Some feature ∧ __fid feature = o) ∧
         ∀ l' feature', (l < l')%nat → features !! l' = Some feature' →
                        __fid feature' ≠ o.
Proof.
  intros tile.
  destruct (addData_prefix (length features) (set_loaded features (new key hash)))
    as (Hst & Hm & Hl & Hrec); [done..|].
  change (fold_left _ _ _) with tile in Hst, Hm, Hl, Hrec.
  split; [apply loaded_fulfilled|]. split; [apply loaded_collection|].
  split; [done|]. split; [done|].
  assert (∀ l : nat, layerFid (set_loaded features (new key hash)) l
                     = features !! l ≫= __fid)
    as Hlf by done.
  intros o l. rewrite Hrec. unfold Layer in *. rewrite Hlf. split.
  - intros (Hlt & Hlo & Hlast).
    destruct (lookup_lt_is_Some_2 features l Hlt) as [feature Hfe].
    rewrite Hfe in Hlo. simpl in Hlo. split; [by exists feature|].
    intros l' feature' Hl' Hfe'. specialize (Hlast l').
    rewrite Hlf, Hfe' in Hlast. simpl in Hlast. apply Hlast.
    split; [done|]. by eapply lookup_lt_Some.
  - intros [(feature & Hfe & Hfo) Hlast]. split_and!.
    + by eapply lookup_lt_Some.
    + by rewrite Hfe.
    + intros l' [Hl1 Hl2]. rewrite Hlf.
      destruct (lookup_lt_is_Some_2 features l' Hl2) as [feature' Hfe'].
      rewrite Hfe'. simpl. by eapply Hlast.
Qed.



End TileMasks.

(** ** Failures followed by a success *)

Section Eventually.

Lemma run_failures {S R : Type} (load : R → Z → Promise.t (S * Host) unit)
    (bad : R → Prop) (last : R) (final : S → S) :
  (∀ r retryTime s h, bad r →
     load r retryTime (s, h) =
     (Fulfilled tt,
      (s, {| console := console h ++ [retryTime];
             timers := timers h ++ [((retryTime * 1000)%Z, (retryTime * 2)%Z)] |}))) →
  (∀ retryTime s h, load last retryTime (s, h) = (Fulfilled tt, (final s, h))) →
  ∀ responses retryTime s c,
    Forall bad responses →
    run load (responses ++ [last]) retryTime (s, {| console := c; timers := [] |}) =
    (final s,
     {| console := c ++ ((λ i, retryTime * 2 ^ Z.of_nat i)%Z <$> seq 0 (length responses));
        timers := [] |}) ∧
    retryDelays load (responses ++ [last]) retryTime s =
    (λ n, (retryTime * 2 ^ Z.of_nat n * 1000)%Z) <$> seq 0 (length responses).
Proof.
  intros Hbad Hlast responses.
  induction responses as [|r rs IH]; intros rt s c Hall.
  - simpl. rewrite !Hlast. simpl. by rewrite app_nil_r.
  - apply Forall_cons in Hall as [Hr Hrs]. simpl.
    rewrite !(Hbad r rt _ _ Hr). simpl.
    destruct (IH (rt * 2)%Z s (c ++ [rt]) Hrs) as [-> ->].
    assert (∀ k, (λ i, (rt * 2 * 2 ^ Z.of_nat i * k)%Z) <$> seq 0 (length rs) =
                 (λ i, (rt * 2 ^ Z.of_nat i * k)%Z) <$> seq 1 (length rs)) as Hshift.
    { intros k. rewrite <- fmap_S_seq, <- list_fmap_compose.
      apply list_fmap_ext. intros _ n _. simpl.
      rewrite Nat2Z.inj_succ, Z.pow_succ_r by lia. lia. }
    split.
    + f_equal. f_equal. rewrite <- app_assoc. f_equal. simpl. f_equal; [lia|].
      pose proof (Hshift 1%Z) as H1.
      erewrite list_fmap_ext; [erewrite (list_fmap_ext _ _ (seq 1 _))|].
      * exact H1.
      * intros _ n _. simpl. lia.
      * intros _ n _. simpl. lia.
    + f_equal; [lia|]. apply Hshift.
Qed.

(** X18.  The same for the metadata, for failures that come after the answer
    of the fetch (unreadable body, text that is not JSON): the layer ends as
    if the first attempt had succeeded. *)
Theorem TiledGeoJSON_loadMeta_eventually retina responses m (this : TiledGeoJSON.t) :
  Forall failureAfterResponse responses →
  run (TiledGeoJSON_loadMeta retina) (responses ++ [answer m]) baseRetryTime (this, idle) =
    (TiledGeoJSON.metaLoaded retina m this,
     {| console := reported (length responses); timers := [] |}) ∧
  retryDelays (TiledGeoJSON_loadMeta retina) (responses ++ [answer m]) baseRetryTime this =
    backoffDelay <$> seq 0 (length responses).
Proof.
  intros Hall.
  apply (run_failures (TiledGeoJSON_loadMeta retina) failureAfterResponse (answer m)
           (TiledGeoJSON.metaLoaded retina m)); [| |done].
  - intros r rt s h Hr. by rewrite TiledGeoJSON_loadMeta_failure.
  - intros rt s [c t]. done.
Qed.

Lemma TiledGeoJSON_loadMeta_eventually_witness :
  run (TiledGeoJSON_loadMeta false) ([Fulfilled (mkResponse (Fulfilled None))] ++ [answer sampleDataset])
      baseRetryTime (TiledGeoJSON.new {| TiledGeoJSON.detectRetina := None |}, idle) =
  (TiledGeoJSON.metaLoaded false sampleDataset
     (TiledGeoJSON.new {| TiledGeoJSON.detectRetina := None |}),
   {| console := reported 1; timers := [] |}).
Proof.
  apply (TiledGeoJSON_loadMeta_eventually false [Fulfilled (mkResponse (Fulfilled None))]).
  repeat constructor.
Defined.

End Eventually.

(** ** The layer *)

Section LayerFacts.
Import TiledGeoJSON.


Lemma inWindow_meta v s s' k :
  Lod.meta s = Lod.meta s' → inWindow v s k ↔ inWindow v s' k.
Proof.
  intros Hm. unfold inWindow.
  by setoid_rewrite (hasHash_meta k s s' Hm).
Qed.


Lemma Lod_updateView_view_inv ok s origin bounds :
  reachable ok s → view_inv s → view_inv (Lod.updateView origin bounds s).
Proof.
  intros Hr Hv.
  set (v := GridView.new (LodMeta.tileSize (Lod.meta s)) origin.1 origin.2 bounds).
  assert (Lod.currentView s = None ∨
          (∃ v0, Lod.currentView s = Some v0 ∧ GridView.sameAs v0 v = false) ∨
          (∃ v0, Lod.currentView s = Some v0 ∧ GridView.sameAs v0 v = true))
    as [Hc|[Hc|(v0 & Hc & Hs)]].
  { destruct (Lod.currentView s) as [v0|]; [|by left].
    right. destruct (GridView.sameAs v0 v) eqn:E; [right|left]; eauto. }
  - destruct (updateView_window s origin bounds (reachable_keys _ _ Hr)) as [H1 H2];
      [by left|].
    intros v' Hv' k. fold v in H1, H2. rewrite H1 in Hv'. injection Hv' as <-.
    rewrite H2. apply inWindow_meta. by rewrite updateView_meta.
  - destruct (updateView_window s origin bounds (reachable_keys _ _ Hr)) as [H1 H2];
      [by right|].
    intros v' Hv' k. fold v in H1, H2. rewrite H1 in Hv'. injection Hv' as <-.
    rewrite H2. apply inWindow_meta. by rewrite updateView_meta.
  - by rewrite (updateView_unchanged origin bounds s v0).
Qed.


Lemma tileLoaded_currentView key features s :
  Lod.currentView (Lod.tileLoaded key features s) = Lod.currentView s.
Proof.
  unfold Lod.tileLoaded, Lod.loadCallback. case_decide; [|done].
  cbn [Lod.currentView Lod.addLayer Lod.set_layers].
  by destruct (addFeatureHolders_sameTiles key
                 (Lod.onTile key (Tile.loaded features) s)) as (_ & _ & _ & -> & _).
Qed.

Lemma tileLoaded_view_inv key features s :
  view_inv s → view_inv (Lod.tileLoaded key features s).
Proof.
  intros Hv v. rewrite tileLoaded_currentView. intros Hc k.
  rewrite tileLoaded_activeTiles, (Hv v Hc k).
  apply inWindow_meta. by rewrite tileLoaded_meta.
Qed.

Lemma tileLoaded_idle key features s :
  idleLod s → idleLod (Lod.tileLoaded key features s).
Proof.
  intros (Ha & Hh & Hl & Hc).
  rewrite tileLoaded_inactive by (rewrite Ha; apply not_elem_of_nil). done.
Qed.

Lemma clearActive_currentView s : Lod.currentView (Lod.clearActive s) = None.
Proof.
  rewrite clearActive_unfold.
  cbn [Lod.currentView Lod.set_activeTiles Lod.set_featureHolders].
  assert (Lod.currentView (Lod.set_currentView None s) = None) as H0 by done.
  revert H0. generalize (Lod.set_currentView None s). generalize (Lod.activeTiles s).
  intros l. induction l as [|k l IH]; intros s0 H0; [done|].
  simpl. apply IH. unfold clearStep.
  destruct (Lod.tiles s0 !! k) as [tile|]; [|done].
  by destruct (Tile.fulfilled tile).
Qed.

Lemma clearActive_view_inv s : view_inv (Lod.clearActive s).
Proof. intros v Hv. by rewrite clearActive_currentView in Hv. Qed.

Lemma new_idle m : idleLod (Lod.new m).
Proof. done. Qed.

Lemma idle_view_inv s : idleLod s → view_inv s.
Proof. intros (_ & _ & _ & Hc) v Hv. congruence. Qed.

(** The fields of the layer after a view update. *)
Lemma updateView_fields retina map this :
  let best := fst <$> chooseBestLod (effectiveZoom this retina map) (lods this) in
  let cleared :=
    if decide (activeLod this = best) then lods this
    else match activeLod this with
         | Some old => alter Lod.clearActive old (lods this)
         | None => lods this
         end in
  updateView retina map this =
  {| options := options this; meta := meta this;
     lods := match best, meta this with
             | Some now, Some m =>
                 alter (Lod.updateView (TiledGeoJSONMeta.origin m) (getBounds map))
                       now cleared
             | _, _ => cleared
             end;
     activeLod := best;
     layers := if decide (activeLod this = best) then layers this
               else match activeLod this with
                    | Some old => groupOf best ∪ layers this ∖ {[old]}
                    | None => groupOf best ∪ layers this
                    end;
     _map := _map this |}.
Proof.
  intros best cleared. subst cleared. unfold updateView. fold best.
  generalize best. clear best. intros best.
  destruct this as [o m l a ly mp]. cbn [activeLod lods layers meta options _map].
  destruct (decide (a = best)) as [Heq|Hne].
  - subst a. cbn [activeLod meta]. by destruct best, m.
  - destruct a as [old|], best as [now|], m as [m|]; cbn; try done.
    all: by rewrite ?(left_id_L ∅ (∪)).
Qed.

Lemma chooseBestLod_index zoom (lods : list Lod.t) j :
  fst <$> chooseBestLod zoom lods = Some j → is_Some (lods !! j).
Proof.
  destruct (chooseBestLod zoom lods) as [[i lod]|] eqn:E; [|done].
  intros [= <-]. apply chooseBestLod_Some in E as [_ ?]. eauto.
Qed.


End LayerFacts.

Section LayerInvariant.
Import TiledGeoJSON.

Lemma set__map_inv ok mp this : layer_inv ok this → layer_inv ok (set__map mp this).
Proof. done. Qed.

Lemma new_layer_inv ok options : layer_inv ok (new options).
Proof.
  by split_and!.
Qed.

Lemma lookup_alter_cases {A} (f : A → A) (l : list A) i j x' :
  alter f i l !! j = Some x' →
  (j = i ∧ ∃ x, l !! i = Some x ∧ x' = f x) ∨ (j ≠ i ∧ l !! j = Some x').
Proof.
  rewrite list_lookup_alter. case_decide as Hd.
  - subst j. destruct (l !! i) as [x|]; [|done]. intros [= <-]. left. eauto.
  - intros ?. by right.
Qed.

Lemma updateView_layer_inv ok retina map this :
  layer_inv ok this → layer_inv ok (updateView retina map this).
Proof.
  intros (Hnone & Hmeta & Hact & Hly & Hlods).
  rewrite updateView_fields.
  set (best := fst <$> chooseBestLod (effectiveZoom this retina map) (lods this)).
  set (cleared := if decide (activeLod this = best) then lods this
                  else match activeLod this with
                       | Some old => alter Lod.clearActive old (lods this)
                       | None => lods this
                       end).
  (* the levels of detail once the old one is cleared *)
  assert (Lod.meta <$> cleared = Lod.meta <$> lods this) as Hcm.
  { unfold cleared. case_decide; [done|]. destruct (activeLod this) as [old|]; [|done].
    rewrite (list_fmap_alter Lod.meta Lod.clearActive id).
    - by rewrite list_alter_id.
    - apply Forall_forall. intros x _. apply clearActive_meta. }
  assert (∀ j, is_Some (cleared !! j) ↔ is_Some (lods this !! j)) as Hcs.
  { intros j. rewrite !lookup_lt_is_Some.
    rewrite <- (length_fmap Lod.meta cleared), Hcm. by rewrite length_fmap. }
  assert (∀ j lod, cleared !! j = Some lod →
                   reachable ok lod ∧ view_inv lod ∧ (best ≠ Some j → idleLod lod))
    as Hcl.
  { intros j lod. unfold cleared. case_decide as Hd.
    - intros Hj. rewrite <- Hd. by apply Hlods.
    - destruct (activeLod this) as [old|] eqn:Ha.
      + intros [[-> (x & Hx & ->)]|[Hne Hj]]%lookup_alter_cases.
        * destruct (Hlods old x Hx) as (Hr & _ & _). split_and!.
          -- eapply reach_step; [done|apply step_clear].
          -- apply clearActive_view_inv.
          -- intros _. by apply (clearActive_torn_down ok).
        * destruct (Hlods j lod Hj) as (Hr & Hv & Hi). split_and!; [done..|].
          intros _. apply Hi. congruence.
      + intros Hj. destruct (Hlods j lod Hj) as (Hr & Hv & Hi). split_and!; [done..|].
        intros _. by apply Hi. }
  assert (∀ j, best = Some j → is_Some (lods this !! j)) as Hbest
    by (intros j; apply chooseBestLod_index).
  split_and!; cbn [meta lods activeLod layers].
  - intros Hm. rewrite Hm. specialize (Hnone Hm).
    assert (cleared = []) as ->.
    { apply (fmap_nil_inv Lod.meta). by rewrite Hcm, Hnone. }
    by destruct best.
  - intros m Hm. rewrite Hm, <- (Hmeta m Hm), <- Hcm.
    destruct best as [now|]; [|done].
    rewrite (list_fmap_alter Lod.meta _ id).
    + by rewrite list_alter_id.
    + apply Forall_forall. intros x _. apply updateView_meta.
  - intros j Hj. specialize (Hbest j Hj). apply Hcs in Hbest.
    destruct best as [now|], (meta this) as [m|]; try done.
    apply lookup_lt_is_Some. rewrite length_alter. by apply lookup_lt_is_Some.
  - case_decide as Hd; [by rewrite <- Hd|]. rewrite Hly.
    destruct (activeLod this) as [old|]; simpl.
    + rewrite difference_diag_L. apply (right_id_L ∅ (∪)).
    + apply (right_id_L ∅ (∪)).
  - intros j lod Hj.
    destruct best as [now|] eqn:Hb; [|by apply Hcl].
    destruct (meta this) as [m|]; [|by apply Hcl].
    apply lookup_alter_cases in Hj as [[-> (x & Hx & ->)]|[Hne Hj]].
    + destruct (Hcl now x Hx) as (Hr & Hv & _). split_and!.
      * eapply reach_step; [done|apply step_view].
      * by apply (Lod_updateView_view_inv ok).
      * done.
    + by apply Hcl.
Qed.

Lemma metaLoaded_layer_inv ok retina m this :
  layer_inv ok this → meta this = None → layer_inv ok (metaLoaded retina m this).
Proof.
  intros (Hnone & Hmeta & Hact & Hly & Hlods) Hm.
  assert (activeLod this = None) as Ha.
  { destruct (activeLod this) as [i|] eqn:E; [|done].
    destruct (Hact i eq_refl) as [x Hx]. rewrite (Hnone Hm) in Hx. done. }
  assert (layer_inv ok (set_meta m this)) as Hinv.
  { split_and!; cbn [meta lods activeLod layers set_meta]; try done.
    - intros m' [= <-]. rewrite <- list_fmap_compose. apply list_fmap_id.
    - by rewrite Ha.
    - intros j lod [lm [-> _]]%list_lookup_fmap_Some.
      split_and!; [apply reach_new|by apply idle_view_inv|done]. }
  unfold metaLoaded. cbv zeta.
  destruct (_map (set_meta m this)); [by apply updateView_layer_inv|done].
Qed.

Lemma tile_layer_inv ok this i lod key tile features :
  layer_inv ok this →
  lods this !! i = Some lod → Lod.tiles lod !! key = Some tile →
  Tile.fulfilled tile = false → ok features →
  layer_inv ok (set_lods (alter (Lod.tileLoaded key features) i (lods this)) this).
Proof.
  intros (Hnone & Hmeta & Hact & Hly & Hlods) Hi Ht Hf Hok.
  assert (Lod.meta <$> alter (Lod.tileLoaded key features) i (lods this)
          = Lod.meta <$> lods this) as Hcm.
  { rewrite (list_fmap_alter Lod.meta _ id).
    - by rewrite list_alter_id.
    - apply Forall_forall. intros x _. apply tileLoaded_meta. }
  split_and!; cbn [meta lods activeLod layers set_lods].
  - intros Hm. rewrite (Hnone Hm) in Hi. done.
  - intros m Hm. by rewrite Hcm, (Hmeta m Hm).
  - intros j Hj. apply lookup_lt_is_Some. rewrite length_alter.
    by apply lookup_lt_is_Some, Hact.
  - done.
  - intros j lod' [[-> (x & Hx & ->)]|[Hne Hj]]%lookup_alter_cases; [|by apply Hlods].
    rewrite Hi in Hx. injection Hx as <-.
    destruct (Hlods i lod Hi) as (Hr & Hv & Hidle). split_and!.
    + eapply reach_step; [done|]. by apply (step_load ok lod key tile features).
    + by apply tileLoaded_view_inv.
    + intros Hne. by apply tileLoaded_idle, Hidle.
Qed.

Lemma layerStep_inv retina ok this this' :
  layer_inv ok this → layerStep retina ok this this' → layer_inv ok this'.
Proof.
  intros Hinv Hstep. destruct Hstep.
  - by apply metaLoaded_layer_inv.
  - destruct target as [map|[map|]]; simpl; [|done..].
    by apply set__map_inv, updateView_layer_inv.
  - done.
  - by apply updateView_layer_inv.
  - done.
  - by apply (tile_layer_inv ok this i lod key tile features).
Qed.

Lemma layerReachable_inv retina ok this :
  layerReachable retina ok this → layer_inv ok this.
Proof.
  induction 1 as [options|this this' _ IH Hstep]; [apply new_layer_inv|].
  by apply (layerStep_inv retina ok this).
Qed.

End LayerInvariant.

Section LayerClaims.
Import TiledGeoJSON.

Implicit Types (c b : nat * Lod.t).


Lemma sampleMounted_reachable ok : layerReachable false ok sampleMounted.
Proof.
  eapply layer_next; [eapply layer_next; [apply layer_new|apply layer_addTo]|].
  by apply layer_meta.
Qed.




Lemma updateView_set__map retina map mp this :
  updateView retina map (set__map mp this) = set__map mp (updateView retina map this).
Proof. by rewrite !updateView_fields. Qed.

(** X21.  It makes no difference whether a layer that is on no map is added
    to a map before or after its metadata arrives; added before, [addTo]
    records the map and changes nothing else. *)
Theorem addTo_before_or_after_metadata retina ok this m map :
  layerReachable retina ok this → meta this = None → _map this = None →
  TiledGeoJSON_addTo retina (toMap map) (metaLoaded retina m this) =
  metaLoaded retina m (TiledGeoJSON_addTo retina (toMap map) this) ∧
  TiledGeoJSON_addTo retina (toMap map) this = set__map (Some map) this.
Proof.
  intros Hr Hm Hmap.
  destruct (layerReachable_inv retina ok this Hr) as (Hnone & _ & Hact & _).
  assert (activeLod this = None) as Ha.
  { destruct (activeLod this) as [i|] eqn:E; [|done].
    destruct (Hact i eq_refl) as [x Hx]. rewrite (Hnone Hm) in Hx. done. }
  assert (updateView retina map this = this) as Hnoop.
  { pose proof (Hnone Hm) as Hl. clear Hnone Hact Hr.
    rewrite updateView_fields. rewrite Hl, Ha. simpl.
    destruct this. simpl in *. by subst. }
  split.
  - unfold TiledGeoJSON_addTo. rewrite Hnoop.
    unfold metaLoaded. cbv zeta. cbn [_map set_meta set__map]. rewrite Hmap.
    change (set_meta m (set__map (Some map) this))
      with (set__map (Some map) (set_meta m this)).
    by rewrite updateView_set__map.
  - unfold TiledGeoJSON_addTo. by rewrite Hnoop.
Qed.

Lemma addTo_before_or_after_metadata_witness :
  TiledGeoJSON_addTo false (toMap sampleMapNear)
    (metaLoaded false sampleDataset (new {| detectRetina := None |})) = sampleMounted.
Proof.
  apply (addTo_before_or_after_metadata false anyFeatures).
  - apply layer_new.
  - reflexivity.
  - reflexivity.
Defined.










End LayerClaims.

(** ** What every reachable state satisfies *)

Section ReachableShape.
Import Lod.

(** X25.  In a reachable state (no identifier twice in a tile; Leaflet
    builds a layer for every feature) a masked feature is a feature of the
    tile; a feature of the tile has its layer recorded under its identifier,
    and the layer is in the layer group of the tile exactly when the feature
    is not masked; so the tile draws exactly the features it holds and has
    not masked. *)
Theorem tile_draws_unmasked s k tile fid :
  reachable uniqueFids s → tiles s !! k = Some tile →
  (Tile.masked fid tile → Tile.contains fid tile) ∧
  (Tile.contains fid tile →
   ∃ l, Tile.featureLayers tile !! Some fid = Some l ∧
        Tile.layerFid tile l = Some fid ∧
        (l ∈ Tile.layers tile ↔ ¬ Tile.masked fid tile)) ∧
  (Tile.draws fid tile ↔ Tile.contains fid tile ∧ ¬ Tile.masked fid tile).
Proof.
  intros Hr Hk.
  pose proof (reachable_tile_wf _ s k tile Hr Hk) as [_ Hwf].
  destruct (reachable_inv s Hr) as [_ [Hut (_ & Hmem & Hmask)]].
  assert (Tile.masked fid tile → Tile.contains fid tile) as Hmc.
  { intros Hm. apply (Hmask k tile fid Hk), elem_of_tail_elem, Hmem in Hm.
    destruct Hm as (t & (_ & Ht & _) & Hcont). congruence. }
  assert (∀ o : option Feature, o = None ↔ ¬ is_Some o) as Hnone.
  { intros o. rewrite eq_None_not_Some. done. }
  assert (Tile.contains fid tile →
          ∃ l, Tile.featureLayers tile !! Some fid = Some l ∧
               Tile.layerFid tile l = Some fid ∧
               (l ∈ Tile.layers tile ↔ ¬ Tile.masked fid tile)) as Hcl.
  { intros (features & Hc & Hin). rewrite Hc in Hwf.
    destruct Hwf as (_ & Ha & Hb & Hcc & _). destruct (Ha fid Hin) as [l Hl].
    exists l. split_and!; [done|by apply Hb|].
    rewrite (Hcc fid l Hl). apply Hnone. }
  split_and!; [done..|]. split.
  - intros (l & Hl & Hlo).
    destruct (layerFid_Some tile l fid Hlo) as (features & feature & Hc & Hfe & Hfi).
    assert (Tile.contains fid tile) as Hcont.
    { exists features. split; [done|]. apply elem_of_fids. eauto. }
    split; [done|]. rewrite Hc in Hwf. destruct Hwf as (_ & _ & _ & Hcc & Hd).
    pose proof (Hd (Hut k tile features Hk Hc) fid l Hl Hlo) as Hrec.
    apply (Hcc fid l Hrec) in Hl. apply Hnone. done.
  - intros [Hcont Hnm]. destruct (Hcl Hcont) as (l & Hl & Hlo & Hiff).
    exists l. split; [by apply Hiff|done].
Qed.

Lemma tile_draws_unmasked_witness :
  ∃ tile, tiles sampleShared !! "1,0" = Some tile ∧
          (Tile.draws 7 tile ↔ Tile.contains 7 tile ∧ ¬ Tile.masked 7 tile).
Proof.
  assert (∃ tile, tiles sampleShared !! "1,0" = Some tile) as (tile & Ht).
  { eexists. reflexivity. }
  exists tile. split; [exact Ht|].
  apply (tile_draws_unmasked sampleShared "1,0").
  - apply sampleShared_reachable. unfold uniqueFids. simpl. apply NoDup_singleton.
  - exact Ht.
Defined.

End ReachableShape.

(** ** More on the view update and on showing a tile again *)

Section ViewBound.
Import Lod.



End ViewBound.

Section ShowAgain.
Import Lod.




End ShowAgain.

(** * Properties of the exceptions *)

(** ** Where the methods do not throw *)

Section NoThrowTile.

Lemma forEach_normal {S A : Type} (P : S → Prop)
    (body : S → A → Completion S) (f : S → A → S) (l : list A) (s : S) :
  (∀ s a, a ∈ l → P s → body s a = Normal (f s a) ∧ P (f s a)) →
  P s → forEach body l s = Normal (fold_left f l s) ∧ P (fold_left f l s).
Proof.
  revert s. induction l as [|a l IH]; intros s Hb Hs; [done|].
  destruct (Hb s a) as [Ha Hp]; [apply elem_of_cons; by left|done|].
  cbn [forEach fold_left]. rewrite Ha. cbn [andThen]. apply IH; [|done].
  intros s' a' Hin. apply Hb. apply elem_of_cons. by right.
Qed.

Lemma built_drawn hasLayer features :
  drawn hasLayer features →
  Throwing.Tile.built hasLayer features = seq 0 (length features).
Proof.
  unfold Throwing.Tile.built, drawn.
  assert (∀ (g : nat → nat) l,
            Forall (λ feature, hasLayer feature = true) l →
            omap (λ p : nat * Feature, if hasLayer p.2 then Some p.1 else None)
                 (imap (λ i x, (g i, x)) l) = g <$> seq 0 (length l)) as H.
  { intros g l. revert g. induction l as [|x l IH]; intros g Hall; [done|].
    apply Forall_cons in Hall as [Hx Hl]. rewrite imap_cons. simpl. rewrite Hx. f_equal.
    rewrite <- fmap_S_seq, <- list_fmap_compose. apply (IH (g ∘ S) Hl). }
  intros Hall. transitivity (id <$> seq 0 (length features));
    [exact (H id features Hall)|by rewrite list_fmap_id].
Qed.

Lemma loaded_drawn hasLayer features tile :
  drawn hasLayer features →
  Throwing.Tile.loaded hasLayer features tile = Tile.loaded features tile.
Proof.
  intros H. unfold Throwing.Tile.loaded, Throwing.Tile.addData, Tile.loaded, Tile.addData.
  by rewrite built_drawn.
Qed.

Lemma maskFeature_normal fid tile :
  (∀ features, Tile.featureCollection tile = Some features →
               is_Some (Tile.featureLayers tile !! Some fid)) →
  Throwing.Tile.maskFeature fid tile = Normal (Tile.maskFeature fid tile).
Proof.
  intros H. unfold Throwing.Tile.maskFeature, Tile.maskFeature.
  destruct (Tile.featureCollection tile) as [features|]; [|done].
  destruct (H features eq_refl) as [l Hl]. cbn [Tile.featureLayers Tile.set_maskedFeatures].
  by rewrite Hl.
Qed.

Lemma unmaskFeature_normal fid tile :
  (Tile.masked fid tile → is_Some (Tile.featureLayers tile !! Some fid)) →
  Throwing.Tile.unmaskFeature fid tile = Normal (Tile.unmaskFeature fid tile).
Proof.
  intros H. unfold Throwing.Tile.unmaskFeature, Tile.unmaskFeature.
  destruct (Tile.maskedFeatures tile !! fid) as [feat|] eqn:E; [|done].
  destruct H as [l Hl]; [unfold Tile.masked; by rewrite E|].
  cbn [Tile.featureLayers Tile.set_maskedFeatures]. by rewrite Hl.
Qed.

Lemma unmaskAll_normal tile :
  (∀ fid, Tile.masked fid tile → is_Some (Tile.featureLayers tile !! Some fid)) →
  Throwing.Tile.unmaskAll tile = Normal (Tile.unmaskAll tile).
Proof.
  intros H. unfold Throwing.Tile.unmaskAll, Tile.unmaskAll.
  set (L := elements (dom (Tile.maskedFeatures tile))).
  apply (forEach_normal
           (λ t, ∀ fid, fid ∈ L → is_Some (Tile.featureLayers t !! Some fid))).
  - intros t fid Hin Ht. destruct (Ht fid Hin) as [l Hl].
    rewrite Hl. cbn [Throwing.Tile.addLayer andThen]. split; [done|].
    intros fid' Hin'. cbn [Tile.featureLayers Tile.set_maskedFeatures Tile.addLayer
                           Tile.set_layers Tile.set_featureLayers].
    rewrite lookup_insert. case_decide; [eauto|]. by apply Ht.
  - intros fid Hin. apply H. unfold L in Hin.
    apply elem_of_elements, elem_of_dom in Hin. done.
Qed.

End NoThrowTile.

Section NoThrowLod.
Import Lod.

Lemma alter_lookup_insert {A} (f : A → A) (m : gmap string A) k x :
  m !! k = Some x → alter f k m = <[k := f x]> m.
Proof.
  intros H. apply map_eq. intros i. rewrite lookup_alter, lookup_insert.
  case_decide; [subst; by rewrite H|done].
Qed.

Lemma onTile_normal key f g s tile :
  tiles s !! key = Some tile → f tile = Normal (g tile) →
  Throwing.Lod.onTile key f s = Normal (onTile key g s).
Proof.
  intros Ht Hf. unfold Throwing.Lod.onTile, onTile. rewrite Ht, Hf. cbn [inside].
  by rewrite (alter_lookup_insert g _ _ tile).
Qed.

Lemma maskFeature_featureLayers fid tile :
  Tile.featureLayers (Tile.maskFeature fid tile) = Tile.featureLayers tile.
Proof.
  unfold Tile.maskFeature. destruct (Tile.featureCollection tile); [|done].
  by destruct (Tile.featureLayers tile !! Some fid).
Qed.

(** The tile under the key has the collection and a layer for each of its
    identifiers. *)
Lemma addFeatureHolder_normal key s feature features :
  feature ∈ features →
  (∃ tile, tiles s !! key = Some tile ∧
           Tile.featureCollection tile = Some features ∧
           ∀ fid, fid ∈ fids features → is_Some (Tile.featureLayers tile !! Some fid)) →
  Throwing.Lod.addFeatureHolder key s feature = Normal (addFeatureHolder key s feature) ∧
  (∃ tile, tiles (addFeatureHolder key s feature) !! key = Some tile ∧
           Tile.featureCollection tile = Some features ∧
           ∀ fid, fid ∈ fids features → is_Some (Tile.featureLayers tile !! Some fid)).
Proof.
  intros Hin (tile & Ht & Hc & Hl).
  unfold Throwing.Lod.addFeatureHolder, addFeatureHolder.
  destruct (__fid feature) as [fid|] eqn:Hf; [|split; [done|by exists tile]].
  assert (fid ∈ fids features) as Hfid.
  { apply list_elem_of_omap. by exists feature. }
  destruct (default [] (featureHolders s !! fid)) as [|k0 rest]; cbn [andThen].
  - split; [done|]. by exists tile.
  - rewrite (onTile_normal key _ (Tile.maskFeature fid) s tile Ht).
    2:{ apply maskFeature_normal. intros _ _. by apply Hl. }
    cbn [andThen]. split; [done|].
    exists (Tile.maskFeature fid tile). cbn [tiles set_featureHolders].
    rewrite onTile_lookup, decide_True by done. rewrite Ht. split; [done|].
    split; [by rewrite (static_collection _ _ (maskFeature_static fid tile))|].
    intros fid' H'. rewrite maskFeature_featureLayers. by apply Hl.
Qed.

Lemma addFeatureHolders_normal key s :
  (∀ tile features, tiles s !! key = Some tile →
     Tile.featureCollection tile = Some features →
     ∀ fid, fid ∈ fids features → is_Some (Tile.featureLayers tile !! Some fid)) →
  Throwing.Lod.addFeatureHolders key s = Normal (addFeatureHolders key s).
Proof.
  intros H. unfold Throwing.Lod.addFeatureHolders, addFeatureHolders.
  destruct (tiles s !! key) as [tile|] eqn:Ht; [|done]. cbn [mbind option_bind].
  destruct (Tile.featureCollection tile) as [features|] eqn:Hc; [|done].
  apply (forEach_normal
           (λ s', ∃ tile, tiles s' !! key = Some tile ∧
                          Tile.featureCollection tile = Some features ∧
                          ∀ fid, fid ∈ fids features →
                                 is_Some (Tile.featureLayers tile !! Some fid))).
  - intros s' feature Hin Hs'. by apply addFeatureHolder_normal.
  - exists tile. split_and!; [done..|]. by apply (H tile features).
Qed.

(** With a layer for every feature, the success branch of the load does not
    throw, in any state. *)
Lemma tileLoaded_drawn hasLayer key features s :
  drawn hasLayer features →
  Throwing.Lod.tileLoaded hasLayer key features s = Normal (tileLoaded key features s).
Proof.
  intros Hd. unfold Throwing.Lod.tileLoaded, tileLoaded.
  assert (onTile key (Throwing.Tile.loaded hasLayer features) s =
          onTile key (Tile.loaded features) s) as ->.
  { unfold onTile. f_equal. apply map_eq. intros k. rewrite !lookup_alter.
    case_decide; [|done]. destruct (tiles s !! key) as [t|]; [|done]. simpl. f_equal.
    by apply loaded_drawn. }
  set (s1 := onTile key (Tile.loaded features) s).
  unfold Throwing.Lod.loadCallback, loadCallback. case_decide; [|done].
  rewrite addFeatureHolders_normal; [done|].
  intros tile fc Ht Hc fid Hfid. unfold s1 in Ht.
  rewrite onTile_lookup, decide_True in Ht by done.
  destruct (tiles s !! key) as [t0|]; [|done]. injection Ht as <-.
  rewrite loaded_collection in Hc. injection Hc as <-.
  unfold Tile.loaded, Tile.addData.
  set (t1 := Tile.set_loaded features t0).
  assert (∀ ls t, (∀ o, is_Some (Tile.featureLayers t !! o) →
            is_Some (Tile.featureLayers
                       (fold_left (λ this l, Tile.addLayer (Some l) this) ls t) !! o)) ∧
          (Tile.featureCollection t = Some features →
           ∀ l, l ∈ ls →
            is_Some (Tile.featureLayers
                       (fold_left (λ this l, Tile.addLayer (Some l) this) ls t)
                       !! Tile.layerFid t l))) as Hfold.
  { induction ls as [|x ls IH]; intros t.
    - split; [done|]. intros _ l Hl. by apply elem_of_nil in Hl.
    - cbn [fold_left]. set (t' := Tile.addLayer (Some x) t).
      destruct (IH t') as [I1 I2]. split.
      + intros o Ho. apply I1. unfold t'. simpl. rewrite lookup_insert.
        case_decide; [eauto|done].
      + intros Hc l Hl. apply elem_of_cons in Hl as [->|Hl].
        * apply I1. unfold t'. simpl. rewrite lookup_insert_eq. eauto.
        * assert (Tile.layerFid t l = Tile.layerFid t' l) as -> by done.
          by apply I2. }
  apply elem_of_fids in Hfid as (i & feature & Hi & Hf).
  assert (Tile.layerFid t1 i = Some fid) as <-.
  { unfold Tile.layerFid, t1. cbn [Tile.featureCollection Tile.set_loaded mbind option_bind].
    unfold Tile.Layer. by rewrite Hi. }
  apply (proj2 (Hfold _ t1)); [done|].
  apply elem_of_seq. split; [lia|]. simpl. by apply lookup_lt_Some in Hi.
Qed.

(** With a layer for every feature the loader is the loader of the model. *)
Lemma Tile_loadTile_drawn hasLayer key features retryTime (w : Lod.t * Host) :
  drawn hasLayer features →
  Throwing.Tile_loadTile hasLayer key (answer features) retryTime w =
  Tile_loadTile key (answer features) retryTime w.
Proof.
  intros Hd. unfold Throwing.Tile_loadTile, Tile_loadTile, answer, catch_, then_, settled.
  cbn [text]. unfold Throwing.attempt, react. by rewrite tileLoaded_drawn.
Qed.

Lemma Tile_loadTile_failure_same hasLayer key response retryTime (w : Lod.t * Host) :
  failure response →
  Throwing.Tile_loadTile hasLayer key response retryTime w =
  Tile_loadTile key response retryTime w.
Proof.
  intros Hf. unfold Throwing.Tile_loadTile, Tile_loadTile, catch_, then_, settled.
  destruct response as [[[[features|]|]]|]; try done.
Qed.

End NoThrowLod.

(** ** A tile masks only what it holds *)

Section MasksHeld.
Import Lod.

Lemma contains_static tile tile' fid :
  Tile_static tile' = Tile_static tile → Tile.contains fid tile' ↔ Tile.contains fid tile.
Proof. intros H. unfold Tile.contains. by rewrite (static_collection _ _ H). Qed.

Lemma maskFeature_held fid tile :
  (∀ fid', Tile.masked fid' tile → Tile.contains fid' tile) →
  ∀ fid', Tile.masked fid' (Tile.maskFeature fid tile) →
          Tile.contains fid' (Tile.maskFeature fid tile).
Proof.
  intros H fid' Hm. rewrite (contains_static _ _ _ (maskFeature_static fid tile)).
  unfold Tile.maskFeature in Hm.
  destruct (Tile.featureCollection tile) as [features|] eqn:Hc; [|by apply H].
  assert (∀ l t, Tile.maskedFeatures (Tile.removeLayer l t) = Tile.maskedFeatures t) as Hr
    by (by intros []).
  unfold Tile.masked in Hm. rewrite Hr in Hm. cbn [Tile.maskedFeatures Tile.set_maskedFeatures] in Hm.
  apply fold_mask_is_Some in Hm as [[-> Hin]|Hm]; [by exists features|by apply H].
Qed.

Lemma unmaskFeature_held fid tile :
  (∀ fid', Tile.masked fid' tile → Tile.contains fid' tile) →
  ∀ fid', Tile.masked fid' (Tile.unmaskFeature fid tile) →
          Tile.contains fid' (Tile.unmaskFeature fid tile).
Proof.
  intros H fid' Hm. rewrite (contains_static _ _ _ (unmaskFeature_static fid tile)).
  apply H. unfold Tile.masked in *. rewrite unmaskFeature_masked in Hm.
  apply lookup_delete_is_Some in Hm. tauto.
Qed.

Lemma onTile_held key f s :
  masks_held s →
  (∀ tile, tiles s !! key = Some tile →
           (∀ fid, Tile.masked fid tile → Tile.contains fid tile) →
           ∀ fid, Tile.masked fid (f tile) → Tile.contains fid (f tile)) →
  masks_held (onTile key f s).
Proof.
  intros Hs Hf k tile fid. rewrite onTile_lookup. case_decide as Hd.
  - subst k. destruct (tiles s !! key) as [t0|] eqn:Ht; [|done]. simpl.
    intros [= <-]. apply (Hf t0 eq_refl). intros fid'. by apply (Hs key).
  - by apply Hs.
Qed.

Lemma masks_held_tiles s s' : tiles s' = tiles s → masks_held s → masks_held s'.
Proof. unfold masks_held. by intros ->. Qed.

Lemma addFeatureHolder_held key s feature :
  masks_held s → masks_held (addFeatureHolder key s feature).
Proof.
  intros Hs. unfold addFeatureHolder. destruct (__fid feature) as [fid|]; [|done].
  apply (masks_held_tiles (match default [] (featureHolders s !! fid) with
                           | [] => s
                           | _ :: _ => onTile key (Tile.maskFeature fid) s
                           end)); [done|].
  destruct (default [] (featureHolders s !! fid)); [done|].
  apply onTile_held; [done|]. intros tile _. apply maskFeature_held.
Qed.

Lemma fold_held {A} (f : t → A → t) (l : list A) s :
  (∀ s a, masks_held s → masks_held (f s a)) →
  masks_held s → masks_held (fold_left f l s).
Proof.
  intros Hf. revert s. induction l as [|a l IH]; intros s Hs; [done|].
  simpl. by apply IH, Hf.
Qed.

Lemma addFeatureHolders_held key s :
  masks_held s → masks_held (addFeatureHolders key s).
Proof.
  intros Hs. unfold addFeatureHolders.
  destruct (tiles s !! key ≫= Tile.featureCollection); [|done].
  apply fold_held; [|done]. intros. by apply addFeatureHolder_held.
Qed.

Lemma removeFeatureHolder_held key s feature :
  masks_held s → masks_held (removeFeatureHolder key s feature).
Proof.
  intros Hs. unfold removeFeatureHolder. destruct (__fid feature) as [fid|]; [|done].
  destruct (featureHolders s !! fid) as [holders|]; [|done]. cbv zeta.
  set (s1 := if bool_decide (head holders = Some key) then s
             else onTile key (Tile.unmaskFeature fid) s).
  assert (masks_held s1) as H1.
  { unfold s1. case_bool_decide; [done|]. apply onTile_held; [done|].
    intros tile _. apply unmaskFeature_held. }
  set (s2 := set_featureHolders _ s1).
  assert (masks_held s2) as H2 by (by apply (masks_held_tiles s1)).
  destruct (filter _ holders); [done|]. case_bool_decide; [|done].
  apply onTile_held; [done|]. intros tile _. apply unmaskFeature_held.
Qed.

Lemma removeFeatureHolders_held key s :
  masks_held s → masks_held (removeFeatureHolders key s).
Proof.
  intros Hs. unfold removeFeatureHolders.
  destruct (tiles s !! key ≫= Tile.featureCollection); [|done].
  apply fold_held; [|done]. intros. by apply removeFeatureHolder_held.
Qed.

Lemma showTile_held x y s : masks_held s → masks_held (showTile x y s).
Proof.
  intros Hs. unfold showTile.
  destruct (LodMeta.tiles (meta s) !! tileKey x y) as [h|] eqn:Hh; [|done].
  set (s1 := match tiles s !! tileKey x y with
             | Some _ => s
             | None => loadTile x y s
             end).
  assert (masks_held s1) as H1.
  { unfold s1. destruct (tiles s !! tileKey x y) eqn:Ht; [done|].
    unfold loadTile. rewrite Hh, Ht. intros k tile fid. cbn [tiles set_tiles].
    rewrite lookup_insert. case_decide.
    - intros [= <-] [m Hm]. cbn in Hm. by rewrite lookup_empty in Hm.
    - by apply Hs. }
  cbv zeta. fold s1. destruct (tiles s1 !! tileKey x y) as [tile|]; [|done].
  apply (masks_held_tiles (if Tile.fulfilled tile
                           then addLayer (tileKey x y) (addFeatureHolders (tileKey x y) s1)
                           else s1)); [done|].
  destruct (Tile.fulfilled tile); [|done].
  apply (masks_held_tiles (addFeatureHolders (tileKey x y) s1)); [done|].
  by apply addFeatureHolders_held.
Qed.

Lemma showCell_held s cell : masks_held s → masks_held (showCell s cell).
Proof.
  intros Hs. unfold showCell. destruct (_ && _); [|done]. by apply showTile_held.
Qed.

Lemma hideTile_held x y s : masks_held s → masks_held (hideTile x y s).
Proof.
  intros Hs. unfold hideTile. case_decide; [|done].
  apply (masks_held_tiles (match tiles s !! tileKey x y with
                           | Some tile =>
                               if Tile.fulfilled tile
                               then removeFeatureHolders (tileKey x y)
                                      (removeLayer (tileKey x y) s)
                               else s
                           | None => s
                           end)); [done|].
  destruct (tiles s !! tileKey x y) as [tile|]; [|done].
  destruct (Tile.fulfilled tile); [|done].
  apply removeFeatureHolders_held. by apply (masks_held_tiles s).
Qed.

Lemma hideOutside_held v s key : masks_held s → masks_held (hideOutside v s key).
Proof.
  intros Hs. unfold hideOutside. destruct (Number _); [|done].
  destruct (Number _); [|done]. destruct (GridView.outside _ _ _); [|done].
  by apply hideTile_held.
Qed.

Lemma updateView_held origin bounds s :
  masks_held s → masks_held (updateView origin bounds s).
Proof.
  intros Hs. destruct (updateView_cases origin bounds s) as [->| ->]; [done|].
  apply (masks_held_tiles
           (fold_left (hideOutside (GridView.new (LodMeta.tileSize (meta s))
                                      origin.1 origin.2 bounds))
              (activeTiles (fold_left showCell (GridView.cells
                 (GridView.new (LodMeta.tileSize (meta s)) origin.1 origin.2 bounds)) s))
              (fold_left showCell (GridView.cells
                 (GridView.new (LodMeta.tileSize (meta s)) origin.1 origin.2 bounds)) s)));
    [done|].
  apply fold_held; [intros; by apply hideOutside_held|].
  apply fold_held; [intros; by apply showCell_held|done].
Qed.

Lemma clearStep_held s key :
  tiles_wf s → masks_held s → tiles_wf (clearStep s key) ∧ masks_held (clearStep s key).
Proof.
  intros Hwf Hs. destruct (clearStep_spec s key Hwf) as (Hwf' & _ & _ & _ & _ & _ & _ & Ht).
  split; [done|]. intros k tile' fid Hk Hm.
  destruct (Ht k tile' Hk) as (t0 & Hk0 & Hst & Hempty & Hsame).
  destruct (decide (k = key ∧ Tile.fulfilled t0 = true)) as [Hd|Hd].
  - unfold Tile.masked in Hm. rewrite (Hempty Hd), lookup_empty in Hm. by destruct Hm.
  - rewrite (Hsame Hd) in *. by apply (Hs k).
Qed.

Lemma clearActive_held s : tiles_wf s → masks_held s → masks_held (clearActive s).
Proof.
  intros Hwf Hs. rewrite clearActive_unfold.
  apply (masks_held_tiles (fold_left clearStep (activeTiles s) (set_currentView None s)));
    [done|].
  assert (∀ l s0, tiles_wf s0 → masks_held s0 →
                  tiles_wf (fold_left clearStep l s0) ∧ masks_held (fold_left clearStep l s0))
    as Hfold.
  { induction l as [|a l IH]; intros s0 H1 H2; [done|]. simpl.
    destruct (clearStep_held s0 a H1 H2). by apply IH. }
  by apply Hfold.
Qed.

Lemma tileLoaded_held key features s tile :
  tiles_wf s → masks_held s →
  tiles s !! key = Some tile → Tile.fulfilled tile = false →
  masks_held (tileLoaded key features s).
Proof.
  intros Hwf Hs Ht Hf. unfold tileLoaded.
  assert (masks_held (onTile key (Tile.loaded features) s)) as H1.
  { apply onTile_held; [done|]. intros t0 Ht0 _ fid [m Hm].
    assert (t0 = tile) as -> by congruence.
    destruct (loaded_wf key features tile (Hwf _ _ Ht)) as [_ He].
    - apply (wf_unfulfilled_collection key); [by apply (Hwf _ _ Ht)|done].
    - by rewrite He, lookup_empty in Hm. }
  unfold loadCallback. case_decide; [|done].
  apply (masks_held_tiles (addFeatureHolders key (onTile key (Tile.loaded features) s)));
    [done|].
  by apply addFeatureHolders_held.
Qed.

Lemma step_held ok s s' : shape_inv s → masks_held s → step ok s s' → masks_held s'.
Proof.
  intros Hsh Hs Hstep. destruct Hstep.
  - by apply showCell_held.
  - by apply hideTile_held.
  - apply (tileLoaded_held key features s tile); try done. by destruct Hsh.
  - apply clearActive_held; [by destruct Hsh|done].
  - by apply updateView_held.
Qed.

Lemma reachable_held ok s : reachable ok s → masks_held s.
Proof.
  induction 1 as [meta|s s' Hr IH Hstep].
  - intros k tile fid H. cbn in H. by rewrite lookup_empty in H.
  - apply (step_held ok s); [by apply (reachable_shape ok)|done..].
Qed.

End MasksHeld.

(** ** No method throws in a reachable state *)

Section NoThrow.
Import Lod.

Lemma wf_layer s k tile fid :
  tiles_wf s → tiles s !! k = Some tile → Tile.contains fid tile →
  is_Some (Tile.featureLayers tile !! Some fid).
Proof.
  intros Hwf Ht (features & Hc & Hin). destruct (Hwf k tile Ht) as [_ Hw].
  rewrite Hc in Hw. destruct Hw as (_ & Ha & _). by apply Ha.
Qed.

Lemma holders_exact_sound s : holders_exact s → holders_sound s.
Proof. intros H fid k Hin. apply H in Hin. apply shows_iff in Hin. tauto. Qed.

Lemma sound_layer s k fid :
  tiles_wf s → holders_sound s → k ∈ holdersOf s fid →
  ∃ tile, tiles s !! k = Some tile ∧ is_Some (Tile.featureLayers tile !! Some fid).
Proof.
  intros Hwf Hs Hin. destruct (Hs fid k Hin) as (tile & Ht & _ & Hc).
  exists tile. split; [done|]. by apply (wf_layer s k).
Qed.

Lemma removeFeatureHolder_sound key s feature :
  holders_sound s → holders_sound (removeFeatureHolder key s feature).
Proof.
  intros Hs fid k. rewrite removeFeatureHolder_holdersOf.
  rewrite <- (sameTiles_holds s _ k fid (removeFeatureHolder_sameTiles key s feature)).
  case_decide; [|by apply Hs]. intros Hin. apply list_elem_of_filter in Hin as [_ Hin].
  by apply Hs.
Qed.

Lemma removeFeatureHolder_normal key s feature features :
  feature ∈ features →
  tiles_wf s ∧ holders_sound s ∧
  (∃ tile, tiles s !! key = Some tile ∧ Tile.featureCollection tile = Some features) →
  Throwing.Lod.removeFeatureHolder key s feature =
    Normal (removeFeatureHolder key s feature) ∧
  (tiles_wf (removeFeatureHolder key s feature) ∧
   holders_sound (removeFeatureHolder key s feature) ∧
   ∃ tile, tiles (removeFeatureHolder key s feature) !! key = Some tile ∧
           Tile.featureCollection tile = Some features).
Proof.
  intros Hin (Hwf & Hs & tile & Ht & Hc). split.
  2:{ split; [by apply removeFeatureHolder_wf|]. split; [by apply removeFeatureHolder_sound|].
      destruct (sameTiles_lookup s _ key tile (removeFeatureHolder_sameTiles key s feature) Ht)
        as (tile' & Ht' & Hst).
      exists tile'. split; [done|]. by rewrite (static_collection _ _ Hst). }
  unfold Throwing.Lod.removeFeatureHolder, removeFeatureHolder.
  destruct (__fid feature) as [fid|] eqn:Hf; [|done].
  destruct (featureHolders s !! fid) as [holders|] eqn:Hh; [|done]. cbv zeta.
  assert (holdersOf s fid = holders) as Hho by (unfold holdersOf; by rewrite Hh).
  assert (fid ∈ fids features) as Hfid by (apply list_elem_of_omap; by exists feature).
  case_bool_decide as Hhead; cbn [andThen].
  - destruct (filter (λ k, k ≠ key) holders) as [|next rest] eqn:Hfl; [done|].
    assert (next ∈ holdersOf s fid) as Hnext.
    { rewrite Hho. assert (next ∈ filter (λ k, k ≠ key) holders) as H
        by (rewrite Hfl; apply elem_of_cons; by left).
      by apply list_elem_of_filter in H as [_ ?]. }
    destruct (sound_layer s next fid Hwf Hs Hnext) as (tn & Htn & Hl).
    apply (onTile_normal next _ (Tile.unmaskFeature fid) _ tn); [done|].
    by apply unmaskFeature_normal.
  - rewrite (onTile_normal key _ (Tile.unmaskFeature fid) s tile Ht).
    2:{ apply unmaskFeature_normal. intros _. apply (wf_layer s key); [done..|].
        by exists features. }
    cbn [andThen]. by destruct (filter (λ k, k ≠ key) holders).
Qed.

Lemma removeFeatureHolders_normal key s :
  tiles_wf s → holders_sound s →
  Throwing.Lod.removeFeatureHolders key s = Normal (removeFeatureHolders key s).
Proof.
  intros Hwf Hs. unfold Throwing.Lod.removeFeatureHolders, removeFeatureHolders.
  destruct (tiles s !! key) as [tile|] eqn:Ht; [|done]. cbn [mbind option_bind].
  destruct (Tile.featureCollection tile) as [features|] eqn:Hc; [|done].
  apply (forEach_normal
           (λ s', tiles_wf s' ∧ holders_sound s' ∧
                  ∃ tile, tiles s' !! key = Some tile ∧
                          Tile.featureCollection tile = Some features)).
  - intros s' feature Hin Hs'. by apply removeFeatureHolder_normal.
  - split_and!; [done..|]. by exists tile.
Qed.

Lemma hideTile_normal x y s :
  tiles_wf s → holders_sound s →
  Throwing.Lod.hideTile x y s = Normal (hideTile x y s).
Proof.
  intros Hwf Hs. unfold Throwing.Lod.hideTile, hideTile. case_decide; [|done].
  destruct (tiles s !! tileKey x y) as [tile|]; [|done].
  destruct (Tile.fulfilled tile); [|done].
  by rewrite removeFeatureHolders_normal.
Qed.

Lemma showTile_normal x y s :
  tiles_wf s → Throwing.Lod.showTile x y s = Normal (showTile x y s).
Proof.
  intros Hwf. unfold Throwing.Lod.showTile, showTile.
  destruct (LodMeta.tiles (meta s) !! tileKey x y) as [h|] eqn:Hh; [|done]. cbv zeta.
  set (s1 := match tiles s !! tileKey x y with
             | Some _ => s
             | None => loadTile x y s
             end).
  destruct (tiles s1 !! tileKey x y) as [tile|] eqn:Ht1. 2:{ done. }
  destruct (Tile.fulfilled tile) eqn:Hf; [|done].
  assert (s1 = s ∧ tiles s !! tileKey x y = Some tile) as [-> Ht].
  { unfold s1 in *. destruct (tiles s !! tileKey x y) eqn:Ht; [split; [done|congruence]|].
    unfold loadTile in Ht1. rewrite Hh, Ht in Ht1. cbn in Ht1.
    rewrite lookup_insert_eq in Ht1. injection Ht1 as <-. done. }
  rewrite addFeatureHolders_normal; [done|].
  intros t fc Ht' Hc fid Hin. apply (wf_layer s (tileKey x y)); [done..|].
  by exists fc.
Qed.

Lemma showCell_normal s cell :
  tiles_wf s → Throwing.Lod.showCell s cell = Normal (showCell s cell).
Proof.
  intros Hwf. unfold Throwing.Lod.showCell, showCell.
  destruct (_ && _); [|done]. by apply showTile_normal.
Qed.

Lemma hideOutside_normal v s key :
  tiles_wf s → holders_sound s →
  Throwing.Lod.hideOutside v s key = Normal (hideOutside v s key).
Proof.
  intros Hwf Hs. unfold Throwing.Lod.hideOutside, hideOutside.
  destruct (Number _); [|done]. destruct (Number _); [|done].
  destruct (GridView.outside _ _ _); [|done]. by apply hideTile_normal.
Qed.

Lemma clearActive_normal s :
  tiles_wf s → masks_held s →
  Throwing.Lod.clearActive s = Normal (clearActive s).
Proof.
  intros Hwf Hs. unfold Throwing.Lod.clearActive. rewrite clearActive_unfold. cbv zeta.
  destruct (forEach_normal (λ s', tiles_wf s' ∧ masks_held s')
              (λ this key,
                 match tiles this !! key with
                 | Some tile =>
                     if Tile.fulfilled tile
                     then Throwing.Lod.onTile key Throwing.Tile.unmaskAll
                            (removeLayer key this)
                     else Normal this
                 | None => Normal this
                 end)
              clearStep (activeTiles (set_currentView None s)) (set_currentView None s))
    as [-> _]; [| |done].
  - intros s' key _ [Hwf' Hs']. split; [|by apply clearStep_held].
    unfold clearStep. destruct (tiles s' !! key) as [tile|] eqn:Ht; [|done].
    destruct (Tile.fulfilled tile); [|done].
    apply (onTile_normal key _ Tile.unmaskAll _ tile); [done|].
    apply unmaskAll_normal. intros fid Hm. apply (wf_layer s' key); [done..|].
    by apply (Hs' key).
  - split; [done|]. by apply (masks_held_tiles s).
Qed.

Lemma updateView_normal origin bounds s :
  shape_inv s → holders_exact s →
  Throwing.Lod.updateView origin bounds s = Normal (updateView origin bounds s).
Proof.
  intros Hsh Hex. unfold Throwing.Lod.updateView, updateView. cbv zeta.
  set (v := GridView.new _ _ _ _).
  destruct (match currentView s with Some _ => _ | None => true end); [|done].
  destruct (forEach_normal (λ s', shape_inv s' ∧ holders_exact s')
              Throwing.Lod.showCell showCell (GridView.cells v) s) as [-> [Hsh1 Hex1]].
  - intros s' cell _ [H1 H2]. split; [apply showCell_normal; by destruct H1|].
    split; [by apply showCell_shape|by apply showCell_exact].
  - done.
  - cbn [andThen]. set (s1 := fold_left showCell (GridView.cells v) s) in *.
    destruct (forEach_normal (λ s', shape_inv s' ∧ holders_exact s')
                (Throwing.Lod.hideOutside v) (hideOutside v) (activeTiles s1) s1)
      as [-> _]; [| |done].
    + intros s' key _ [H1 H2]. split; [|by apply hideOutside_exact].
      apply hideOutside_normal; [by destruct H1|by apply holders_exact_sound].
    + done.
Qed.

End NoThrow.

(** ** The runs of the program and the runs of the model *)

Section Simulation.
Import Lod.

Lemma reachable_weaken (ok ok' : list Feature → Prop) s :
  (∀ features, ok features → ok' features) → reachable ok s → reachable ok' s.
Proof.
  intros Hok. induction 1 as [meta|s s' _ IH Hstep]; [apply reach_new|].
  apply (reach_step ok' s); [done|].
  destruct Hstep; try by constructor. by econstructor; [..|apply Hok].
Qed.

(** In a reachable state no method throws: each one completes with the state
    that its model gives. *)
Lemma reachable_normal ok hasLayer s :
  reachable ok s →
  (∀ cell, Throwing.Lod.showCell s cell = Normal (showCell s cell)) ∧
  (∀ x y, Throwing.Lod.hideTile x y s = Normal (hideTile x y s)) ∧
  (∀ key features, drawn hasLayer features →
     Throwing.Lod.tileLoaded hasLayer key features s = Normal (tileLoaded key features s)) ∧
  Throwing.Lod.clearActive s = Normal (clearActive s) ∧
  (∀ origin bounds,
     Throwing.Lod.updateView origin bounds s = Normal (updateView origin bounds s)).
Proof.
  intros Hr. pose proof (reachable_shape ok s Hr) as Hsh.
  pose proof (reachable_exact ok s Hr) as Hex.
  pose proof (reachable_held ok s Hr) as Hm.
  pose proof Hsh as (Hwf & _).
  split_and!.
  - intros cell. by apply showCell_normal.
  - intros x y. apply hideTile_normal; [done|by apply holders_exact_sound].
  - intros key features Hd. by apply tileLoaded_drawn.
  - by apply clearActive_normal.
  - intros origin bounds. by apply updateView_normal.
Qed.

Lemma throwing_step ok hasLayer s s' :
  (∀ features, ok features → drawn hasLayer features) →
  reachable ok s → Throwing.step hasLayer ok s s' → step ok s s'.
Proof.
  intros Hok Hr Hstep.
  destruct (reachable_normal ok hasLayer s Hr) as (H1 & H2 & H3 & H4 & H5).
  destruct Hstep as [s x y|s x y|s key tile features Ht Hf Hfs|s|s origin bounds].
  - rewrite H1. apply step_show.
  - rewrite H2. apply step_hide.
  - rewrite H3 by (by apply Hok). by apply (step_load ok s key tile).
  - rewrite H4. apply step_clear.
  - rewrite H5. apply step_view.
Qed.

Lemma step_throwing ok hasLayer s s' :
  (∀ features, ok features → drawn hasLayer features) →
  reachable ok s → step ok s s' → Throwing.step hasLayer ok s s'.
Proof.
  intros Hok Hr Hstep.
  destruct (reachable_normal ok hasLayer s Hr) as (H1 & H2 & H3 & H4 & H5).
  destruct Hstep as [s x y|s x y|s key tile features Ht Hf Hfs|s|s origin bounds].
  - change (showCell s (x, y)) with (stateOf (Normal (showCell s (x, y)))).
    rewrite <- H1. apply Throwing.step_show.
  - change (hideTile x y s) with (stateOf (Normal (hideTile x y s))).
    rewrite <- H2. apply Throwing.step_hide.
  - change (tileLoaded key features s) with (stateOf (Normal (tileLoaded key features s))).
    rewrite <- (H3 key features) by (by apply Hok).
    by apply (Throwing.step_load hasLayer ok s key tile).
  - change (clearActive s) with (stateOf (Normal (clearActive s))).
    rewrite <- H4. apply Throwing.step_clear.
  - change (updateView origin bounds s)
      with (stateOf (Normal (updateView origin bounds s))).
    rewrite <- H5. apply Throwing.step_view.
Qed.

(** While Leaflet builds a layer for every feature that arrives, the runs of
    the program are the runs of the model. *)
Lemma throwing_reachable ok hasLayer s :
  (∀ features, ok features → drawn hasLayer features) →
  Throwing.reachable hasLayer ok s ↔ reachable ok s.
Proof.
  intros Hok. split.
  - induction 1 as [meta|s s' _ IH Hstep]; [apply reach_new|].
    apply (reach_step ok s); [done|]. by apply (throwing_step ok hasLayer).
  - induction 1 as [meta|s s' Hr IH Hstep]; [apply Throwing.reach_new|].
    apply (Throwing.reach_step hasLayer ok s); [done|]. by apply step_throwing.
Qed.

End Simulation.

(** ** Loading a tile: the callback *)

Section LoadingClaim.
Import Lod.

Lemma Tile_loadTile_answer key features retryTime (w : Lod.t * Host) :
  Tile_loadTile key (answer features) retryTime w =
  (Fulfilled tt, (tileLoaded key features w.1, w.2)).
Proof. done. Qed.

(** The completion of the load of an active tile appends the key of the tile
    to the holder sequence of each identifier, once for each feature that
    carries it, and adds the tile to the layer group. *)
Lemma tileLoaded_registers key features s tile :
  key ∈ activeTiles s → tiles s !! key = Some tile →
  (∀ fid, holdersOf (tileLoaded key features s) fid =
          holdersOf s fid ++ replicate (occurrences fid features) key) ∧
  layers (tileLoaded key features s) = {[key]} ∪ layers s ∧
  activeTiles (tileLoaded key features s) = activeTiles s.
Proof.
  intros Ha Ht. rewrite tileLoaded_active by done.
  set (s1 := onTile key (Tile.loaded features) s).
  assert (tiles s1 !! key = Some (Tile.loaded features tile)) as Ht1.
  { unfold s1. rewrite onTile_lookup, decide_True by done. by rewrite Ht. }
  assert (addFeatureHolders key s1 = fold_left (addFeatureHolder key) features s1) as Hadd.
  { unfold addFeatureHolders. rewrite Ht1. simpl. by rewrite loaded_collection. }
  pose proof (addFeatureHolders_sameTiles key s1) as (_ & Hact & Hly & _).
  split_and!.
  - intros fid. unfold holdersOf at 1. cbn [featureHolders addLayer set_layers].
    fold (holdersOf (addFeatureHolders key s1) fid).
    rewrite Hadd, fold_addFeatureHolder_holdersOf. done.
  - cbn [layers addLayer set_layers]. by rewrite Hly.
  - cbn [activeTiles addLayer set_layers]. by rewrite Hact.
Qed.

(** C5 (as amended).  In a run in which Leaflet builds a layer for every
    feature of every collection, a cell is shown whose tile is not fulfilled.
    The show step puts the key in the active tiles and touches neither the
    registry nor the layer group.  The success branch of the load, with a
    collection for every feature of which Leaflet builds a layer, does not
    throw and sets no timer, so that the callback runs once; when the key is
    still active it appends the key to the holder sequence of each
    identifier, once for each feature that carries it, and adds the tile to
    the layer group; the tile is fulfilled, and showing the cell again
    registers nothing more.  When the tile was hidden in between, the
    completion leaves the registry and the layer group as they were before
    the show step: the key is in no holder sequence and not in the layer
    group, and the tile is fulfilled.  The same holds whenever the key is not
    active at completion. *)
Theorem load_completion_deferred hasLayer s x y features retryTime :
  Throwing.reachable hasLayer (drawn hasLayer) s →
  tileKey x y ∉ activeTiles s → hasHash (tileKey x y) s = true →
  (∀ tile, tiles s !! tileKey x y = Some tile → Tile.fulfilled tile = false) →
  drawn hasLayer features →
  let key := tileKey x y in
  let load := Throwing.Tile_loadTile hasLayer key (answer features) retryTime in
  let s1 := showCell s (x, y) in
  let s2 := tileLoaded key features s1 in
  let s3 := hideTile x y s1 in
  let s4 := tileLoaded key features s3 in
  (Throwing.Lod.showCell s (x, y) = Normal s1 ∧
   featureHolders s1 = featureHolders s ∧ layers s1 = layers s ∧
   key ∈ activeTiles s1 ∧
   ∃ tile, tiles s1 !! key = Some tile ∧ Tile.fulfilled tile = false) ∧
  (load (s1, idle) = (Fulfilled tt, (s2, idle)) ∧
   (∀ fid, holdersOf s2 fid =
           holdersOf s fid ++ replicate (occurrences fid features) key) ∧
   layers s2 = {[key]} ∪ layers s ∧
   (∃ tile, tiles s2 !! key = Some tile ∧ Tile.fulfilled tile = true ∧
            Tile.featureCollection tile = Some features) ∧
   showCell s2 (x, y) = s2) ∧
  (Throwing.Lod.hideTile x y s1 = Normal s3 ∧ (key ∉ activeTiles s3) ∧
   load (s3, idle) = (Fulfilled tt, (s4, idle)) ∧
   featureHolders s4 = featureHolders s ∧ layers s4 = layers s ∧
   (∀ fid, key ∉ holdersOf s4 fid) ∧ (key ∉ layers s4) ∧ (key ∉ activeTiles s4) ∧
   ∃ tile, tiles s4 !! key = Some tile ∧ Tile.fulfilled tile = true) ∧
  (∀ s0, key ∉ activeTiles s0 →
         load (s0, idle) = (Fulfilled tt, (tileLoaded key features s0, idle)) ∧
         featureHolders (tileLoaded key features s0) = featureHolders s0 ∧
         layers (tileLoaded key features s0) = layers s0 ∧
         activeTiles (tileLoaded key features s0) = activeTiles s0).
Proof.
  intros Hreach Ha Hh Hu Hd key load s1 s2 s3 s4.
  apply (throwing_reachable (drawn hasLayer) hasLayer) in Hreach; [|done].
  assert (reachable (drawn hasLayer) s1) as Hreach1
    by (apply (reach_step _ s); [done|apply step_show]).
  pose proof (reachable_shape _ _ Hreach) as Hsh.
  pose proof (reachable_exact _ _ Hreach) as Hex.
  destruct (showCell_unfulfilled s x y Ha Hh Hu) as (H1 & H2 & H3 & tile & Ht & Hf).
  fold s1 in H1, H2, H3, Ht. fold key in H3, Ht.
  assert (key ∈ activeTiles s1) as Hact.
  { rewrite H3. apply elem_of_app. right. by apply list_elem_of_singleton. }
  assert (∀ w, load w = (Fulfilled tt, (tileLoaded key features w.1, w.2))) as Hload.
  { intros w. unfold load. by rewrite Tile_loadTile_drawn. }
  assert (s3 = set_activeTiles (deactivate key (activeTiles s1)) s1) as Hs3
    by (unfold s3; by rewrite (hideTile_unfulfilled x y s1 tile)).
  assert (key ∉ activeTiles s3) as Ha3
    by (rewrite Hs3; apply not_elem_of_deactivate).
  assert (∀ s0, key ∉ activeTiles s0 →
            featureHolders (tileLoaded key features s0) = featureHolders s0 ∧
            layers (tileLoaded key features s0) = layers s0 ∧
            activeTiles (tileLoaded key features s0) = activeTiles s0) as Hin.
  { intros s0 Hs0. by rewrite tileLoaded_inactive. }
  assert (∀ fid, key ∉ holdersOf s fid) as Hnh.
  { intros fid Hk. apply Hex in Hk as (t0 & (Hk & _) & _). done. }
  assert (key ∉ layers s) as Hnl.
  { intros Hk. destruct Hsh as (_ & _ & _ & Hly). apply Hly in Hk as (t0 & Hk & _). done. }
  destruct (Hin s3 Ha3) as (Hh4 & Hl4 & Ha4). fold s4 in Hh4, Hl4, Ha4.
  assert (featureHolders s3 = featureHolders s) as Hh3 by (by rewrite Hs3).
  assert (layers s3 = layers s) as Hl3 by (by rewrite Hs3).
  destruct (tileLoaded_registers key features s1 tile Hact Ht) as (Hr1 & Hr2 & Hr3).
  fold s2 in Hr1, Hr2, Hr3.
  split_and!.
  - apply showCell_normal. by destruct Hsh.
  - done.
  - done.
  - done.
  - by exists tile.
  - apply Hload.
  - intros fid. rewrite Hr1. unfold holdersOf. by rewrite H1.
  - by rewrite Hr2, H2.
  - destruct (tileLoaded_fulfilled key features s1 tile Ht) as (t' & ? & ? & ?).
    by exists t'.
  - apply showCell_active. by rewrite Hr3.
  - apply hideTile_normal.
    + by destruct (reachable_shape _ _ Hreach1).
    + apply holders_exact_sound. by apply (reachable_exact (drawn hasLayer)).
  - done.
  - apply Hload.
  - by rewrite Hh4.
  - by rewrite Hl4.
  - intros fid. unfold holdersOf. rewrite Hh4, Hh3. apply Hnh.
  - by rewrite Hl4, Hl3.
  - by rewrite Ha4.
  - assert (tiles s3 !! key = Some tile) as Ht3 by (by rewrite Hs3).
    destruct (tileLoaded_fulfilled key features s3 tile Ht3) as (t' & ? & ? & ?).
    by exists t'.
  - intros s0 Hs0. split; [apply Hload|by apply Hin].
Qed.

Lemma load_completion_deferred_witness :
  holdersOf (tileLoaded "0,0" [feature7] (showCell (Lod.new sampleMeta) (0, 0)%Z)) 7
    = ["0,0"] ∧
  "0,0" ∈ layers (tileLoaded "0,0" [feature7] (showCell (Lod.new sampleMeta) (0, 0)%Z)) ∧
  featureHolders
    (tileLoaded "0,0" [feature7]
       (hideTile 0 0 (showCell (Lod.new sampleMeta) (0, 0)%Z))) = ∅.
Proof.
  destruct (load_completion_deferred hasGeometry (Lod.new sampleMeta) 0 0 [feature7] 1)
    as (_ & (_ & H1 & H2 & _) & (_ & _ & _ & H3 & _) & _).
  - apply Throwing.reach_new.
  - vm_compute. apply not_elem_of_nil.
  - vm_compute. reflexivity.
  - intros tile H. vm_compute in H. discriminate H.
  - apply Forall_cons. split; [reflexivity|apply Forall_nil_2].
  - split_and!; [apply (H1 7%Z) | | exact H3].
    change ("0,0" ∈ layers (tileLoaded (tileKey 0 0) [feature7]
                              (showCell (Lod.new sampleMeta) (0, 0)%Z))).
    rewrite H2. apply elem_of_union. left. by apply elem_of_singleton.
Defined.

Lemma sampleFirst_reachable ok : ok [feature7] → reachable ok sampleFirst.
Proof.
  intros Hok. unfold sampleFirst.
  eapply reach_step; [|eapply (step_load ok _ "0,0"); [vm_compute; reflexivity|reflexivity|exact Hok]].
  eapply reach_step; [|apply step_show].
  apply reach_new.
Qed.

(** C5 as it is worded fails: the tile "0,0" is visible and holds the feature
    7; the cell (1, 0) is shown and the collection that arrives for its tile
    holds the feature 7 without geometry, for which Leaflet builds no layer.
    The callback finds the holder "0,0", masks the feature in the new tile and
    throws when it removes the layer that does not exist: the tile is active
    and fulfilled and is not added to the layer group, and the loader has set
    a timer and will run the callback again. *)
Lemma load_completion_deferred_counterexample :
  ¬ (∀ hasLayer s x y features retryTime,
       Throwing.reachable hasLayer (drawn hasLayer) s →
       tileKey x y ∉ activeTiles s → hasHash (tileKey x y) s = true →
       (∀ tile, tiles s !! tileKey x y = Some tile → Tile.fulfilled tile = false) →
       ∃ s', Throwing.Tile_loadTile hasLayer (tileKey x y) (answer features) retryTime
               (showCell s (x, y), idle) = (Fulfilled tt, (s', idle)) ∧
             tileKey x y ∈ layers s').
Proof.
  intros H.
  destruct (H hasGeometry sampleFirst 1%Z 0%Z [feature7bare] 1%Z) as (s' & Hs' & Hl).
  - apply (throwing_reachable (drawn hasGeometry) hasGeometry); [done|].
    apply sampleFirst_reachable.
    apply Forall_cons. split; [reflexivity|apply Forall_nil_2].
  - vm_compute. intros Hin. apply elem_of_cons in Hin as [Hin|Hin]; [discriminate Hin|].
    by apply elem_of_nil in Hin.
  - vm_compute. reflexivity.
  - intros tile Ht. vm_compute in Ht. discriminate Ht.
  - vm_compute in Hs'. discriminate Hs'.
Qed.

End LoadingClaim.

Section EventuallyTile.

(** X17.  Any number of failed attempts at a tile of the store (the fetch is
    rejected, the body cannot be read, the text is not JSON), followed by an
    answer with features for each of which Leaflet builds a layer: the level
    of detail ends as if the first attempt had succeeded, every failure was
    reported with its retry time (1, 2, 4, ... seconds), the delays were the
    base delay doubled each time, and no timer is left. *)
Theorem Tile_loadTile_eventually hasLayer key responses features (lod : Lod.t) :
  is_Some (Lod.tiles lod !! key) →
  Forall failure responses → drawn hasLayer features →
  run (Throwing.Tile_loadTile hasLayer key) (responses ++ [answer features])
      baseRetryTime (lod, idle) =
    (Lod.tileLoaded key features lod,
     {| console := reported (length responses); timers := [] |}) ∧
  retryDelays (Throwing.Tile_loadTile hasLayer key) (responses ++ [answer features])
      baseRetryTime lod =
    backoffDelay <$> seq 0 (length responses).
Proof.
  intros _ Hall Hd.
  apply (run_failures (Throwing.Tile_loadTile hasLayer key) failure (answer features)
           (Lod.tileLoaded key features)); [| |done].
  - intros r rt s h Hr. rewrite Tile_loadTile_failure_same by done.
    by rewrite Tile_loadTile_failure.
  - intros rt s h. by rewrite Tile_loadTile_drawn.
Qed.

Lemma Tile_loadTile_eventually_witness :
  run (Throwing.Tile_loadTile hasGeometry "0,0")
      ([Rejected; Fulfilled (mkResponse Rejected)] ++ [answer [feature7]])
      baseRetryTime (Lod.showCell (Lod.new sampleMeta) (0, 0)%Z, idle) =
  (Lod.tileLoaded "0,0" [feature7] (Lod.showCell (Lod.new sampleMeta) (0, 0)%Z),
   {| console := reported 2; timers := [] |}).
Proof.
  apply (Tile_loadTile_eventually hasGeometry "0,0" [Rejected; Fulfilled (mkResponse Rejected)]).
  - vm_compute. eauto.
  - repeat constructor.
  - apply Forall_cons. split; [reflexivity|apply Forall_nil_2].
Defined.

End EventuallyTile.

(** ** The deduplication invariant *)

Section DrawnRuns.
Import Lod.

Lemma drawnUnique_drawn hasLayer features :
  drawnUnique hasLayer features → drawn hasLayer features.
Proof. by intros [_ ?]. Qed.

Lemma drawn_reachable hasLayer s :
  Throwing.reachable hasLayer (drawn hasLayer) s → reachable (drawn hasLayer) s.
Proof. by apply throwing_reachable. Qed.

Lemma drawnUnique_reachable hasLayer s :
  Throwing.reachable hasLayer (drawnUnique hasLayer) s → reachable uniqueFids s.
Proof.
  intros H. apply (throwing_reachable _ hasLayer) in H; [|apply drawnUnique_drawn].
  apply (reachable_weaken (drawnUnique hasLayer)); [|done]. by intros features [? _].
Qed.

Lemma geometry_feature7 : drawnUnique hasGeometry [feature7].
Proof.
  split; [apply NoDup_singleton|].
  apply Forall_cons. split; [reflexivity|apply Forall_nil_2].
Qed.

(** The sample states are reached by the program. *)
Lemma sampleShared_throwing :
  Throwing.reachable hasGeometry (drawnUnique hasGeometry) sampleShared.
Proof.
  apply (throwing_reachable _ hasGeometry); [apply drawnUnique_drawn|].
  apply sampleShared_reachable, geometry_feature7.
Qed.

Lemma sampleDuplicate_throwing :
  Throwing.reachable hasGeometry (drawn hasGeometry) sampleDuplicate.
Proof.
  apply (throwing_reachable _ hasGeometry); [done|].
  unfold sampleDuplicate.
  eapply reach_step; [|eapply (step_load _ _ "1,0"); [vm_compute; reflexivity|reflexivity|]].
  2:{ apply Forall_cons. split; [reflexivity|apply Forall_nil_2]. }
  eapply reach_step; [|apply step_show].
  eapply reach_step; [|eapply (step_load _ _ "0,0"); [vm_compute; reflexivity|reflexivity|]].
  2:{ repeat (apply Forall_cons; split; [reflexivity|]). apply Forall_nil_2. }
  eapply reach_step; [|apply step_show].
  apply reach_new.
Qed.


End DrawnRuns.

Section DedupClaim.
Import Lod.

(** C1 (as amended).  In a run of the program in which no collection that
    arrives holds an identifier twice and Leaflet builds a layer for every
    feature of every collection (so that no callback throws): in every state
    and for every identifier that two different visible tiles hold, the first
    tile of the holder sequence is visible, has the feature unmasked and
    renders it, and every other visible tile that holds the feature has it
    masked and does not render it; the same is true after every further
    operation (show, hide, completion of a load, clearActive, view update). *)
Theorem feature_dedup hasLayer s fid :
  Throwing.reachable hasLayer (drawnUnique hasLayer) s →
  dedup s fid ∧
  ∀ s', Throwing.step hasLayer (drawnUnique hasLayer) s s' → dedup s' fid.
Proof.
  intros Hr. split.
  - by apply dedup_of_inv, reachable_inv, (drawnUnique_reachable hasLayer).
  - intros s' Hstep. apply dedup_of_inv, reachable_inv, (drawnUnique_reachable hasLayer).
    by apply (Throwing.reach_step _ _ s).
Qed.

Lemma feature_dedup_witness :
  ∃ k0, renders sampleShared k0 7 ∧
        ∀ k t, visible sampleShared k t → Tile.contains 7 t → k ≠ k0 →
               Tile.masked 7 t.
Proof.
  destruct (feature_dedup hasGeometry sampleShared 7) as [H _].
  - apply sampleShared_throwing.
  - destruct (H "0,0" (Tile.loaded [feature7] (Tile.new "0,0" "h1"))
                "1,0" (Tile.maskFeature 7 (Tile.loaded [feature7] (Tile.new "1,0" "h2"))))
      as (k0 & t0 & rest & _ & _ & _ & _ & Hr & Ho).
    + discriminate.
    + split_and!; [|vm_compute; reflexivity|reflexivity].
      vm_compute. apply elem_of_cons. by left.
    + exists [feature7]. split; [reflexivity|]. apply elem_of_cons. by left.
    + split_and!; [|vm_compute; reflexivity|reflexivity].
      vm_compute. apply elem_of_cons. right. apply elem_of_cons. by left.
    + exists [feature7]. split; [reflexivity|]. apply elem_of_cons. by left.
    + exists k0. split; [exact Hr|].
      intros k t Hv Hc Hk. exact (proj1 (Ho k t Hv Hc Hk)).
Defined.

Lemma sampleUndrawn_throwing :
  Throwing.reachable hasGeometry uniqueFids sampleUndrawn.
Proof.
  unfold sampleUndrawn. cbv zeta.
  assert (uniqueFids [feature7]) as U7 by apply NoDup_singleton.
  assert (uniqueFids [feature8]) as U8 by apply NoDup_singleton.
  assert (uniqueFids [feature8; feature7bare]) as U87.
  { unfold uniqueFids. vm_compute. apply NoDup_cons. split.
    - intros H. apply elem_of_cons in H as [H|H]; [discriminate H|by apply elem_of_nil in H].
    - apply NoDup_singleton. }
  eapply Throwing.reach_step;
    [|eapply (Throwing.step_load _ _ _ "2,0"); [vm_compute; reflexivity|reflexivity|exact U8]].
  eapply Throwing.reach_step; [|apply Throwing.step_show].
  eapply Throwing.reach_step;
    [|eapply (Throwing.step_load _ _ _ "1,0"); [vm_compute; reflexivity|reflexivity|exact U87]].
  eapply Throwing.reach_step; [|apply Throwing.step_show].
  eapply Throwing.reach_step;
    [|eapply (Throwing.step_load _ _ _ "0,0"); [vm_compute; reflexivity|reflexivity|exact U7]].
  eapply Throwing.reach_step; [|apply Throwing.step_show].
  apply Throwing.reach_new.
Qed.

(** C1 as it is worded fails, in two ways.  When the collection of the tile
    "0,0" holds the identifier 7 twice (Leaflet builds a layer for each
    feature), the second feature finds the key of its own tile in the holder
    sequence and masks the feature in the tile; the tile "1,0" masks it as
    well, so the first holder does not have the feature unmasked.  And when
    no tile holds an identifier twice, but Leaflet builds no layer for the
    feature 7 of the tile "1,0", which the tile "0,0" holds already: the
    callback of the tile "1,0" registers the feature 8 and then throws, so
    the tile is never added to the layer group; the tile "2,0" finds the
    holder "1,0" of the feature 8 and masks it, and no visible tile renders
    the feature 8. *)
Lemma feature_dedup_counterexample :
  ¬ (∀ hasLayer s fid, Throwing.reachable hasLayer (drawn hasLayer) s → dedup s fid) ∧
  ¬ (∀ hasLayer s fid, Throwing.reachable hasLayer uniqueFids s → dedup s fid).
Proof.
  split; intros H.
  - destruct (H hasGeometry sampleDuplicate 7%Z sampleDuplicate_throwing
                "0,0" (Tile.maskFeature 7 (Tile.loaded [feature7; feature7b] (Tile.new "0,0" "h1")))
                "1,0" (Tile.maskFeature 7 (Tile.loaded [feature7] (Tile.new "1,0" "h2"))))
      as (k0 & t0 & rest & Hh & Hv & _ & Hnm & _).
    + discriminate.
    + split_and!; [|vm_compute; reflexivity|reflexivity].
      vm_compute. apply elem_of_cons. by left.
    + exists [feature7; feature7b]. split; [reflexivity|]. apply elem_of_cons. by left.
    + split_and!; [|vm_compute; reflexivity|reflexivity].
      vm_compute. apply elem_of_cons. right. apply elem_of_cons. by left.
    + exists [feature7]. split; [reflexivity|]. apply elem_of_cons. by left.
    + assert (featureHolders sampleDuplicate !! 7%Z = Some ["0,0"; "0,0"; "1,0"]) as Hh'
        by (vm_compute; reflexivity).
      rewrite Hh' in Hh. injection Hh as <- _.
      destruct Hv as (_ & Ht0 & _).
      assert (tiles sampleDuplicate !! "0,0" =
              Some (Tile.maskFeature 7 (Tile.loaded [feature7; feature7b] (Tile.new "0,0" "h1"))))
        as Ht0' by (vm_compute; reflexivity).
      rewrite Ht0' in Ht0. injection Ht0 as <-.
      apply Hnm. exists feature7b. vm_compute. reflexivity.
  - assert (∃ t1 t2, tiles sampleUndrawn !! "1,0" = Some t1 ∧
                     tiles sampleUndrawn !! "2,0" = Some t2 ∧
                     Tile.fulfilled t1 = true ∧ Tile.fulfilled t2 = true ∧
                     Tile.featureCollection t1 = Some [feature8; feature7bare] ∧
                     Tile.featureCollection t2 = Some [feature8])
      as (t1 & t2 & Ht1 & Ht2 & Hf1 & Hf2 & Hc1 & Hc2).
    { eexists _, _. split; [vm_compute; reflexivity|]. split; [vm_compute; reflexivity|].
      split_and!; reflexivity. }
    assert (activeTiles sampleUndrawn = ["0,0"; "1,0"; "2,0"]) as Ha
      by (vm_compute; reflexivity).
    destruct (H hasGeometry sampleUndrawn 8%Z sampleUndrawn_throwing "1,0" t1 "2,0" t2)
      as (k0 & t0 & rest & Hh & _ & _ & _ & [Hl _] & _).
    + discriminate.
    + split_and!; [|done..]. rewrite Ha. apply elem_of_cons. right. apply elem_of_cons. by left.
    + exists [feature8; feature7bare]. split; [done|]. apply elem_of_cons. by left.
    + split_and!; [|done..]. rewrite Ha. do 2 (apply elem_of_cons; right).
      apply elem_of_cons. by left.
    + exists [feature8]. split; [done|]. apply elem_of_cons. by left.
    + assert (featureHolders sampleUndrawn !! 8%Z = Some ["1,0"; "2,0"]) as Hh'
        by (vm_compute; reflexivity).
      rewrite Hh' in Hh. injection Hh as <- _.
      assert (layers sampleUndrawn = {["0,0"; "2,0"]}) as Hly by (vm_compute; reflexivity).
      rewrite Hly in Hl. apply elem_of_union in Hl as [Hl|Hl]; apply elem_of_singleton in Hl;
        discriminate Hl.
Qed.

End DedupClaim.

(** ** Promotion of the next holder *)

Section PromotionClaim.
Import Lod.





End PromotionClaim.

(** ** What holds while Leaflet builds a layer for every feature *)

Section DrawnExtras.
Import Lod.

Lemma sampleShared_drawn :
  Throwing.reachable hasGeometry (drawn hasGeometry) sampleShared.
Proof.
  apply (throwing_reachable _ hasGeometry); [done|].
  apply sampleShared_reachable. apply geometry_feature7.
Qed.

(** X8.  In every state of a run in which Leaflet builds a layer for every
    feature of every collection, whatever the identifiers are (they may
    repeat in a tile), the holder sequence of an identifier names exactly the
    visible tiles that hold a feature with the identifier. *)
Theorem registry_membership hasLayer s fid k :
  Throwing.reachable hasLayer (drawn hasLayer) s →
  k ∈ holdersOf s fid ↔ shows s k fid.
Proof. intros Hr. by apply (reachable_exact (drawn hasLayer)), drawn_reachable. Qed.

Lemma registry_membership_witness :
  "1,0" ∈ holdersOf sampleDuplicate 7 ↔ shows sampleDuplicate "1,0" 7.
Proof.
  apply (registry_membership hasGeometry). apply sampleDuplicate_throwing.
Defined.

(** X24.  In every state of a run in which Leaflet builds a layer for every
    feature of every collection, whatever the identifiers are, no key is
    active twice, every active key has its tile object in the store, under
    its own key, and the layer group holds exactly the tiles that are active
    and fulfilled. *)
Theorem layers_are_visible hasLayer s :
  Throwing.reachable hasLayer (drawn hasLayer) s →
  NoDup (activeTiles s) ∧
  (∀ k, k ∈ activeTiles s → ∃ tile, tiles s !! k = Some tile ∧ Tile.key tile = k) ∧
  ∀ k, k ∈ layers s ↔
       k ∈ activeTiles s ∧ ∃ tile, tiles s !! k = Some tile ∧ Tile.fulfilled tile = true.
Proof.
  intros Hr. apply drawn_reachable in Hr.
  pose proof (reachable_shape _ s Hr) as Hs.
  pose proof Hs as (Hwf & Hnd & Hdom & _).
  split_and!; [done| |].
  - intros k Hk. destruct (Hdom k Hk) as [tile Ht]. exists tile. split; [done|].
    by destruct (Hwf k tile Ht).
  - intros k. apply (shape_layers s k Hs).
Qed.

Lemma layers_are_visible_witness :
  "0,0" ∈ layers sampleDuplicate ↔
  "0,0" ∈ activeTiles sampleDuplicate ∧
  ∃ tile, tiles sampleDuplicate !! "0,0" = Some tile ∧ Tile.fulfilled tile = true.
Proof.
  destruct (layers_are_visible hasGeometry sampleDuplicate) as (_ & _ & H).
  - apply sampleDuplicate_throwing.
  - apply H.
Defined.

(** X29.  In every state of a run in which Leaflet builds a layer for every
    feature of every collection, no operation of the level of detail throws:
    showing a cell, hiding a tile, [clearActive], [updateView] and the
    completion of a load with such a collection complete normally, with the
    state that the functions of the model give, and that state is again a
    state of such a run. *)
Theorem no_exception hasLayer s :
  Throwing.reachable hasLayer (drawn hasLayer) s →
  (∀ cell, Throwing.Lod.showCell s cell = Normal (showCell s cell)) ∧
  (∀ x y, Throwing.Lod.hideTile x y s = Normal (hideTile x y s)) ∧
  (∀ key features, drawn hasLayer features →
     Throwing.Lod.tileLoaded hasLayer key features s = Normal (tileLoaded key features s)) ∧
  Throwing.Lod.clearActive s = Normal (clearActive s) ∧
  (∀ origin bounds,
     Throwing.Lod.updateView origin bounds s = Normal (updateView origin bounds s)) ∧
  (∀ s', Throwing.step hasLayer (drawn hasLayer) s s' ↔ step (drawn hasLayer) s s').
Proof.
  intros Hr. apply drawn_reachable in Hr.
  destruct (reachable_normal _ hasLayer s Hr) as (H1 & H2 & H3 & H4 & H5).
  split_and!; try done.
  intros s'. split; [by apply throwing_step|by apply step_throwing].
Qed.

Lemma no_exception_witness :
  Throwing.Lod.clearActive sampleDuplicate = Normal (clearActive sampleDuplicate) ∧
  Throwing.Lod.hideTile 0 0 sampleDuplicate = Normal (hideTile 0 0 sampleDuplicate).
Proof.
  destruct (no_exception hasGeometry sampleDuplicate) as (_ & H2 & _ & H4 & _).
  - apply sampleDuplicate_throwing.
  - split; [exact H4|apply H2].
Defined.

End DrawnExtras.

Section DrawnTiles.
Import Tile.

(** X14.  In a run in which Leaflet builds a layer for every feature of every
    collection, [unmaskAll] on a tile of the store does not throw, leaves no
    feature masked, changes neither key, hash nor collection, and the tile
    then draws every feature with an identifier that it holds. *)
Theorem unmaskAll_draws_all hasLayer s k tile :
  Throwing.reachable hasLayer (drawn hasLayer) s → Lod.tiles s !! k = Some tile →
  Throwing.Tile.unmaskAll tile = Normal (unmaskAll tile) ∧
  maskedFeatures (unmaskAll tile) = ∅ ∧
  Tile_static (unmaskAll tile) = Tile_static tile ∧
  ∀ fid, contains fid tile → draws fid (unmaskAll tile).
Proof.
  intros Hr Hk. apply drawn_reachable in Hr.
  pose proof (reachable_tile_wf _ s k tile Hr Hk) as Hwf.
  destruct (unmaskAll_wf k tile Hwf) as ([_ Hwf'] & Hst & Hm).
  split_and!; [|done..|].
  - apply unmaskAll_normal. intros fid Hfid.
    apply (wf_layer s k); [by destruct (reachable_shape _ s Hr)|done|].
    by apply (reachable_held _ s Hr k).
  - intros fid (features & Hc & Hin).
    rewrite (static_collection _ _ Hst), Hc in Hwf'.
    destruct Hwf' as (_ & Ha & Hb & Hcc & _).
    destruct (Ha fid Hin) as [l Hl]. exists l. split; [|by apply Hb].
    apply (Hcc fid l Hl). by rewrite Hm.
Qed.

Lemma unmaskAll_draws_all_witness :
  ∃ tile, Lod.tiles sampleShared !! "1,0" = Some tile ∧ masked 7 tile ∧
          draws 7 (unmaskAll tile).
Proof.
  assert (∃ tile, Lod.tiles sampleShared !! "1,0" = Some tile ∧
                  featureCollection tile = Some [feature7] ∧
                  maskedFeatures tile !! 7%Z = Some feature7) as (tile & Ht & Hc & Hm).
  { eexists. split; [reflexivity|]. split; reflexivity. }
  exists tile. split; [exact Ht|]. split; [unfold masked; rewrite Hm; eauto|].
  destruct (unmaskAll_draws_all hasGeometry sampleShared "1,0" tile) as (_ & _ & _ & Hd).
  - apply sampleShared_drawn.
  - exact Ht.
  - apply Hd. exists [feature7]. split; [exact Hc|]. apply elem_of_cons. by left.
Defined.

(** X15.  In a run in which no collection holds an identifier twice and
    Leaflet builds a layer for every feature of every collection (so that no
    load is repeated), masking a feature that a tile of the store holds does
    not throw and hides that feature and no other: afterwards the feature is
    masked and not drawn, and every other identifier is masked and drawn
    exactly as before. *)
Theorem maskFeature_hides hasLayer s k tile fid :
  Throwing.reachable hasLayer (drawnUnique hasLayer) s →
  Lod.tiles s !! k = Some tile → contains fid tile →
  Throwing.Tile.maskFeature fid tile = Normal (maskFeature fid tile) ∧
  masked fid (maskFeature fid tile) ∧ ¬ draws fid (maskFeature fid tile) ∧
  ∀ fid', fid' ≠ fid →
    (masked fid' (maskFeature fid tile) ↔ masked fid' tile) ∧
    (draws fid' (maskFeature fid tile) ↔ draws fid' tile).
Proof.
  intros Hr Hk Hcont. apply drawnUnique_reachable in Hr.
  pose proof Hcont as (features & Hc & Hin).
  pose proof (reachable_tile_wf _ s k tile Hr Hk) as Hwf.
  pose proof (maskFeature_wf k fid tile features Hwf Hc Hin) as [_ Hwf'].
  pose proof (maskFeature_static fid tile) as Hst.
  rewrite (static_collection _ _ Hst), Hc in Hwf'.
  destruct Hwf' as (_ & _ & _ & Hcc' & Hd').
  destruct Hwf as [_ Hwf]. rewrite Hc in Hwf. destruct Hwf as (_ & Ha & Hb & _ & _).
  destruct (Ha fid Hin) as [l0 Hl0].
  destruct (maskFeature_fields fid tile features Hc) as (Hfl & Hly & Hmo & Hlf).
  rewrite Hl0 in Hly.
  assert (uniqueFids features) as Hu.
  { destruct (reachable_inv s Hr) as [_ [Hut _]]. by apply (Hut k tile). }
  pose proof (maskFeature_masked_iff fid) as Hm.
  split_and!.
  - apply maskFeature_normal. intros _ _. by rewrite Hl0.
  - apply (Hm fid tile features); [done..|by left].
  - intros (l & Hl & Hlo).
    pose proof (Hd' Hu fid l Hl Hlo) as Hrec.
    apply (Hcc' fid l Hrec) in Hl.
    assert (masked fid (maskFeature fid tile)) as [? Hs]
      by (apply (Hm fid tile features); [done..|by left]).
    congruence.
  - intros fid' Hne. split.
    + rewrite (Hm fid' tile features) by done. split; [|by right].
      intros [?|?]; done.
    + unfold draws. split.
      * intros (l & Hl & Hlo). exists l. rewrite Hly in Hl. rewrite Hlf in Hlo.
        apply elem_of_difference in Hl as [Hl _]. done.
      * intros (l & Hl & Hlo). exists l. rewrite Hly, Hlf. split; [|done].
        apply elem_of_difference. split; [done|]. rewrite elem_of_singleton.
        intros ->. apply Hb in Hl0. congruence.
Qed.

Lemma maskFeature_hides_witness :
  ∃ tile, Lod.tiles sampleShared !! "0,0" = Some tile ∧ draws 7 tile ∧
          ¬ draws 7 (maskFeature 7 tile).
Proof.
  assert (∃ tile, Lod.tiles sampleShared !! "0,0" = Some tile ∧
                  featureCollection tile = Some [feature7] ∧
                  0%nat ∈ layers tile) as (tile & Ht & Hc & Hl).
  { eexists. split; [reflexivity|]. split; [reflexivity|]. vm_compute. reflexivity. }
  exists tile. split; [exact Ht|]. split.
  - exists 0%nat. split; [exact Hl|]. unfold layerFid. rewrite Hc. reflexivity.
  - apply (maskFeature_hides hasGeometry sampleShared "0,0").
    + apply sampleShared_throwing.
    + exact Ht.
    + exists [feature7]. split; [exact Hc|]. apply elem_of_cons. by left.
Defined.

End DrawnTiles.

Section DrawnLayer.
Import TiledGeoJSON.

(** X26.  In every reachable state of the layer, in a run in which no
    collection holds an identifier twice and Leaflet builds a layer for every
    feature of every collection, every level of detail has the
    deduplication property for every identifier: of the visible tiles that
    hold a feature, the first holder renders it and all the others have it
    masked. *)
Theorem layer_dedup hasLayer retina this j lod fid :
  layerReachable retina (drawnUnique hasLayer) this →
  lods this !! j = Some lod → dedup lod fid.
Proof.
  intros Hr Hj.
  destruct (layerReachable_inv retina _ this Hr) as (_ & _ & _ & _ & Hlods).
  destruct (Hlods j lod Hj) as (Hrl & _). apply dedup_of_inv, reachable_inv.
  apply (reachable_weaken (drawnUnique hasLayer)); [|done]. by intros features [? _].
Qed.

Lemma layer_dedup_witness :
  ∃ lod, lods sampleMounted !! 0%nat = Some lod ∧ dedup lod 7.
Proof.
  assert (∃ lod, lods sampleMounted !! 0%nat = Some lod) as [lod Hl].
  { eexists. reflexivity. }
  exists lod. split; [exact Hl|].
  apply (layer_dedup hasGeometry false sampleMounted 0 lod 7); [|exact Hl].
  apply sampleMounted_reachable.
Defined.

End DrawnLayer.
